(** * meas_modelfit: the parameter grid (src/grid/Grid.cc)

    A shallow embedding of the Grid construction and lookup code of
    [lsst::meas::multifit::grid] and the properties its specification
    states about it.

    Conventions of the embedding.
    - A C++ [int] is a [Z].  The counters of this file only grow by
      element counts and component sizes; signed overflow is undefined
      behaviour in C++ and lies outside the model.
    - An iterator into an [Array<T>] is its distance from [begin()],
      a [Z]; reading a position that holds no element is the fault
      [OutOfBounds].
    - A [boost::shared_ptr] is the address it holds together with the
      object stored there; a null pointer is [None].  Dereferencing a null
      pointer is the fault [NullDereference].
    - A [throw] is the outcome [Throw]; an execution with undefined
      behaviour is the outcome [Fault].
    - [new] returns the next free address of the allocator, which is
      passed along explicitly as [heap]. *)

From Stdlib Require Import ZArith Lia.
From stdpp Require Import base decidable option list gmap strings.
From Equations Require Import Equations.

Local Open Scope Z_scope.

(** ** Outcomes of a call *)

(** The three messages with which Grid.cc raises [InvalidDefinitionError]. *)
Inductive DefinitionMessage : Type :=
  | FramesMustHaveWcs
      (* "If the definition WCS is set, all frames must have a WCS." *)
  | FramesMayNotHaveWcs
      (* "If the definition WCS is not set, inividual frames may not have a WCS." *)
  | ObjectsMustHaveBasis
      (* "All objects must have a basis if any frames do not have a PSF." *)
  | ValidationMessage (code : Z)
      (* whatever grid::Object::validate() reports *).

Inductive Exception : Type :=
  | InvalidDefinitionError (msg : DefinitionMessage)
  | InvalidParameterException
      (* "Object or Frame with ID %d not found." *).

Inductive UndefinedBehaviour : Type :=
  | NullDereference
  | OutOfBounds
  | UninitializedRead.

Inductive Outcome (A : Type) : Type :=
  | Normal (a : A)
  | Throw (e : Exception)
  | Fault (u : UndefinedBehaviour).
Arguments Normal {A} a.
Arguments Throw {A} e.
Arguments Fault {A} u.

#[global] Instance DefinitionMessage_eq_dec : EqDecision DefinitionMessage.
Proof. solve_decision. Defined.
#[global] Instance Exception_eq_dec : EqDecision Exception.
Proof. solve_decision. Defined.

(** The error names of the specification's taxonomy. *)
Inductive ErrorKind : Type :=
  | InconsistentCoordinateSystem
  | MissingBasisOrPsf
  | NotFound
  | OtherError.

Definition errorKind (e : Exception) : ErrorKind :=
  match e with
  | InvalidDefinitionError FramesMustHaveWcs => InconsistentCoordinateSystem
  | InvalidDefinitionError FramesMayNotHaveWcs => InconsistentCoordinateSystem
  | InvalidDefinitionError ObjectsMustHaveBasis => MissingBasisOrPsf
  | InvalidDefinitionError (ValidationMessage _) => OtherError
  | InvalidParameterException => NotFound
  end.

(** ** Identifiers and lookup by identifier *)

Definition ID : Type := Z.

(** [find] is a template over the element type; all it uses is the public
    member [id]. *)
Class Identified (T : Type) : Type := id_of : T -> ID.

Module Lookup.
Section Find.
Context {T : Type} `{Identified T}.

(** The [while (count > 0)] loop of [find]: [iter1] and [count] are the
    loop variables, the result is [iter1] on exit. *)
Equations? find_loop (array : list T) (id : ID) (iter1 count : Z)
  : Outcome Z by wf (Z.to_nat count) lt :=
  find_loop array id iter1 count with decide (0 < count) => {
    | right _ := Normal iter1
    | left _ :=
        let step := Z.quot count 2 in
        let iter2 := iter1 + step in
        match array !! Z.to_nat iter2 with
        | None => Fault OutOfBounds
        | Some x =>
            if decide (id_of x < id)
            then find_loop array id (iter2 + 1) (count - (step + 1))
            else find_loop array id iter1 step
        end }.
Proof.
  all: assert (0 <= Z.quot count 2 < count)
    by (rewrite Z.quot_div_nonneg by lia; split;
        [apply Z.div_pos; lia | apply Z.div_lt_upper_bound; lia]);
    lia.
Qed.

(** [find(array, id)]: the loop, then the comparison [iter1->id != id]. *)
Definition find (array : list T) (id : ID) : Outcome T :=
  match find_loop array id 0 (Z.of_nat (length array)) with
  | Normal iter1 =>
      match array !! Z.to_nat iter1 with
      | None => Fault OutOfBounds
      | Some x =>
          if decide (id_of x ≠ id) then Throw InvalidParameterException
          else Normal x
      end
  | Throw e => Throw e
  | Fault u => Fault u
  end.

(** The position the final comparison of [find] reads. *)
Definition find_position (array : list T) (id : ID) : Outcome Z :=
  find_loop array id 0 (Z.of_nat (length array)).

(** Ascending order of the identifiers. *)
Definition sorted_by_id (array : list T) : Prop :=
  ∀ (i j : nat) (x y : T),
    (i < j)%nat → array !! i = Some x → array !! j = Some y →
    id_of x <= id_of y.

Definition strictly_sorted_by_id (array : list T) : Prop :=
  ∀ (i j : nat) (x y : T),
    (i < j)%nat → array !! i = Some x → array !! j = Some y →
    id_of x < id_of y.

End Find.
End Lookup.

(** ** External collaborators

    World-coordinate systems, PSFs, bases, footprints and affine transforms
    are used by Grid.cc only through the operations below; the parameter
    scalars are only copied.  [SIZE] is [grid::ParameterComponent<E>::SIZE],
    a constant declared in a header. *)

Inductive ParameterType : Type := POSITION | RADIUS | ELLIPTICITY.

#[global] Instance ParameterType_eq_dec : EqDecision ParameterType.
Proof. solve_decision. Defined.

Class Services : Type := {
  Scalar : Type;
  Wcs : Type;
  Psf : Type;
  LocalPsf : Type;
  Basis : Type;
  Footprint : Type;
  AffineTransform : Type;
  SIZE : ParameterType -> Z;
  clone : Wcs -> Wcs;
  linearizeSkyToPixel : Wcs -> list Scalar -> AffineTransform;
  linearizePixelToSky : Wcs -> list Scalar -> AffineTransform;
  compose : AffineTransform -> AffineTransform -> AffineTransform;
  identity : AffineTransform;
  transform_point : AffineTransform -> list Scalar -> list Scalar;
  getLocalPsf : Psf -> list Scalar -> LocalPsf;
  convolve : Basis -> LocalPsf -> Basis;
  getBasisSize : Basis -> Z;
  getNpix : Footprint -> Z
}.

(** ** Shared pointers *)

Record shared_ptr (A : Type) : Type := SharedPtr {
  address : positive;
  pointee : A
}.
Arguments SharedPtr {A} address pointee.
Arguments address {A} s.
Arguments pointee {A} s.

(** [p] and [q] point to the same instance. *)
Definition same_instance {A B : Type} (p : shared_ptr A) (q : shared_ptr B) : Prop :=
  address p = address q.

(** [p->member] on a possibly null pointer. *)
Definition deref {A : Type} (p : option (shared_ptr A)) : Outcome A :=
  match p with
  | Some s => Normal (pointee s)
  | None => Fault NullDereference
  end.

Definition FilterId : Type := Z.

(** [Array<T>]: a raw buffer in which elements are constructed in place,
    and the cursor [_last]; [_first] is the start of the buffer.  A slot
    holding [None] is raw storage. *)
Record Array (T : Type) : Type := {
  slots : list (option T);
  _last : nat
}.
Arguments slots {T} a.
Arguments _last {T} a.

Section DataModel.
Context `{Services}.

(** *** Definition side *)

Record definition_ParameterComponent : Type := {
  d_value : list Scalar;
  d_active : bool
}.

Definition DPtr : Type := option (shared_ptr definition_ParameterComponent).

(** [detail::FrameBase]: what both Frame classes share. *)
Record FrameBase : Type := {
  frame_id : ID;
  _filterId : FilterId;
  _footprint : Footprint;
  _psf : option Psf;
  frame_wcs : option Wcs
}.

Definition definition_Frame : Type := FrameBase.

(** [detail::ObjectBase]: what both Object classes share. *)
Record ObjectBase : Type := {
  object_id : ID;
  _basis : option Basis
}.

Record definition_Object : Type := {
  d_base : ObjectBase;
  d_position : DPtr;
  d_radius : DPtr;
  d_ellipticity : DPtr
}.

Record multifit_Definition : Type := {
  def_frames : list definition_Frame;
  def_objects : list definition_Object;
  def_wcs : option Wcs
}.

(** *** Grid side *)

Record grid_ParameterComponent : Type := {
  g_value : list Scalar;
  g_active : bool;
  offset : Z
}.

Definition GPtr : Type := option (shared_ptr grid_ParameterComponent).

Record grid_Frame : Type := {
  gf_base : FrameBase;
  _pixelOffset : Z;
  _pixelCount : Z;
  _filterIndex : Z;
  _frameIndex : Z
}.

Record grid_Object : Type := {
  go_base : ObjectBase;
  _coefficientOffset : Z;
  _coefficientCount : Z;
  g_position : GPtr;
  g_radius : GPtr;
  g_ellipticity : GPtr;
  sources_first : nat;
  sources_last : nat
}.

(** A Source refers to its Frame and its Object by C++ reference: here
    by their positions in the frame and object arrays. *)
Record grid_Source : Type := {
  source_frame : nat;
  source_object : nat;
  _transform : AffineTransform;
  _localPsf : option LocalPsf;
  source_basis : option Basis
}.

Record Grid : Type := {
  _filterCount : Z;
  grid_coefficientCount : Z;
  grid_pixelCount : Z;
  _parameterCount : Z;
  _filters : gmap Z Z;
  frames : Array grid_Frame;
  objects : Array grid_Object;
  sources : Array grid_Source;
  positions : list (shared_ptr grid_ParameterComponent);
  radii : list (shared_ptr grid_ParameterComponent);
  ellipticities : list (shared_ptr grid_ParameterComponent);
  _wcs : option Wcs
}.

End DataModel.


(** ** Stateful computations that may throw

    [M Σ A]: a computation on a state [Σ].  A thrown exception keeps the
    state reached at the [throw], which is what a [catch] handler sees. *)

Inductive Res (Σ A : Type) : Type :=
  | Ret (a : A) (σ : Σ)
  | Exc (e : Exception) (σ : Σ)
  | Undef (u : UndefinedBehaviour).
Arguments Ret {Σ A} a σ.
Arguments Exc {Σ A} e σ.
Arguments Undef {Σ A} u.

Definition M (Σ A : Type) : Type := Σ -> Res Σ A.

Definition ret {Σ A : Type} (a : A) : M Σ A := fun σ => Ret a σ.

Definition bind {Σ A B : Type} (m : M Σ A) (k : A -> M Σ B) : M Σ B :=
  fun σ =>
    match m σ with
    | Ret a σ' => k a σ'
    | Exc e σ' => Exc e σ'
    | Undef u => Undef u
    end.

Definition get {Σ : Type} : M Σ Σ := fun σ => Ret σ σ.

Definition modify {Σ : Type} (f : Σ -> Σ) : M Σ unit := fun σ => Ret tt (f σ).

Definition lift {Σ A : Type} (o : Outcome A) : M Σ A :=
  fun σ =>
    match o with
    | Normal a => Ret a σ
    | Throw e => Exc e σ
    | Fault u => Undef u
    end.

Declare Scope cpp_scope.
Delimit Scope cpp_scope with cpp.
Notation "x <- m ;; k" := (bind m (fun x => k))
  (at level 100, m at next level, right associativity) : cpp_scope.
Notation "m ;;; k" := (bind m (fun _ => k))
  (at level 100, right associativity) : cpp_scope.

(** A [for] loop over the positions of [l], in order. *)
Fixpoint for_each {Σ A : Type} (l : list A) (body : A -> M Σ unit) : M Σ unit :=
  match l with
  | [] => ret tt
  | x :: l' => bind (body x) (fun _ => for_each l' body)
  end.

(** ** The arena arrays *)

(** A raw buffer for [n] elements, [_first = _last]. *)
Definition raw_buffer {T : Type} (n : nat) : Array T :=
  {| slots := replicate n None; _last := 0 |}.

(** The placement argument [a._last++]: the slot to build in, and the
    array with its cursor moved on. *)
Definition post_increment {T : Type} (a : Array T) : nat * Array T :=
  (_last a, {| slots := slots a; _last := S (_last a) |}).

(** Storing a constructed element in its slot. *)
Definition construct_at {T : Type} (slot : nat) (x : T) (a : Array T)
  : Outcome (Array T) :=
  if decide (slot < length (slots a))%nat
  then Normal {| slots := <[slot := Some x]> (slots a); _last := _last a |}
  else Fault OutOfBounds.

(** [a[i]] for an iterator [i] in [[begin, end)]. *)
Definition at_ {T : Type} (a : Array T) (i : nat) : Outcome T :=
  match slots a !! i with
  | Some (Some x) => Normal x
  | Some None => Fault UninitializedRead
  | None => Fault OutOfBounds
  end.

(** Overwriting the element at [i] through a reference to it. *)
Definition assign {T : Type} (i : nat) (x : T) (a : Array T) : Array T :=
  {| slots := <[i := Some x]> (slots a); _last := _last a |}.

(** The elements of [[begin, end)], in order. *)
Fixpoint elements_from {T : Type} (a : Array T) (i n : nat) : Outcome (list T) :=
  match n with
  | O => Normal []
  | S n' =>
      match at_ a i with
      | Normal x =>
          match elements_from a (S i) n' with
          | Normal l => Normal (x :: l)
          | Throw e => Throw e
          | Fault u => Fault u
          end
      | Throw e => Throw e
      | Fault u => Fault u
      end
  end.

Definition elements {T : Type} (a : Array T) : Outcome (list T) :=
  elements_from a 0 (_last a).

(** [new (a._last++) T(args)], for an array [a] of the state that is read
    with [view] and written with [update]: the cursor moves, then the
    constructor runs, then the element is in its slot. *)
Definition placement_new {Σ T : Type}
    (view : Σ -> Array T) (update : Array T -> Σ -> Σ)
    (ctor : Outcome T) : M Σ T :=
  (σ <- get ;;
   let '(slot, a) := post_increment (view σ) in
   modify (update a) ;;;
   x <- lift ctor ;;
   σ' <- get ;;
   a' <- lift (construct_at slot x (view σ')) ;;
   modify (update a') ;;;
   ret x)%cpp.

(** ** Grid construction (class [Initializer], [Grid::Grid]) *)

Section GridModel.
Context `{Services}.

(** *** Field updates *)

Definition set_filterCount (v : Z) (g : Grid) : Grid :=
  {| _filterCount := v; grid_coefficientCount := grid_coefficientCount g;
     grid_pixelCount := grid_pixelCount g; _parameterCount := _parameterCount g;
     _filters := _filters g; frames := frames g; objects := objects g;
     sources := sources g; positions := positions g; radii := radii g;
     ellipticities := ellipticities g; _wcs := _wcs g |}.

Definition set_coefficientCount (v : Z) (g : Grid) : Grid :=
  {| _filterCount := _filterCount g; grid_coefficientCount := v;
     grid_pixelCount := grid_pixelCount g; _parameterCount := _parameterCount g;
     _filters := _filters g; frames := frames g; objects := objects g;
     sources := sources g; positions := positions g; radii := radii g;
     ellipticities := ellipticities g; _wcs := _wcs g |}.

Definition set_pixelCount (v : Z) (g : Grid) : Grid :=
  {| _filterCount := _filterCount g; grid_coefficientCount := grid_coefficientCount g;
     grid_pixelCount := v; _parameterCount := _parameterCount g;
     _filters := _filters g; frames := frames g; objects := objects g;
     sources := sources g; positions := positions g; radii := radii g;
     ellipticities := ellipticities g; _wcs := _wcs g |}.

Definition set_parameterCount (v : Z) (g : Grid) : Grid :=
  {| _filterCount := _filterCount g; grid_coefficientCount := grid_coefficientCount g;
     grid_pixelCount := grid_pixelCount g; _parameterCount := v;
     _filters := _filters g; frames := frames g; objects := objects g;
     sources := sources g; positions := positions g; radii := radii g;
     ellipticities := ellipticities g; _wcs := _wcs g |}.

Definition set_filters (v : gmap Z Z) (g : Grid) : Grid :=
  {| _filterCount := _filterCount g; grid_coefficientCount := grid_coefficientCount g;
     grid_pixelCount := grid_pixelCount g; _parameterCount := _parameterCount g;
     _filters := v; frames := frames g; objects := objects g;
     sources := sources g; positions := positions g; radii := radii g;
     ellipticities := ellipticities g; _wcs := _wcs g |}.

Definition set_frames (v : Array grid_Frame) (g : Grid) : Grid :=
  {| _filterCount := _filterCount g; grid_coefficientCount := grid_coefficientCount g;
     grid_pixelCount := grid_pixelCount g; _parameterCount := _parameterCount g;
     _filters := _filters g; frames := v; objects := objects g;
     sources := sources g; positions := positions g; radii := radii g;
     ellipticities := ellipticities g; _wcs := _wcs g |}.

Definition set_objects (v : Array grid_Object) (g : Grid) : Grid :=
  {| _filterCount := _filterCount g; grid_coefficientCount := grid_coefficientCount g;
     grid_pixelCount := grid_pixelCount g; _parameterCount := _parameterCount g;
     _filters := _filters g; frames := frames g; objects := v;
     sources := sources g; positions := positions g; radii := radii g;
     ellipticities := ellipticities g; _wcs := _wcs g |}.

Definition set_sources (v : Array grid_Source) (g : Grid) : Grid :=
  {| _filterCount := _filterCount g; grid_coefficientCount := grid_coefficientCount g;
     grid_pixelCount := grid_pixelCount g; _parameterCount := _parameterCount g;
     _filters := _filters g; frames := frames g; objects := objects g;
     sources := v; positions := positions g; radii := radii g;
     ellipticities := ellipticities g; _wcs := _wcs g |}.

(** The three containers of unique active components, one per kind:
    [output.positions], [output.radii], [output.ellipticities]. *)
Definition container (E : ParameterType) (g : Grid)
  : list (shared_ptr grid_ParameterComponent) :=
  match E with
  | POSITION => positions g
  | RADIUS => radii g
  | ELLIPTICITY => ellipticities g
  end.

Definition set_container (E : ParameterType)
    (v : list (shared_ptr grid_ParameterComponent)) (g : Grid) : Grid :=
  {| _filterCount := _filterCount g; grid_coefficientCount := grid_coefficientCount g;
     grid_pixelCount := grid_pixelCount g; _parameterCount := _parameterCount g;
     _filters := _filters g; frames := frames g; objects := objects g;
     sources := sources g;
     positions := match E with POSITION => v | _ => positions g end;
     radii := match E with RADIUS => v | _ => radii g end;
     ellipticities := match E with ELLIPTICITY => v | _ => ellipticities g end;
     _wcs := _wcs g |}.

(** [container._ptrVec.push_back(p)]. *)
Definition push_back (E : ParameterType)
    (p : shared_ptr grid_ParameterComponent) (g : Grid) : Grid :=
  set_container E (container E g ++ [p]) g.

(** [getComponent<E>()] on an Object of either side, and the assignment
    through the reference it returns. *)
Definition d_getComponent (E : ParameterType) (o : definition_Object) : DPtr :=
  match E with
  | POSITION => d_position o
  | RADIUS => d_radius o
  | ELLIPTICITY => d_ellipticity o
  end.

Definition d_setComponent (E : ParameterType) (p : DPtr) (o : definition_Object)
  : definition_Object :=
  {| d_base := d_base o;
     d_position := match E with POSITION => p | _ => d_position o end;
     d_radius := match E with RADIUS => p | _ => d_radius o end;
     d_ellipticity := match E with ELLIPTICITY => p | _ => d_ellipticity o end |}.

Definition g_getComponent (E : ParameterType) (o : grid_Object) : GPtr :=
  match E with
  | POSITION => g_position o
  | RADIUS => g_radius o
  | ELLIPTICITY => g_ellipticity o
  end.

Definition g_setComponent (E : ParameterType) (p : GPtr) (o : grid_Object)
  : grid_Object :=
  {| go_base := go_base o;
     _coefficientOffset := _coefficientOffset o;
     _coefficientCount := _coefficientCount o;
     g_position := match E with POSITION => p | _ => g_position o end;
     g_radius := match E with RADIUS => p | _ => g_radius o end;
     g_ellipticity := match E with ELLIPTICITY => p | _ => g_ellipticity o end;
     sources_first := sources_first o;
     sources_last := sources_last o |}.

Definition set_sources_first (v : nat) (o : grid_Object) : grid_Object :=
  {| go_base := go_base o;
     _coefficientOffset := _coefficientOffset o;
     _coefficientCount := _coefficientCount o;
     g_position := g_position o; g_radius := g_radius o;
     g_ellipticity := g_ellipticity o;
     sources_first := v; sources_last := sources_last o |}.

Definition set_sources_last (v : nat) (o : grid_Object) : grid_Object :=
  {| go_base := go_base o;
     _coefficientOffset := _coefficientOffset o;
     _coefficientCount := _coefficientCount o;
     g_position := g_position o; g_radius := g_radius o;
     g_ellipticity := g_ellipticity o;
     sources_first := sources_first o; sources_last := v |}.

End GridModel.

Inductive ArenaKind : Type := SourceArena | ObjectArena | FrameArena.

#[global] Instance ArenaKind_eq_dec : EqDecision ArenaKind.
Proof. solve_decision. Defined.

(** How a constructor call ends: with the object, or with the exception
    that leaves it and the destructor calls made by the handler. *)
Inductive Construction (A : Type) : Type :=
  | Constructed (a : A)
  | Propagated (e : Exception) (unwound : list (ArenaKind * nat))
  | Crashed (u : UndefinedBehaviour).
Arguments Constructed {A} a.
Arguments Propagated {A} e unwound.
Arguments Crashed {A} u.

Section Construction.
Context `{Services}.

(** [grid::Object::validate()] is declared in a header and defined in another
    file: it is a parameter of the construction, [None] when the Object
    passes and the exception it throws otherwise. *)
Variable validate : grid_Object -> option Exception.

(** *** Element constructors *)

(** [grid::Frame::Frame]: a deep copy of the base, the given offsets, and
    the pixel count of the footprint. *)
Definition Frame_ctor (def : definition_Frame)
    (pixelOffset filterIndex frameIndex : Z) : Outcome grid_Frame :=
  Normal {| gf_base := def;
            _pixelOffset := pixelOffset;
            _pixelCount := getNpix (_footprint def);
            _filterIndex := filterIndex;
            _frameIndex := frameIndex |}.

(** Modelled from the spec: the constructor of [grid::Object] is not part of
    Grid.cc.  The grid Object copies the base, takes the running coefficient
    total as its coefficient offset, and counts the size of its basis (0
    without a basis) as its coefficients; its components are set later by
    [transferComponents] and its source range by the source loop. *)
Definition Object_ctor (def : definition_Object)
    (coefficientOffset frameCount filterCount : Z) : Outcome grid_Object :=
  Normal {| go_base := d_base def;
            _coefficientOffset := coefficientOffset;
            _coefficientCount :=
              match _basis (d_base def) with
              | Some b => getBasisSize b
              | None => 0
              end;
            g_position := None; g_radius := None; g_ellipticity := None;
            sources_first := 0; sources_last := 0 |}.

(** Modelled from the spec: the constructor
    [grid::ParameterComponent<E>(definition component, offset)] is declared
    in a header.  The grid component mirrors the value and the active flag
    of the Definition-side component and carries the given offset. *)
Definition grid_ParameterComponent_ctor
    (d : definition_ParameterComponent) (offset_ : Z) : grid_ParameterComponent :=
  {| g_value := d_value d; g_active := d_active d; offset := offset_ |}.

(** [grid::Source::Source(frame_, object_, wcs)].  [fi] and [oi] are the
    positions of the Frame and the Object, which the Source keeps as
    references. *)
Definition Source_ctor (fi oi : nat) (frame_ : grid_Frame) (object_ : grid_Object)
    (wcs : option Wcs) : Outcome grid_Source :=
  match
    match wcs with
    | Some w =>
        match frame_wcs (gf_base frame_) with
        | None => Throw (InvalidDefinitionError FramesMustHaveWcs)
        | Some fw =>
            match deref (g_position object_) with
            | Normal p =>
                let point := g_value p in
                Normal (compose (linearizeSkyToPixel fw point)
                                (linearizePixelToSky w point))
            | Throw e => Throw e
            | Fault u => Fault u
            end
        end
    | None =>
        match frame_wcs (gf_base frame_) with
        | Some _ => Throw (InvalidDefinitionError FramesMayNotHaveWcs)
        | None => Normal identity
        end
    end
  with
  | Throw e => Throw e
  | Fault u => Fault u
  | Normal transform =>
      match
        match _psf (gf_base frame_) with
        | Some psf =>
            match deref (g_position object_) with
            | Normal p =>
                Normal (Some (getLocalPsf psf (transform_point transform (g_value p))))
            | Throw e => Throw e
            | Fault u => Fault u
            end
        | None => Normal None
        end
      with
      | Throw e => Throw e
      | Fault u => Fault u
      | Normal localPsf =>
          match
            match _basis (go_base object_) with
            | Some b =>
                match localPsf with
                | Some lp => Normal (Some (convolve b lp))
                | None => Normal (Some b)
                end
            | None =>
                match _psf (gf_base frame_) with
                | None => Throw (InvalidDefinitionError ObjectsMustHaveBasis)
                | Some _ => Normal None
                end
            end
          with
          | Throw e => Throw e
          | Fault u => Fault u
          | Normal basis =>
              Normal {| source_frame := fi; source_object := oi;
                        _transform := transform;
                        _localPsf := localPsf;
                        source_basis := basis |}
          end
      end
  end.

(** *** The loops of [initializeGrid] *)

(** [output._filters.insert(std::make_pair(filterId, output._filterCount))]:
    the index stored for [filterId] afterwards, and whether it was inserted. *)
Definition filters_insert (filterId : FilterId) (g : Grid) : Grid * (Z * bool) :=
  match _filters g !! filterId with
  | Some index => (g, (index, false))
  | None => (set_filters (<[filterId := _filterCount g]> (_filters g)) g,
             (_filterCount g, true))
  end.

(** The range of [int]. *)
Definition INT_MIN : Z := - 2 ^ 31.
Definition INT_MAX : Z := 2 ^ 31 - 1.

(** A number brought into the range of [int], in two's complement. *)
Definition to_int (z : Z) : Z := (z + 2 ^ 31) mod 2 ^ 32 - 2 ^ 31.

(** [a + b] on [int]: the sum, where it lies in the range of [int].  Beyond
    it the signed addition overflows, which C++ leaves undefined; the
    compiled code keeps the sum in two's complement. *)
Definition int_add (a b : Z) : Z := to_int (a + b).

(** The loop over [input.frames].  The pixel count of the Grid is an [int],
    passed to [Frame::Frame] as [int pixelOffset] and advanced by [+=]. *)
Fixpoint construct_frames (i : list definition_Frame) (frameCount : Z)
  : M Grid Z :=
  match i with
  | [] => ret frameCount
  | def :: i' =>
      (g <- get ;;
       let '(g1, (index, inserted)) := filters_insert (_filterId def) g in
       modify (fun _ => if inserted
                        then set_filterCount (_filterCount g1 + 1) g1 else g1) ;;;
       g2 <- get ;;
       newFrame <- placement_new frames set_frames
                     (Frame_ctor def (grid_pixelCount g2) index frameCount) ;;
       modify (fun g => set_pixelCount
                          (int_add (grid_pixelCount g) (_pixelCount newFrame))
                          g) ;;;
       construct_frames i' (frameCount + 1))%cpp
  end.

(** The loop over [input.objects]. *)
Fixpoint construct_objects (i : list definition_Object) (frameCount : Z)
  : M Grid unit :=
  match i with
  | [] => ret tt
  | def :: i' =>
      (g <- get ;;
       newObject <- placement_new objects set_objects
                      (Object_ctor def (grid_coefficientCount g) frameCount
                                   (_filterCount g)) ;;
       modify (fun g => set_coefficientCount
                          (grid_coefficientCount g + _coefficientCount newObject) g) ;;;
       construct_objects i' frameCount)%cpp
  end.

(** *** [transferComponents], Definition to Grid *)

(** Lines 63-73: [unique.insert(item)] and, when the key is new, the
    construction of the grid component.  Returns [r.first->second] with the
    map and the allocator afterwards. *)
Definition register_component (E : ParameterType)
    (dp : shared_ptr definition_ParameterComponent)
    (unique : gmap positive (shared_ptr grid_ParameterComponent))
    (heap : positive)
  : M Grid (shared_ptr grid_ParameterComponent
            * gmap positive (shared_ptr grid_ParameterComponent) * positive) :=
  match unique !! address dp with
  | Some p => ret (p, unique, heap)
  | None =>
      if d_active (pointee dp) then
        (output <- get ;;
         let p := SharedPtr heap
                    (grid_ParameterComponent_ctor (pointee dp) (_parameterCount output)) in
         modify (fun g => set_parameterCount (_parameterCount g + SIZE E) g) ;;;
         modify (push_back E p) ;;;
         ret (p, <[address dp := p]> unique, Pos.succ heap))%cpp
      else
        let p := SharedPtr heap (grid_ParameterComponent_ctor (pointee dp) (-1)) in
        ret (p, <[address dp := p]> unique, Pos.succ heap)
  end.

(** Lines 74-76: the component pointer of the grid Object at [gi] is
    overwritten. *)
Definition assign_component (E : ParameterType) (gi : nat)
    (p : shared_ptr grid_ParameterComponent) : M Grid unit :=
  (output <- get ;;
   o <- lift (at_ (objects output) gi) ;;
   modify (set_objects (assign gi (g_setComponent E (Some p) o) (objects output))))%cpp.

(** The loop of lines 60-77: [di] walks [input.objects] and [gi] walks
    [output.objects], in step, until [gi] reaches [output.objects.end()]. *)
Fixpoint transferComponents_loop (E : ParameterType)
    (di : list definition_Object) (gi : nat)
    (unique : gmap positive (shared_ptr grid_ParameterComponent))
    (heap : positive) : M Grid positive :=
  (output <- get ;;
   if decide (gi = _last (objects output)) then ret heap
   else
     match di with
     | [] => lift (Fault OutOfBounds)
     | d :: di' =>
         match d_getComponent E d with
         | None => transferComponents_loop E di' (S gi) unique heap
         | Some dp =>
             r <- register_component E dp unique heap ;;
             let '(p, unique', heap') := r in
             assign_component E gi p ;;;
             transferComponents_loop E di' (S gi) unique' heap'
         end
     end)%cpp.

Definition transferComponents (E : ParameterType) (input : multifit_Definition)
    (heap : positive) : M Grid positive :=
  transferComponents_loop E (def_objects input) 0 ∅ heap.

(** *** The source loop, lines 132-147 *)

(** The body for the Object at [i]. *)
Definition construct_sources_of (i : nat) : M Grid unit :=
  (output <- get ;;
   o <- lift (at_ (objects output) i) ;;
   lift (match validate o with Some e => Throw e | None => Normal tt end) ;;;
   modify (fun g => set_objects
                      (assign i (set_sources_first (_last (sources g)) o) (objects g)) g) ;;;
   for_each (seq 0 (_last (frames output)))
     (fun j =>
        g <- get ;;
        frame_ <- lift (at_ (frames g) j) ;;
        object_ <- lift (at_ (objects g) i) ;;
        placement_new sources set_sources
          (Source_ctor j i frame_ object_ (_wcs g)) ;;;
        ret tt) ;;;
   g <- get ;;
   o' <- lift (at_ (objects g) i) ;;
   modify (set_objects (assign i (set_sources_last (_last (sources g)) o') (objects g))))%cpp.

Definition construct_sources : M Grid unit :=
  (output <- get ;;
   for_each (seq 0 (_last (objects output))) construct_sources_of)%cpp.

(** *** [initializeGrid] and [destroyGrid] *)

(** The slots of [[_first, _last)] on which the destructor is called. *)
Definition destroyed_slots {T : Type} (a : Array T) : list nat := seq 0 (_last a).

(** The slots in which an element has been constructed. *)
Definition constructed_slots {T : Type} (a : Array T) : list nat :=
  filter (fun i => is_Some (mjoin (slots a !! i))) (seq 0 (length (slots a))).

(** [destroyGrid]: the destructor calls, in order. *)
Definition destroyGrid (g : Grid) : list (ArenaKind * nat) :=
  map (pair SourceArena) (destroyed_slots (sources g))
  ++ map (pair ObjectArena) (destroyed_slots (objects g))
  ++ map (pair FrameArena) (destroyed_slots (frames g)).

(** What the same order gives on the constructed elements. *)
Definition constructed_elements (g : Grid) : list (ArenaKind * nat) :=
  map (pair SourceArena) (constructed_slots (sources g))
  ++ map (pair ObjectArena) (constructed_slots (objects g))
  ++ map (pair FrameArena) (constructed_slots (frames g)).

(** The [try] block of [initializeGrid]. *)
Definition initializeGrid_try (input : multifit_Definition) (heap : positive)
  : M Grid positive :=
  (frameCount <- construct_frames (def_frames input) 0 ;;
   construct_objects (def_objects input) frameCount ;;;
   heap1 <- transferComponents POSITION input heap ;;
   heap2 <- transferComponents RADIUS input heap1 ;;
   heap3 <- transferComponents ELLIPTICITY input heap2 ;;
   construct_sources ;;;
   ret heap3)%cpp.

(** Lines 95-100: the three cursors are set to the starts of the buffers. *)
Definition reset_cursors (output : Grid) : Grid :=
  set_sources {| slots := slots (sources output); _last := 0 |}
    (set_frames {| slots := slots (frames output); _last := 0 |}
       (set_objects {| slots := slots (objects output); _last := 0 |} output)).

Definition initializeGrid (input : multifit_Definition) (heap : positive)
    (output : Grid) : Construction (positive * Grid) :=
  match initializeGrid_try input heap (reset_cursors output) with
  | Ret heap' g => Constructed (heap', g)
  | Exc e g => Propagated e (destroyGrid g)
  | Undef u => Crashed u
  end.

(** [Grid::Grid(definition)]: the member initializers, the copy of the
    WCS, and [initializeGrid]. *)
Definition Grid_members (definition : multifit_Definition) : Grid :=
  {| _filterCount := 0; grid_coefficientCount := 0; grid_pixelCount := 0;
     _parameterCount := 0; _filters := ∅;
     frames := raw_buffer (length (def_frames definition));
     objects := raw_buffer (length (def_objects definition));
     sources := raw_buffer (length (def_frames definition)
                            * length (def_objects definition));
     positions := []; radii := []; ellipticities := [];
     _wcs := match def_wcs definition with
             | Some w => Some (clone w)
             | None => None
             end |}.

Definition Grid_ctor (definition : multifit_Definition) (heap : positive)
  : Construction (positive * Grid) :=
  initializeGrid definition heap (Grid_members definition).

End Construction.

(** ** Grid to Definition ([makeDefinition]) *)

Definition bindO {A B : Type} (o : Outcome A) (k : A -> Outcome B) : Outcome B :=
  match o with
  | Normal a => k a
  | Throw e => Throw e
  | Fault u => Fault u
  end.

Notation "x <~ o ;; k" := (bindO o (fun x => k))
  (at level 100, o at next level, right associativity) : cpp_scope.

(** Modelled from the spec: the containers [Definition::FrameSet] and
    [Definition::ObjectSet] are declared in a header.  They are iterated in
    ascending order of the identifiers, and [insert] puts an element at its
    place in that order unless its identifier is already there. *)
Fixpoint Set_insert {T : Type} `{Identified T} (x : T) (s : list T) : list T :=
  match s with
  | [] => [x]
  | y :: s' =>
      if decide (id_of x < id_of y) then x :: y :: s'
      else if decide (id_of x = id_of y) then y :: s'
      else y :: Set_insert x s'
  end.

Section Reconstruction.
Context `{Services}.

#[global] Instance definition_Frame_Identified : Identified FrameBase := frame_id.
#[global] Instance definition_Object_Identified : Identified definition_Object :=
  fun o => object_id (d_base o).
#[global] Instance grid_Frame_Identified : Identified grid_Frame :=
  fun f => frame_id (gf_base f).
#[global] Instance grid_Object_Identified : Identified grid_Object :=
  fun o => object_id (go_base o).

(** Modelled from the spec: the converting constructors
    [definition::Frame(grid::Frame)] and [definition::Object(grid::Object)]
    are declared in headers.  They copy the base (identifiers, footprint,
    PSF, WCS, basis, all by reference); the components of the new Object
    are set by [transferComponents]. *)
Definition definition_Frame_of (f : grid_Frame) : definition_Frame := gf_base f.

Definition definition_Object_of (o : grid_Object) : definition_Object :=
  {| d_base := go_base o;
     d_position := None; d_radius := None; d_ellipticity := None |}.

(** [definition::ParameterComponent<E>::make(value, active)]. *)
Definition definition_ParameterComponent_make (value : list Scalar) (active : bool)
  : definition_ParameterComponent :=
  {| d_value := value; d_active := active |}.

(** Modelled from the spec: [ParameterComponentTraits<E>::readParameters] is
    declared in a header.  It reads [SIZE] scalars starting at the given
    position of the parameter buffer into the value.  A buffer is the
    memory reached from [paramIter], addressed by distance. *)
Definition readParameters (E : ParameterType) (paramIter : Z -> Scalar)
  : list Scalar :=
  map paramIter (seqZ 0 (SIZE E)).

(** Lines 35-45 of the Grid to Definition [transferComponents]. *)
Definition register_back (E : ParameterType)
    (gp : shared_ptr grid_ParameterComponent)
    (unique : gmap positive (shared_ptr definition_ParameterComponent))
    (heap : positive) (paramIter : option (Z -> Scalar))
  : shared_ptr definition_ParameterComponent
    * gmap positive (shared_ptr definition_ParameterComponent) * positive :=
  match unique !! address gp with
  | Some p => (p, unique, heap)
  | None =>
      let made := definition_ParameterComponent_make
                    (g_value (pointee gp)) (g_active (pointee gp)) in
      let filled :=
        match paramIter with
        | Some iter =>
            if d_active made
            then {| d_value := readParameters E
                                 (fun k => iter (offset (pointee gp) + k));
                    d_active := d_active made |}
            else made
        | None => made
        end in
      let p := SharedPtr heap filled in
      (p, <[address gp := p]> unique, Pos.succ heap)
  end.

(** The loop of lines 32-47: [gi] walks [input.objects], [di] walks
    [output.objects] in step. *)
Fixpoint transferComponents_back_loop (E : ParameterType)
    (gi : list grid_Object) (di : nat)
    (unique : gmap positive (shared_ptr definition_ParameterComponent))
    (heap : positive) (paramIter : option (Z -> Scalar))
    (output_objects : list definition_Object)
  : Outcome (positive * list definition_Object) :=
  match gi with
  | [] => Normal (heap, output_objects)
  | g :: gi' =>
      match g_getComponent E g with
      | None =>
          transferComponents_back_loop E gi' (S di) unique heap paramIter
            output_objects
      | Some gp =>
          let '(p, unique', heap') := register_back E gp unique heap paramIter in
          match output_objects !! di with
          | None => Fault OutOfBounds
          | Some d =>
              transferComponents_back_loop E gi' (S di) unique' heap' paramIter
                (<[di := d_setComponent E (Some p) d]> output_objects)
          end
      end
  end.

Definition transferComponents_back (E : ParameterType)
    (input_objects : list grid_Object) (output_objects : list definition_Object)
    (paramIter : option (Z -> Scalar)) (heap : positive)
  : Outcome (positive * list definition_Object) :=
  transferComponents_back_loop E input_objects 0 ∅ heap paramIter output_objects.

(** [Initializer::makeDefinition(grid, paramIter)]; a null [paramIter] is
    [None]. *)
Definition makeDefinition (grid : Grid) (paramIter : option (Z -> Scalar))
    (heap : positive) : Outcome (positive * multifit_Definition) :=
  (wcs <~ match _wcs grid with
          | Some w => Normal (clone w)
          | None => Fault NullDereference
          end ;;
   grid_frames <~ elements (frames grid) ;;
   grid_objects <~ elements (objects grid) ;;
   let result_frames :=
     fold_left (fun s i => Set_insert (definition_Frame_of i) s) grid_frames [] in
   let result_objects :=
     fold_left (fun s i => Set_insert (definition_Object_of i) s) grid_objects [] in
   r1 <~ transferComponents_back POSITION grid_objects result_objects paramIter heap ;;
   r2 <~ transferComponents_back RADIUS grid_objects r1.2 paramIter r1.1 ;;
   r3 <~ transferComponents_back ELLIPTICITY grid_objects r2.2 paramIter r2.1 ;;
   Normal (r3.1, {| def_frames := result_frames;
                    def_objects := r3.2;
                    def_wcs := Some wcs |}))%cpp.

End Reconstruction.

(** ** A concrete instance, for examples

    Scalars, coordinate systems, PSFs and transforms are integers that name
    them; a basis is the list of the PSFs it was convolved with, over its
    size; positions have two scalars, radii one, ellipticities two. *)

Module Example.

#[export] Instance services : Services := {|
  Scalar := Z;
  Wcs := Z;
  Psf := Z;
  LocalPsf := Z;
  Basis := list Z * Z;
  Footprint := Z;
  AffineTransform := Z;
  SIZE := fun E => match E with POSITION => 2 | RADIUS => 1 | ELLIPTICITY => 2 end;
  clone := fun w => w;
  linearizeSkyToPixel := fun w _ => w;
  linearizePixelToSky := fun w _ => - w;
  compose := Z.add;
  identity := 0;
  transform_point := fun t p => map (Z.add t) p;
  getLocalPsf := fun psf _ => psf;
  convolve := fun b lp => (lp :: b.1, b.2);
  getBasisSize := fun b => b.2;
  getNpix := fun fp => fp
|}.

(** A [validate] that accepts every Object. *)
Definition accept (o : grid_Object) : option Exception := None.

Definition frame (id : ID) (psf wcs : option Z) : definition_Frame :=
  {| frame_id := id; _filterId := 0; _footprint := 4;
     _psf := psf; frame_wcs := wcs |}.

Definition component (addr : positive) (value : list Z) (active : bool)
  : DPtr :=
  Some (SharedPtr addr {| d_value := value; d_active := active |}).

Definition object (id : ID) (basis : option (list Z * Z))
    (position radius ellipticity : DPtr) : definition_Object :=
  {| d_base := {| object_id := id; _basis := basis |};
     d_position := position; d_radius := radius;
     d_ellipticity := ellipticity |}.

(** Two Objects that share one Radius, observed in two Frames; no
    coordinate system anywhere. *)
Definition shared_radius : multifit_Definition :=
  {| def_frames := [frame 1 (Some 7) None; frame 2 None None];
     def_objects :=
       [object 1 (Some ([], 3)) (component 10 [0; 0] true)
               (component 20 [5] true) (component 30 [1; 1] false);
        object 2 (Some ([], 3)) (component 11 [9; 9] true)
               (component 20 [5] true) (component 31 [2; 2] true)];
     def_wcs := None |}.

(** The same with a coordinate system on the Definition and on every
    Frame. *)
Definition shared_radius_wcs : multifit_Definition :=
  {| def_frames := [frame 1 (Some 7) (Some 100); frame 2 None (Some 200)];
     def_objects := def_objects shared_radius;
     def_wcs := Some 50 |}.

(** One Object and one Frame; the Frame has a coordinate system and the
    Definition has none. *)
Definition stray_wcs : multifit_Definition :=
  {| def_frames := [frame 1 (Some 7) (Some 100)];
     def_objects :=
       [object 1 (Some ([], 3)) (component 10 [0; 0] true)
               (component 20 [5] true) (component 30 [1; 1] true)];
     def_wcs := None |}.

(** A grid Frame with the given identifier, for lookups. *)
Definition grid_frame (id : ID) : grid_Frame :=
  {| gf_base := frame id None None; _pixelOffset := 0; _pixelCount := 4;
     _filterIndex := 0; _frameIndex := 0 |}.



(** The Radius that the Objects of [shared_radius] share. *)
Definition radius_20 : shared_ptr definition_ParameterComponent :=
  SharedPtr 20 {| d_value := [5]; d_active := true |}.

(** The empty Definition. *)
Definition empty : multifit_Definition :=
  {| def_frames := []; def_objects := []; def_wcs := None |}.

(** The Grid of a Definition, when its construction succeeds. *)
Definition grid_of (definition : multifit_Definition) : option Grid :=
  match Grid_ctor accept definition 1 with
  | Constructed (_, g) => Some g
  | _ => None
  end.

Definition shared_radius_grid : Grid :=
  Eval vm_compute in default (Grid_members shared_radius) (grid_of shared_radius).

Definition shared_radius_wcs_grid : Grid :=
  Eval vm_compute in
    default (Grid_members shared_radius_wcs) (grid_of shared_radius_wcs).

Definition empty_grid : Grid :=
  Eval vm_compute in default (Grid_members empty) (grid_of empty).

End Example.

(** ** Notions used to state the properties *)

(** The array that holds exactly the elements of [l], constructed in order
    in a buffer for [capacity] elements. *)
Definition filled {T : Type} (l : list T) (capacity : nat) : Array T :=
  {| slots := map Some l ++ replicate (capacity - length l) None;
     _last := length l |}.

(** The state of an array when a constructor has thrown: the cursor is one
    past the slot that was being built. *)
Definition interrupted {T : Type} (l : list T) (capacity : nat) : Array T :=
  {| slots := map Some l ++ replicate (capacity - length l) None;
     _last := S (length l) |}.

Section Notions.
Context `{Services}.

(** The components of [l], each of [SIZE E] parameters, lie one after the
    other from the offset [o] up to the offset [e]. *)
Fixpoint tiles (E : ParameterType) (o : Z)
    (l : list (shared_ptr grid_ParameterComponent)) (e : Z) : Prop :=
  match l with
  | [] => o = e
  | p :: l' => offset (pointee p) = o ∧ tiles E (o + SIZE E) l' e
  end.

(** The addresses of the components of kind [E] that the Objects [l]
    hold. *)
Definition addresses (E : ParameterType) (l : list definition_Object)
  : gset positive :=
  list_to_set (omap (fun d => address <$> d_getComponent E d) l).

(** The components of kind [E] in the order in which a walk over the
    Objects [objs], in array order, sees each instance for the first time;
    [known] are the addresses seen before the walk. *)
Fixpoint first_sights (E : ParameterType) (known : gset positive)
    (objs : list definition_Object)
  : list (shared_ptr definition_ParameterComponent) :=
  match objs with
  | [] => []
  | d :: objs' =>
      match d_getComponent E d with
      | None => first_sights E known objs'
      | Some dp =>
          if decide (address dp ∈ known) then first_sights E known objs'
          else dp :: first_sights E ({[address dp]} ∪ known) objs'
      end
  end.

(** What the walk of one kind has established once the Objects [seen] have
    been visited: [unique] maps the address of every component seen to its
    grid counterpart; the counterparts have fresh, distinct addresses and
    mirror the component first seen at the address; the active ones are
    exactly the components [news] appended to the container [c0], which
    gives [c], laid out from the parameter count [pc0] the walk started with
    up to the parameter count [pc], in the order of their first sights. *)
Definition registry_inv (E : ParameterType) (heap0 : positive) (pc0 : Z)
    (c0 : list (shared_ptr grid_ParameterComponent))
    (seen : list definition_Object)
    (unique : gmap positive (shared_ptr grid_ParameterComponent))
    (heap : positive) (c : list (shared_ptr grid_ParameterComponent))
    (pc : Z) : Prop :=
  ∃ news : list (shared_ptr grid_ParameterComponent),
    c = c0 ++ news
    ∧ tiles E pc0 news pc
    ∧ (heap0 ≤ heap)%positive
    ∧ (∀ a p, unique !! a = Some p →
         (heap0 ≤ address p)%positive ∧ (address p < heap)%positive
         ∧ (g_active (pointee p) = true → p ∈ news)
         ∧ (g_active (pointee p) = false → offset (pointee p) = -1)
         ∧ ∃ d dp, d ∈ seen ∧ d_getComponent E d = Some dp ∧ address dp = a
             ∧ g_value (pointee p) = d_value (pointee dp)
             ∧ g_active (pointee p) = d_active (pointee dp))
    ∧ (∀ p, p ∈ news →
         g_active (pointee p) = true ∧ ∃ a, unique !! a = Some p)
    ∧ (∀ a1 a2 p1 p2, unique !! a1 = Some p1 → unique !! a2 = Some p2 →
         address p1 = address p2 → a1 = a2)
    ∧ (∀ d dp, d ∈ seen → d_getComponent E d = Some dp →
         is_Some (unique !! address dp))
    ∧ NoDup (address <$> news)
    ∧ Forall2 (fun dp p => unique !! address dp = Some p)
        (filter (fun dp => d_active (pointee dp) = true) (first_sights E ∅ seen))
        news.

(** The grid Object [o] is [o0] with its component of kind [E] set to the
    counterpart of the component of [d], if [d] has one. *)
Definition transferred (E : ParameterType)
    (unique : gmap positive (shared_ptr grid_ParameterComponent))
    (d : definition_Object) (o0 o : grid_Object) : Prop :=
  match d_getComponent E d with
  | None => o = o0
  | Some dp => ∃ p, unique !! address dp = Some p
                    ∧ o = g_setComponent E (Some p) o0
  end.

(** The grid Objects [gos] are the Objects [gos0] after the walk has visited
    the Objects [seen]. *)
Definition objects_inv (E : ParameterType)
    (unique : gmap positive (shared_ptr grid_ParameterComponent))
    (seen : list definition_Object) (gos0 gos : list grid_Object) : Prop :=
  length gos = length gos0
  ∧ (∀ (i : nat) d o0, seen !! i = Some d → gos0 !! i = Some o0 →
       ∃ o, gos !! i = Some o ∧ transferred E unique d o0 o)
  ∧ (∀ (i : nat), (length seen <= i)%nat → gos !! i = gos0 !! i).

End Notions.

(** How a loop of [initializeGrid] stops before its end. *)
Inductive Stop : Type :=
  | ValidateThrew (e : Exception)
  | SourceThrew (e : Exception)
  | Faulted (u : UndefinedBehaviour).

Section SourceLoops.
Context `{Services}.
Variable validate : grid_Object -> option Exception.

(** The Sources built for the Object [o] at [i] from the Frames [fs],
    which start at position [j] of the frame array, and how the loop
    stops if a constructor does not return. *)
Fixpoint sources_for (i : nat) (o : grid_Object) (wcs : option Wcs)
    (j : nat) (fs : list grid_Frame) : list grid_Source * option Stop :=
  match fs with
  | [] => ([], None)
  | f :: fs' =>
      match Source_ctor j i f o wcs with
      | Normal s =>
          let '(l, r) := sources_for i o wcs (S j) fs' in (s :: l, r)
      | Throw e => ([], Some (SourceThrew e))
      | Fault u => ([], Some (Faulted u))
      end
  end.

(** The source loop from the Object at [i] on: the Objects [os] with their
    source ranges, the Sources built after the Sources [l], and how the
    loop stops if it does. *)
Fixpoint sources_loop (wcs : option Wcs) (gfs : list grid_Frame) (i : nat)
    (os : list grid_Object) (l : list grid_Source)
  : list grid_Object * list grid_Source * option Stop :=
  match os with
  | [] => ([], l, None)
  | o :: os' =>
      match validate o with
      | Some e => (o :: os', l, Some (ValidateThrew e))
      | None =>
          let o1 := set_sources_first (length l) o in
          match sources_for i o1 wcs 0 gfs with
          | (srcs, None) =>
              let o2 := set_sources_last (length (l ++ srcs)) o1 in
              let '(os2, l2, r) := sources_loop wcs gfs (S i) os' (l ++ srcs) in
              (o2 :: os2, l2, r)
          | (srcs, Some s) => (o1 :: os', l ++ srcs, Some s)
          end
      end
  end.

End SourceLoops.

Section Image.
Context `{Services}.

(** The grid Object [o] is the image of the Object [d]: the same base, and
    for each kind the counterpart, by [unique], of the component of [d]. *)
Definition mirrors
    (unique : ParameterType -> gmap positive (shared_ptr grid_ParameterComponent))
    (d : definition_Object) (o : grid_Object) : Prop :=
  go_base o = d_base d
  ∧ ∀ E, match d_getComponent E d with
         | None => g_getComponent E o = None
         | Some dp => ∃ p, unique E !! address dp = Some p
                           ∧ g_getComponent E o = Some p
         end.

(** The three walks of [transferComponents], in the order Position, Radius,
    Ellipticity, have taken the allocator from [heap] to [heap'] and the
    parameter count from 0 to [pc], and left the containers [c] and the
    grid Objects [gos]. *)
Definition components_registered (input : multifit_Definition)
    (heap heap' : positive)
    (unique : ParameterType -> gmap positive (shared_ptr grid_ParameterComponent))
    (c : ParameterType -> list (shared_ptr grid_ParameterComponent))
    (pc : Z) (gos : list grid_Object) : Prop :=
  ∃ (h1 h2 : positive) (pc1 pc2 : Z),
    registry_inv POSITION heap 0 [] (def_objects input)
      (unique POSITION) h1 (c POSITION) pc1
    ∧ registry_inv RADIUS h1 pc1 [] (def_objects input)
        (unique RADIUS) h2 (c RADIUS) pc2
    ∧ registry_inv ELLIPTICITY h2 pc2 [] (def_objects input)
        (unique ELLIPTICITY) heap' (c ELLIPTICITY) pc
    ∧ length gos = length (def_objects input)
    ∧ ∀ (i : nat) d o, def_objects input !! i = Some d → gos !! i = Some o →
        mirrors unique d o.

End Image.

Section Layout.
Context `{Services}.

(** The unique active components of a Grid, in the order in which
    [initializeGrid] registers them: positions, radii, ellipticities. *)
Definition registered_components (g : Grid)
  : list (ParameterType * shared_ptr grid_ParameterComponent) :=
  map (pair POSITION) (positions g)
  ++ map (pair RADIUS) (radii g)
  ++ map (pair ELLIPTICITY) (ellipticities g).

(** The components of [l], each of the size of its kind, lie one after the
    other from the offset [o] up to the offset [e]. *)
Fixpoint laid_out (o : Z)
    (l : list (ParameterType * shared_ptr grid_ParameterComponent)) (e : Z)
  : Prop :=
  match l with
  | [] => o = e
  | (E, p) :: l' => offset (pointee p) = o ∧ laid_out (o + SIZE E) l' e
  end.

(** The parameter [k] lies in the range [[offset, offset + SIZE)] of the
    active component [p] of kind [E]. *)
Definition covers (g : Grid) (E : ParameterType)
    (p : shared_ptr grid_ParameterComponent) (k : Z) : Prop :=
  p ∈ container E g
  ∧ offset (pointee p) <= k < offset (pointee p) + SIZE E.

End Layout.

Section BackNotions.
Context `{Services}.

(** The value that [makeDefinition] gives to the counterpart of the grid
    component [gp]: read from the parameter buffer at the offset of [gp] if a
    buffer is supplied and the component is active, copied otherwise. *)
Definition value_back (E : ParameterType) (paramIter : option (Z -> Scalar))
    (gp : grid_ParameterComponent) : list Scalar :=
  match paramIter with
  | Some iter =>
      if g_active gp then readParameters E (fun k => iter (offset gp + k))
      else g_value gp
  | None => g_value gp
  end.

(** What the walk of one kind of the Grid to Definition
    [transferComponents] has established once the grid Objects [seen] have
    been visited. *)
Definition registry_back_inv (E : ParameterType)
    (paramIter : option (Z -> Scalar)) (heap0 : positive)
    (seen : list grid_Object)
    (unique : gmap positive (shared_ptr definition_ParameterComponent))
    (heap : positive) : Prop :=
  (heap0 ≤ heap)%positive
  ∧ (∀ a p, unique !! a = Some p →
       (heap0 ≤ address p)%positive ∧ (address p < heap)%positive
       ∧ ∃ o gp, o ∈ seen ∧ g_getComponent E o = Some gp ∧ address gp = a
           ∧ d_active (pointee p) = g_active (pointee gp)
           ∧ d_value (pointee p) = value_back E paramIter (pointee gp))
  ∧ (∀ a1 a2 p1 p2, unique !! a1 = Some p1 → unique !! a2 = Some p2 →
       address p1 = address p2 → a1 = a2)
  ∧ (∀ o gp, o ∈ seen → g_getComponent E o = Some gp →
       is_Some (unique !! address gp)).

(** The Object [d] is [d0] with its component of kind [E] set to the
    counterpart of the component of the grid Object [o], if [o] has one. *)
Definition transferred_back (E : ParameterType)
    (unique : gmap positive (shared_ptr definition_ParameterComponent))
    (o : grid_Object) (d0 d : definition_Object) : Prop :=
  match g_getComponent E o with
  | None => d = d0
  | Some gp => ∃ p, unique !! address gp = Some p
                    ∧ d = d_setComponent E (Some p) d0
  end.

Definition objects_back_inv (E : ParameterType)
    (unique : gmap positive (shared_ptr definition_ParameterComponent))
    (seen : list grid_Object) (ds0 ds : list definition_Object) : Prop :=
  length ds = length ds0
  ∧ (∀ (i : nat) o d0, seen !! i = Some o → ds0 !! i = Some d0 →
       ∃ d, ds !! i = Some d ∧ transferred_back E unique o d0 d)
  ∧ (∀ (i : nat), (length seen <= i)%nat → ds !! i = ds0 !! i).

(** The Object [d] of the reconstructed Definition is the image of the grid
    Object [o]. *)
Definition mirrors_back
    (unique : ParameterType -> gmap positive (shared_ptr definition_ParameterComponent))
    (o : grid_Object) (d : definition_Object) : Prop :=
  d_base d = go_base o
  ∧ ∀ E, match g_getComponent E o with
         | None => d_getComponent E d = None
         | Some gp => ∃ p, unique E !! address gp = Some p
                           ∧ d_getComponent E d = Some p
         end.

End BackNotions.

(** ** Other members of [Grid] *)

Section Members.
Context `{Services}.

(** [Grid::getFilterIndex(filterId)]: the index that [_filters] holds for
    the filter identifier, or [InvalidParameterException] ("Filter with ID
    %d not found.") when it holds none. *)
Definition getFilterIndex (g : Grid) (filterId : FilterId) : Outcome Z :=
  match _filters g !! filterId with
  | None => Throw InvalidParameterException
  | Some index => Normal index
  end.

(** [Grid::~Grid()] is a call of [destroyGrid]. *)
Definition Grid_dtor (g : Grid) : list (ArenaKind * nat) := destroyGrid g.

(** [Grid::makeDefinition()] passes a null [paramIter]. *)
Definition Grid_makeDefinition (g : Grid) (heap : positive)
  : Outcome (positive * multifit_Definition) :=
  makeDefinition g None heap.

(** [grid::ParameterComponent<E>::checkBounds(paramIter)] is declared in a
    header and defined in another file: it is a parameter of
    [Grid::checkBounds]. *)
Variable component_checkBounds :
  ParameterType -> grid_ParameterComponent -> (Z -> Scalar) -> bool.

(** One of the three loops of [Grid::checkBounds]: [false] when the loop
    leaves the function with [return false], [true] when it runs to its
    end. *)
Fixpoint checkBounds_loop (E : ParameterType)
    (i : list (shared_ptr grid_ParameterComponent)) (paramIter : Z -> Scalar)
  : bool :=
  match i with
  | [] => true
  | p :: i' =>
      if negb (component_checkBounds E (pointee p) paramIter) then false
      else checkBounds_loop E i' paramIter
  end.

Definition checkBounds (g : Grid) (paramIter : Z -> Scalar) : bool :=
  if negb (checkBounds_loop POSITION (positions g) paramIter) then false
  else if negb (checkBounds_loop RADIUS (radii g) paramIter) then false
  else if negb (checkBounds_loop ELLIPTICITY (ellipticities g) paramIter)
       then false
       else true.

End Members.

(** ** The cost of a lookup *)

Module LookupCost.
Section Count.
Context {T : Type} `{Identified T}.

(** The loop of [find] once more, with the number [n] of executions of its
    body counted next to the result. *)
Equations? find_loop_counted (array : list T) (id : ID) (iter1 count : Z)
    (n : nat) : Outcome Z * nat by wf (Z.to_nat count) lt :=
  find_loop_counted array id iter1 count n with decide (0 < count) => {
    | right _ := (Normal iter1, n)
    | left _ :=
        let step := Z.quot count 2 in
        let iter2 := iter1 + step in
        match array !! Z.to_nat iter2 with
        | None => (Fault OutOfBounds, S n)
        | Some x =>
            if decide (id_of x < id)
            then find_loop_counted array id (iter2 + 1) (count - (step + 1))
                   (S n)
            else find_loop_counted array id iter1 step (S n)
        end }.
Proof.
  all: assert (0 <= Z.quot count 2 < count)
    by (rewrite Z.quot_div_nonneg by lia; split;
        [apply Z.div_pos; lia | apply Z.div_lt_upper_bound; lia]);
    lia.
Qed.

(** How often the body of the loop runs in a call [find(array, id)]. *)
Definition find_iterations (array : list T) (id : ID) : nat :=
  (find_loop_counted array id 0 (Z.of_nat (length array)) 0).2.

End Count.
End LookupCost.

(** ** The registry of model factories (src/ModelFactory.cc) *)

Module ModelFactory.
Section Registry.

(** [ModelFactory::ConstPtr]; the registry only stores and returns it. *)
Variable ConstPtr : Type.

(** [RegistryMap], the type of the static member [_registry]: a
    [std::map] from names to factories. *)
Local Abbreviation RegistryMap := (gmap string ConstPtr) (only parsing).

(** [ModelFactory::lookupFactory(name)]. *)
Definition lookupFactory (name : string) : M RegistryMap ConstPtr :=
  (_registry <- get ;;
   match _registry !! name with
   | None => lift (Throw InvalidParameterException)
   | Some factory => ret factory
   end)%cpp.

(** [ModelFactory::registerFactory(name, factory)]: [std::map::insert]
    leaves an entry that is there as it is; the result tells whether the
    pair was inserted. *)
Definition registerFactory (name : string) (factory : ConstPtr)
  : M RegistryMap bool :=
  (_registry <- get ;;
   match _registry !! name with
   | Some _ => ret false
   | None => modify (fun r => <[name := factory]> r) ;;; ret true
   end)%cpp.

(** A sequence of registrations, in order, with their results. *)
Fixpoint registerFactories (l : list (string * ConstPtr))
  : M RegistryMap (list bool) :=
  match l with
  | [] => ret []
  | (name, factory) :: l' =>
      (b <- registerFactory name factory ;;
       bs <- registerFactories l' ;;
       ret (b :: bs))%cpp
  end.

End Registry.
End ModelFactory.

(** ** Notions for the layout of Frames and Objects *)

(** The sum of a list of counts. *)
Definition total (l : list Z) : Z := foldr Z.add 0 l.

Section LayoutNotions.
Context `{Services}.

(** The filter identifiers of Frames, in order. *)
Definition filter_ids (fs : list definition_Frame) : list FilterId :=
  _filterId <$> fs.

(** The pixel counts of Frames, in order. *)
Definition pixel_counts (fs : list definition_Frame) : list Z :=
  (fun f => getNpix (_footprint f)) <$> fs.

(** The coefficient counts of grid Objects, in order. *)
Definition coefficient_counts (os : list grid_Object) : list Z :=
  _coefficientCount <$> os.

(** The coefficient range of a grid Object: its offset and its count. *)
Definition coefficient_range (o : grid_Object) : Z * Z :=
  (_coefficientOffset o, _coefficientCount o).

(** What the loops over the Frames and the Objects leave for the later
    steps of [initializeGrid]: the filter registry and its count, the pixel
    total, the frame array, the coefficient total and the coefficient
    ranges of the Objects. *)
Definition layout (g : Grid)
  : Z * gmap Z Z * Z * Array grid_Frame * Z * list (option (Z * Z)) :=
  (_filterCount g, _filters g, grid_pixelCount g, frames g,
   grid_coefficientCount g,
   map (option_map coefficient_range) (slots (objects g))).

(** What the loop over the Frames [fs] has built: the grid Frames [l], in
    order, each with its position as frame index, the pixel count of its
    footprint, the pixel total of the Frames before it, as an [int], as
    pixel offset and the index of its filter; the pixel total; and the
    filter registry,
    which numbers the filter identifiers of [fs] from 0 in the order of
    their first appearance. *)
Definition frames_laid_out (fs : list definition_Frame) (l : list grid_Frame)
    (g : Grid) : Prop :=
  map gf_base l = fs
  ∧ (∀ (j : nat) f, l !! j = Some f →
       _frameIndex f = Z.of_nat j
       ∧ _pixelCount f = getNpix (_footprint (gf_base f))
       ∧ _pixelOffset f = to_int (total (pixel_counts (take j fs)))
       ∧ _filters g !! _filterId (gf_base f) = Some (_filterIndex f)
       ∧ (_filterId (gf_base f) ∉ filter_ids (take j fs) →
          _filterIndex f
          = Z.of_nat (size (list_to_set (filter_ids (take j fs)) : gset Z))))
  ∧ grid_pixelCount g = to_int (total (pixel_counts fs))
  ∧ _filterCount g = Z.of_nat (size (list_to_set (filter_ids fs) : gset Z))
  ∧ dom (_filters g) = list_to_set (filter_ids fs)
  ∧ (∀ fid k, _filters g !! fid = Some k → 0 <= k < _filterCount g)
  ∧ (∀ fid1 fid2 k, _filters g !! fid1 = Some k → _filters g !! fid2 = Some k →
       fid1 = fid2)
  ∧ (∀ k, 0 <= k < _filterCount g → ∃ fid, _filters g !! fid = Some k).

(** The coefficient ranges [l] of Objects follow each other from 0 up to
    [e]: each offset is the sum of the counts before it. *)
Definition coefficients_laid_out (l : list (Z * Z)) (e : Z) : Prop :=
  (∀ (k : nat) r, l !! k = Some r → r.1 = total (snd <$> take k l))
  ∧ e = total (snd <$> l).

(** A Definition in which equal addresses hold equal components, as they
    do in a C++ program, where one address is one object. *)
Definition coherent (input : multifit_Definition) : Prop :=
  ∀ E d1 d2 dp1 dp2,
    d1 ∈ def_objects input → d2 ∈ def_objects input →
    d_getComponent E d1 = Some dp1 → d_getComponent E d2 = Some dp2 →
    address dp1 = address dp2 → pointee dp1 = pointee dp2.

End LayoutNotions.

(** A Hoare triple for the computations [M]: from a state that satisfies
    [P], a run of [m] that returns leaves a result and a state that
    satisfy [Q]. *)
Definition triple {Σ A : Type} (P : Σ -> Prop) (m : M Σ A)
    (Q : A -> Σ -> Prop) : Prop :=
  ∀ σ, P σ →
    match m σ with
    | Ret a σ' => Q a σ'
    | Exc _ _ => True
    | Undef _ => True
    end.

(** ** More examples *)

Module Survey.
Import Example.

Definition frame_in (id : ID) (filter : FilterId) (npix : Z)
  : definition_Frame :=
  {| frame_id := id; _filterId := filter; _footprint := npix;
     _psf := Some 7; frame_wcs := Some 100 |}.

(** Three Frames in two filters and two Objects that share their
    Ellipticity; a coordinate system on the Definition and on every
    Frame. *)
Definition three_frames : multifit_Definition :=
  {| def_frames := [frame_in 1 5 4; frame_in 2 3 2; frame_in 3 5 3];
     def_objects :=
       [object 1 (Some ([], 3)) (component 10 [0; 0] true)
               (component 20 [5] false) (component 30 [1; 1] true);
        object 2 (Some ([], 2)) (component 11 [9; 9] true)
               None (component 30 [1; 1] true)];
     def_wcs := Some 50 |}.

Definition three_frames_grid : Grid :=
  Eval vm_compute in default (Grid_members three_frames) (grid_of three_frames).

(** A [validate] that rejects the Object with identifier 2. *)
Definition reject_2 (o : grid_Object) : option Exception :=
  if decide (object_id (go_base o) = 2)
  then Some (InvalidDefinitionError (ValidationMessage 2)) else None.

(** A parameter buffer that holds [100 + k] at distance [k]. *)
Definition buffer (k : Z) : Z := 100 + k.

(** A bounds check that accepts the values whose first scalar is not
    negative. *)
Definition first_not_negative (E : ParameterType)
    (p : grid_ParameterComponent) (paramIter : Z -> Z) : bool :=
  bool_decide (0 <= paramIter (offset p)).

End Survey.
(** ** The pixel arrays of ProjectedLikelihood (src/unnamed/part_000) *)

Module ProjectedLikelihood.

(** [ndarray::view(start, stop)]: the elements from [start] up to, not
    including, [stop]. *)
Record View : Type := view { view_start : Z; view_stop : Z }.

(** The element [p] belongs to the view. *)
Definition in_view (p : Z) (v : View) : Prop :=
  view_start v <= p < view_stop v.

Section Likelihood.

(** The footprints, bases, matrix builders, ellipses and transforms are
    declared in headers of other packages.  The code passes them on and
    reads two numbers off them: the area of the footprint of an
    [EpochFootprint] and the basis size of a matrix builder. *)
Variable EpochFootprint : Type.
Variable getArea : EpochFootprint -> Z.
Variable Basis : Type.
Variable MatrixBuilder : Type.
Variable getBasisSize : MatrixBuilder -> Z.
Variable Ellipse : Type.
Variable AffineTransform : Type.

(** The constructor of [shapelet::MultiShapeletMatrixBuilder<Pixel>], from a
    basis and, of an epoch, the PSF and the pixel coordinates of the
    footprint. *)
Variable MultiShapeletMatrixBuilder : Basis -> EpochFootprint -> MatrixBuilder.

(** [skyToCalexp * fitToSky] for an epoch. *)
Variable epoch_transform : EpochFootprint -> AffineTransform.

(** [model->getBasisVector()] and [model->makeEllipseVector()]. *)
Variable basisVector : list Basis.
Variable makeEllipseVector : list Ellipse.

(** [Impl::Epoch]. *)
Record Epoch : Type := Build_Epoch {
  nPix : Z;
  matrixBuilders : list MatrixBuilder;
  transform : AffineTransform
}.

(** The arrays [_data] and [weights] are given by their sizes, the argument
    of [ndarray::allocate]. *)
Record Impl : Type := Build_Impl {
  _data : Z;
  weights : Z;
  epochs : list Epoch;
  ellipses : list Ellipse
}.

(** A call of [setupArrays]: the epoch whose image and variance are
    flattened, and the views of [_data] and of [weights] that the call
    fills. *)
Record setupArrays_call : Type := Build_setupArrays_call {
  flattened : EpochFootprint;
  data_view : View;
  weights_view : View
}.

(** A call of [build] in [computeModelMatrix]: on the builder at position
    [ellipse] of the epoch at position [epoch], with the block of
    [modelMatrix] it fills and the transform applied to the ellipse. *)
Record build_call : Type := Build_build_call {
  epoch : nat;
  ellipse : nat;
  builder : MatrixBuilder;
  rows : View;
  columns : View;
  scratch_transform : AffineTransform
}.

(** [componentPixelSum], the function that [std::accumulate] folds over the
    epochs. *)
Definition componentPixelSum (partialNumPixels : Z) (e : EpochFootprint) : Z :=
  partialNumPixels + getArea e.

(** [makeMatrixBuilders]: one builder for each basis. *)
Definition makeMatrixBuilders (e : EpochFootprint) : list MatrixBuilder :=
  map (fun k => MultiShapeletMatrixBuilder k e) basisVector.

(** The loop of the constructor over [epochFootprintList].  The body
    computes [dataEnd] from [dataOffset] and does not assign [dataOffset]. *)
Fixpoint constructor_loop (imPtrIter : list EpochFootprint) (dataOffset : Z)
    (epochs : list Epoch) (calls : list setupArrays_call)
  : list Epoch * list setupArrays_call :=
  match imPtrIter with
  | [] => (epochs, calls)
  | e :: imPtrIter' =>
      let nPix := getArea e in
      let dataEnd := dataOffset + nPix in
      let epochs :=
        epochs ++ [Build_Epoch nPix (makeMatrixBuilders e) (epoch_transform e)] in
      let calls :=
        calls ++ [Build_setupArrays_call e (view dataOffset dataEnd)
                    (view dataOffset dataEnd)] in
      constructor_loop imPtrIter' dataOffset epochs calls
  end.

(** [ProjectedLikelihood::ProjectedLikelihood(..., epochFootprintList,
    ctrl)], with the calls of [setupArrays] it makes, in order. *)
Definition ProjectedLikelihood_ctor (epochFootprintList : list EpochFootprint)
  : Impl * list setupArrays_call :=
  let totPixels := fold_left componentPixelSum epochFootprintList 0 in
  let '(epochs, calls) := constructor_loop epochFootprintList 0 [] [] in
  (Build_Impl totPixels totPixels epochs makeEllipseVector, calls).

(** The inner loop of [computeModelMatrix], over [j] up to
    [ellipses.size()]; [todo] holds the ellipses from [j] on.
    [matrixBuilders[j]] outside the vector is undefined behaviour. *)
Fixpoint builders_loop (i : nat) (e : Epoch) (dataOffset dataEnd : Z)
    (todo : list Ellipse) (j : nat) (amplitudeOffset : Z)
    (calls : list build_call) : Outcome (list build_call) :=
  match todo with
  | [] => Normal calls
  | _ :: todo' =>
      match matrixBuilders e !! j with
      | None => Fault OutOfBounds
      | Some b =>
          let amplitudeEnd := amplitudeOffset + getBasisSize b in
          let calls :=
            calls ++ [Build_build_call i j b (view dataOffset dataEnd)
                        (view amplitudeOffset amplitudeEnd) (transform e)] in
          builders_loop i e dataOffset dataEnd todo' (S j) amplitudeEnd calls
      end
  end.

(** The outer loop of [computeModelMatrix], over the epochs; [i] is the
    position of the first of [todo] in [epochs]. *)
Fixpoint epochs_loop (ellipses : list Ellipse) (todo : list Epoch) (i : nat)
    (dataOffset : Z) (calls : list build_call) : Outcome (list build_call) :=
  match todo with
  | [] => Normal calls
  | e :: todo' =>
      let dataEnd := dataOffset + nPix e in
      match builders_loop i e dataOffset dataEnd ellipses 0 0 calls with
      | Normal calls => epochs_loop ellipses todo' (S i) dataEnd calls
      | other => other
      end
  end.

(** [ProjectedLikelihood::computeModelMatrix(modelMatrix, nonlinear)]: the
    calls of [build] it makes, in order, each with the block of
    [modelMatrix] it is given; the shape of [modelMatrix] is the caller's.
    [writeEllipses] overwrites the ellipses through an iterator and leaves
    their number as it is. *)
Definition computeModelMatrix (l : Impl) : Outcome (list build_call) :=
  epochs_loop (ellipses l) (epochs l) 0 0 [].

End Likelihood.

Arguments Build_Epoch {MatrixBuilder AffineTransform}.
Arguments nPix {MatrixBuilder AffineTransform}.
Arguments matrixBuilders {MatrixBuilder AffineTransform}.
Arguments transform {MatrixBuilder AffineTransform}.
Arguments Build_Impl {MatrixBuilder Ellipse AffineTransform}.
Arguments _data {MatrixBuilder Ellipse AffineTransform}.
Arguments weights {MatrixBuilder Ellipse AffineTransform}.
Arguments epochs {MatrixBuilder Ellipse AffineTransform}.
Arguments ellipses {MatrixBuilder Ellipse AffineTransform}.
Arguments Build_setupArrays_call {EpochFootprint}.
Arguments flattened {EpochFootprint}.
Arguments data_view {EpochFootprint}.
Arguments weights_view {EpochFootprint}.
Arguments Build_build_call {MatrixBuilder AffineTransform}.
Arguments epoch {MatrixBuilder AffineTransform}.
Arguments ellipse {MatrixBuilder AffineTransform}.
Arguments builder {MatrixBuilder AffineTransform}.
Arguments rows {MatrixBuilder AffineTransform}.
Arguments columns {MatrixBuilder AffineTransform}.
Arguments scratch_transform {MatrixBuilder AffineTransform}.
Arguments componentPixelSum {EpochFootprint}.
Arguments makeMatrixBuilders {EpochFootprint Basis MatrixBuilder}.
Arguments constructor_loop {EpochFootprint} getArea
  {Basis MatrixBuilder AffineTransform}.
Arguments ProjectedLikelihood_ctor {EpochFootprint} getArea
  {Basis MatrixBuilder Ellipse AffineTransform}.
Arguments builders_loop {MatrixBuilder} getBasisSize {Ellipse AffineTransform}.
Arguments epochs_loop {MatrixBuilder} getBasisSize {Ellipse AffineTransform}.
Arguments computeModelMatrix {MatrixBuilder} getBasisSize
  {Ellipse AffineTransform}.

(** Epochs given by the area of their footprint, bases given by their size;
    a builder keeps both. *)
Module Sky.

Definition builder_of (k e : Z) : Z * Z := (k, e).

(** Two bases of sizes 3 and 1, two ellipses. *)
Definition area (e : Z) : Z := e.

Definition basis_size (b : Z * Z) : Z := fst b.

(** Two bases of sizes 3 and 1, two ellipses. *)
Definition construct (l : list Z)
  : Impl (Z * Z) unit unit * list (setupArrays_call Z) :=
  ProjectedLikelihood_ctor area builder_of (fun _ => tt) [3; 1] [tt; tt] l.

(** Two epochs, of 4 and of 2 pixels. *)
Definition two_epochs : list Z := [4; 2].

Definition two_epochs_likelihood : Impl (Z * Z) unit unit :=
  Eval vm_compute in fst (construct two_epochs).

Definition two_epochs_calls : list (setupArrays_call Z) :=
  Eval vm_compute in snd (construct two_epochs).

Definition two_epochs_blocks : list (build_call (Z * Z) unit) :=
  Eval vm_compute in
    match computeModelMatrix basis_size two_epochs_likelihood with
    | Normal blocks => blocks
    | _ => []
    end.

End Sky.

End ProjectedLikelihood.

(** * Properties *)

Import Lookup.

(** ** Lookup by identifier *)

Section FindProperties.
Context {T : Type} `{Identified T}.

Lemma quot2_bounds (count : Z) : 0 < count → 0 <= Z.quot count 2 < count.
Proof.
  intros Hc. rewrite Z.quot_div_nonneg by lia. split.
  - apply Z.div_pos; lia.
  - apply Z.div_lt_upper_bound; lia.
Qed.

(** One turn of the loop. *)
Lemma find_loop_unfold (array : list T) (id : ID) (iter1 count : Z) :
  find_loop array id iter1 count =
  if decide (0 < count) then
    match array !! Z.to_nat (iter1 + Z.quot count 2) with
    | None => Fault OutOfBounds
    | Some x =>
        if decide (id_of x < id)
        then find_loop array id (iter1 + Z.quot count 2 + 1)
               (count - (Z.quot count 2 + 1))
        else find_loop array id iter1 (Z.quot count 2)
    end
  else Normal iter1.
Proof.
  rewrite find_loop_equation_1.
  destruct (decide (0 < count)); reflexivity.
Qed.

(** The loop reads inside the array only and stops at the lower bound of
    [id]: elements before it are smaller, elements from it on are not. *)
Lemma find_loop_lower_bound (array : list T) (id : ID) :
  sorted_by_id array →
  ∀ (n : nat) (iter1 count : Z),
  Z.to_nat count = n →
  0 <= iter1 → 0 <= count → iter1 + count <= Z.of_nat (length array) →
  (∀ (i : nat) x, Z.of_nat i < iter1 → array !! i = Some x → id_of x < id) →
  (∀ (i : nat) x, iter1 + count <= Z.of_nat i → array !! i = Some x → id <= id_of x) →
  ∃ lb, find_loop array id iter1 count = Normal lb
        ∧ 0 <= lb <= Z.of_nat (length array)
        ∧ (∀ (i : nat) x, Z.of_nat i < lb → array !! i = Some x → id_of x < id)
        ∧ (∀ (i : nat) x, lb <= Z.of_nat i → array !! i = Some x → id <= id_of x).
Proof.
  intros Hsorted n. induction n as [n IH] using lt_wf_ind.
  intros iter1 count Hn Hi Hc Hle Hlow Hhigh.
  rewrite find_loop_unfold.
  destruct (decide (0 < count)) as [Hpos|Hzero].
  - pose proof (quot2_bounds count Hpos) as Hstep.
    destruct (array !! Z.to_nat (iter1 + count `quot` 2)) as [x|] eqn:Hx.
    2:{ apply lookup_ge_None in Hx. lia. }
    destruct (decide (id_of x < id)) as [Hlt|Hge].
    + apply (IH (Z.to_nat (count - (count `quot` 2 + 1)))); try lia.
      * intros i y Hiy Hy.
        destruct (decide (i = Z.to_nat (iter1 + count `quot` 2))) as [->|Hne].
        -- congruence.
        -- assert (id_of y <= id_of x); [|lia].
           eapply (Hsorted i (Z.to_nat (iter1 + count `quot` 2))); eauto. lia.
      * intros i y Hiy Hy. apply (Hhigh i y); [lia|done].
    + apply (IH (Z.to_nat (count `quot` 2))); try lia; auto.
      intros i y Hiy Hy.
      destruct (decide (i = Z.to_nat (iter1 + count `quot` 2))) as [->|Hne].
      * assert (y = x) by congruence. subst. lia.
      * assert (id_of x <= id_of y); [|lia].
        eapply (Hsorted (Z.to_nat (iter1 + count `quot` 2)) i); eauto. lia.
  - exists iter1. split; [done|]. split; [lia|].
    split; [done|]. intros i x Hix. apply Hhigh. lia.
Qed.

(** The position read by the final comparison is the lower bound. *)
Lemma find_position_lower_bound (array : list T) (id : ID) :
  sorted_by_id array →
  ∃ lb : nat, find_position array id = Normal (Z.of_nat lb)
        ∧ (lb <= length array)%nat
        ∧ (∀ (i : nat) x, (i < lb)%nat → array !! i = Some x → id_of x < id)
        ∧ (∀ (i : nat) x, (lb <= i)%nat → array !! i = Some x → id <= id_of x).
Proof.
  intros Hsorted.
  assert (∀ (i : nat) (x : T), Z.of_nat i < 0 → array !! i = Some x → id_of x < id)
    as Hlow by (intros; lia).
  assert (∀ (i : nat) (x : T), 0 + Z.of_nat (length array) <= Z.of_nat i →
            array !! i = Some x → id <= id_of x) as Hhigh.
  { intros i x Hi Hx. apply lookup_lt_Some in Hx. lia. }
  destruct (find_loop_lower_bound array id Hsorted (length array)
              0 (Z.of_nat (length array)) ltac:(lia) ltac:(lia) ltac:(lia)
              ltac:(lia) Hlow Hhigh) as (lb & Hlb & Hr & Hlo & Hhi).
  exists (Z.to_nat lb). unfold find_position. rewrite Hlb, Z2Nat.id by lia.
  split; [done|]. split; [lia|]. split.
  - intros i x Hi. apply Hlo. lia.
  - intros i x Hi. apply Hhi. lia.
Qed.

(** [find] in terms of the position it reads. *)
Lemma find_by_position (array : list T) (id : ID) (lb : nat) :
  find_position array id = Normal (Z.of_nat lb) →
  find array id =
    match array !! lb with
    | None => Fault OutOfBounds
    | Some x => if decide (id_of x ≠ id) then Throw InvalidParameterException
                else Normal x
    end.
Proof.
  unfold find, find_position. intros ->. rewrite Nat2Z.id. reflexivity.
Qed.

(** An identifier of the array is found, at its first occurrence. *)
Lemma find_present (array : list T) (id : ID) (i : nat) (x : T) :
  sorted_by_id array → array !! i = Some x → id_of x = id →
  ∃ (lb : nat) (y : T), (lb <= i)%nat ∧ array !! lb = Some y ∧ id_of y = id
     ∧ find array id = Normal y.
Proof.
  intros Hsorted Hx Hid.
  destruct (find_position_lower_bound array id Hsorted)
    as (lb & Hpos & Hlen & Hlo & Hhi).
  assert (lb <= i)%nat as Hle.
  { destruct (decide (lb <= i)%nat); [done|].
    specialize (Hlo i x ltac:(lia) Hx). lia. }
  destruct (array !! lb) as [y|] eqn:Hy.
  2:{ apply lookup_ge_None in Hy. apply lookup_lt_Some in Hx. lia. }
  exists lb, y. split; [done|]. split; [done|].
  assert (id_of y = id) as Hyid.
  { pose proof (Hhi lb y ltac:(lia) Hy).
    destruct (decide (lb = i)) as [->|Hne]; [congruence|].
    pose proof (Hsorted lb i y x ltac:(lia) Hy Hx). lia. }
  split; [done|].
  rewrite (find_by_position _ _ _ Hpos), Hy.
  destruct (decide (id_of y ≠ id)); [done|reflexivity].
Qed.

(** With distinct identifiers the element found is the element asked for. *)
Lemma find_present_strict (array : list T) (id : ID) (x : T) :
  strictly_sorted_by_id array → x ∈ array → id_of x = id →
  find array id = Normal x.
Proof.
  intros Hstrict Hin Hid.
  apply list_elem_of_lookup in Hin as [i Hx].
  assert (sorted_by_id array) as Hsorted.
  { intros a b u v Hab Hu Hv. pose proof (Hstrict a b u v Hab Hu Hv). lia. }
  destruct (find_present array id i x Hsorted Hx Hid)
    as (lb & y & Hle & Hy & Hyid & Hfind).
  destruct (decide (lb = i)) as [->|Hne].
  - congruence.
  - pose proof (Hstrict lb i y x ltac:(lia) Hy Hx). lia.
Qed.

(** An absent identifier that is not above every identifier of the array
    is reported. *)
Lemma find_absent_below (array : list T) (id : ID) (i : nat) (x : T) :
  sorted_by_id array → (∀ y, y ∈ array → id_of y ≠ id) →
  array !! i = Some x → id <= id_of x →
  find array id = Throw InvalidParameterException.
Proof.
  intros Hsorted Habsent Hx Hge.
  destruct (find_position_lower_bound array id Hsorted)
    as (lb & Hpos & Hlen & Hlo & Hhi).
  assert (lb <= i)%nat as Hle.
  { destruct (decide (lb <= i)%nat); [done|].
    specialize (Hlo i x ltac:(lia) Hx). lia. }
  destruct (array !! lb) as [y|] eqn:Hy.
  2:{ apply lookup_ge_None in Hy. apply lookup_lt_Some in Hx. lia. }
  rewrite (find_by_position _ _ _ Hpos), Hy.
  destruct (decide (id_of y ≠ id)) as [|Heq]; [done|].
  exfalso. apply (Habsent y); [|by apply dec_stable].
  apply list_elem_of_lookup. eauto.
Qed.

(** An identifier above every identifier of the array makes the final
    comparison read the position one past the last element. *)
Lemma find_beyond (array : list T) (id : ID) :
  sorted_by_id array → (∀ y, y ∈ array → id_of y < id) →
  find_position array id = Normal (Z.of_nat (length array))
  ∧ find array id = Fault OutOfBounds.
Proof.
  intros Hsorted Hall.
  destruct (find_position_lower_bound array id Hsorted)
    as (lb & Hpos & Hlen & Hlo & Hhi).
  assert (lb = length array) as ->.
  { destruct (decide (lb = length array)); [done|].
    destruct (array !! lb) as [y|] eqn:Hy.
    - pose proof (Hhi lb y ltac:(lia) Hy).
      assert (id_of y < id); [|lia]. apply Hall, list_elem_of_lookup. eauto.
    - apply lookup_ge_None in Hy. lia. }
  split; [done|].
  rewrite (find_by_position _ _ _ Hpos).
  rewrite (proj2 (lookup_ge_None array (length array))); [done|lia].
Qed.

(** The final comparison of [find] on a sorted array reads the lower-bound
    position; that position is inside the array exactly when some element
    has an identifier that is not below the queried one.  For the empty
    array the read at [begin()] is out of bounds, and the not-found
    exception is reached only for an array that holds such an element, a
    non-empty one. *)
Theorem find_final_read (array : list T) (id : ID) :
  sorted_by_id array →
  ∃ lb : nat,
    find_position array id = Normal (Z.of_nat lb)
    ∧ (∀ (i : nat) x, (i < lb)%nat → array !! i = Some x → id_of x < id)
    ∧ (∀ (i : nat) x, (lb <= i)%nat → array !! i = Some x → id <= id_of x)
    ∧ (is_Some (array !! lb) ↔ ∃ x, x ∈ array ∧ id <= id_of x)
    ∧ (array = [] → find array id = Fault OutOfBounds)
    ∧ (find array id = Throw InvalidParameterException →
       array ≠ [] ∧ ∃ x, x ∈ array ∧ id <= id_of x).
Proof.
  intros Hsorted.
  destruct (find_position_lower_bound array id Hsorted)
    as (lb & Hpos & Hlen & Hlo & Hhi).
  exists lb. split; [done|]. split; [done|]. split; [done|].
  assert (is_Some (array !! lb) ↔ ∃ x, x ∈ array ∧ id <= id_of x) as Hin.
  { split.
    - intros [y Hy]. exists y. split; [apply list_elem_of_lookup; eauto|].
      apply (Hhi lb y); [lia|done].
    - intros (x & Hx & Hge). apply list_elem_of_lookup in Hx as [i Hx].
      apply lookup_lt_is_Some. apply lookup_lt_Some in Hx as Hi.
      destruct (decide (lb <= i)%nat); [lia|].
      specialize (Hlo i x ltac:(lia) Hx). lia. }
  split; [done|]. split.
  - intros ->. reflexivity.
  - intros Hthrow. rewrite (find_by_position _ _ _ Hpos) in Hthrow.
    destruct (array !! lb) as [y|] eqn:Hy; [|done].
    assert (∃ x, x ∈ array ∧ id <= id_of x) as Hex by (apply Hin; eauto).
    split; [|done]. destruct Hex as (x & Hx & _). intros ->. set_solver.
Qed.

End FindProperties.

Section FindExamples.
Import Example.

Lemma sorted_two (a b : grid_Frame) :
  id_of a <= id_of b → sorted_by_id [a; b].
Proof.
  intros Hab i j x y Hij Hx Hy.
  destruct i as [|[|i]], j as [|[|j]]; simplify_eq/=; lia.
Qed.

Lemma sorted_one (a : grid_Frame) : sorted_by_id [a].
Proof.
  intros i j x y Hij Hx Hy.
  destruct i as [|i], j as [|j]; simplify_eq/=; lia.
Qed.

Lemma find_final_read_witness :
  sorted_by_id [grid_frame 1; grid_frame 3]
  ∧ ∃ lb : nat,
      find_position [grid_frame 1; grid_frame 3] 2 = Normal (Z.of_nat lb)
      ∧ (∀ (i : nat) x, (i < lb)%nat →
           [grid_frame 1; grid_frame 3] !! i = Some x → id_of x < 2)
      ∧ (∀ (i : nat) x, (lb <= i)%nat →
           [grid_frame 1; grid_frame 3] !! i = Some x → 2 <= id_of x)
      ∧ (is_Some ([grid_frame 1; grid_frame 3] !! lb)
         ↔ ∃ x, x ∈ [grid_frame 1; grid_frame 3] ∧ 2 <= id_of x)
      ∧ ([grid_frame 1; grid_frame 3] = [] →
         find [grid_frame 1; grid_frame 3] 2 = Fault OutOfBounds)
      ∧ (find [grid_frame 1; grid_frame 3] 2 = Throw InvalidParameterException →
         [grid_frame 1; grid_frame 3] ≠ []
         ∧ ∃ x, x ∈ [grid_frame 1; grid_frame 3] ∧ 2 <= id_of x).
Proof.
  split.
  - apply sorted_two. vm_compute. discriminate.
  - apply (find_final_read [grid_frame 1; grid_frame 3] 2).
    apply sorted_two. vm_compute. discriminate.
Defined.

(** C10 at its failing input.  The array is sorted and not empty, and
    the loop of [find] ends at [end()]: the final comparison reads the
    position one past the only element, outside the array, where the claim
    has it read an element inside the array.  What the claim says of the
    empty array holds: the read at [begin()] is out of bounds. *)
Theorem find_reads_past_nonempty_array :
  [grid_frame 1] ≠ []
  ∧ sorted_by_id [grid_frame 1]
  ∧ find_position [grid_frame 1] 2 = Normal 1
  ∧ [grid_frame 1] !! 1%nat = None
  ∧ find [grid_frame 1] 2 = Fault OutOfBounds
  ∧ find_position ([] : list grid_Frame) 2 = Normal 0
  ∧ find ([] : list grid_Frame) 2 = Fault OutOfBounds.
Proof.
  split; [discriminate|]. split; [apply sorted_one|].
  split; [reflexivity|]. split; [reflexivity|].
  split; [reflexivity|]. split; reflexivity.
Qed.

(** C6 at its failing input: the array is sorted, no element has the
    identifier 2, and [find] reads past the end of the array where the
    claim has the not-found error.  The same happens on the empty array. *)
Theorem find_absent_identifier_out_of_bounds :
  sorted_by_id [grid_frame 1]
  ∧ (∀ x, x ∈ [grid_frame 1] → id_of x ≠ 2)
  ∧ find [grid_frame 1] 2 = Fault OutOfBounds
  ∧ find ([] : list grid_Frame) 2 = Fault OutOfBounds.
Proof.
  split; [apply sorted_one|]. split.
  - intros x Hx. apply list_elem_of_singleton in Hx as ->. vm_compute. discriminate.
  - split; reflexivity.
Qed.

End FindExamples.

(** ** The arena arrays *)

Section ArrayProperties.
Context {T : Type}.

Lemma raw_buffer_filled (n : nat) : raw_buffer n = filled ([] : list T) n.
Proof. unfold raw_buffer, filled. simpl. by rewrite Nat.sub_0_r. Qed.

Lemma last_filled (l : list T) (capacity : nat) :
  _last (filled l capacity) = length l.
Proof. reflexivity. Qed.

Lemma filled_length (l : list T) (capacity : nat) :
  (length l <= capacity)%nat → length (slots (filled l capacity)) = capacity.
Proof.
  intros Hle. simpl. rewrite length_app, length_map, length_replicate. lia.
Qed.

Lemma filled_slot (l : list T) (capacity i : nat) :
  (length l <= capacity)%nat →
  slots (filled l capacity) !! i =
    if decide (i < length l)%nat then Some <$> l !! i
    else if decide (i < capacity)%nat then Some None else None.
Proof.
  intros Hle. simpl. destruct (decide (i < length l)%nat) as [Hi|Hi].
  - rewrite lookup_app_l by (by rewrite length_map).
    by rewrite list_lookup_fmap.
  - rewrite lookup_app_r by (rewrite length_map; lia). rewrite length_map.
    destruct (decide (i < capacity)%nat).
    + apply lookup_replicate_2. lia.
    + apply lookup_ge_None. rewrite length_replicate. lia.
Qed.

Lemma at_filled (l : list T) (capacity i : nat) (x : T) :
  (length l <= capacity)%nat → l !! i = Some x →
  at_ (filled l capacity) i = Normal x.
Proof.
  intros Hle Hx. unfold at_. rewrite filled_slot by done.
  apply lookup_lt_Some in Hx as Hi.
  destruct (decide (i < length l)%nat); [|lia]. by rewrite Hx.
Qed.

Lemma at_filled_Normal (l : list T) (capacity i : nat) (x : T) :
  (length l <= capacity)%nat →
  at_ (filled l capacity) i = Normal x → l !! i = Some x.
Proof.
  intros Hle. unfold at_. rewrite filled_slot by done.
  destruct (decide (i < length l)%nat) as [Hi|Hi].
  - destruct (l !! i) eqn:E; simpl; [congruence|done].
  - destruct (decide (i < capacity)%nat); done.
Qed.

(** Placement construction in a filled array that has room. *)
Lemma emplace_filled (l : list T) (capacity : nat) (x : T) :
  (length l < capacity)%nat →
  construct_at (length l) x (post_increment (filled l capacity)).2
  = Normal (filled (l ++ [x]) capacity).
Proof.
  intros Hlt. unfold construct_at, post_increment. cbn [snd slots _last].
  rewrite (filled_length l) by lia.
  destruct (decide (length l < capacity)%nat); [|lia].
  f_equal. unfold filled. rewrite length_app. cbn [length slots _last].
  f_equal; [|lia].
  replace (capacity - length l)%nat with (S (capacity - (length l + 1))) by lia.
  cbn [replicate].
  rewrite insert_app_r_alt by (rewrite length_map; lia).
  rewrite length_map, Nat.sub_diag. cbn [insert list_insert].
  rewrite map_app. cbn [map]. by rewrite <- app_assoc.
Qed.

Lemma post_increment_filled (l : list T) (capacity : nat) :
  post_increment (filled l capacity) = (length l, interrupted l capacity).
Proof. reflexivity. Qed.

Lemma construct_at_interrupted (l : list T) (capacity : nat) (x : T) :
  (length l < capacity)%nat →
  construct_at (length l) x (interrupted l capacity)
  = Normal (filled (l ++ [x]) capacity).
Proof. intros Hlt. by rewrite <- emplace_filled. Qed.

Lemma construct_at_full (l : list T) (capacity : nat) (x : T) :
  (capacity <= length l)%nat → (length l <= capacity)%nat →
  construct_at (length l) x (interrupted l capacity) = Fault OutOfBounds.
Proof.
  intros Hge Hle. unfold construct_at.
  change (slots (interrupted l capacity)) with (slots (filled l capacity)).
  rewrite filled_length by lia.
  destruct (decide (length l < capacity)%nat); [lia|done].
Qed.

Lemma assign_filled (l : list T) (capacity i : nat) (x : T) :
  (i < length l)%nat →
  assign i x (filled l capacity) = filled (<[i := x]> l) capacity.
Proof.
  intros Hi. unfold assign, filled. cbn [slots _last].
  rewrite length_insert. f_equal.
  rewrite insert_app_l by (by rewrite length_map).
  by rewrite list_fmap_insert.
Qed.

Lemma elements_from_filled (l : list T) (capacity : nat) :
  (length l <= capacity)%nat →
  ∀ (n i : nat), (i + n = length l)%nat →
  elements_from (filled l capacity) i n = Normal (drop i l).
Proof.
  intros Hle n. induction n as [|n IH]; intros i Hi.
  - simpl. rewrite drop_ge by lia. done.
  - cbn [elements_from].
    destruct (l !! i) as [x|] eqn:Hx.
    2:{ apply lookup_ge_None in Hx. lia. }
    rewrite (at_filled l capacity i x Hle Hx).
    rewrite IH by lia. by rewrite (drop_S l x i Hx).
Qed.

Lemma elements_filled (l : list T) (capacity : nat) :
  (length l <= capacity)%nat → elements (filled l capacity) = Normal l.
Proof.
  intros Hle. unfold elements. cbn [_last].
  by rewrite elements_from_filled.
Qed.

End ArrayProperties.

(** ** Placement construction *)

Section PlacementNew.
Context {Σ T : Type} (view : Σ → Array T) (update : Array T → Σ → Σ).
Hypothesis view_update : ∀ a σ, view (update a σ) = a.
Hypothesis update_update : ∀ a a' σ, update a' (update a σ) = update a' σ.

Lemma placement_new_Normal (l : list T) (capacity : nat) (x : T) (σ : Σ) :
  view σ = filled l capacity → (length l < capacity)%nat →
  placement_new view update (Normal x) σ
  = Ret x (update (filled (l ++ [x]) capacity) σ).
Proof.
  intros Hview Hlt. unfold placement_new, bind, get, modify, lift, ret.
  rewrite Hview, post_increment_filled, view_update.
  rewrite construct_at_interrupted by done.
  by rewrite update_update.
Qed.

(** When the constructor throws, the cursor has already moved. *)
Lemma placement_new_Throw (l : list T) (capacity : nat) (e : Exception) (σ : Σ) :
  view σ = filled l capacity →
  placement_new view update (Throw e) σ
  = Exc e (update (interrupted l capacity) σ).
Proof.
  intros Hview. unfold placement_new, bind, get, modify, lift, ret.
  by rewrite Hview, post_increment_filled.
Qed.

Lemma placement_new_Fault (ctor : Outcome T) (u : UndefinedBehaviour) (σ : Σ) :
  ctor = Fault u → placement_new view update ctor σ = Undef u.
Proof.
  intros ->. unfold placement_new, bind, get, modify, lift, ret.
  by destruct (post_increment (view σ)).
Qed.

End PlacementNew.

(** ** The frame and object loops *)

Section Loops.
Context `{Services}.
Variable validate : grid_Object → option Exception.

Lemma construct_frames_spec (fs : list definition_Frame) :
  ∀ (frameCount : Z) (g : Grid) (l : list grid_Frame) (capacity : nat),
  frames g = filled l capacity →
  (length l + length fs <= capacity)%nat →
  ∃ (g' : Grid) (l' : list grid_Frame),
    construct_frames fs frameCount g
    = Ret (frameCount + Z.of_nat (length fs)) g'
    ∧ frames g' = filled (l ++ l') capacity
    ∧ map gf_base l' = fs
    ∧ objects g' = objects g ∧ sources g' = sources g
    ∧ positions g' = positions g ∧ radii g' = radii g
    ∧ ellipticities g' = ellipticities g
    ∧ _parameterCount g' = _parameterCount g ∧ _wcs g' = _wcs g.
Proof.
  induction fs as [|def fs IH]; intros frameCount g l capacity Hfr Hcap.
  - exists g, []. cbn. rewrite Z.add_0_r, app_nil_r. by repeat split.
  - cbn [construct_frames length] in *.
    unfold bind at 1. unfold get at 1.
    destruct (filters_insert (_filterId def) g) as [g1 [index inserted]] eqn:Hins.
    set (g2 := if inserted then set_filterCount (_filterCount g1 + 1) g1 else g1).
    assert (frames g2 = frames g ∧ objects g2 = objects g ∧ sources g2 = sources g
            ∧ positions g2 = positions g ∧ radii g2 = radii g
            ∧ ellipticities g2 = ellipticities g
            ∧ _parameterCount g2 = _parameterCount g ∧ _wcs g2 = _wcs g)
      as (F1 & F2 & F3 & F4 & F5 & F6 & F7 & F8).
    { unfold filters_insert in Hins.
      destruct (_filters g !! _filterId def); inversion Hins; subst; subst g2;
        by repeat split. }
    unfold bind at 1, modify at 1. unfold bind at 1, get at 1. fold g2.
    unfold bind at 1.
    unfold Frame_ctor.
    rewrite (placement_new_Normal frames set_frames
               ltac:(done) ltac:(done) l capacity)
      by first [by rewrite F1 | lia].
    unfold bind at 1, modify at 1.
    match goal with |- context [construct_frames fs _ ?g3] =>
      destruct (IH (frameCount + 1) g3 (l ++ [
        {| gf_base := def; _pixelOffset := grid_pixelCount g2;
           _pixelCount := getNpix (_footprint def);
           _filterIndex := index; _frameIndex := frameCount |}]) capacity)
        as (g' & l' & Hrun & G1 & G2 & G3 & G4 & G5 & G6 & G7 & G8 & G9)
    end.
    { done. }
    { rewrite length_app. cbn. lia. }
    eexists g', (_ :: l'). rewrite Hrun. split; [f_equal; lia|].
    rewrite G1, <- app_assoc. split; [done|]. split; [cbn; by rewrite G2|].
    cbn in *. by rewrite G3, G4, G5, G6, G7, G8, G9.
Qed.

Lemma construct_objects_spec (ds : list definition_Object) :
  ∀ (frameCount : Z) (g : Grid) (l : list grid_Object) (capacity : nat),
  objects g = filled l capacity →
  (length l + length ds <= capacity)%nat →
  ∃ (g' : Grid) (l' : list grid_Object),
    construct_objects ds frameCount g = Ret tt g'
    ∧ objects g' = filled (l ++ l') capacity
    ∧ length l' = length ds
    ∧ (∀ (i : nat) (d : definition_Object) (o : grid_Object),
         ds !! i = Some d → l' !! i = Some o →
         go_base o = d_base d ∧ g_position o = None ∧ g_radius o = None
         ∧ g_ellipticity o = None)
    ∧ frames g' = frames g ∧ sources g' = sources g
    ∧ positions g' = positions g ∧ radii g' = radii g
    ∧ ellipticities g' = ellipticities g
    ∧ _parameterCount g' = _parameterCount g ∧ _wcs g' = _wcs g.
Proof.
  induction ds as [|def ds IH]; intros frameCount g l capacity Hob Hcap.
  - exists g, []. cbn. rewrite app_nil_r. repeat split; try done.
    all: intros i d o Hd; by rewrite lookup_nil in Hd.
  - cbn [construct_objects length] in *.
    unfold bind at 1. unfold get at 1. unfold bind at 1.
    unfold Object_ctor.
    rewrite (placement_new_Normal objects set_objects
               ltac:(done) ltac:(done) l capacity) by (done || lia).
    unfold bind at 1, modify at 1.
    match goal with |- context [construct_objects ds _ ?g3] =>
      match goal with |- context [filled (l ++ [?o0]) capacity] =>
        destruct (IH frameCount g3 (l ++ [o0]) capacity)
          as (g' & l' & Hrun & G1 & G2 & G3 & G4 & G5 & G6 & G7 & G8 & G9 & G10);
          [done | rewrite length_app; cbn; lia |];
        exists g', (o0 :: l')
      end
    end.
    rewrite Hrun. split; [done|].
    rewrite G1, <- app_assoc. split; [done|]. split; [cbn; by rewrite G2|].
    split.
    { intros [|i] d o Hd Ho; simplify_eq/=; [done|]. by eapply G3. }
    cbn in *. by rewrite G4, G5, G6, G7, G8, G9, G10.
Qed.

End Loops.

(** ** [transferComponents], Definition to Grid *)

Section Transfer.
Context `{Services}.

Lemma tiles_snoc (E : ParameterType) (l : list (shared_ptr grid_ParameterComponent))
    (p : shared_ptr grid_ParameterComponent) :
  ∀ (o e : Z), tiles E o l e → offset (pointee p) = e →
  tiles E o (l ++ [p]) (e + SIZE E).
Proof.
  induction l as [|q l IH]; intros o e Ht Hp; cbn in *.
  - subst. by split.
  - destruct Ht as [Hq Ht]. split; [done|]. by apply IH.
Qed.

Lemma tiles_end (E : ParameterType) (l : list (shared_ptr grid_ParameterComponent)) :
  ∀ (o e : Z), tiles E o l e → e = o + Z.of_nat (length l) * SIZE E.
Proof.
  induction l as [|q l IH]; intros o e Ht; cbn [tiles length] in *.
  - lia.
  - destruct Ht as [Hq Ht]. apply IH in Ht. lia.
Qed.

Lemma tiles_lookup (E : ParameterType) (l : list (shared_ptr grid_ParameterComponent)) :
  ∀ (o e : Z) (k : nat) p, tiles E o l e → l !! k = Some p →
  offset (pointee p) = o + Z.of_nat k * SIZE E.
Proof.
  induction l as [|q l IH]; intros o e k p Ht Hk; [done|].
  cbn [tiles] in Ht. destruct Ht as [Hq Ht].
  destruct k as [|k]; cbn in Hk.
  - inversion Hk; subst. lia.
  - rewrite (IH _ _ _ _ Ht Hk). lia.
Qed.

Lemma elem_of_addresses (E : ParameterType) (l : list definition_Object)
    (a : positive) :
  a ∈ addresses E l
  ↔ ∃ d dp, d ∈ l ∧ d_getComponent E d = Some dp ∧ address dp = a.
Proof.
  unfold addresses. rewrite elem_of_list_to_set, list_elem_of_omap. split.
  - intros (d & Hd & Ha). destruct (d_getComponent E d) as [dp|] eqn:Hdp; [|done].
    cbn in Ha. inversion Ha; subst. eauto.
  - intros (d & dp & Hd & Hdp & <-). exists d. split; [done|]. by rewrite Hdp.
Qed.

Lemma addresses_cons (E : ParameterType) (a : definition_Object)
    (l : list definition_Object) :
  addresses E (a :: l)
  = match d_getComponent E a with
    | Some ap => {[address ap]} ∪ addresses E l
    | None => addresses E l
    end.
Proof. unfold addresses. cbn. by destruct (d_getComponent E a). Qed.

(** One more Object at the end of a walk adds its component to the first
    sights if the address of the component is new. *)
Lemma first_sights_snoc (E : ParameterType) (l : list definition_Object)
    (d : definition_Object) :
  ∀ (known : gset positive),
  first_sights E known (l ++ [d])
  = first_sights E known l
    ++ match d_getComponent E d with
       | None => []
       | Some dp =>
           if decide (address dp ∈ known ∪ addresses E l) then [] else [dp]
       end.
Proof.
  induction l as [|a l IH]; intros known; cbn [app first_sights].
  - destruct (d_getComponent E d) as [dp|]; [|done].
    replace (known ∪ addresses E []) with known
      by (unfold addresses; cbn; by rewrite union_empty_r_L).
    by destruct (decide (address dp ∈ known)).
  - rewrite addresses_cons.
    destruct (d_getComponent E a) as [ap|] eqn:Hap; [|by rewrite IH].
    destruct (decide (address ap ∈ known)) as [Hk|Hk].
    + rewrite IH. f_equal. destruct (d_getComponent E d) as [dp|]; [|done].
      replace (known ∪ ({[address ap]} ∪ addresses E l))
        with (known ∪ addresses E l); [done|].
      apply set_eq. intros x. rewrite !elem_of_union, elem_of_singleton.
      split; [tauto|]. intros [?|[->|?]]; tauto.
    + rewrite IH. cbn [app]. f_equal. f_equal.
      destruct (d_getComponent E d) as [dp|]; [|done].
      by rewrite (union_comm_L {[address ap]} known), (assoc_L (∪)).
Qed.

(** The same, when [unique] holds exactly the addresses seen. *)
Lemma first_sights_step (E : ParameterType) (seen : list definition_Object)
    (d : definition_Object) (dp : shared_ptr definition_ParameterComponent)
    (unique : gmap positive (shared_ptr grid_ParameterComponent)) :
  (∀ a p, unique !! a = Some p →
     ∃ d' dp', d' ∈ seen ∧ d_getComponent E d' = Some dp' ∧ address dp' = a) →
  (∀ d' dp', d' ∈ seen → d_getComponent E d' = Some dp' →
     is_Some (unique !! address dp')) →
  d_getComponent E d = Some dp →
  first_sights E ∅ (seen ++ [d])
  = first_sights E ∅ seen
    ++ match unique !! address dp with Some _ => [] | None => [dp] end.
Proof.
  intros Hu Hseen Hd. rewrite first_sights_snoc, Hd. f_equal.
  destruct (unique !! address dp) as [p|] eqn:Hlook.
  - rewrite decide_True; [done|]. apply elem_of_union. right.
    apply elem_of_addresses. destruct (Hu _ _ Hlook) as (d' & dp' & ? & ? & ?).
    eauto.
  - rewrite decide_False; [done|]. rewrite elem_of_union, elem_of_addresses.
    intros [Hin|(d' & dp' & Hin & Hd' & Ha)]; [by apply not_elem_of_empty in Hin|].
    destruct (Hseen d' dp' Hin Hd') as [p Hp]. rewrite Ha in Hp. congruence.
Qed.

(** A first sight, or a repeat sight, of a component: what [unique],
    the allocator and the Grid are afterwards. *)
Lemma register_component_inv (E : ParameterType) (heap0 : positive) (pc0 : Z)
    (c0 : list (shared_ptr grid_ParameterComponent))
    (seen : list definition_Object) (d : definition_Object)
    (dp : shared_ptr definition_ParameterComponent)
    (unique : gmap positive (shared_ptr grid_ParameterComponent))
    (heap : positive) (g : Grid) :
  registry_inv E heap0 pc0 c0 seen unique heap (container E g) (_parameterCount g) →
  d_getComponent E d = Some dp →
  ∃ p unique' heap' g',
    register_component E dp unique heap g = Ret (p, unique', heap') g'
    ∧ unique' !! address dp = Some p
    ∧ unique ⊆ unique'
    ∧ registry_inv E heap0 pc0 c0 (seen ++ [d]) unique' heap' (container E g') (_parameterCount g')
    ∧ objects g' = objects g ∧ frames g' = frames g ∧ sources g' = sources g
    ∧ _wcs g' = _wcs g
    ∧ (∀ E', E' ≠ E → container E' g' = container E' g).
Proof.
  intros (news & Hc & Ht & Hh & Hu & Hn & Hinj & Hseen & Hnd & Hord) Hd.
  assert (first_sights E ∅ (seen ++ [d])
          = first_sights E ∅ seen
            ++ match unique !! address dp with Some _ => [] | None => [dp] end)
    as Hfirst.
  { apply first_sights_step; [|done|done].
    intros a q Hq. destruct (Hu a q Hq) as (_ & _ & _ & _ & d' & dp' & ? & ? & ? & _).
    eauto. }
  unfold register_component.
  destruct (unique !! address dp) as [p|] eqn:Hlook.
  - (* repeat sight *)
    exists p, unique, heap, g. split; [done|]. split; [done|]. split; [done|].
    split; [|done].
    exists news. repeat split; try done.
    + by apply Hu in H0 as (? & ? & ? & ? & ?).
    + by apply Hu in H0 as (? & ? & ? & ? & ?).
    + by apply Hu in H0 as (? & ? & ? & ? & ?).
    + by apply Hu in H0 as (? & ? & ? & ? & ?).
    + apply Hu in H0 as (_ & _ & _ & _ & d' & dp' & Hin & ?).
      exists d', dp'. split; [|done]. apply elem_of_app. by left.
    + by apply Hn.
    + by apply Hn.
    + intros d' dp' Hin Hd'. apply elem_of_app in Hin as [Hin|Hin].
      * by eapply Hseen.
      * apply list_elem_of_singleton in Hin as ->.
        assert (dp' = dp) as -> by congruence. by rewrite Hlook.
    + by rewrite Hfirst, app_nil_r.
  - (* first sight *)
    assert (Forall2 (fun dp0 q =>
                       <[address dp := SharedPtr heap
                           (grid_ParameterComponent_ctor (pointee dp)
                              (if d_active (pointee dp)
                               then _parameterCount g else -1))]> unique
                       !! address dp0 = Some q)
              (filter (fun dp0 => d_active (pointee dp0) = true)
                 (first_sights E ∅ seen)) news) as Hord'.
    { eapply Forall2_impl; [exact Hord|]. intros dp0 q Hq. cbn in Hq.
      rewrite lookup_insert_ne; [done|]. congruence. }
    assert (∀ a q, unique !! a = Some q → address q ≠ heap) as Hfresh.
    { intros a q Hq. apply Hu in Hq as (_ & Hlt & _). lia. }
    destruct (d_active (pointee dp)) eqn:Hact.
    + (* active: the next offset, and a place in the container *)
      unfold bind, get, modify, ret.
      set (p := SharedPtr heap
                  (grid_ParameterComponent_ctor (pointee dp) (_parameterCount g))).
      eexists p, _, _, _. split; [reflexivity|].
      split; [by rewrite lookup_insert_eq|].
      split; [by apply insert_subseteq|].
      split.
      * exists (news ++ [p]). split.
        { destruct E; cbn in *; by rewrite Hc, <- app_assoc. }
        split.
        { destruct E; cbn; by apply tiles_snoc. }
        split; [lia|]. split.
        { intros a q Hq. destruct (decide (a = address dp)) as [->|Hne].
          - rewrite lookup_insert_eq in Hq. inversion Hq; subst q. cbn.
            split; [lia|]. split; [lia|]. split.
            { intros _. apply elem_of_app. right. by apply list_elem_of_singleton. }
            split; [by rewrite Hact|].
            exists d, dp. split; [apply elem_of_app; right; by apply list_elem_of_singleton|].
            done.
          - rewrite lookup_insert_ne in Hq by done.
            destruct (Hu a q Hq) as (G1 & G2 & G3 & G4 & d' & dp' & Hin & G5).
            split; [done|]. split; [lia|]. split.
            { intros Ha. apply elem_of_app. left. by apply G3. }
            split; [done|]. exists d', dp'. split; [|done].
            apply elem_of_app. by left. }
        split.
        { intros q Hq. apply elem_of_app in Hq as [Hq|Hq].
          - destruct (Hn q Hq) as [G1 [a Ha]]. split; [done|].
            exists a. rewrite lookup_insert_ne; [done|]. congruence.
          - apply list_elem_of_singleton in Hq as ->. split; [done|].
            exists (address dp). by rewrite lookup_insert_eq. }
        split.
        { intros a1 a2 p1 p2 H1 H2 Heq.
          destruct (decide (a1 = address dp)) as [->|N1],
                   (decide (a2 = address dp)) as [->|N2]; [done| | |].
          - rewrite lookup_insert_eq in H1. rewrite lookup_insert_ne in H2 by done.
            inversion H1; subst p1. exfalso. eapply Hfresh; [exact H2|]. by rewrite <- Heq.
          - rewrite lookup_insert_eq in H2. rewrite lookup_insert_ne in H1 by done.
            inversion H2; subst p2. exfalso. eapply Hfresh; [exact H1|]. by rewrite Heq.
          - rewrite lookup_insert_ne in H1, H2 by done. by eapply Hinj. }
        split.
        { intros d' dp' Hin Hd'. apply elem_of_app in Hin as [Hin|Hin].
          { destruct (decide (address dp' = address dp)) as [->|Hne].
            - by rewrite lookup_insert_eq.
            - rewrite lookup_insert_ne by done. by eapply Hseen. }
          apply list_elem_of_singleton in Hin as ->.
          assert (dp' = dp) as -> by congruence. by rewrite lookup_insert_eq. }
        split.
        { rewrite fmap_app. apply NoDup_app. split; [done|]. split.
          { intros a Ha Hp. apply list_elem_of_singleton in Hp. subst a.
            apply list_elem_of_fmap in Ha as (q & Hq & Hin).
            destruct (Hn q Hin) as [_ [a Hlq]]. by eapply Hfresh. }
          apply NoDup_singleton. }
        rewrite Hfirst, filter_app. apply Forall2_app.
        { exact Hord'. }
        rewrite filter_cons, decide_True by done. rewrite filter_nil.
        apply Forall2_cons. split; [|done]. by rewrite lookup_insert_eq.
      * repeat split; try done.
        intros E' HE. destruct E, E'; done.
    + (* inactive: the offset -1, no place in the container *)
      unfold ret.
      set (p := SharedPtr heap (grid_ParameterComponent_ctor (pointee dp) (-1))).
      eexists p, _, _, _. split; [reflexivity|].
      split; [by rewrite lookup_insert_eq|].
      split; [by apply insert_subseteq|].
      split; [|done].
      exists news. split; [done|]. split; [done|]. split; [lia|]. split.
      { intros a q Hq. destruct (decide (a = address dp)) as [->|Hne].
        - rewrite lookup_insert_eq in Hq. inversion Hq; subst q. cbn.
          split; [lia|]. split; [lia|]. split; [by rewrite Hact|].
          split; [done|].
          exists d, dp. split; [apply elem_of_app; right; by apply list_elem_of_singleton|].
          done.
        - rewrite lookup_insert_ne in Hq by done.
          destruct (Hu a q Hq) as (G1 & G2 & G3 & G4 & d' & dp' & Hin & G5).
          split; [done|]. split; [lia|]. split; [done|].
          split; [done|]. exists d', dp'. split; [|done].
          apply elem_of_app. by left. }
      split.
      { intros q Hq. destruct (Hn q Hq) as [G1 [a Ha]]. split; [done|].
        exists a. rewrite lookup_insert_ne; [done|]. congruence. }
      split.
      { intros a1 a2 p1 p2 H1 H2 Heq.
        destruct (decide (a1 = address dp)) as [->|N1],
                 (decide (a2 = address dp)) as [->|N2]; [done| | |].
        - rewrite lookup_insert_eq in H1. rewrite lookup_insert_ne in H2 by done.
          inversion H1; subst p1. exfalso. eapply Hfresh; [exact H2|]. by rewrite <- Heq.
        - rewrite lookup_insert_eq in H2. rewrite lookup_insert_ne in H1 by done.
          inversion H2; subst p2. exfalso. eapply Hfresh; [exact H1|]. by rewrite Heq.
        - rewrite lookup_insert_ne in H1, H2 by done. by eapply Hinj. }
      split.
      { intros d' dp' Hin Hd'. apply elem_of_app in Hin as [Hin|Hin].
        { destruct (decide (address dp' = address dp)) as [->|Hne].
          - by rewrite lookup_insert_eq.
          - rewrite lookup_insert_ne by done. by eapply Hseen. }
        apply list_elem_of_singleton in Hin as ->.
        assert (dp' = dp) as -> by congruence. by rewrite lookup_insert_eq. }
      split; [done|].
      rewrite Hfirst, filter_app, filter_cons, decide_False, filter_nil, app_nil_r
        by (by rewrite Hact).
      exact Hord'.
Qed.

Lemma registry_inv_skip (E : ParameterType) (heap0 : positive) (pc0 : Z)
    (c0 : list (shared_ptr grid_ParameterComponent))
    (seen : list definition_Object) (d : definition_Object)
    (unique : gmap positive (shared_ptr grid_ParameterComponent))
    (heap : positive) (g : Grid) :
  registry_inv E heap0 pc0 c0 seen unique heap (container E g) (_parameterCount g) →
  d_getComponent E d = None →
  registry_inv E heap0 pc0 c0 (seen ++ [d]) unique heap (container E g) (_parameterCount g).
Proof.
  intros (news & Hc & Ht & Hh & Hu & Hn & Hinj & Hseen & Hnd & Hord) Hd.
  exists news. split; [done|]. split; [done|]. split; [done|]. split.
  { intros a q Hq.
    destruct (Hu a q Hq) as (G1 & G2 & G3 & G4 & d' & dp' & Hin & G5).
    split; [done|]. split; [done|]. split; [done|]. split; [done|].
    exists d', dp'. split; [|done]. apply elem_of_app. by left. }
  split; [done|]. split; [done|]. split.
  { intros d' dp' Hin Hd'. apply elem_of_app in Hin as [Hin|Hin].
    - by eapply Hseen.
    - apply list_elem_of_singleton in Hin as ->. congruence. }
  split; [done|]. by rewrite first_sights_snoc, Hd, app_nil_r.
Qed.

Lemma transferred_mono (E : ParameterType)
    (unique unique' : gmap positive (shared_ptr grid_ParameterComponent))
    (d : definition_Object) (o0 o : grid_Object) :
  unique ⊆ unique' → transferred E unique d o0 o → transferred E unique' d o0 o.
Proof.
  intros Hsub. unfold transferred. destruct (d_getComponent E d); [|done].
  intros (p & Hp & Ho). exists p. split; [|done]. by eapply lookup_weaken.
Qed.

Lemma assign_component_spec (E : ParameterType) (gi : nat)
    (p : shared_ptr grid_ParameterComponent) (g : Grid)
    (gos : list grid_Object) (o : grid_Object) :
  objects g = filled gos (length gos) → gos !! gi = Some o →
  assign_component E gi p g
  = Ret tt (set_objects
              (filled (<[gi := g_setComponent E (Some p) o]> gos) (length gos)) g).
Proof.
  intros Hob Ho. unfold assign_component, bind, get, lift, modify.
  rewrite Hob, (at_filled gos (length gos) gi o) by done.
  rewrite assign_filled by (by eapply lookup_lt_Some). done.
Qed.

(** The walk over the Objects, from any point of it on. *)
Lemma transferComponents_loop_spec (E : ParameterType) (heap0 : positive) (pc0 : Z)
    (c0 : list (shared_ptr grid_ParameterComponent))
    (gos0 : list grid_Object) (di : list definition_Object) :
  ∀ (seen : list definition_Object) (gi : nat)
    (unique : gmap positive (shared_ptr grid_ParameterComponent))
    (heap : positive) (g : Grid) (gos : list grid_Object),
  objects g = filled gos (length gos) →
  length seen = gi → (gi + length di = length gos)%nat →
  registry_inv E heap0 pc0 c0 seen unique heap (container E g) (_parameterCount g) →
  objects_inv E unique seen gos0 gos →
  ∃ heap' g' gos' unique',
    transferComponents_loop E di gi unique heap g = Ret heap' g'
    ∧ objects g' = filled gos' (length gos')
    ∧ registry_inv E heap0 pc0 c0 (seen ++ di) unique' heap' (container E g') (_parameterCount g')
    ∧ objects_inv E unique' (seen ++ di) gos0 gos'
    ∧ frames g' = frames g ∧ sources g' = sources g ∧ _wcs g' = _wcs g
    ∧ (∀ E', E' ≠ E → container E' g' = container E' g).
Proof.
  induction di as [|d di IH]; intros seen gi unique heap g gos Hob Hgi Hlen Hreg Hobj.
  - exists heap, g, gos, unique. cbn [transferComponents_loop].
    unfold bind, get. rewrite Hob, last_filled. cbn [length] in *.
    destruct (decide (gi = length gos)); [|lia].
    rewrite app_nil_r. by split_and!.
  - cbn [transferComponents_loop]. unfold bind at 1, get at 1.
    rewrite Hob, last_filled. cbn [length] in *.
    destruct (decide (gi = length gos)) as [|_]; [lia|].
    destruct Hobj as (Hl0 & Hdone & Hrest).
    destruct (gos !! gi) as [o|] eqn:Ho.
    2:{ apply lookup_ge_None in Ho. lia. }
    assert (gos0 !! gi = Some o) as Ho0 by (rewrite <- Hrest by lia; done).
    destruct (d_getComponent E d) as [dp|] eqn:Hd.
    + destruct (register_component_inv E heap0 pc0 c0 seen d dp unique heap g
                  Hreg Hd)
        as (p & unique1 & heap1 & g1 & Hrun & Hp & Hsub & Hreg1 & F1 & F2 & F3 & F4 & F5).
      unfold bind at 1. rewrite Hrun. unfold bind at 1.
      rewrite (assign_component_spec E gi p g1 gos o)
        by first [by rewrite F1 | done].
      match goal with |- context [transferComponents_loop E di _ _ _ ?g2] =>
        destruct (IH (seen ++ [d]) (S gi) unique1 heap1 g2
                    (<[gi := g_setComponent E (Some p) o]> gos))
          as (heap' & g' & gos' & unique' & Hrun' & G1 & G2 & G3 & G4 & G5 & G6 & G7)
      end.
      * cbn. by rewrite length_insert.
      * rewrite length_app. cbn. lia.
      * rewrite length_insert. lia.
      * destruct Hreg1 as (news & R1 & R2 & R3 & R4 & R5 & R6 & R7 & R8 & R9).
        exists news. by split_and!.
      * split; [by rewrite length_insert|]. split.
        -- intros i d' o0 Hd' Ho0'.
           destruct (decide (i = gi)) as [->|Hne].
           ++ rewrite lookup_app_r in Hd' by lia.
              replace (gi - length seen)%nat with 0%nat in Hd' by lia.
              cbn in Hd'. inversion Hd'; subst d'.
              assert (o0 = o) as -> by congruence.
              exists (g_setComponent E (Some p) o).
              split; [apply list_lookup_insert_eq; by eapply lookup_lt_Some|].
              unfold transferred. rewrite Hd. by exists p.
           ++ assert (i < gi)%nat as Hi.
              { apply lookup_lt_Some in Hd'. rewrite length_app in Hd'. cbn in Hd'. lia. }
              rewrite lookup_app_l in Hd' by lia.
              destruct (Hdone i d' o0 Hd' Ho0') as (o' & Ho' & Htr).
              exists o'. split; [by rewrite list_lookup_insert_ne|].
              by eapply transferred_mono.
        -- intros i Hi. rewrite length_app in Hi. cbn in Hi.
           rewrite list_lookup_insert_ne by lia. apply Hrest. lia.
      * exists heap', g', gos', unique'. rewrite Hrun'.
        rewrite <- app_assoc in G2, G3. cbn in G2, G3.
        split; [done|]. split; [done|]. split; [done|]. split; [done|].
        cbn in G4, G5, G6. rewrite G4, G5, G6. split; [done|]. split; [done|].
        split; [done|]. intros E' HE. rewrite G7 by done.
        rewrite <- (F5 E' HE). by destruct E'.
    + destruct (IH (seen ++ [d]) (S gi) unique heap g gos)
        as (heap' & g' & gos' & unique' & Hrun' & G1 & G2 & G3 & G4 & G5 & G6 & G7).
      * done.
      * rewrite length_app. cbn. lia.
      * lia.
      * by apply registry_inv_skip.
      * split; [done|]. split.
        -- intros i d' o0 Hd' Ho0'.
           destruct (decide (i = gi)) as [->|Hne].
           ++ rewrite lookup_app_r in Hd' by lia.
              replace (gi - length seen)%nat with 0%nat in Hd' by lia.
              cbn in Hd'. inversion Hd'; subst d'.
              assert (o0 = o) as -> by congruence.
              exists o. split; [done|]. unfold transferred. by rewrite Hd.
           ++ assert (i < gi)%nat as Hi.
              { apply lookup_lt_Some in Hd'. rewrite length_app in Hd'. cbn in Hd'. lia. }
              rewrite lookup_app_l in Hd' by lia. by apply Hdone.
        -- intros i Hi. rewrite length_app in Hi. cbn in Hi. apply Hrest. lia.
      * exists heap', g', gos', unique'. rewrite Hrun'.
        rewrite <- app_assoc in G2, G3. cbn in G2, G3. done.
Qed.

End Transfer.

(** ** The source loop *)

Section SourceLoopProperties.
Context `{Services}.
Variable validate : grid_Object → option Exception.

(** The loop over the Frames, for the Object at [i]. *)
Lemma inner_loop_spec (g0 : Grid) (gfs : list grid_Frame) (i : nat)
    (gos : list grid_Object) (o : grid_Object) (capacity : nat) :
  frames g0 = filled gfs (length gfs) →
  gos !! i = Some o →
  ∀ (fs : list grid_Frame) (j : nat) (l : list grid_Source),
  drop j gfs = fs →
  (length l + length fs <= capacity)%nat →
  for_each (seq j (length fs))
    (fun j =>
       g <- get ;;
       frame_ <- lift (at_ (frames g) j) ;;
       object_ <- lift (at_ (objects g) i) ;;
       placement_new sources set_sources
         (Source_ctor j i frame_ object_ (_wcs g)) ;;;
       ret tt)%cpp
    (set_objects (filled gos (length gos)) (set_sources (filled l capacity) g0))
  = match sources_for i o (_wcs g0) j fs with
    | (srcs, None) =>
        Ret tt (set_objects (filled gos (length gos))
                  (set_sources (filled (l ++ srcs) capacity) g0))
    | (srcs, Some (Faulted u)) => Undef u
    | (srcs, Some (SourceThrew e)) | (srcs, Some (ValidateThrew e)) =>
        Exc e (set_objects (filled gos (length gos))
                 (set_sources (interrupted (l ++ srcs) capacity) g0))
    end.
Proof.
  intros Hfr Ho fs. induction fs as [|f fs IH]; intros j l Hdrop Hcap.
  - cbn. by rewrite app_nil_r.
  - cbn [length seq for_each sources_for].
    assert (gfs !! j = Some f) as Hf.
    { rewrite <- (Nat.add_0_r j), <- lookup_drop, Hdrop. done. }
    assert (drop (S j) gfs = fs) as Hdrop'.
    { erewrite drop_S in Hdrop by done. by inversion Hdrop. }
    unfold bind at 1. unfold bind at 1, get at 1.
    cbn [frames set_objects set_sources objects _wcs].
    rewrite Hfr, (at_filled gfs (length gfs) j f) by done.
    unfold bind at 1, lift at 1. unfold bind at 1, lift at 1.
    rewrite (at_filled gos (length gos) i o) by done.
    unfold bind at 1.
    cbn [length] in Hcap.
    destruct (Source_ctor j i f o (_wcs g0)) as [s|e|u] eqn:Hctor.
    + rewrite (placement_new_Normal sources set_sources
                 ltac:(done) ltac:(done) l capacity) by (done || lia).
      unfold ret at 1.
      change (set_sources (filled (l ++ [s]) capacity)
                (set_objects (filled gos (length gos))
                   (set_sources (filled l capacity) g0)))
        with (set_objects (filled gos (length gos))
                (set_sources (filled (l ++ [s]) capacity) g0)).
      rewrite (IH (S j) (l ++ [s])) by (done || rewrite length_app; cbn; lia).
      destruct (sources_for i o (_wcs g0) (S j) fs) as [srcs [[e|e|u]|]];
        cbn [fst snd]; rewrite <- ?app_assoc; done.
    + rewrite (placement_new_Throw sources set_sources l capacity) by done.
      by rewrite app_nil_r.
    + by rewrite (placement_new_Fault sources set_sources _ u).
Qed.

Lemma sources_for_stop (i : nat) (o : grid_Object) (wcs : option Wcs)
    (fs : list grid_Frame) :
  ∀ (j : nat) (srcs : list grid_Source) (e : Exception),
  sources_for i o wcs j fs ≠ (srcs, Some (ValidateThrew e)).
Proof.
  induction fs as [|f fs IH]; intros j srcs e; cbn; [done|].
  destruct (Source_ctor j i f o wcs); [|done|done].
  destruct (sources_for i o wcs (S j) fs) as [l r] eqn:Hl.
  intros Heq. inversion Heq; subst. by eapply IH.
Qed.

Lemma sources_for_length (i : nat) (o : grid_Object) (wcs : option Wcs)
    (fs : list grid_Frame) :
  ∀ (j : nat) (srcs : list grid_Source) (r : option Stop),
  sources_for i o wcs j fs = (srcs, r) →
  (length srcs <= length fs)%nat ∧ (r = None → length srcs = length fs).
Proof.
  induction fs as [|f fs IH]; intros j srcs r Hs; cbn in Hs.
  - by inversion Hs.
  - destruct (Source_ctor j i f o wcs).
    + destruct (sources_for i o wcs (S j) fs) as [l' r'] eqn:Hl'.
      inversion Hs; subst. cbn. destruct (IH (S j) l' r Hl') as [Hle Heq].
      split; [lia|]. intros Hr. by rewrite Heq.
    + inversion Hs; subst. cbn. split; [lia|done].
    + inversion Hs; subst. cbn. split; [lia|done].
Qed.

Lemma insert_middle {A : Type} (l1 l2 : list A) (x y : A) :
  <[length l1 := y]> (l1 ++ x :: l2) = l1 ++ y :: l2.
Proof.
  rewrite <- (Nat.add_0_r (length l1)). by rewrite insert_app_r.
Qed.

Lemma lookup_middle {A : Type} (l1 l2 : list A) (x : A) :
  (l1 ++ x :: l2) !! length l1 = Some x.
Proof. by rewrite list_lookup_middle. Qed.

(** The loop over the Objects, from any Object on. *)
Lemma outer_loop_spec (g0 : Grid) (gfs : list grid_Frame) (capacity M : nat) :
  frames g0 = filled gfs (length gfs) →
  ∀ (os done_ : list grid_Object) (l : list grid_Source),
  (length done_ + length os = M)%nat →
  (length l + length os * length gfs <= capacity)%nat →
  for_each (seq (length done_) (length os)) (construct_sources_of validate)
    (set_objects (filled (done_ ++ os) M) (set_sources (filled l capacity) g0))
  = match sources_loop validate (_wcs g0) gfs (length done_) os l with
    | (os2, l2, None) =>
        Ret tt (set_objects (filled (done_ ++ os2) M)
                  (set_sources (filled l2 capacity) g0))
    | (os2, l2, Some (ValidateThrew e)) =>
        Exc e (set_objects (filled (done_ ++ os2) M)
                 (set_sources (filled l2 capacity) g0))
    | (os2, l2, Some (SourceThrew e)) =>
        Exc e (set_objects (filled (done_ ++ os2) M)
                 (set_sources (interrupted l2 capacity) g0))
    | (os2, l2, Some (Faulted u)) => Undef u
    end.
Proof.
  intros Hfr os. induction os as [|o os IH]; intros done_ l HM Hcap.
  - reflexivity.
  - cbn [length seq for_each sources_loop] in *.
    assert (length (done_ ++ o :: os) = M) as HlenM
      by (rewrite length_app; cbn; lia).
    unfold bind at 1. unfold construct_sources_of at 1.
    unfold bind at 1, get at 1.
    cbn [objects set_objects set_sources frames sources].
    unfold bind at 1, lift at 1.
    rewrite (at_filled (done_ ++ o :: os) M (length done_) o)
      by (lia || apply lookup_middle).
    unfold bind at 1, lift at 1.
    destruct (validate o) as [e|] eqn:Hval; [reflexivity|].
    unfold bind at 1, modify at 1.
    cbn [objects set_objects set_sources frames sources].
    rewrite last_filled, assign_filled, insert_middle
      by (rewrite length_app; cbn; lia).
    set (o1 := set_sources_first (length l) o).
    unfold bind at 1.
    rewrite Hfr, last_filled.
    change (set_objects (filled (done_ ++ o1 :: os) M)
              (set_objects (filled (done_ ++ o :: os) M)
                 (set_sources (filled l capacity) g0)))
      with (set_objects (filled (done_ ++ o1 :: os) M)
              (set_sources (filled l capacity) g0)).
    assert (length (done_ ++ o1 :: os) = M) as HlenM1
      by (rewrite length_app; cbn; lia).
    rewrite <- HlenM1 at 1.
    rewrite (inner_loop_spec g0 gfs (length done_) (done_ ++ o1 :: os) o1 capacity
               Hfr (lookup_middle _ _ _) gfs 0 l (drop_0 _)) by lia.
    rewrite HlenM1.
    destruct (sources_for (length done_) o1 (_wcs g0) 0 gfs)
      as [srcs [[e|e|u]|]] eqn:Hinner;
      [by apply sources_for_stop in Hinner|reflexivity|reflexivity|].
    unfold bind at 1, get at 1. unfold bind at 1, lift at 1.
    cbn [objects set_objects set_sources frames sources].
    rewrite (at_filled (done_ ++ o1 :: os) M (length done_) o1)
      by (lia || apply lookup_middle).
    unfold modify at 1.
    rewrite last_filled, assign_filled, insert_middle
      by (rewrite length_app; cbn; lia).
    set (o2 := set_sources_last (length (l ++ srcs)) o1).
    change (set_objects (filled (done_ ++ o2 :: os) M)
              (set_objects (filled (done_ ++ o1 :: os) M)
                 (set_sources (filled (l ++ srcs) capacity) g0)))
      with (set_objects (filled (done_ ++ o2 :: os) M)
              (set_sources (filled (l ++ srcs) capacity) g0)).
    assert (length srcs <= length gfs)%nat as Hsrcs
      by (by apply sources_for_length in Hinner as [? _]).
    specialize (IH (done_ ++ [o2]) (l ++ srcs)).
    rewrite length_app in IH. cbn [length] in IH.
    rewrite Nat.add_1_r in IH. rewrite <- !app_assoc in IH. cbn [app] in IH.
    rewrite IH by (rewrite ?length_app; nia).
    destruct (sources_loop validate (_wcs g0) gfs (S (length done_)) os (l ++ srcs))
      as [[os2 l2] [[e|e|u]|]]; by rewrite <- ?app_assoc.
Qed.

End SourceLoopProperties.

(** ** The whole construction *)

Section WholeConstruction.
Context `{Services}.
Variable validate : grid_Object → option Exception.

Lemma transferComponents_spec (E : ParameterType) (input : multifit_Definition)
    (heap : positive) (g : Grid) (gos : list grid_Object) :
  objects g = filled gos (length gos) →
  length (def_objects input) = length gos →
  ∃ heap' g' gos' unique,
    transferComponents E input heap g = Ret heap' g'
    ∧ objects g' = filled gos' (length gos')
    ∧ registry_inv E heap (_parameterCount g) (container E g) (def_objects input)
        unique heap' (container E g') (_parameterCount g')
    ∧ objects_inv E unique (def_objects input) gos gos'
    ∧ frames g' = frames g ∧ sources g' = sources g ∧ _wcs g' = _wcs g
    ∧ (∀ E', E' ≠ E → container E' g' = container E' g).
Proof.
  intros Hob Hlen. unfold transferComponents.
  apply (transferComponents_loop_spec E heap (_parameterCount g) (container E g)
           gos (def_objects input) [] 0%nat ∅ heap g gos); try done.
  exists []. rewrite app_nil_r.
  split_and!;
    first [ done
          | by intros p Hp; apply elem_of_nil in Hp
          | by intros d dp Hd; apply elem_of_nil in Hd
          | apply NoDup_nil_2
          | apply Forall2_nil_2 ].
Qed.

Lemma g_getComponent_set (E E' : ParameterType) (p : GPtr) (o : grid_Object) :
  g_getComponent E (g_setComponent E' p o)
  = if decide (E = E') then p else g_getComponent E o.
Proof. by destruct E, E'. Qed.

Lemma transferred_base (E : ParameterType)
    (unique : gmap positive (shared_ptr grid_ParameterComponent))
    (d : definition_Object) (o0 o : grid_Object) :
  transferred E unique d o0 o →
  go_base o = go_base o0
  ∧ sources_first o = sources_first o0 ∧ sources_last o = sources_last o0
  ∧ (∀ E', E' ≠ E → g_getComponent E' o = g_getComponent E' o0)
  ∧ match d_getComponent E d with
    | None => g_getComponent E o = g_getComponent E o0
    | Some dp => ∃ p, unique !! address dp = Some p ∧ g_getComponent E o = Some p
    end.
Proof.
  unfold transferred. destruct (d_getComponent E d) as [dp|].
  - intros (p & Hp & ->). split_and!; try done.
    + intros E' HE. rewrite g_getComponent_set.
      by destruct (decide (E' = E)).
    + exists p. split; [done|]. rewrite g_getComponent_set.
      by destruct (decide (E = E)).
  - intros ->. by split_and!.
Qed.

Lemma grid_eta (g : Grid) :
  set_objects (objects g) (set_sources (sources g) g) = g.
Proof. by destruct g. Qed.

(** The Objects after the three walks mirror the Objects of the
    Definition. *)
Lemma mirrors_after_walks (d : definition_Object) (oa ob oc od : grid_Object)
    (u1 u2 u3 : gmap positive (shared_ptr grid_ParameterComponent)) :
  go_base oa = d_base d →
  g_position oa = None → g_radius oa = None → g_ellipticity oa = None →
  transferred POSITION u1 d oa ob →
  transferred RADIUS u2 d ob oc →
  transferred ELLIPTICITY u3 d oc od →
  mirrors (fun E => match E with
                    | POSITION => u1 | RADIUS => u2 | ELLIPTICITY => u3
                    end) d od.
Proof.
  intros Hb Hp Hr He T1 T2 T3.
  apply transferred_base in T1 as (B1 & _ & _ & O1 & C1).
  apply transferred_base in T2 as (B2 & _ & _ & O2 & C2).
  apply transferred_base in T3 as (B3 & _ & _ & O3 & C3).
  split; [congruence|]. intros E. destruct E.
  - rewrite (O3 POSITION), (O2 POSITION) by done.
    destruct (d_getComponent POSITION d); [done|]. by rewrite C1.
  - rewrite (O3 RADIUS) by done.
    destruct (d_getComponent RADIUS d); [done|].
    rewrite C2, (O1 RADIUS) by done. done.
  - destruct (d_getComponent ELLIPTICITY d); [done|].
    rewrite C3, (O2 ELLIPTICITY), (O1 ELLIPTICITY) by done. done.
Qed.

(** The [try] block of [initializeGrid], on the Grid that the constructor
    passes to it: the loops over Frames and Objects and the three walks do
    not fail, and the block ends as the source loop does. *)
Lemma initializeGrid_try_spec (input : multifit_Definition) (heap : positive) :
  ∃ (g5 : Grid) (gfs : list grid_Frame) (gos : list grid_Object)
    (heap' : positive)
    (unique : ParameterType → gmap positive (shared_ptr grid_ParameterComponent)),
    frames g5 = filled gfs (length gfs)
    ∧ map gf_base gfs = def_frames input
    ∧ _wcs g5 = _wcs (Grid_members input)
    ∧ components_registered input heap heap' unique
        (fun E => container E g5) (_parameterCount g5) gos
    ∧ initializeGrid_try validate input heap (reset_cursors (Grid_members input))
      = match sources_loop validate (_wcs g5) gfs 0 gos [] with
        | (os2, l2, None) =>
            Ret heap'
              (set_objects (filled os2 (length (def_objects input)))
                 (set_sources
                    (filled l2 (length (def_frames input)
                                * length (def_objects input))) g5))
        | (os2, l2, Some (ValidateThrew e)) =>
            Exc e
              (set_objects (filled os2 (length (def_objects input)))
                 (set_sources
                    (filled l2 (length (def_frames input)
                                * length (def_objects input))) g5))
        | (os2, l2, Some (SourceThrew e)) =>
            Exc e
              (set_objects (filled os2 (length (def_objects input)))
                 (set_sources
                    (interrupted l2 (length (def_frames input)
                                     * length (def_objects input))) g5))
        | (os2, l2, Some (Faulted u)) => Undef u
        end.
Proof.
  remember (length (def_frames input)) as N eqn:HNdef.
  remember (length (def_objects input)) as M eqn:HMdef.
  set (g0 := reset_cursors (Grid_members input)).
  assert (frames g0 = filled [] N) as Hf0
    by (subst; apply raw_buffer_filled).
  assert (objects g0 = filled [] M) as Ho0
    by (subst; apply raw_buffer_filled).
  assert (sources g0 = filled [] (N * M)) as Hs0
    by (subst; apply raw_buffer_filled).
  destruct (construct_frames_spec (def_frames input) 0 g0 [] N Hf0
              ltac:(cbn; lia))
    as (g1 & gfs & Hrun1 & Hf1 & Hbase & A1 & A2 & A3 & A4 & A5 & A6 & A7).
  assert (length gfs = N) as HN by (by rewrite HNdef, <- Hbase, length_map).
  destruct (construct_objects_spec (def_objects input)
              (0 + Z.of_nat (length (def_frames input))) g1 [] M
              ltac:(by rewrite A1) ltac:(cbn; lia))
    as (g2 & gosa & Hrun2 & Ho2 & HM & Hinit & B1 & B2 & B3 & B4 & B5 & B6 & B7).
  cbn [app] in Hf1, Ho2. rewrite <- HMdef in HM. rewrite <- HM in Ho2.
  destruct (transferComponents_spec POSITION input heap g2 gosa Ho2 ltac:(lia))
    as (h1 & g3 & gosb & u1 & Hrun3 & Ho3 & R1 & I1 & C1 & C2 & C3 & C4).
  assert (length gosb = length gosa) as HMb by apply I1.
  destruct (transferComponents_spec RADIUS input h1 g3 gosb Ho3 ltac:(lia))
    as (h2 & g4 & gosc & u2 & Hrun4 & Ho4 & R2 & I2 & D1 & D2 & D3 & D4).
  assert (length gosc = length gosb) as HMc by apply I2.
  destruct (transferComponents_spec ELLIPTICITY input h2 g4 gosc Ho4 ltac:(lia))
    as (h3 & g5 & gosd & u3 & Hrun5 & Ho5 & R3 & I3 & E1 & E2 & E3 & E4).
  assert (length gosd = length gosc) as HMd by apply I3.
  exists g5, gfs, gosd, h3,
    (fun E => match E with POSITION => u1 | RADIUS => u2 | ELLIPTICITY => u3 end).
  split; [by rewrite E1, D1, C1, B1, Hf1, HN|].
  split; [done|].
  split; [by rewrite E3, D3, C3, B7, A7|].
  split.
  { exists h1, h2, (_parameterCount g3), (_parameterCount g4).
    pose proof (C4 RADIUS ltac:(done)) as C4r.
    pose proof (C4 ELLIPTICITY ltac:(done)) as C4e.
    pose proof (D4 ELLIPTICITY ltac:(done)) as D4e.
    pose proof (D4 POSITION ltac:(done)) as D4p.
    pose proof (E4 POSITION ltac:(done)) as E4p.
    pose proof (E4 RADIUS ltac:(done)) as E4r.
    cbn [container] in *.
    rewrite B3, A3, B6, A6 in R1.
    rewrite C4r, B4, A4 in R2.
    rewrite D4e, C4e, B5, A5 in R3.
    rewrite E4p, D4p, E4r.
    split; [exact R1|]. split; [exact R2|]. split; [exact R3|].
    split; [lia|].
    intros i d od Hd Hod.
    destruct I1 as (_ & I1 & _), I2 as (_ & I2 & _), I3 as (_ & I3 & _).
    destruct (gosa !! i) as [oa|] eqn:Hoa.
    2:{ apply lookup_ge_None in Hoa. apply lookup_lt_Some in Hd. lia. }
    destruct (Hinit i d oa Hd Hoa) as (Hb & Hp & Hr & He).
    destruct (I1 i d oa Hd Hoa) as (ob & Hob & T1).
    destruct (I2 i d ob Hd Hob) as (oc & Hoc & T2).
    destruct (I3 i d oc Hd Hoc) as (od' & Hod' & T3).
    assert (od' = od) as -> by congruence.
    by eapply mirrors_after_walks. }
  unfold initializeGrid_try. fold g0.
  unfold bind at 1. rewrite Hrun1.
  unfold bind at 1. rewrite Hrun2.
  unfold bind at 1. rewrite Hrun3.
  unfold bind at 1. rewrite Hrun4.
  unfold bind at 1. rewrite Hrun5.
  unfold bind at 1. unfold construct_sources, bind at 1, get at 1.
  rewrite Ho5, last_filled.
  assert (g5 = set_objects (filled gosd M)
                 (set_sources (filled [] (N * M)) g5)) as Hg5.
  { rewrite <- (grid_eta g5) at 1.
    rewrite Ho5, E2, D2, C2, B2, A2, Hs0. do 2 f_equal. lia. }
  pose proof (outer_loop_spec validate g5 gfs (N * M) M
                ltac:(by rewrite E1, D1, C1, B1, Hf1, HN) gosd [] []
                ltac:(cbn; lia) ltac:(cbn; nia)) as Houter.
  cbn [length app] in Houter. rewrite <- Hg5 in Houter. rewrite Houter.
  cbn [length app].
  destruct (sources_loop validate (_wcs g5) gfs 0 gosd [])
    as [[os2 l2] [[e|e|u]|]]; reflexivity.
Qed.

End WholeConstruction.

(** ** Sources *)

Section SourceProperties.
Context `{Services}.
Variable validate : grid_Object → option Exception.

(** A Source refers to the Frame and the Object it was built from. *)
Lemma Source_ctor_refs (fi oi : nat) (f : grid_Frame) (o : grid_Object)
    (wcs : option Wcs) (s : grid_Source) :
  Source_ctor fi oi f o wcs = Normal s → source_frame s = fi ∧ source_object s = oi.
Proof.
  unfold Source_ctor. intros Hs.
  repeat match type of Hs with
         | context [match ?x with _ => _ end] => destruct x; try done
         end;
    by inversion Hs.
Qed.

(** The constructor reads the base and the position of the Object only. *)
Lemma Source_ctor_ext (fi oi : nat) (f : grid_Frame) (o o' : grid_Object)
    (wcs : option Wcs) :
  go_base o = go_base o' → g_position o = g_position o' →
  Source_ctor fi oi f o wcs = Source_ctor fi oi f o' wcs.
Proof. intros Hb Hp. unfold Source_ctor. by rewrite Hb, Hp. Qed.



Lemma sources_for_success (i : nat) (o : grid_Object) (wcs : option Wcs)
    (fs : list grid_Frame) :
  ∀ (j : nat) (srcs : list grid_Source),
  sources_for i o wcs j fs = (srcs, None) →
  length srcs = length fs
  ∧ ∀ (k : nat) f, fs !! k = Some f →
      ∃ s, srcs !! k = Some s ∧ Source_ctor (j + k) i f o wcs = Normal s.
Proof.
  induction fs as [|f fs IH]; intros j srcs Hs; cbn in Hs.
  - inversion Hs; subst. split; [done|]. intros k f Hk. by rewrite lookup_nil in Hk.
  - destruct (Source_ctor j i f o wcs) as [s| |] eqn:Hctor; [|done|done].
    destruct (sources_for i o wcs (S j) fs) as [l' r'] eqn:Hl'.
    inversion Hs; subst. destruct (IH (S j) l' Hl') as [Hlen Hall].
    split; [cbn; lia|]. intros [|k] f' Hk; cbn in Hk.
    + inversion Hk; subst. exists s. by rewrite Nat.add_0_r.
    + destruct (Hall k f' Hk) as (s' & Hs' & Hc). exists s'. split; [done|].
      by rewrite <- Nat.add_succ_comm.
Qed.

(** A loop that stops has met a constructor that did not return. *)
Lemma sources_for_stopped (i : nat) (o : grid_Object) (wcs : option Wcs)
    (fs : list grid_Frame) :
  ∀ (j : nat) (srcs : list grid_Source) (r : Stop),
  sources_for i o wcs j fs = (srcs, Some r) →
  ∃ (k : nat) f, fs !! k = Some f ∧
    match Source_ctor (j + k) i f o wcs with
    | Normal _ => False
    | Throw e => r = SourceThrew e
    | Fault u => r = Faulted u
    end.
Proof.
  induction fs as [|f fs IH]; intros j srcs r Hs; cbn in Hs; [done|].
  destruct (Source_ctor j i f o wcs) as [s|e|u] eqn:Hctor.
  - destruct (sources_for i o wcs (S j) fs) as [l' r'] eqn:Hl'.
    inversion Hs; subst. destruct (IH (S j) l' r Hl') as (k & f' & Hk & Hc).
    exists (S k), f'. split; [done|]. by rewrite <- Nat.add_succ_comm.
  - inversion Hs; subst. exists 0%nat, f. split; [done|].
    by rewrite Nat.add_0_r, Hctor.
  - inversion Hs; subst. exists 0%nat, f. split; [done|].
    by rewrite Nat.add_0_r, Hctor.
Qed.

(** The source loop when it runs to its end. *)
Lemma sources_loop_success (wcs : option Wcs) (gfs : list grid_Frame)
    (os : list grid_Object) :
  ∀ (i : nat) (l : list grid_Source) (os2 : list grid_Object)
    (l2 : list grid_Source),
  sources_loop validate wcs gfs i os l = (os2, l2, None) →
  length os2 = length os
  ∧ length l2 = (length l + length os * length gfs)%nat
  ∧ (∀ (k : nat) s, l !! k = Some s → l2 !! k = Some s)
  ∧ ∀ (k : nat) o, os !! k = Some o →
      validate o = None
      ∧ os2 !! k
        = Some (set_sources_last (length l + S k * length gfs)
                  (set_sources_first (length l + k * length gfs) o))
      ∧ ∀ (j : nat) f, gfs !! j = Some f →
          ∃ s, l2 !! (length l + k * length gfs + j)%nat = Some s
               ∧ Source_ctor j (i + k) f
                   (set_sources_first (length l + k * length gfs) o) wcs
                 = Normal s.
Proof.
  induction os as [|o os IH]; intros i l os2 l2 Hs; cbn in Hs.
  - inversion Hs; subst. split; [done|]. split; [cbn; lia|]. split; [done|].
    intros k o Hk. by rewrite lookup_nil in Hk.
  - destruct (validate o) eqn:Hval; [done|].
    destruct (sources_for i (set_sources_first (length l) o) wcs 0 gfs)
      as [srcs [r|]] eqn:Hinner; [done|].
    destruct (sources_loop validate wcs gfs (S i) os (l ++ srcs))
      as [[os2' l2'] r'] eqn:Hrest.
    inversion Hs; subst.
    destruct (sources_for_success _ _ _ _ _ _ Hinner) as [Hlen Hsrcs].
    destruct (IH (S i) (l ++ srcs) os2' l2 Hrest) as (G1 & G2 & G3 & G4).
    rewrite length_app, Hlen in G2, G4.
    split; [cbn; lia|]. split; [cbn; lia|]. split.
    { intros k s Hk. apply G3. by apply lookup_app_l_Some. }
    intros [|k] o' Hk; cbn in Hk.
    + inversion Hk; subst o'. split; [done|]. rewrite lookup_cons.
      rewrite length_app, Hlen. split.
      { f_equal. f_equal; [lia|]. f_equal; lia. }
      intros j f Hf. destruct (Hsrcs j f Hf) as (s & Hs' & Hc).
      exists s. rewrite Nat.mul_0_l, !Nat.add_0_r. split.
      * apply G3. rewrite lookup_app_r by lia.
        by replace (length l + j - length l)%nat with j by lia.
      * done.
    + destruct (G4 k o' Hk) as (V & O & S').
      split; [done|]. rewrite lookup_cons. split.
      { rewrite O. f_equal. f_equal; [lia|]. f_equal; lia. }
      intros j f Hf. destruct (S' j f Hf) as (s & Hs' & Hc). exists s. split.
      * rewrite <- Hs'. f_equal. lia.
      * rewrite <- Hc. rewrite <- Nat.add_succ_comm. do 2 f_equal; lia.
Qed.

End SourceProperties.

(** ** A constructed Grid *)

Section ConstructedGrid.
Context `{Services}.
Variable validate : grid_Object → option Exception.

Lemma mirrors_source_range
    (unique : ParameterType → gmap positive (shared_ptr grid_ParameterComponent))
    (d : definition_Object) (o : grid_Object) (a b : nat) :
  mirrors unique d o →
  mirrors unique d (set_sources_last b (set_sources_first a o)).
Proof.
  intros [Hb Hc]. split; [done|]. intros E. specialize (Hc E).
  by destruct E.
Qed.

(** What a Grid that has been constructed looks like. *)
Lemma Grid_ctor_Constructed (input : multifit_Definition) (heap heap' : positive)
    (g : Grid) :
  Grid_ctor validate input heap = Constructed (heap', g) →
  ∃ (gfs : list grid_Frame) (gos : list grid_Object) (srcs : list grid_Source)
    (unique : ParameterType → gmap positive (shared_ptr grid_ParameterComponent)),
    frames g = filled gfs (length (def_frames input))
    ∧ map gf_base gfs = def_frames input
    ∧ objects g = filled gos (length (def_objects input))
    ∧ sources g = filled srcs (length (def_frames input) * length (def_objects input))
    ∧ length srcs = (length (def_objects input) * length (def_frames input))%nat
    ∧ _wcs g = _wcs (Grid_members input)
    ∧ components_registered input heap heap' unique
        (fun E => container E g) (_parameterCount g) gos
    ∧ ∀ (k : nat) o, gos !! k = Some o →
        sources_first o = (k * length (def_frames input))%nat
        ∧ sources_last o = (S k * length (def_frames input))%nat
        ∧ ∀ (j : nat) f, gfs !! j = Some f →
            ∃ s, srcs !! (k * length (def_frames input) + j)%nat = Some s
                 ∧ Source_ctor j k f o (_wcs g) = Normal s.
Proof.
  unfold Grid_ctor, initializeGrid.
  destruct (initializeGrid_try_spec validate input heap)
    as (g5 & gfs & gos & h3 & unique & Hfr & Hbase & Hwcs & Hreg & Hrun).
  rewrite Hrun. clear Hrun.
  destruct (sources_loop validate (_wcs g5) gfs 0 gos [])
    as [[os2 l2] [[e|e|u]|]] eqn:Hloop; try done.
  intros Heq. inversion Heq; subst heap' g. clear Heq.
  assert (length gfs = length (def_frames input)) as HN
    by (by rewrite <- Hbase, length_map).
  destruct (sources_loop_success validate _ _ _ _ _ _ _ Hloop)
    as (L1 & L2 & _ & L4).
  destruct Hreg as (h1 & h2 & pc1 & pc2 & R1 & R2 & R3 & HM & Hmir).
  exists gfs, os2, l2, unique.
  cbn [frames objects sources _wcs set_objects set_sources length] in *.
  split; [by rewrite Hfr, HN|]. split; [done|]. split; [done|]. split; [done|].
  split; [rewrite L2, HN, HM; lia|]. split; [done|]. split.
  { exists h1, h2, pc1, pc2. split; [exact R1|]. split; [exact R2|].
    split; [exact R3|]. split; [lia|].
    intros i d o2 Hd Ho2.
    destruct (gos !! i) as [o|] eqn:Ho.
    2:{ apply lookup_ge_None in Ho. apply lookup_lt_Some in Hd. lia. }
    destruct (L4 i o Ho) as (_ & Ho2' & _).
    rewrite Ho2' in Ho2. inversion Ho2; subst o2.
    apply mirrors_source_range. by eapply Hmir. }
  intros k o2 Ho2.
  destruct (gos !! k) as [o|] eqn:Ho.
  2:{ apply lookup_ge_None in Ho. apply lookup_lt_Some in Ho2. lia. }
  destruct (L4 k o Ho) as (_ & Ho2' & Hs).
  rewrite Ho2' in Ho2. inversion Ho2; subst o2. rewrite HN in *.
  split; [done|]. split; [done|].
  intros j f Hf. destruct (Hs j f Hf) as (s & Hs1 & Hs2).
  exists s. split; [done|]. rewrite <- Hs2. by apply Source_ctor_ext.
Qed.

End ConstructedGrid.

(** ** Source cardinality and layout *)

Section SourceClaims.
Context `{Services}.
Variable validate : grid_Object → option Exception.

(** The arrays of frames and objects of a constructed Grid. *)
Lemma constructed_arrays (input : multifit_Definition)
    (heap heap' : positive) (g : Grid) :
  Grid_ctor validate input heap = Constructed (heap', g) →
  ∃ (gfs : list grid_Frame) (gos : list grid_Object),
    frames g = filled gfs (length (def_frames input))
    ∧ length gfs = length (def_frames input)
    ∧ objects g = filled gos (length (def_objects input))
    ∧ map go_base gos = map d_base (def_objects input)
    ∧ _wcs g = _wcs (Grid_members input).
Proof.
  intros Hctor.
  destruct (Grid_ctor_Constructed validate input heap heap' g Hctor)
    as (gfs & gos & srcs & unique & Hf & Hbase & Ho & _ & _ & Hw & Hreg & _).
  exists gfs, gos.
  split; [done|]. split; [by rewrite <- Hbase, length_map|].
  split; [done|]. split; [|done].
  destruct Hreg as (_ & _ & _ & _ & _ & _ & _ & HM & Hmir).
  apply list_eq. intros i. rewrite !list_lookup_fmap.
  destruct (gos !! i) as [o|] eqn:Hgo, (def_objects input !! i) as [d|] eqn:Hd;
    cbn.
  - f_equal. by destruct (Hmir i d o Hd Hgo).
  - apply lookup_ge_None in Hd. apply lookup_lt_Some in Hgo. lia.
  - apply lookup_ge_None in Hgo. apply lookup_lt_Some in Hd. lia.
  - done.
Qed.

(** C9.  A Grid constructed from a Definition with M Objects and N Frames
    holds exactly M×N Sources.  The Sources of the Object at position [k]
    are the range from [k×N] to [k×N+N] of the source array, one per Frame
    in the order of the frame array; these ranges follow each other in the
    order of the object array and cover the source array. *)
Theorem sources_are_the_cross_product (input : multifit_Definition)
    (heap heap' : positive) (g : Grid) :
  Grid_ctor validate input heap = Constructed (heap', g) →
  ∃ (gfs : list grid_Frame) (gos : list grid_Object) (srcs : list grid_Source),
    frames g = filled gfs (length (def_frames input))
    ∧ map gf_base gfs = def_frames input
    ∧ objects g = filled gos (length (def_objects input))
    ∧ map go_base gos = map d_base (def_objects input)
    ∧ sources g
      = filled srcs (length (def_frames input) * length (def_objects input))
    ∧ length srcs = (length (def_objects input) * length (def_frames input))%nat
    ∧ ∀ (k : nat) o, gos !! k = Some o →
        sources_first o = (k * length (def_frames input))%nat
        ∧ sources_last o
          = (k * length (def_frames input) + length (def_frames input))%nat
        ∧ ∀ (j : nat), (j < length (def_frames input))%nat →
            ∃ s, srcs !! (k * length (def_frames input) + j)%nat = Some s
                 ∧ source_object s = k ∧ source_frame s = j.
Proof.
  intros Hctor.
  destruct (Grid_ctor_Constructed validate input heap heap' g Hctor)
    as (gfs & gos & srcs & unique & Hf & Hbase & Ho & Hs & Hlen & _ & Hreg & Hsrc).
  exists gfs, gos, srcs.
  split; [done|]. split; [done|]. split; [done|]. split.
  { destruct Hreg as (_ & _ & _ & _ & _ & _ & _ & HM & Hmir).
    apply list_eq. intros i. rewrite !list_lookup_fmap.
    destruct (gos !! i) as [o|] eqn:Hgo, (def_objects input !! i) as [d|] eqn:Hd;
      cbn.
    - f_equal. by destruct (Hmir i d o Hd Hgo).
    - apply lookup_ge_None in Hd. apply lookup_lt_Some in Hgo. lia.
    - apply lookup_ge_None in Hgo. apply lookup_lt_Some in Hd. lia.
    - done. }
  split; [done|]. split; [done|].
  intros k o Hk. destruct (Hsrc k o Hk) as (S1 & S2 & S3).
  split; [done|]. split; [rewrite S2; cbn; lia|].
  intros j Hj.
  assert (length gfs = length (def_frames input)) as HN
    by (by rewrite <- Hbase, length_map).
  destruct (gfs !! j) as [f|] eqn:Hfj.
  2:{ apply lookup_ge_None in Hfj. lia. }
  destruct (S3 j f Hfj) as (s & Hs1 & Hs2). exists s. split; [done|].
  apply Source_ctor_refs in Hs2 as [? ?]. done.
Qed.

End SourceClaims.

Section SourceClaimsWitness.
Import Example.

Lemma sources_are_the_cross_product_witness :
  Grid_ctor accept shared_radius 1 = Constructed (6%positive, shared_radius_grid)
  ∧ ∃ (gfs : list grid_Frame) (gos : list grid_Object) (srcs : list grid_Source),
      frames shared_radius_grid = filled gfs (length (def_frames shared_radius))
      ∧ map gf_base gfs = def_frames shared_radius
      ∧ objects shared_radius_grid
        = filled gos (length (def_objects shared_radius))
      ∧ map go_base gos = map d_base (def_objects shared_radius)
      ∧ sources shared_radius_grid
        = filled srcs (length (def_frames shared_radius)
                       * length (def_objects shared_radius))
      ∧ length srcs = (length (def_objects shared_radius)
                       * length (def_frames shared_radius))%nat
      ∧ ∀ (k : nat) o, gos !! k = Some o →
          sources_first o = (k * length (def_frames shared_radius))%nat
          ∧ sources_last o
            = (k * length (def_frames shared_radius)
               + length (def_frames shared_radius))%nat
          ∧ ∀ (j : nat), (j < length (def_frames shared_radius))%nat →
              ∃ s, srcs !! (k * length (def_frames shared_radius) + j)%nat = Some s
                   ∧ source_object s = k ∧ source_frame s = j.
Proof.
  split.
  - vm_compute. reflexivity.
  - apply (sources_are_the_cross_product accept shared_radius 1 6).
    vm_compute. reflexivity.
Defined.

End SourceClaimsWitness.

(** ** Errors of Source construction *)

Section SourceErrors.
Context `{Services}.
Variable validate : grid_Object → option Exception.

(** C8.  The constructor of a Source, called with the coordinate system
    that the Grid copies from the Definition, throws the
    inconsistent-coordinate-system error exactly when the Definition has a
    coordinate system and the Frame has none, or the Definition has none and
    the Frame has one. *)
Theorem coordinate_system_error_iff (definition : multifit_Definition)
    (fi oi : nat) (frame_ : grid_Frame) (object_ : grid_Object) :
  (∃ e, Source_ctor fi oi frame_ object_ (_wcs (Grid_members definition)) = Throw e
        ∧ errorKind e = InconsistentCoordinateSystem)
  ↔ (is_Some (def_wcs definition) ∧ frame_wcs (gf_base frame_) = None)
    ∨ (def_wcs definition = None ∧ is_Some (frame_wcs (gf_base frame_))).
Proof.
  unfold Source_ctor, Grid_members. cbn [_wcs].
  destruct (def_wcs definition) as [w|], (frame_wcs (gf_base frame_)) as [fw|].
  - split.
    + intros (e & He & Hk). exfalso.
      destruct (g_position object_) as [p|], (_psf (gf_base frame_)) as [psf|],
               (_basis (go_base object_)) as [b|];
        cbn in He;
        first [discriminate He | inversion He; subst e; discriminate Hk].
    + intros [[_ ?]|[? _]]; done.
  - split; [left; eauto|]. intros _. eexists. split; [reflexivity|done].
  - split; [right; eauto|]. intros _. eexists. split; [reflexivity|done].
  - split.
    + intros (e & He & Hk). exfalso.
      destruct (g_position object_) as [p|], (_psf (gf_base frame_)) as [psf|],
               (_basis (go_base object_)) as [b|];
        cbn in He;
        first [discriminate He | inversion He; subst e; discriminate Hk].
    + intros [[[? ?] _]|[_ [? ?]]]; done.
Qed.




End SourceErrors.

Section SourceErrorExamples.
Import Example.



(** C3 at its failing input.  The constructor of the only Source throws,
    for the coordinate system of the Frame.  At the [throw] one Object and
    one Frame have been constructed and no Source; the handler calls the
    destructor on slot 0 of the source array, in which no Source has been
    constructed, before it comes to the Object and the Frame. *)
Theorem handler_destroys_unconstructed_source :
  ∃ e g,
    initializeGrid_try accept stray_wcs 1 (reset_cursors (Grid_members stray_wcs))
    = Exc e g
    ∧ Grid_ctor accept stray_wcs 1 = Propagated e (destroyGrid g)
    ∧ constructed_elements g = [(ObjectArena, 0%nat); (FrameArena, 0%nat)]
    ∧ destroyGrid g
      = [(SourceArena, 0%nat); (ObjectArena, 0%nat); (FrameArena, 0%nat)]
    ∧ slots (sources g) !! 0%nat = Some None.
Proof.
  eexists _, _. split; [vm_compute; reflexivity|].
  split; [vm_compute; reflexivity|].
  split; [vm_compute; reflexivity|].
  split; vm_compute; reflexivity.
Qed.

End SourceErrorExamples.

(** ** The layout of the parameters *)

Section LayoutProperties.
Context `{Services}.
Variable validate : grid_Object → option Exception.

Lemma tiles_laid_out (E : ParameterType)
    (l : list (shared_ptr grid_ParameterComponent)) :
  ∀ (o e : Z), tiles E o l e → laid_out o (map (pair E) l) e.
Proof.
  induction l as [|p l IH]; intros o e Ht; cbn in *; [done|].
  destruct Ht as [Hp Ht]. split; [done|]. by apply IH.
Qed.

Lemma laid_out_app
    (l1 l2 : list (ParameterType * shared_ptr grid_ParameterComponent)) :
  ∀ (o m e : Z), laid_out o l1 m → laid_out m l2 e → laid_out o (l1 ++ l2) e.
Proof.
  induction l1 as [|[E p] l1 IH]; intros o m e H1 H2; cbn in *.
  - by subst.
  - destruct H1 as [Hp H1]. split; [done|]. by eapply IH.
Qed.

(** Ranges that are laid out with positive sizes are inside [[o, e)],
    do not overlap, and leave no gap. *)
Lemma laid_out_partition
    (l : list (ParameterType * shared_ptr grid_ParameterComponent)) :
  (∀ E, 0 < SIZE E) →
  ∀ (o e : Z), laid_out o l e →
  o <= e
  ∧ (∀ (i : nat) E p, l !! i = Some (E, p) →
       o <= offset (pointee p) ∧ offset (pointee p) + SIZE E <= e)
  ∧ (∀ k, o <= k < e →
       ∃ (i : nat) E p, l !! i = Some (E, p)
         ∧ offset (pointee p) <= k < offset (pointee p) + SIZE E)
  ∧ (∀ k (i j : nat) E p E' p',
       l !! i = Some (E, p) → l !! j = Some (E', p') →
       offset (pointee p) <= k < offset (pointee p) + SIZE E →
       offset (pointee p') <= k < offset (pointee p') + SIZE E' →
       i = j).
Proof.
  intros Hsize. induction l as [|[E p] l IH]; intros o e Hl; cbn in Hl.
  - subst. split; [lia|]. split; [intros i E p Hi; by rewrite lookup_nil in Hi|].
    split; [intros k Hk; lia|]. intros k i j E p E' p' Hi. by rewrite lookup_nil in Hi.
  - destruct Hl as [Hp Hl]. specialize (Hsize E) as HE.
    destruct (IH _ _ Hl) as (I1 & I2 & I3 & I4).
    split; [lia|]. split.
    { intros [|i] E' p' Hi; cbn in Hi.
      - inversion Hi; subst. lia.
      - destruct (I2 i E' p' Hi). lia. }
    split.
    { intros k Hk. destruct (decide (k < o + SIZE E)) as [Hlt|Hge].
      - exists 0%nat, E, p. split; [done|]. lia.
      - destruct (I3 k ltac:(lia)) as (i & E' & p' & Hi & Hr).
        exists (S i), E', p'. by split. }
    intros k [|i] [|j] E1 p1 E2 p2 Hi Hj R1 R2; cbn in Hi, Hj.
    + done.
    + inversion Hi; subst. destruct (I2 j E2 p2 Hj). lia.
    + inversion Hj; subst. destruct (I2 i E1 p1 Hi). lia.
    + f_equal. by eapply I4.
Qed.

Lemma registered_components_elem (g : Grid) (E : ParameterType)
    (p : shared_ptr grid_ParameterComponent) :
  (E, p) ∈ registered_components g ↔ p ∈ container E g.
Proof.
  unfold registered_components. rewrite !elem_of_app, !list_elem_of_fmap.
  split.
  - intros [(q & Hq & ?)|[(q & Hq & ?)|(q & Hq & ?)]]; by inversion Hq; subst.
  - intros Hp. destruct E; cbn in Hp; eauto 6.
Qed.

Lemma components_registered_kind (input : multifit_Definition)
    (heap heap' : positive)
    (unique : ParameterType → gmap positive (shared_ptr grid_ParameterComponent))
    (c : ParameterType → list (shared_ptr grid_ParameterComponent))
    (pc : Z) (gos : list grid_Object) (E : ParameterType) :
  components_registered input heap heap' unique c pc gos →
  ∃ heap0 heap1 pc0 pc1,
    registry_inv E heap0 pc0 [] (def_objects input) (unique E) heap1 (c E) pc1.
Proof.
  intros (h1 & h2 & pc1 & pc2 & R1 & R2 & R3 & _). destruct E; eauto.
Qed.

(** A component held by a grid Object is the counterpart, by [unique], of
    the component that the Object of the Definition holds. *)
Lemma component_of_object (input : multifit_Definition) (heap heap' : positive)
    (unique : ParameterType → gmap positive (shared_ptr grid_ParameterComponent))
    (c : ParameterType → list (shared_ptr grid_ParameterComponent))
    (pc : Z) (gos : list grid_Object) (i : nat) (o : grid_Object)
    (E : ParameterType) (p : shared_ptr grid_ParameterComponent) :
  components_registered input heap heap' unique c pc gos →
  gos !! i = Some o → g_getComponent E o = Some p →
  ∃ d dp, def_objects input !! i = Some d ∧ d_getComponent E d = Some dp
          ∧ unique E !! address dp = Some p.
Proof.
  intros (h1 & h2 & pc1 & pc2 & _ & _ & _ & HM & Hmir) Ho Hp.
  destruct (def_objects input !! i) as [d|] eqn:Hd.
  2:{ apply lookup_ge_None in Hd. apply lookup_lt_Some in Ho. lia. }
  destruct (Hmir i d o Hd Ho) as [_ Hc]. specialize (Hc E).
  destruct (d_getComponent E d) as [dp|] eqn:Hdp; [|congruence].
  destruct Hc as (p' & Hu & Hg). exists d, dp.
  split; [done|]. split; [done|]. congruence.
Qed.

(** C2.  In a constructed Grid the unique active components, taken in the
    order positions, radii, ellipticities in which they were registered, lie
    one after the other from offset 0 to the parameter count; the container
    of a kind holds the counterparts of the active components of that kind in
    the order in which a walk over the Objects, in array order, sees each
    instance for the first time.  A component held by an Object is in its
    container if it is active, and has the offset -1 and no place in the
    container if it is not; every component of a container is active and held
    by some Object.  So, with positive component sizes, every parameter of
    [[0, parameterCount)] is in the range of exactly one active component,
    and every such range is inside [[0, parameterCount)].  At a first
    registration an active component gets the parameter count of that moment
    as its offset and the count grows by the size of the kind; an inactive
    component gets -1 and the count stays. *)
Theorem offsets_partition (input : multifit_Definition) (heap heap' : positive)
    (g : Grid) :
  Grid_ctor validate input heap = Constructed (heap', g) →
  laid_out 0 (registered_components g) (_parameterCount g)
  ∧ (∃ gos, objects g = filled gos (length (def_objects input))
       ∧ (∀ E,
            Forall2
              (fun dp p =>
                 ∀ (i : nat) d o dp',
                   def_objects input !! i = Some d → gos !! i = Some o →
                   d_getComponent E d = Some dp' → same_instance dp' dp →
                   g_getComponent E o = Some p)
              (filter (fun dp => d_active (pointee dp) = true)
                 (first_sights E ∅ (def_objects input)))
              (container E g))
       ∧ (∀ (i : nat) o E p, gos !! i = Some o → g_getComponent E o = Some p →
            if g_active (pointee p)
            then p ∈ container E g
            else offset (pointee p) = -1 ∧ p ∉ container E g)
       ∧ (∀ E p, p ∈ container E g →
            g_active (pointee p) = true
            ∧ ∃ (i : nat) o, gos !! i = Some o ∧ g_getComponent E o = Some p))
  ∧ ((∀ E, 0 < SIZE E) →
     (∀ k, 0 <= k < _parameterCount g →
        ∃ E p, covers g E p k
               ∧ ∀ E' p', covers g E' p' k → E' = E ∧ p' = p)
     ∧ (∀ E p k, covers g E p k → 0 <= k < _parameterCount g))
  ∧ (∀ E dp unique h g0, unique !! address dp = None →
       ∃ p g1,
         register_component E dp unique h g0
         = Ret (p, <[address dp := p]> unique, Pos.succ h) g1
         ∧ if d_active (pointee dp)
           then offset (pointee p) = _parameterCount g0
                ∧ _parameterCount g1 = _parameterCount g0 + SIZE E
                ∧ container E g1 = container E g0 ++ [p]
           else offset (pointee p) = -1 ∧ g1 = g0).
Proof.
  intros Hctor.
  destruct (Grid_ctor_Constructed validate input heap heap' g Hctor)
    as (gfs & gos & srcs & unique & _ & _ & Ho & _ & _ & _ & Hreg & _).
  assert (laid_out 0 (registered_components g) (_parameterCount g)) as Hlaid.
  { destruct Hreg as (h1 & h2 & pc1 & pc2 & R1 & R2 & R3 & _).
    destruct R1 as (n1 & C1 & T1 & _), R2 as (n2 & C2 & T2 & _),
             R3 as (n3 & C3 & T3 & _).
    cbn [container app] in C1, C2, C3. unfold registered_components.
    rewrite C1, C2, C3.
    eapply laid_out_app; [by apply tiles_laid_out|].
    eapply laid_out_app; by apply tiles_laid_out. }
  split; [done|]. split.
  { exists gos. split; [done|]. split.
    { intros E.
      destruct (components_registered_kind _ _ _ _ _ _ _ E Hreg)
        as (heap0 & heap1 & pc0 & pc1 & news & Hc & _ & _ & _ & _ & _ & _ & _ & Hord).
      cbn [app] in Hc. rewrite Hc.
      eapply Forall2_impl; [exact Hord|]. intros dp p Hu i d o dp' Hd Hgo Hdp Hs.
      cbn in Hu.
      destruct Hreg as (_ & _ & _ & _ & _ & _ & _ & HM & Hmir).
      destruct (Hmir i d o Hd Hgo) as [_ Hcomp]. specialize (Hcomp E).
      rewrite Hdp in Hcomp. destruct Hcomp as (p' & Hu' & ->).
      unfold same_instance in Hs. rewrite Hs in Hu'. congruence. }
    split.
    - intros i o E p Hgo Hp.
      destruct (component_of_object _ _ _ _ _ _ _ _ _ _ _ Hreg Hgo Hp)
        as (d & dp & Hd & Hdp & Hu).
      destruct (components_registered_kind _ _ _ _ _ _ _ E Hreg)
        as (heap0 & heap1 & pc0 & pc1 & news & Hc & _ & _ & Hun & Hn & _).
      cbn [app] in Hc.
      destruct (Hun _ _ Hu) as (_ & _ & Hact & Hinact & _).
      destruct (g_active (pointee p)) eqn:Ha.
      + rewrite Hc. by apply Hact.
      + split; [by apply Hinact|]. rewrite Hc. intros Hin.
        destruct (Hn p Hin) as [Ht _]. congruence.
    - intros E p Hin.
      destruct (components_registered_kind _ _ _ _ _ _ _ E Hreg)
        as (heap0 & heap1 & pc0 & pc1 & news & Hc & _ & _ & Hun & Hn & _).
      cbn [app] in Hc. rewrite Hc in Hin.
      destruct (Hn p Hin) as [Ha [a Hu]]. split; [done|].
      destruct (Hun _ _ Hu) as (_ & _ & _ & _ & d & dp & Hd & Hdp & Haddr & _).
      apply list_elem_of_lookup in Hd as [i Hd].
      destruct Hreg as (_ & _ & _ & _ & _ & _ & _ & HM & Hmir).
      destruct (gos !! i) as [o|] eqn:Hgo.
      2:{ apply lookup_ge_None in Hgo. apply lookup_lt_Some in Hd. lia. }
      exists i, o. split; [done|].
      destruct (Hmir i d o Hd Hgo) as [_ Hcomp]. specialize (Hcomp E).
      rewrite Hdp in Hcomp. destruct Hcomp as (p' & Hu' & ->).
      rewrite Haddr in Hu'. congruence. }
  split.
  { intros Hsize.
    destruct (laid_out_partition _ Hsize _ _ Hlaid) as (P1 & P2 & P3 & P4).
    split.
    - intros k Hk. destruct (P3 k Hk) as (i & E & p & Hi & Hr).
      exists E, p. split.
      + split; [|done]. apply registered_components_elem, list_elem_of_lookup. eauto.
      + intros E' p' [Hin' Hr'].
        apply registered_components_elem, list_elem_of_lookup in Hin' as [j Hj].
        assert (j = i) as -> by (by eapply (P4 k)).
        rewrite Hi in Hj. by inversion Hj.
    - intros E p k [Hin Hr].
      apply registered_components_elem, list_elem_of_lookup in Hin as [i Hi].
      destruct (P2 i E p Hi). lia. }
  intros E dp unique0 h g0 Hnew. unfold register_component. rewrite Hnew.
  destruct (d_active (pointee dp)).
  - eexists _, _. split; [reflexivity|]. cbn. split; [done|]. split; [done|].
    by destruct E.
  - eexists _, _. split; [reflexivity|]. done.
Qed.

End LayoutProperties.

Section LayoutWitness.
Import Example.

Lemma offsets_partition_witness :
  Grid_ctor accept shared_radius 1 = Constructed (6%positive, shared_radius_grid)
  ∧ laid_out 0 (registered_components shared_radius_grid)
      (_parameterCount shared_radius_grid)
  ∧ (∀ k, 0 <= k < _parameterCount shared_radius_grid →
       ∃ E p, covers shared_radius_grid E p k
              ∧ ∀ E' p', covers shared_radius_grid E' p' k → E' = E ∧ p' = p)
  ∧ (∀ E p k, covers shared_radius_grid E p k →
       0 <= k < _parameterCount shared_radius_grid).
Proof.
  assert (∀ E, 0 < SIZE E) as Hsize by (intros []; reflexivity).
  assert (Grid_ctor accept shared_radius 1
          = Constructed (6%positive, shared_radius_grid)) as Hctor
    by (vm_compute; reflexivity).
  split; [exact Hctor|].
  destruct (offsets_partition accept shared_radius 1 6 shared_radius_grid Hctor)
    as (W1 & _ & W2 & _).
  destruct (W2 Hsize) as [W3 W4].
  exact (conj W1 (conj W3 W4)).
Defined.

End LayoutWitness.

(** ** [transferComponents], Grid to Definition *)

Section TransferBack.
Context `{Services}.

(** A first sight, or a repeat sight, of a grid component. *)
Lemma register_back_inv (E : ParameterType) (paramIter : option (Z → Scalar))
    (heap0 : positive) (seen : list grid_Object) (o : grid_Object)
    (gp : shared_ptr grid_ParameterComponent)
    (unique : gmap positive (shared_ptr definition_ParameterComponent))
    (heap : positive) :
  registry_back_inv E paramIter heap0 seen unique heap →
  g_getComponent E o = Some gp →
  ∃ p unique' heap',
    register_back E gp unique heap paramIter = (p, unique', heap')
    ∧ unique' !! address gp = Some p
    ∧ unique ⊆ unique'
    ∧ registry_back_inv E paramIter heap0 (seen ++ [o]) unique' heap'.
Proof.
  intros (Hh & Hu & Hinj & Hseen) Ho. unfold register_back.
  destruct (unique !! address gp) as [p|] eqn:Hlook.
  - exists p, unique, heap. split; [done|]. split; [done|]. split; [done|].
    split; [done|]. split.
    { intros a q Hq. destruct (Hu a q Hq) as (G1 & G2 & o' & gp' & Hin & G3).
      split; [done|]. split; [done|]. exists o', gp'. split; [|done].
      apply elem_of_app. by left. }
    split; [done|].
    intros o' gp' Hin Ho'. apply elem_of_app in Hin as [Hin|Hin].
    + by eapply Hseen.
    + apply list_elem_of_singleton in Hin as ->.
      assert (gp' = gp) as -> by congruence. by rewrite Hlook.
  - assert (∀ a q, unique !! a = Some q → address q ≠ heap) as Hfresh.
    { intros a q Hq. apply Hu in Hq as (_ & Hlt & _). lia. }
    eexists _, _, _. split; [reflexivity|].
    split; [by rewrite lookup_insert_eq|].
    split; [by apply insert_subseteq|].
    split; [lia|]. split.
    { intros a q Hq. destruct (decide (a = address gp)) as [->|Hne].
      - rewrite lookup_insert_eq in Hq. inversion Hq; subst q. cbn [address pointee].
        split; [lia|]. split; [lia|]. exists o, gp.
        split; [apply elem_of_app; right; by apply list_elem_of_singleton|].
        split; [done|]. split; [done|].
        unfold value_back, definition_ParameterComponent_make.
        destruct paramIter as [iter|]; cbn; [|done].
        by destruct (g_active (pointee gp)).
      - rewrite lookup_insert_ne in Hq by done.
        destruct (Hu a q Hq) as (G1 & G2 & o' & gp' & Hin & G3).
        split; [done|]. split; [lia|]. exists o', gp'. split; [|done].
        apply elem_of_app. by left. }
    split.
    { intros a1 a2 p1 p2 H1 H2 Heq.
      destruct (decide (a1 = address gp)) as [->|N1],
               (decide (a2 = address gp)) as [->|N2]; [done| | |].
      - rewrite lookup_insert_eq in H1. rewrite lookup_insert_ne in H2 by done.
        inversion H1; subst p1. exfalso. eapply Hfresh; [exact H2|]. by rewrite <- Heq.
      - rewrite lookup_insert_eq in H2. rewrite lookup_insert_ne in H1 by done.
        inversion H2; subst p2. exfalso. eapply Hfresh; [exact H1|]. by rewrite Heq.
      - rewrite lookup_insert_ne in H1, H2 by done. by eapply Hinj. }
    intros o' gp' Hin Ho'. apply elem_of_app in Hin as [Hin|Hin].
    { destruct (decide (address gp' = address gp)) as [->|Hne].
      - by rewrite lookup_insert_eq.
      - rewrite lookup_insert_ne by done. by eapply Hseen. }
    apply list_elem_of_singleton in Hin as ->.
    assert (gp' = gp) as -> by congruence. by rewrite lookup_insert_eq.
Qed.

Lemma registry_back_inv_skip (E : ParameterType) (paramIter : option (Z → Scalar))
    (heap0 : positive) (seen : list grid_Object) (o : grid_Object)
    (unique : gmap positive (shared_ptr definition_ParameterComponent))
    (heap : positive) :
  registry_back_inv E paramIter heap0 seen unique heap →
  g_getComponent E o = None →
  registry_back_inv E paramIter heap0 (seen ++ [o]) unique heap.
Proof.
  intros (Hh & Hu & Hinj & Hseen) Ho. split; [done|]. split.
  { intros a q Hq. destruct (Hu a q Hq) as (G1 & G2 & o' & gp' & Hin & G3).
    split; [done|]. split; [done|]. exists o', gp'. split; [|done].
    apply elem_of_app. by left. }
  split; [done|].
  intros o' gp' Hin Ho'. apply elem_of_app in Hin as [Hin|Hin].
  - by eapply Hseen.
  - apply list_elem_of_singleton in Hin as ->. congruence.
Qed.

Lemma transferred_back_mono (E : ParameterType)
    (unique unique' : gmap positive (shared_ptr definition_ParameterComponent))
    (o : grid_Object) (d0 d : definition_Object) :
  unique ⊆ unique' → transferred_back E unique o d0 d →
  transferred_back E unique' o d0 d.
Proof.
  intros Hsub. unfold transferred_back. destruct (g_getComponent E o); [|done].
  intros (p & Hp & Hd). exists p. split; [|done]. by eapply lookup_weaken.
Qed.

(** The walk over the grid Objects, from any point of it on: it does not
    run past the Objects of the Definition when there are as many of them
    as grid Objects. *)
Lemma transferComponents_back_loop_spec (E : ParameterType)
    (paramIter : option (Z → Scalar)) (heap0 : positive)
    (ds0 : list definition_Object) (gi : list grid_Object) :
  ∀ (seen : list grid_Object) (di : nat)
    (unique : gmap positive (shared_ptr definition_ParameterComponent))
    (heap : positive) (ds : list definition_Object),
  length seen = di → (di + length gi = length ds0)%nat →
  registry_back_inv E paramIter heap0 seen unique heap →
  objects_back_inv E unique seen ds0 ds →
  ∃ heap' ds' unique',
    transferComponents_back_loop E gi di unique heap paramIter ds
    = Normal (heap', ds')
    ∧ registry_back_inv E paramIter heap0 (seen ++ gi) unique' heap'
    ∧ objects_back_inv E unique' (seen ++ gi) ds0 ds'.
Proof.
  induction gi as [|o gi IH]; intros seen di unique heap ds Hdi Hlen Hreg Hobj.
  - exists heap, ds, unique. cbn. rewrite app_nil_r. done.
  - cbn [transferComponents_back_loop length] in *.
    destruct Hobj as (Hl0 & Hdone & Hrest).
    destruct (ds !! di) as [d|] eqn:Hd.
    2:{ apply lookup_ge_None in Hd. lia. }
    assert (ds0 !! di = Some d) as Hd0 by (rewrite <- Hrest by lia; done).
    destruct (g_getComponent E o) as [gp|] eqn:Ho.
    + destruct (register_back_inv E paramIter heap0 seen o gp unique heap Hreg Ho)
        as (p & unique1 & heap1 & Hrun & Hp & Hsub & Hreg1).
      rewrite Hrun.
      destruct (IH (seen ++ [o]) (S di) unique1 heap1
                  (<[di := d_setComponent E (Some p) d]> ds))
        as (heap' & ds' & unique' & Hrun' & G1 & G2).
      * rewrite length_app. cbn. lia.
      * lia.
      * done.
      * split; [by rewrite length_insert|]. split.
        -- intros i o' d0 Ho' Hd0'.
           destruct (decide (i = di)) as [->|Hne].
           ++ rewrite lookup_app_r in Ho' by lia.
              replace (di - length seen)%nat with 0%nat in Ho' by lia.
              cbn in Ho'. inversion Ho'; subst o'.
              assert (d0 = d) as -> by congruence.
              exists (d_setComponent E (Some p) d).
              split; [apply list_lookup_insert_eq; by eapply lookup_lt_Some|].
              unfold transferred_back. rewrite Ho. by exists p.
           ++ assert (i < di)%nat as Hi.
              { apply lookup_lt_Some in Ho'. rewrite length_app in Ho'.
                cbn in Ho'. lia. }
              rewrite lookup_app_l in Ho' by lia.
              destruct (Hdone i o' d0 Ho' Hd0') as (d' & Hd' & Htr).
              exists d'. split; [by rewrite list_lookup_insert_ne|].
              by eapply transferred_back_mono.
        -- intros i Hi. rewrite length_app in Hi. cbn in Hi.
           rewrite list_lookup_insert_ne by lia. apply Hrest. lia.
      * exists heap', ds', unique'. rewrite Hrun'.
        rewrite <- app_assoc in G1, G2. done.
    + destruct (IH (seen ++ [o]) (S di) unique heap ds)
        as (heap' & ds' & unique' & Hrun' & G1 & G2).
      * rewrite length_app. cbn. lia.
      * lia.
      * by apply registry_back_inv_skip.
      * split; [done|]. split.
        -- intros i o' d0 Ho' Hd0'.
           destruct (decide (i = di)) as [->|Hne].
           ++ rewrite lookup_app_r in Ho' by lia.
              replace (di - length seen)%nat with 0%nat in Ho' by lia.
              cbn in Ho'. inversion Ho'; subst o'.
              assert (d0 = d) as -> by congruence.
              exists d. split; [done|]. unfold transferred_back. by rewrite Ho.
           ++ assert (i < di)%nat as Hi.
              { apply lookup_lt_Some in Ho'. rewrite length_app in Ho'.
                cbn in Ho'. lia. }
              rewrite lookup_app_l in Ho' by lia. by apply Hdone.
        -- intros i Hi. rewrite length_app in Hi. cbn in Hi. apply Hrest. lia.
      * exists heap', ds', unique'. rewrite Hrun'.
        rewrite <- app_assoc in G1, G2. done.
Qed.

End TransferBack.

(** ** [makeDefinition] *)

Section MakeDefinition.
Context `{Services}.

(** Inserting an element above all elements of a Set puts it last. *)
Lemma Set_insert_above {T : Type} `{Identified T} (x : T) (s : list T) :
  (∀ y, y ∈ s → id_of y < id_of x) → Set_insert x s = s ++ [x].
Proof.
  induction s as [|y s IH]; intros Hall; cbn; [done|].
  assert (id_of y < id_of x) as Hy by (apply Hall; by left).
  destruct (decide (id_of x < id_of y)); [lia|].
  destruct (decide (id_of x = id_of y)); [lia|].
  rewrite IH; [done|]. intros z Hz. apply Hall. by right.
Qed.

(** Inserting the images of elements that are sorted by distinct
    identifiers, one after the other, gives their images in the same order. *)
Lemma fold_Set_insert_sorted {A T : Type} `{Identified A} `{Identified T}
    (f : A → T) (l : list A) :
  (∀ x, id_of (f x) = id_of x) →
  ∀ (s : list T),
  strictly_sorted_by_id l →
  (∀ y x, y ∈ s → x ∈ l → id_of y < id_of x) →
  fold_left (fun s i => Set_insert (f i) s) l s = s ++ map f l.
Proof.
  intros Hid. induction l as [|x l IH]; intros s Hsorted Hlow; cbn.
  - by rewrite app_nil_r.
  - rewrite Set_insert_above.
    2:{ intros y Hy. rewrite Hid. apply Hlow; [done|by left]. }
    rewrite IH.
    + by rewrite <- app_assoc.
    + intros i j a b Hij Ha Hb. by apply (Hsorted (S i) (S j) a b ltac:(lia)).
    + intros y z Hy Hz. apply elem_of_app in Hy as [Hy|Hy].
      * apply Hlow; [done|by right].
      * apply list_elem_of_singleton in Hy as ->. rewrite Hid.
        apply list_elem_of_lookup in Hz as [j Hj].
        by apply (Hsorted 0%nat (S j) x z ltac:(lia)).
Qed.

Lemma transferComponents_back_spec (E : ParameterType)
    (paramIter : option (Z → Scalar)) (gos : list grid_Object)
    (ds0 : list definition_Object) (heap : positive) :
  length ds0 = length gos →
  ∃ heap' ds unique,
    transferComponents_back E gos ds0 paramIter heap = Normal (heap', ds)
    ∧ registry_back_inv E paramIter heap gos unique heap'
    ∧ objects_back_inv E unique gos ds0 ds.
Proof.
  intros Hlen. unfold transferComponents_back.
  apply (transferComponents_back_loop_spec E paramIter heap ds0 gos [] 0%nat
           ∅ heap ds0).
  - done.
  - cbn. lia.
  - split; [lia|]. split_and!; try done.
    intros o gp Ho. by apply elem_of_nil in Ho.
  - split; [done|]. split; [|done]. intros i o d0 Ho. by rewrite lookup_nil in Ho.
Qed.

Lemma d_getComponent_set (E E' : ParameterType) (p : DPtr) (d : definition_Object) :
  d_getComponent E (d_setComponent E' p d)
  = if decide (E = E') then p else d_getComponent E d.
Proof. by destruct E, E'. Qed.

Lemma transferred_back_base (E : ParameterType)
    (unique : gmap positive (shared_ptr definition_ParameterComponent))
    (o : grid_Object) (d0 d : definition_Object) :
  transferred_back E unique o d0 d →
  d_base d = d_base d0
  ∧ (∀ E', E' ≠ E → d_getComponent E' d = d_getComponent E' d0)
  ∧ match g_getComponent E o with
    | None => d_getComponent E d = d_getComponent E d0
    | Some gp => ∃ p, unique !! address gp = Some p ∧ d_getComponent E d = Some p
    end.
Proof.
  unfold transferred_back. destruct (g_getComponent E o) as [gp|].
  - intros (p & Hp & ->). split_and!; try done.
    + intros E' HE. rewrite d_getComponent_set. by destruct (decide (E' = E)).
    + exists p. split; [done|]. rewrite d_getComponent_set.
      by destruct (decide (E = E)).
  - intros ->. by split_and!.
Qed.

Lemma mirrors_back_after_walks (o : grid_Object) (da db dc : definition_Object)
    (u1 u2 u3 : gmap positive (shared_ptr definition_ParameterComponent)) :
  transferred_back POSITION u1 o (definition_Object_of o) da →
  transferred_back RADIUS u2 o da db →
  transferred_back ELLIPTICITY u3 o db dc →
  mirrors_back (fun E => match E with
                         | POSITION => u1 | RADIUS => u2 | ELLIPTICITY => u3
                         end) o dc.
Proof.
  intros T1 T2 T3.
  apply transferred_back_base in T1 as (B1 & O1 & C1).
  apply transferred_back_base in T2 as (B2 & O2 & C2).
  apply transferred_back_base in T3 as (B3 & O3 & C3).
  split; [by rewrite B3, B2, B1|]. intros E. destruct E.
  - rewrite (O3 POSITION), (O2 POSITION) by done.
    destruct (g_getComponent POSITION o); [done|]. by rewrite C1.
  - rewrite (O3 RADIUS) by done.
    destruct (g_getComponent RADIUS o); [done|].
    rewrite C2, (O1 RADIUS) by done. done.
  - destruct (g_getComponent ELLIPTICITY o); [done|].
    rewrite C3, (O2 ELLIPTICITY), (O1 ELLIPTICITY) by done. done.
Qed.

(** [makeDefinition] on a Grid that has a coordinate system and whose
    Objects are sorted by distinct identifiers: it returns a Definition
    whose Objects mirror the grid Objects. *)
Lemma makeDefinition_spec (g : Grid) (paramIter : option (Z → Scalar))
    (heap : positive) (w : Wcs) (gfs : list grid_Frame) (gos : list grid_Object)
    (cf co : nat) :
  _wcs g = Some w →
  frames g = filled gfs cf → (length gfs <= cf)%nat →
  objects g = filled gos co → (length gos <= co)%nat →
  strictly_sorted_by_id gos →
  ∃ (heap' : positive) (result : multifit_Definition)
    (unique : ParameterType → gmap positive (shared_ptr definition_ParameterComponent)),
    makeDefinition g paramIter heap = Normal (heap', result)
    ∧ def_wcs result = Some (clone w)
    ∧ length (def_objects result) = length gos
    ∧ (∀ (i : nat) o d, gos !! i = Some o → def_objects result !! i = Some d →
         mirrors_back unique o d)
    ∧ (∀ E, ∃ h0 h1, registry_back_inv E paramIter h0 gos (unique E) h1).
Proof.
  intros Hw Hf Hcf Ho Hco Hsorted. unfold makeDefinition.
  rewrite Hw, Hf, Ho. cbn [bindO].
  rewrite !elements_filled by done. cbn [bindO].
  rewrite (fold_Set_insert_sorted definition_Object_of gos) by
    (done || intros y x Hy; by apply elem_of_nil in Hy).
  cbn [app].
  destruct (transferComponents_back_spec POSITION paramIter gos
              (map definition_Object_of gos) heap ltac:(by rewrite length_map))
    as (h1 & da & u1 & Hrun1 & R1 & I1).
  rewrite Hrun1. cbn [bindO fst snd].
  assert (length da = length gos) as Hla
    by (destruct I1 as [-> _]; by rewrite length_map).
  destruct (transferComponents_back_spec RADIUS paramIter gos da h1 Hla)
    as (h2 & db & u2 & Hrun2 & R2 & I2).
  rewrite Hrun2. cbn [bindO fst snd].
  assert (length db = length gos) as Hlb by (destruct I2 as [-> _]; done).
  destruct (transferComponents_back_spec ELLIPTICITY paramIter gos db h2 Hlb)
    as (h3 & dc & u3 & Hrun3 & R3 & I3).
  rewrite Hrun3. cbn [bindO fst snd].
  assert (length dc = length gos) as Hlc by (destruct I3 as [-> _]; done).
  eexists h3, _,
    (fun E => match E with POSITION => u1 | RADIUS => u2 | ELLIPTICITY => u3 end).
  split; [reflexivity|]. cbn [def_wcs def_objects].
  split; [done|]. split; [done|]. split.
  - intros i o d Hgo Hd.
    destruct I1 as (_ & I1 & _), I2 as (_ & I2 & _), I3 as (_ & I3 & _).
    destruct (I1 i o (definition_Object_of o) Hgo) as (da' & Hda & T1).
    { by rewrite list_lookup_fmap, Hgo. }
    destruct (I2 i o da' Hgo Hda) as (db' & Hdb & T2).
    destruct (I3 i o db' Hgo Hdb) as (dc' & Hdc & T3).
    assert (dc' = d) as -> by congruence.
    by eapply mirrors_back_after_walks.
  - intros []; eauto.
Qed.

(** Without a coordinate system on the Grid, [makeDefinition] dereferences
    the null pointer that [getWcs()] returns. *)
Lemma makeDefinition_null_wcs (g : Grid) (paramIter : option (Z → Scalar))
    (heap : positive) :
  _wcs g = None → makeDefinition g paramIter heap = Fault NullDereference.
Proof. intros Hw. unfold makeDefinition. by rewrite Hw. Qed.

End MakeDefinition.

(** ** Sharing, through both transformations *)

Section Sharing.
Context `{Services}.
Variable validate : grid_Object → option Exception.

(** Definition to Grid: two Objects that hold components of a kind hold
    grid components that are one instance if the components are one instance,
    and distinct instances if not. *)
Lemma sharing_forward (input : multifit_Definition) (heap heap' : positive)
    (g : Grid) :
  Grid_ctor validate input heap = Constructed (heap', g) →
  ∃ gos, objects g = filled gos (length (def_objects input))
    ∧ length gos = length (def_objects input)
    ∧ ∀ E (i1 i2 : nat) d1 d2 dp1 dp2,
        def_objects input !! i1 = Some d1 → def_objects input !! i2 = Some d2 →
        d_getComponent E d1 = Some dp1 → d_getComponent E d2 = Some dp2 →
        ∃ o1 o2 gp1 gp2,
          gos !! i1 = Some o1 ∧ gos !! i2 = Some o2
          ∧ g_getComponent E o1 = Some gp1 ∧ g_getComponent E o2 = Some gp2
          ∧ (same_instance dp1 dp2 → gp1 = gp2)
          ∧ (¬ same_instance dp1 dp2 → ¬ same_instance gp1 gp2).
Proof.
  intros Hctor.
  destruct (Grid_ctor_Constructed validate input heap heap' g Hctor)
    as (gfs & gos & srcs & unique & _ & _ & Ho & _ & _ & _ & Hreg & _).
  exists gos. split; [done|].
  pose proof Hreg as (_ & _ & _ & _ & _ & _ & _ & HM & Hmir).
  split; [done|].
  intros E i1 i2 d1 d2 dp1 dp2 H1 H2 Hd1 Hd2.
  destruct (gos !! i1) as [o1|] eqn:Ho1.
  2:{ apply lookup_ge_None in Ho1. apply lookup_lt_Some in H1. lia. }
  destruct (gos !! i2) as [o2|] eqn:Ho2.
  2:{ apply lookup_ge_None in Ho2. apply lookup_lt_Some in H2. lia. }
  destruct (Hmir i1 d1 o1 H1 Ho1) as [_ C1]. specialize (C1 E).
  destruct (Hmir i2 d2 o2 H2 Ho2) as [_ C2]. specialize (C2 E).
  rewrite Hd1 in C1. rewrite Hd2 in C2.
  destruct C1 as (gp1 & U1 & G1), C2 as (gp2 & U2 & G2).
  exists o1, o2, gp1, gp2. split_and!; try done.
  - unfold same_instance. intros Heq. rewrite Heq in U1. congruence.
  - destruct (components_registered_kind _ _ _ _ _ _ _ E Hreg)
      as (heap0 & heap1 & pc0 & pc1 & news & _ & _ & _ & _ & _ & Hinj & _).
    unfold same_instance. intros Hne Heq. apply Hne. by eapply Hinj.
Qed.

(** Grid to Definition, the same. *)
Lemma sharing_backward (g : Grid) (paramIter : option (Z → Scalar))
    (heap : positive) (w : Wcs) (gfs : list grid_Frame) (gos : list grid_Object)
    (cf co : nat) :
  _wcs g = Some w →
  frames g = filled gfs cf → (length gfs <= cf)%nat →
  objects g = filled gos co → (length gos <= co)%nat →
  strictly_sorted_by_id gos →
  ∃ heap' result,
    makeDefinition g paramIter heap = Normal (heap', result)
    ∧ length (def_objects result) = length gos
    ∧ ∀ E (i1 i2 : nat) o1 o2 gp1 gp2,
        gos !! i1 = Some o1 → gos !! i2 = Some o2 →
        g_getComponent E o1 = Some gp1 → g_getComponent E o2 = Some gp2 →
        ∃ r1 r2 p1 p2,
          def_objects result !! i1 = Some r1 ∧ def_objects result !! i2 = Some r2
          ∧ d_getComponent E r1 = Some p1 ∧ d_getComponent E r2 = Some p2
          ∧ (same_instance gp1 gp2 → p1 = p2)
          ∧ (¬ same_instance gp1 gp2 → ¬ same_instance p1 p2).
Proof.
  intros Hw Hf Hcf Ho Hco Hsorted.
  destruct (makeDefinition_spec g paramIter heap w gfs gos cf co
              Hw Hf Hcf Ho Hco Hsorted)
    as (heap' & result & unique & Hrun & _ & Hlen & Hmir & Hreg).
  exists heap', result. split; [done|]. split; [done|].
  intros E i1 i2 o1 o2 gp1 gp2 H1 H2 Hg1 Hg2.
  destruct (def_objects result !! i1) as [r1|] eqn:Hr1.
  2:{ apply lookup_ge_None in Hr1. apply lookup_lt_Some in H1. lia. }
  destruct (def_objects result !! i2) as [r2|] eqn:Hr2.
  2:{ apply lookup_ge_None in Hr2. apply lookup_lt_Some in H2. lia. }
  destruct (Hmir i1 o1 r1 H1 Hr1) as [_ C1]. specialize (C1 E).
  destruct (Hmir i2 o2 r2 H2 Hr2) as [_ C2]. specialize (C2 E).
  rewrite Hg1 in C1. rewrite Hg2 in C2.
  destruct C1 as (p1 & U1 & D1), C2 as (p2 & U2 & D2).
  exists r1, r2, p1, p2. split_and!; try done.
  - unfold same_instance. intros Heq. rewrite Heq in U1. congruence.
  - destruct (Hreg E) as (h0 & h1 & _ & _ & Hinj & _).
    unfold same_instance. intros Hne Heq. apply Hne. by eapply Hinj.
Qed.

(** The round trip, for a Definition with a coordinate system whose Objects
    are sorted by distinct identifiers: in the Grid built from it and in the
    Definition that [makeDefinition] returns for that Grid, with or without
    a parameter buffer, two Objects share a component of a kind exactly if
    they do in the Definition, and then they hold one grid component, with
    one offset and one value. *)
Lemma sharing_round_trip (input : multifit_Definition) (heap heap' : positive)
    (g : Grid) (paramIter : option (Z → Scalar)) :
  strictly_sorted_by_id (def_objects input) →
  is_Some (def_wcs input) →
  Grid_ctor validate input heap = Constructed (heap', g) →
  ∃ gos heap'' result,
    objects g = filled gos (length (def_objects input))
    ∧ makeDefinition g paramIter heap' = Normal (heap'', result)
    ∧ ∀ E (i1 i2 : nat) d1 d2 dp1 dp2,
        def_objects input !! i1 = Some d1 → def_objects input !! i2 = Some d2 →
        d_getComponent E d1 = Some dp1 → d_getComponent E d2 = Some dp2 →
        ∃ o1 o2 gp1 gp2 r1 r2 p1 p2,
          gos !! i1 = Some o1 ∧ gos !! i2 = Some o2
          ∧ g_getComponent E o1 = Some gp1 ∧ g_getComponent E o2 = Some gp2
          ∧ def_objects result !! i1 = Some r1 ∧ def_objects result !! i2 = Some r2
          ∧ d_getComponent E r1 = Some p1 ∧ d_getComponent E r2 = Some p2
          ∧ (same_instance dp1 dp2 → gp1 = gp2 ∧ p1 = p2)
          ∧ (¬ same_instance dp1 dp2 →
             ¬ same_instance gp1 gp2 ∧ ¬ same_instance p1 p2).
Proof.
  intros Hsorted [w Hw] Hctor.
  destruct (constructed_arrays validate input heap heap' g Hctor)
    as (gfs & gos & Hf & Hlf & Ho & Hbase & Hwcs).
  destruct (sharing_forward input heap heap' g Hctor) as (gos' & Ho' & Hlen & Hfwd).
  assert (gos' = gos) as ->.
  { rewrite Ho in Ho'. unfold filled in Ho'. inversion Ho' as [[Hs Hl]].
    apply app_inj_1 in Hs as [Hs _]; [|by rewrite !length_map].
    by eapply (inj (fmap Some)). }
  assert (strictly_sorted_by_id gos) as Hgsorted.
  { intros i j a b Hij Ha Hb.
    assert (∀ (k : nat) o, gos !! k = Some o →
              ∃ d, def_objects input !! k = Some d ∧ id_of d = id_of o) as Hid.
    { intros k o Hk.
      assert (map go_base gos !! k = Some (go_base o)) as Hk'
        by (by rewrite list_lookup_fmap, Hk).
      rewrite Hbase, list_lookup_fmap in Hk'.
      destruct (def_objects input !! k) as [d|]; [|done].
      exists d. split; [done|]. cbn in Hk'. inversion Hk' as [Hb'].
      unfold id_of, definition_Object_Identified, grid_Object_Identified.
      by rewrite Hb'. }
    destruct (Hid i a Ha) as (da & Hda & <-).
    destruct (Hid j b Hb) as (db & Hdb & <-).
    by eapply Hsorted. }
  destruct (sharing_backward g paramIter heap' (clone w) gfs gos _ _
              ltac:(by rewrite Hwcs; unfold Grid_members; cbn; rewrite Hw)
              Hf ltac:(lia) Ho ltac:(lia) Hgsorted)
    as (heap'' & result & Hrun & Hlr & Hbwd).
  exists gos, heap'', result. split; [done|]. split; [done|].
  intros E i1 i2 d1 d2 dp1 dp2 H1 H2 Hd1 Hd2.
  destruct (Hfwd E i1 i2 d1 d2 dp1 dp2 H1 H2 Hd1 Hd2)
    as (o1 & o2 & gp1 & gp2 & Ho1 & Ho2 & Hg1 & Hg2 & Fs & Fd).
  destruct (Hbwd E i1 i2 o1 o2 gp1 gp2 Ho1 Ho2 Hg1 Hg2)
    as (r1 & r2 & p1 & p2 & Hr1 & Hr2 & Hp1 & Hp2 & Bs & Bd).
  exists o1, o2, gp1, gp2, r1, r2, p1, p2. split_and!; try done.
  - intros Hs. specialize (Fs Hs). split; [done|]. apply Bs. by rewrite Fs.
  - intros Hn. specialize (Fd Hn). split; [done|]. by apply Bd.
Qed.

End Sharing.

(** ** The deduplication step *)

Section Deduplication.
Context `{Services}.
Variable validate : grid_Object → option Exception.

(** C5.  In a constructed Grid the component that a grid Object holds
    mirrors, in value and active flag, a component of the same instance held
    by an Object of the Definition.  On a first sight the step of the
    forward path makes a new grid component at a fresh address that copies
    the active flag and the value, and on a repeat sight it returns the
    component made before and changes nothing.  The forward path takes no
    parameter buffer, so none is ever supplied to it and the copied value
    stays; the step that is given a buffer is the one of the reverse path,
    which on a first sight of an active component fills the value with
    [SIZE] entries read from the buffer at the offset of the component. *)
Theorem deduplication_step (input : multifit_Definition) (heap heap' : positive)
    (g : Grid) :
  Grid_ctor validate input heap = Constructed (heap', g) →
  (∃ gos, objects g = filled gos (length (def_objects input))
     ∧ ∀ (i : nat) d o E dp,
         def_objects input !! i = Some d → gos !! i = Some o →
         d_getComponent E d = Some dp →
         ∃ p d0 dp0,
           g_getComponent E o = Some p
           ∧ d0 ∈ def_objects input ∧ d_getComponent E d0 = Some dp0
           ∧ same_instance dp0 dp
           ∧ g_value (pointee p) = d_value (pointee dp0)
           ∧ g_active (pointee p) = d_active (pointee dp0))
  ∧ (∀ E dp unique h g0,
       match unique !! address dp with
       | None =>
           ∃ p g1,
             register_component E dp unique h g0
             = Ret (p, <[address dp := p]> unique, Pos.succ h) g1
             ∧ address p = h
             ∧ g_value (pointee p) = d_value (pointee dp)
             ∧ g_active (pointee p) = d_active (pointee dp)
       | Some p => register_component E dp unique h g0 = Ret (p, unique, h) g0
       end)
  ∧ (∀ E gp unique h paramIter,
       match unique !! address gp with
       | None =>
           ∃ p, register_back E gp unique h paramIter
                = (p, <[address gp := p]> unique, Pos.succ h)
                ∧ address p = h
                ∧ d_active (pointee p) = g_active (pointee gp)
                ∧ d_value (pointee p) = value_back E paramIter (pointee gp)
       | Some p => register_back E gp unique h paramIter = (p, unique, h)
       end).
Proof.
  intros Hctor.
  destruct (Grid_ctor_Constructed validate input heap heap' g Hctor)
    as (gfs & gos & srcs & unique & _ & _ & Ho & _ & _ & _ & Hreg & _).
  split.
  { exists gos. split; [done|]. intros i d o E dp Hd Hgo Hdp.
    pose proof Hreg as (_ & _ & _ & _ & _ & _ & _ & HM & Hmir).
    destruct (Hmir i d o Hd Hgo) as [_ Hc]. specialize (Hc E).
    rewrite Hdp in Hc. destruct Hc as (p & Hu & Hp).
    destruct (components_registered_kind _ _ _ _ _ _ _ E Hreg)
      as (heap0 & heap1 & pc0 & pc1 & news & _ & _ & _ & Hun & _).
    destruct (Hun _ _ Hu) as (_ & _ & _ & _ & d0 & dp0 & Hin & Hd0 & Ha & Hv & Hact).
    exists p, d0, dp0. by split_and!. }
  split.
  - intros E dp unique0 h g0. unfold register_component.
    destruct (unique0 !! address dp); [done|].
    destruct (d_active (pointee dp)) eqn:Hact.
    + eexists _, _. split; [reflexivity|]. cbn. by rewrite Hact.
    + eexists _, _. split; [reflexivity|]. cbn. by rewrite Hact.
  - intros E gp unique0 h paramIter. unfold register_back.
    destruct (unique0 !! address gp); [done|].
    eexists. split; [reflexivity|]. cbn [address pointee].
    split; [done|]. unfold value_back, definition_ParameterComponent_make.
    destruct paramIter as [iter|]; cbn; [|done].
    by destruct (g_active (pointee gp)).
Qed.

End Deduplication.

Section DeduplicationExamples.
Import Example.

Lemma deduplication_step_witness :
  Grid_ctor accept shared_radius 1 = Constructed (6%positive, shared_radius_grid)
  ∧ ∃ gos, objects shared_radius_grid
           = filled gos (length (def_objects shared_radius))
      ∧ ∀ (i : nat) d o E dp,
          def_objects shared_radius !! i = Some d → gos !! i = Some o →
          d_getComponent E d = Some dp →
          ∃ p d0 dp0,
            g_getComponent E o = Some p
            ∧ d0 ∈ def_objects shared_radius ∧ d_getComponent E d0 = Some dp0
            ∧ same_instance dp0 dp
            ∧ g_value (pointee p) = d_value (pointee dp0)
            ∧ g_active (pointee p) = d_active (pointee dp0).
Proof.
  assert (Grid_ctor accept shared_radius 1
          = Constructed (6%positive, shared_radius_grid)) as Hctor
    by (vm_compute; reflexivity).
  split; [exact Hctor|].
  exact (proj1 (deduplication_step accept shared_radius 1 6 shared_radius_grid
                  Hctor)).
Defined.

(** C4 at its failing input.  The Definition has no coordinate system; its
    Grid is constructed, without one; [makeDefinition], with or without a
    parameter buffer, dereferences the null pointer that [getWcs()]
    returns.  The same on the Grid of the empty Definition. *)
Theorem makeDefinition_without_coordinate_system :
  def_wcs shared_radius = None
  ∧ Grid_ctor accept shared_radius 1 = Constructed (6%positive, shared_radius_grid)
  ∧ makeDefinition shared_radius_grid None 6 = Fault NullDereference
  ∧ makeDefinition shared_radius_grid (Some (fun _ => 0)) 6 = Fault NullDereference
  ∧ Grid_ctor accept empty 1 = Constructed (1%positive, empty_grid)
  ∧ makeDefinition empty_grid None 1 = Fault NullDereference.
Proof.
  split; [reflexivity|]. split; [vm_compute; reflexivity|].
  split; [reflexivity|]. split; [reflexivity|].
  split; [vm_compute; reflexivity|]. reflexivity.
Qed.

(** C1 at its failing input.  The two Objects of the Definition share one
    Radius; the Grid is constructed, its two Objects hold one grid Radius,
    which is the only one of the Grid; [makeDefinition] on that Grid
    returns no Definition, for the Definition has no coordinate system. *)
Theorem sharing_round_trip_without_coordinate_system :
  (∃ d1 d2 dp1 dp2,
     def_objects shared_radius !! 0%nat = Some d1
     ∧ def_objects shared_radius !! 1%nat = Some d2
     ∧ d_getComponent RADIUS d1 = Some dp1 ∧ d_getComponent RADIUS d2 = Some dp2
     ∧ same_instance dp1 dp2)
  ∧ Grid_ctor accept shared_radius 1 = Constructed (6%positive, shared_radius_grid)
  ∧ (∃ o1 o2 gp,
       at_ (objects shared_radius_grid) 0 = Normal o1
       ∧ at_ (objects shared_radius_grid) 1 = Normal o2
       ∧ g_getComponent RADIUS o1 = Some gp ∧ g_getComponent RADIUS o2 = Some gp
       ∧ radii shared_radius_grid = [gp])
  ∧ makeDefinition shared_radius_grid None 6 = Fault NullDereference.
Proof.
  split.
  { eexists _, _, _, _. split; [reflexivity|]. split; [reflexivity|].
    split; [reflexivity|]. split; reflexivity. }
  split; [vm_compute; reflexivity|]. split.
  { eexists _, _, _. split; [reflexivity|]. split; [reflexivity|].
    split; [reflexivity|]. split; reflexivity. }
  reflexivity.
Qed.

(** With a coordinate system the round trip succeeds and keeps the
    sharing. *)
Lemma sharing_round_trip_example :
  ∃ gos heap'' result,
    objects shared_radius_wcs_grid
    = filled gos (length (def_objects shared_radius_wcs))
    ∧ makeDefinition shared_radius_wcs_grid None 6 = Normal (heap'', result)
    ∧ ∀ E (i1 i2 : nat) d1 d2 dp1 dp2,
        def_objects shared_radius_wcs !! i1 = Some d1 →
        def_objects shared_radius_wcs !! i2 = Some d2 →
        d_getComponent E d1 = Some dp1 → d_getComponent E d2 = Some dp2 →
        ∃ o1 o2 gp1 gp2 r1 r2 p1 p2,
          gos !! i1 = Some o1 ∧ gos !! i2 = Some o2
          ∧ g_getComponent E o1 = Some gp1 ∧ g_getComponent E o2 = Some gp2
          ∧ def_objects result !! i1 = Some r1 ∧ def_objects result !! i2 = Some r2
          ∧ d_getComponent E r1 = Some p1 ∧ d_getComponent E r2 = Some p2
          ∧ (same_instance dp1 dp2 → gp1 = gp2 ∧ p1 = p2)
          ∧ (¬ same_instance dp1 dp2 →
             ¬ same_instance gp1 gp2 ∧ ¬ same_instance p1 p2).
Proof.
  apply (sharing_round_trip accept shared_radius_wcs 1 6).
  - intros i j x y Hij Hx Hy.
    destruct i as [|[|i]], j as [|[|j]]; cbn in Hx, Hy;
      try lia; try discriminate.
    inversion Hx; inversion Hy; subst. vm_compute. reflexivity.
  - by eexists.
  - vm_compute. reflexivity.
Qed.

End DeduplicationExamples.

(** ** What the handler destroys *)

Section Unwinding.
Context `{Services}.
Variable validate : grid_Object → option Exception.

Lemma filter_seq_all (P : nat → Prop) `{∀ i, Decision (P i)} (n : nat) :
  ∀ (s : nat), (∀ i, (s <= i < s + n)%nat → P i) → filter P (seq s n) = seq s n.
Proof.
  induction n as [|n IH]; intros s Hall; cbn [seq]; [done|].
  rewrite filter_cons, decide_True by (apply Hall; lia).
  rewrite IH; [done|]. intros i Hi. apply Hall. lia.
Qed.

Lemma filter_seq_none (P : nat → Prop) `{∀ i, Decision (P i)} (n : nat) :
  ∀ (s : nat), (∀ i, (s <= i < s + n)%nat → ¬ P i) → filter P (seq s n) = [].
Proof.
  induction n as [|n IH]; intros s Hall; cbn [seq]; [done|].
  rewrite filter_cons, decide_False by (apply Hall; lia).
  apply IH. intros i Hi. apply Hall. lia.
Qed.

(** In an array filled in order, and in one interrupted by a constructor
    that threw, the constructed slots are those of the elements. *)
Lemma constructed_slots_filled {T : Type} (l : list T) (capacity : nat) :
  (length l <= capacity)%nat →
  constructed_slots (filled l capacity) = seq 0 (length l).
Proof.
  intros Hle. unfold constructed_slots. rewrite filled_length by done.
  replace capacity with (length l + (capacity - length l))%nat at 1 by lia.
  rewrite seq_app, filter_app, filter_seq_all, filter_seq_none.
  - by rewrite app_nil_r.
  - intros i Hi. rewrite filled_slot by done.
    destruct (decide (i < length l)%nat); [lia|].
    destruct (decide (i < capacity)%nat); cbn; by intros [? ?].
  - intros i Hi. rewrite filled_slot by done.
    destruct (decide (i < length l)%nat) as [Hlt|]; [|lia].
    destruct (lookup_lt_is_Some_2 l i Hlt) as [x ->]. by eexists.
Qed.

Lemma constructed_slots_interrupted {T : Type} (l : list T) (capacity : nat) :
  (length l <= capacity)%nat →
  constructed_slots (interrupted l capacity) = seq 0 (length l).
Proof. apply constructed_slots_filled. Qed.

(** How far the source loop got when it stopped. *)
Lemma sources_loop_lengths (wcs : option Wcs) (gfs : list grid_Frame)
    (os : list grid_Object) :
  ∀ (i : nat) (l : list grid_Source) os2 l2 r,
  sources_loop validate wcs gfs i os l = (os2, l2, r) →
  length os2 = length os
  ∧ (length l2 <= length l + length os * length gfs)%nat
  ∧ (∀ e, r = Some (SourceThrew e) →
       (length l2 < length l + length os * length gfs)%nat)
  ∧ (∀ e, r = Some (ValidateThrew e) → ∃ o, o ∈ os ∧ validate o = Some e).
Proof.
  induction os as [|o os IH]; intros i l os2 l2 r Hs; cbn in Hs.
  - inversion Hs; subst. cbn. split; [done|]. split; [lia|]. split; [done|]. done.
  - destruct (validate o) as [e|] eqn:Hval.
    { inversion Hs; subst. cbn. split; [done|]. split; [lia|]. split; [done|].
      intros e' He'. inversion He'; subst. exists o. split; [by left|done]. }
    destruct (sources_for i (set_sources_first (length l) o) wcs 0 gfs)
      as [srcs [stop|]] eqn:Hinner.
    + inversion Hs; subst. apply sources_for_length in Hinner as Hlen.
      destruct Hlen as [Hle _].
      destruct (sources_for_stopped _ _ _ _ _ _ _ Hinner) as (k & f & Hk & Hc).
      assert (length srcs < length gfs)%nat as Hlt.
      { clear -Hinner. revert srcs Hinner. generalize 0%nat.
        induction gfs as [|f' fs IHf]; intros j srcs Hs; cbn in Hs; [done|].
        destruct (Source_ctor j i f' (set_sources_first (length l) o) wcs).
        - destruct (sources_for i (set_sources_first (length l) o) wcs (S j) fs)
            as [l' r'] eqn:Hl'. inversion Hs; subst. cbn.
          specialize (IHf (S j) l' Hl'). lia.
        - inversion Hs; subst. cbn. lia.
        - inversion Hs; subst. cbn. lia. }
      cbn. rewrite length_app. split; [done|]. split; [lia|]. split; [intros; lia|].
      intros e He. inversion He; subst stop. by apply sources_for_stop in Hinner.
    + destruct (sources_loop validate wcs gfs (S i) os (l ++ srcs))
        as [[os2' l2'] r'] eqn:Hrest.
      inversion Hs; subst.
      apply sources_for_length in Hinner as [_ Hlen]. specialize (Hlen eq_refl).
      destruct (IH (S i) (l ++ srcs) os2' l2 r Hrest) as (G1 & G2 & G3 & G4).
      rewrite length_app, Hlen in G2, G3.
      cbn. split; [lia|]. split; [lia|]. split.
      * intros e He. specialize (G3 e He). lia.
      * intros e He. destruct (G4 e He) as (o' & Ho' & Hv).
        exists o'. split; [by right|done].
Qed.

(** The destructor calls of the handler, for every construction that
    fails with an exception.  The Frames and the Objects destroyed are the
    constructed ones.  When [validate] threw, so are the Sources; when the
    constructor of a Source threw, the handler also destroys the slot of
    that Source, which holds no constructed element. *)
Lemma unwinding (input : multifit_Definition) (heap : positive)
    (e : Exception) (unwound : list (ArenaKind * nat)) :
  Grid_ctor validate input heap = Propagated e unwound →
  ∃ g,
    initializeGrid_try validate input heap (reset_cursors (Grid_members input))
    = Exc e g
    ∧ unwound = destroyGrid g
    ∧ destroyed_slots (objects g) = constructed_slots (objects g)
    ∧ destroyed_slots (frames g) = constructed_slots (frames g)
    ∧ ((destroyed_slots (sources g) = constructed_slots (sources g)
        ∧ ∃ o, validate o = Some e)
       ∨ (∃ n, constructed_slots (sources g) = seq 0 n
               ∧ destroyed_slots (sources g) = seq 0 (S n)
               ∧ slots (sources g) !! n = Some None)).
Proof.
  unfold Grid_ctor, initializeGrid.
  destruct (initializeGrid_try_spec validate input heap)
    as (g5 & gfs & gos & h3 & unique & Hfr & Hbase & Hwcs & Hreg & Hrun).
  rewrite Hrun. clear Hrun.
  assert (length gfs = length (def_frames input)) as HN
    by (by rewrite <- Hbase, length_map).
  assert (length gos = length (def_objects input)) as HM
    by (by destruct Hreg as (_ & _ & _ & _ & _ & _ & _ & ? & _)).
  destruct (sources_loop validate (_wcs g5) gfs 0 gos [])
    as [[os2 l2] [[e'|e'|u]|]] eqn:Hloop; try done.
  - intros Heq. inversion Heq; subst e' unwound.
    destruct (sources_loop_lengths _ _ _ _ _ _ _ _ Hloop) as (L1 & L2 & _ & L4).
    cbn [length] in L2.
    eexists. split; [reflexivity|]. split; [reflexivity|].
    cbn [objects frames sources set_objects set_sources]. rewrite Hfr.
    unfold destroyed_slots at 1 2. rewrite !last_filled.
    rewrite !constructed_slots_filled by lia.
    split; [done|]. split; [done|]. left. split.
    + unfold destroyed_slots. rewrite last_filled.
      by rewrite ?constructed_slots_filled by nia.
    + destruct (L4 e eq_refl) as (o & _ & Ho). eauto.
  - intros Heq. inversion Heq; subst e' unwound.
    destruct (sources_loop_lengths _ _ _ _ _ _ _ _ Hloop) as (L1 & L2 & L3 & _).
    specialize (L3 e eq_refl). cbn [length] in L2, L3.
    eexists. split; [reflexivity|]. split; [reflexivity|].
    cbn [objects frames sources set_objects set_sources]. rewrite Hfr.
    unfold destroyed_slots at 1 2. rewrite !last_filled.
    rewrite !constructed_slots_filled by lia.
    split; [done|]. split; [done|]. right. exists (length l2).
    split; [rewrite ?constructed_slots_interrupted by nia; done|]. split; [done|].
    change (slots (interrupted l2 (length (def_frames input)
                                   * length (def_objects input))))
      with (slots (filled l2 (length (def_frames input)
                              * length (def_objects input)))).
    rewrite filled_slot by nia.
    destruct (decide (length l2 < length l2)%nat); [lia|].
    destruct (decide (length l2 < length (def_frames input)
                                  * length (def_objects input))%nat); [done|nia].
Qed.

End Unwinding.
(** ** Rules for the Hoare triples *)

Section TripleRules.
Context {Σ : Type}.

Lemma triple_ret {A : Type} (P : Σ → Prop) (a : A) (Q : A → Σ → Prop) :
  (∀ σ, P σ → Q a σ) → triple P (ret a) Q.
Proof. intros HQ σ HP. by apply HQ. Qed.

Lemma triple_bind {A B : Type} (P : Σ → Prop) (m : M Σ A) (k : A → M Σ B)
    (R : A → Σ → Prop) (Q : B → Σ → Prop) :
  triple P m R → (∀ a, triple (R a) (k a) Q) → triple P (bind m k) Q.
Proof.
  intros Hm Hk σ HP. unfold bind. specialize (Hm σ HP).
  destruct (m σ) as [a σ'| |]; [|done|done]. by apply Hk.
Qed.

Lemma triple_get (P : Σ → Prop) (Q : Σ → Σ → Prop) :
  (∀ σ, P σ → Q σ σ) → triple P get Q.
Proof. intros HQ σ HP. by apply HQ. Qed.

Lemma triple_modify (P : Σ → Prop) (f : Σ → Σ) (Q : unit → Σ → Prop) :
  (∀ σ, P σ → Q tt (f σ)) → triple P (modify f) Q.
Proof. intros HQ σ HP. by apply HQ. Qed.

Lemma triple_lift {A : Type} (P : Σ → Prop) (o : Outcome A)
    (Q : A → Σ → Prop) :
  (∀ a σ, o = Normal a → P σ → Q a σ) → triple P (lift o) Q.
Proof. intros HQ σ HP. unfold lift. destruct o; [|done|done]. by apply HQ. Qed.

Lemma triple_for_each {A : Type} (I : Σ → Prop) (l : list A)
    (body : A → M Σ unit) :
  (∀ x, triple I (body x) (fun _ => I)) →
  triple I (for_each l body) (fun _ => I).
Proof.
  intros Hbody. induction l as [|x l IH]; cbn [for_each].
  - by apply triple_ret.
  - eapply triple_bind; [apply Hbody|]. intros ?. exact IH.
Qed.

Lemma triple_placement_new {T : Type} (I : Σ → Prop) (view : Σ → Array T)
    (update : Array T → Σ → Σ) (ctor : Outcome T) :
  (∀ a σ, I σ → I (update a σ)) →
  triple I (placement_new view update ctor) (fun _ => I).
Proof.
  intros Hupd σ HI. unfold placement_new, bind, get, modify, lift, ret.
  cbn. destruct ctor as [x| |]; [|done|done].
  destruct (construct_at _ _ _); [|done|done]. by do 2 apply Hupd.
Qed.

End TripleRules.

(** ** What the later steps of [initializeGrid] leave alone *)

Section Keeps.
Context `{Services}.
Variable validate : grid_Object → option Exception.
Variable c : Z * gmap Z Z * Z * Array grid_Frame * Z * list (option (Z * Z)).

Local Abbreviation keeps m :=
  (triple (fun g => layout g = c) m (fun _ g => layout g = c)).

Lemma layout_assign (g : Grid) (i : nat) (o o' : grid_Object) :
  at_ (objects g) i = Normal o →
  coefficient_range o' = coefficient_range o →
  layout (set_objects (assign i o' (objects g)) g) = layout g.
Proof.
  intros Hat Hr. unfold layout. cbn. f_equal.
  unfold at_ in Hat.
  destruct (slots (objects g) !! i) as [[x|]|] eqn:Hs; [|done|done].
  inversion Hat; subst x.
  rewrite list_fmap_insert. apply list_insert_id.
  rewrite list_lookup_fmap, Hs. cbn. by rewrite Hr.
Qed.

Lemma register_component_keeps (E : ParameterType)
    (dp : shared_ptr definition_ParameterComponent)
    (unique : gmap positive (shared_ptr grid_ParameterComponent))
    (heap : positive) :
  keeps (register_component E dp unique heap).
Proof.
  unfold register_component.
  destruct (unique !! address dp); [by apply triple_ret|].
  destruct (d_active (pointee dp)); [|by apply triple_ret].
  apply (triple_bind _ _ _ (fun _ g => layout g = c)); [by apply triple_get|].
  intros output.
  apply (triple_bind _ _ _ (fun _ g => layout g = c)).
  { apply triple_modify. by intros σ <-. }
  intros ?. apply (triple_bind _ _ _ (fun _ g => layout g = c)).
  { apply triple_modify. intros σ <-. by destruct E. }
  intros ?. by apply triple_ret.
Qed.

Lemma assign_component_keeps (E : ParameterType) (gi : nat)
    (p : shared_ptr grid_ParameterComponent) :
  keeps (assign_component E gi p).
Proof.
  unfold assign_component.
  apply (triple_bind _ _ _ (fun out g => layout g = c ∧ out = g));
    [by apply triple_get|].
  intros output.
  apply (triple_bind _ _ _
           (fun o g => layout g = c ∧ output = g
                       ∧ at_ (objects output) gi = Normal o)).
  { apply triple_lift. by intros o σ Ho [? ?]. }
  intros o. apply triple_modify. intros σ (Hc & -> & Hat).
  rewrite <- Hc. apply (layout_assign _ _ o); [done|]. by destruct E.
Qed.

Lemma transferComponents_loop_keeps (E : ParameterType)
    (di : list definition_Object) :
  ∀ (gi : nat) (unique : gmap positive (shared_ptr grid_ParameterComponent))
    (heap : positive),
  keeps (transferComponents_loop E di gi unique heap).
Proof.
  induction di as [|d di IH]; intros gi unique heap;
    cbn [transferComponents_loop];
    (apply (triple_bind _ _ _ (fun _ g => layout g = c));
       [by apply triple_get|]); intros output;
    (destruct (decide (gi = _last (objects output))); [by apply triple_ret|]).
  - by apply triple_lift.
  - destruct (d_getComponent E d) as [dp|]; [|apply IH].
    apply (triple_bind _ _ _ (fun _ g => layout g = c));
      [apply register_component_keeps|].
    intros [[p unique'] heap'].
    apply (triple_bind _ _ _ (fun _ g => layout g = c));
      [apply assign_component_keeps|].
    intros ?. apply IH.
Qed.

Lemma construct_sources_of_keeps (i : nat) :
  keeps (construct_sources_of validate i).
Proof.
  unfold construct_sources_of.
  apply (triple_bind _ _ _ (fun out g => layout g = c ∧ out = g));
    [by apply triple_get|].
  intros output.
  apply (triple_bind _ _ _
           (fun o g => layout g = c ∧ at_ (objects g) i = Normal o)).
  { apply triple_lift. by intros o σ Ho [? ->]. }
  intros o.
  apply (triple_bind _ _ _
           (fun _ g => layout g = c ∧ at_ (objects g) i = Normal o)).
  { by apply triple_lift. }
  intros ?. apply (triple_bind _ _ _ (fun _ g => layout g = c)).
  { apply triple_modify. intros σ [Hc Hat]. rewrite <- Hc.
    by apply (layout_assign _ _ o). }
  intros ?. apply (triple_bind _ _ _ (fun _ g => layout g = c)).
  { apply triple_for_each. intros j.
    apply (triple_bind _ _ _ (fun _ g => layout g = c));
      [by apply triple_get|].
    intros g.
    apply (triple_bind _ _ _ (fun _ g => layout g = c));
      [by apply triple_lift|].
    intros frame_.
    apply (triple_bind _ _ _ (fun _ g => layout g = c));
      [by apply triple_lift|].
    intros object_.
    apply (triple_bind _ _ _ (fun _ g => layout g = c)).
    { apply triple_placement_new. by intros arr σ <-. }
    intros ?. by apply triple_ret. }
  intros ?.
  apply (triple_bind _ _ _ (fun out g => layout g = c ∧ out = g));
    [by apply triple_get|].
  intros g.
  apply (triple_bind _ _ _
           (fun o g' => layout g' = c ∧ g = g'
                        ∧ at_ (objects g) i = Normal o)).
  { apply triple_lift. by intros o' σ Ho [? ?]. }
  intros o'. apply triple_modify. intros σ (Hc & -> & Hat).
  rewrite <- Hc. by apply (layout_assign _ _ o').
Qed.

(** The steps of [initializeGrid] after the loops over the Frames and the
    Objects keep the layout. *)
Lemma later_steps_keep (input : multifit_Definition) (heap : positive) :
  keeps (heap1 <- transferComponents POSITION input heap ;;
         heap2 <- transferComponents RADIUS input heap1 ;;
         heap3 <- transferComponents ELLIPTICITY input heap2 ;;
         construct_sources validate ;;;
         ret heap3)%cpp.
Proof.
  apply (triple_bind _ _ _ (fun _ g => layout g = c));
    [apply transferComponents_loop_keeps|].
  intros heap1. apply (triple_bind _ _ _ (fun _ g => layout g = c));
    [apply transferComponents_loop_keeps|].
  intros heap2. apply (triple_bind _ _ _ (fun _ g => layout g = c));
    [apply transferComponents_loop_keeps|].
  intros heap3. apply (triple_bind _ _ _ (fun _ g => layout g = c)).
  { unfold construct_sources.
    apply (triple_bind _ _ _ (fun _ g => layout g = c));
      [by apply triple_get|].
    intros output. apply triple_for_each. apply construct_sources_of_keeps. }
  intros ?. by apply triple_ret.
Qed.

End Keeps.
(** ** The layout of the Frames *)

Section FrameLayout.
Context `{Services}.

Lemma total_app (l1 l2 : list Z) : total (l1 ++ l2) = total l1 + total l2.
Proof.
  unfold total. induction l1 as [|x l1 IH]; cbn; [done|]. rewrite IH. lia.
Qed.

Lemma to_int_small (z : Z) : INT_MIN <= z <= INT_MAX → to_int z = z.
Proof.
  unfold INT_MIN, INT_MAX, to_int. intros Hz.
  rewrite Z.mod_small by lia. lia.
Qed.

Lemma to_int_add_l (a b : Z) : to_int (to_int a + b) = to_int (a + b).
Proof.
  unfold to_int. f_equal.
  replace ((a + 2 ^ 31) mod 2 ^ 32 - 2 ^ 31 + b + 2 ^ 31)
    with ((a + 2 ^ 31) mod 2 ^ 32 + b) by lia.
  rewrite Zplus_mod_idemp_l. f_equal. lia.
Qed.

Lemma frames_laid_out_old (fs : list definition_Frame) (l : list grid_Frame)
    (g g' : Grid) (def : definition_Frame) (f : grid_Frame) :
  frames_laid_out fs l g →
  (∀ fid k, _filters g !! fid = Some k → _filters g' !! fid = Some k) →
  ∀ (j : nat) f0, (l ++ [f]) !! j = Some f0 → (j < length l)%nat →
    _frameIndex f0 = Z.of_nat j
    ∧ _pixelCount f0 = getNpix (_footprint (gf_base f0))
    ∧ _pixelOffset f0 = to_int (total (pixel_counts (take j (fs ++ [def]))))
    ∧ _filters g' !! _filterId (gf_base f0) = Some (_filterIndex f0)
    ∧ (_filterId (gf_base f0) ∉ filter_ids (take j (fs ++ [def])) →
       _filterIndex f0
       = Z.of_nat (size (list_to_set (filter_ids (take j (fs ++ [def])))
                         : gset Z))).
Proof.
  intros (Hb & Hfr & _) Hsub j f0 Hj Hlt.
  rewrite lookup_app_l in Hj by done.
  assert (length l = length fs) as Hlen by (by rewrite <- Hb, length_map).
  rewrite take_app_le by lia.
  destruct (Hfr j f0 Hj) as (F1 & F2 & F3 & F4 & F5).
  split; [done|]. split; [done|]. split; [done|]. split; [by apply Hsub|done].
Qed.

Lemma frames_laid_out_known (fs : list definition_Frame) (l : list grid_Frame)
    (g g' : Grid) (def : definition_Frame) (index : Z) :
  frames_laid_out fs l g →
  _filters g !! _filterId def = Some index →
  _filters g' = _filters g → _filterCount g' = _filterCount g →
  grid_pixelCount g' = int_add (grid_pixelCount g) (getNpix (_footprint def)) →
  frames_laid_out (fs ++ [def])
    (l ++ [{| gf_base := def; _pixelOffset := grid_pixelCount g;
              _pixelCount := getNpix (_footprint def);
              _filterIndex := index;
              _frameIndex := Z.of_nat (length fs) |}]) g'.
Proof.
  intros Hinv Hidx Hfil Hcnt Hpix.
  pose proof Hinv as (Hb & Hfr & Hp & Hc & Hdom & Hrange & Hinj & Hdense).
  assert (length l = length fs) as Hlen by (by rewrite <- Hb, length_map).
  assert (_filterId def ∈ (list_to_set (filter_ids fs) : gset Z)) as Hin.
  { rewrite <- Hdom. by apply elem_of_dom_2 with index. }
  unfold frames_laid_out.
  split; [by rewrite map_app, Hb|]. split.
  { intros j f0 Hj. destruct (decide (j < length l)%nat) as [Hlt|Hge].
    - eapply frames_laid_out_old; [exact Hinv| |exact Hj|exact Hlt].
      by rewrite Hfil.
    - assert (j = length l) as ->.
      { apply lookup_lt_Some in Hj. rewrite length_app in Hj. cbn in Hj. lia. }
      rewrite lookup_app_r, Nat.sub_diag in Hj by lia.
      inversion Hj; subst f0. cbn.
      rewrite Hlen, take_app_length, Hfil.
      split; [done|]. split; [done|]. split; [done|]. split; [done|].
      intros Hnot. exfalso. apply Hnot.
      by apply elem_of_list_to_set in Hin. }
  rewrite Hfil, Hcnt, Hpix.
  split.
  { unfold int_add. rewrite Hp, to_int_add_l. f_equal.
    unfold pixel_counts. rewrite fmap_app, total_app.
    unfold total. cbn. lia. }
  assert ((list_to_set (filter_ids (fs ++ [def])) : gset Z)
          = list_to_set (filter_ids fs)) as Hset.
  { unfold filter_ids. rewrite fmap_app, list_to_set_app_L. cbn.
    apply set_eq. intros x. rewrite !elem_of_union, elem_of_singleton.
    split; [|tauto]. intros [?|[->|?]]; [done|done|].
    by apply not_elem_of_empty in H0. }
  rewrite Hset. done.
Qed.

Lemma frames_laid_out_new (fs : list definition_Frame) (l : list grid_Frame)
    (g g' : Grid) (def : definition_Frame) :
  frames_laid_out fs l g →
  _filters g !! _filterId def = None →
  _filters g' = <[_filterId def := _filterCount g]> (_filters g) →
  _filterCount g' = _filterCount g + 1 →
  grid_pixelCount g' = int_add (grid_pixelCount g) (getNpix (_footprint def)) →
  frames_laid_out (fs ++ [def])
    (l ++ [{| gf_base := def; _pixelOffset := grid_pixelCount g;
              _pixelCount := getNpix (_footprint def);
              _filterIndex := _filterCount g;
              _frameIndex := Z.of_nat (length fs) |}]) g'.
Proof.
  intros Hinv Hidx Hfil Hcnt Hpix.
  pose proof Hinv as (Hb & Hfr & Hp & Hc & Hdom & Hrange & Hinj & Hdense).
  assert (length l = length fs) as Hlen by (by rewrite <- Hb, length_map).
  assert (_filterId def ∉ (list_to_set (filter_ids fs) : gset Z)) as Hnin.
  { rewrite <- Hdom. by apply not_elem_of_dom. }
  unfold frames_laid_out.
  split; [by rewrite map_app, Hb|]. split.
  { intros j f0 Hj. destruct (decide (j < length l)%nat) as [Hlt|Hge].
    - eapply frames_laid_out_old; [exact Hinv| |exact Hj|exact Hlt].
      rewrite Hfil. intros fid k Hk.
      rewrite lookup_insert_ne; [done|]. intros <-. by pose proof (eq_trans (eq_sym Hidx) Hk).
    - assert (j = length l) as ->.
      { apply lookup_lt_Some in Hj. rewrite length_app in Hj. cbn in Hj. lia. }
      rewrite lookup_app_r, Nat.sub_diag in Hj by lia.
      inversion Hj; subst f0. cbn.
      rewrite Hlen, take_app_length, Hfil.
      split; [done|]. split; [done|]. split; [done|].
      split; [by rewrite lookup_insert_eq|]. intros _. done. }
  rewrite Hfil, Hcnt, Hpix.
  split.
  { unfold int_add. rewrite Hp, to_int_add_l. f_equal.
    unfold pixel_counts. rewrite fmap_app, total_app.
    unfold total. cbn. lia. }
  assert ((list_to_set (filter_ids (fs ++ [def])) : gset Z)
          = list_to_set (filter_ids fs) ∪ {[_filterId def]}) as Hset.
  { unfold filter_ids. rewrite fmap_app, list_to_set_app_L. cbn.
    by rewrite (right_id_L ∅ (∪)). }
  rewrite Hset. split.
  { rewrite size_union, size_singleton by
      (apply disjoint_singleton_r; exact Hnin).
    rewrite Hc. lia. }
  split.
  { rewrite dom_insert_L, Hdom. apply set_eq. intros x.
    rewrite !elem_of_union. tauto. }
  split.
  { intros fid k Hk. destruct (decide (fid = _filterId def)) as [->|Hne].
    - rewrite lookup_insert_eq in Hk. inversion Hk; subst k.
      assert (0 <= _filterCount g) by (rewrite Hc; lia). lia.
    - rewrite lookup_insert_ne in Hk by done.
      specialize (Hrange fid k Hk). lia. }
  split.
  { intros fid1 fid2 k H1 H2.
    destruct (decide (fid1 = _filterId def)) as [->|Hne1],
             (decide (fid2 = _filterId def)) as [->|Hne2]; [done| | |].
    - rewrite lookup_insert_eq in H1. rewrite lookup_insert_ne in H2 by done.
      inversion H1; subst k. specialize (Hrange fid2 _ H2). lia.
    - rewrite lookup_insert_eq in H2. rewrite lookup_insert_ne in H1 by done.
      inversion H2; subst k. specialize (Hrange fid1 _ H1). lia.
    - rewrite lookup_insert_ne in H1, H2 by done. by eapply Hinj. }
  intros k Hk. destruct (decide (k = _filterCount g)) as [->|Hne].
  - exists (_filterId def). by rewrite lookup_insert_eq.
  - destruct (Hdense k ltac:(lia)) as (fid & Hfid). exists fid.
    rewrite lookup_insert_ne; [done|]. intros <-. by pose proof (eq_trans (eq_sym Hidx) Hfid).
Qed.

(** The loop over the Frames, with the layout it builds. *)
Lemma construct_frames_layout (fs : list definition_Frame) :
  ∀ (done_ : list definition_Frame) (g : Grid) (l : list grid_Frame)
    (capacity : nat),
  frames g = filled l capacity →
  (length l + length fs <= capacity)%nat →
  frames_laid_out done_ l g →
  ∃ (g' : Grid) (l' : list grid_Frame),
    construct_frames fs (Z.of_nat (length done_)) g
    = Ret (Z.of_nat (length done_ + length fs)) g'
    ∧ frames g' = filled (l ++ l') capacity
    ∧ frames_laid_out (done_ ++ fs) (l ++ l') g'
    ∧ objects g' = objects g
    ∧ grid_coefficientCount g' = grid_coefficientCount g.
Proof.
  induction fs as [|def fs IH]; intros done_ g l capacity Hfr Hcap Hinv.
  - exists g, []. cbn. rewrite Nat.add_0_r, !app_nil_r.
    split; [done|]. split; [done|]. split; [done|]. by split.
  - cbn [construct_frames length] in *.
    unfold bind at 1. unfold get at 1.
    destruct (filters_insert (_filterId def) g) as [g1 [index inserted]] eqn:Hins.
    set (g2 := if inserted then set_filterCount (_filterCount g1 + 1) g1 else g1).
    assert (frames g2 = frames g ∧ objects g2 = objects g
            ∧ grid_coefficientCount g2 = grid_coefficientCount g
            ∧ grid_pixelCount g2 = grid_pixelCount g)
      as (F1 & F2 & F3 & F4).
    { unfold filters_insert in Hins.
      destruct (_filters g !! _filterId def); inversion Hins; subst; subst g2;
        by repeat split. }
    unfold bind at 1, modify at 1. unfold bind at 1, get at 1. fold g2.
    unfold bind at 1.
    unfold Frame_ctor.
    rewrite (placement_new_Normal frames set_frames
               ltac:(done) ltac:(done) l capacity)
      by first [by rewrite F1 | lia].
    unfold bind at 1, modify at 1.
    replace (Z.of_nat (length done_) + 1) with (Z.of_nat (length (done_ ++ [def])))
      by (rewrite length_app; cbn; lia).
    match goal with |- context [construct_frames fs _ ?g3] =>
      destruct (IH (done_ ++ [def]) g3 (l ++ [
        {| gf_base := def; _pixelOffset := grid_pixelCount g2;
           _pixelCount := getNpix (_footprint def);
           _filterIndex := index;
           _frameIndex := Z.of_nat (length done_) |}]) capacity)
        as (g' & l' & Hrun & G1 & G2 & G3 & G4)
    end.
    { done. }
    { rewrite length_app. cbn. lia. }
    { rewrite F4. unfold filters_insert in Hins.
      destruct (_filters g !! _filterId def) as [i|] eqn:Hlook;
        inversion Hins; subst; subst g2.
      - by apply frames_laid_out_known.
      - by apply frames_laid_out_new. }
    eexists g', (_ :: l'). rewrite Hrun. split.
    { f_equal. rewrite length_app. cbn. lia. }
    rewrite G1, <- !app_assoc. rewrite <- !app_assoc in G2.
    split; [done|]. split; [exact G2|].
    cbn in *. by rewrite G3, G4.
Qed.

End FrameLayout.
(** ** The layout of the Objects, and the layout of a constructed Grid *)

Section ObjectLayout.
Context `{Services}.
Variable validate : grid_Object → option Exception.

Lemma coefficients_laid_out_snoc (l : list (Z * Z)) (e n : Z) :
  coefficients_laid_out l e →
  coefficients_laid_out (l ++ [(e, n)]) (e + n).
Proof.
  intros [Hoff He]. split.
  - intros k r Hk. destruct (decide (k < length l)%nat) as [Hlt|Hge].
    + rewrite lookup_app_l in Hk by done. rewrite take_app_le by lia.
      by apply Hoff.
    + assert (k = length l) as ->.
      { apply lookup_lt_Some in Hk. rewrite length_app in Hk. cbn in Hk. lia. }
      rewrite lookup_app_r, Nat.sub_diag in Hk by lia.
      inversion Hk; subst r. by rewrite take_app_length.
  - rewrite fmap_app, total_app, <- He. unfold total. cbn. lia.
Qed.

(** The loop over the Objects, with the layout it builds. *)
Lemma construct_objects_layout (ds : list definition_Object) :
  ∀ (frameCount : Z) (g : Grid) (l : list grid_Object) (capacity : nat),
  objects g = filled l capacity →
  (length l + length ds <= capacity)%nat →
  coefficients_laid_out (coefficient_range <$> l) (grid_coefficientCount g) →
  ∃ (g' : Grid) (l' : list grid_Object),
    construct_objects ds frameCount g = Ret tt g'
    ∧ objects g' = filled (l ++ l') capacity
    ∧ length l' = length ds
    ∧ coefficients_laid_out (coefficient_range <$> (l ++ l'))
        (grid_coefficientCount g')
    ∧ (∀ (k : nat) d o, ds !! k = Some d → l' !! k = Some o →
         _coefficientCount o
         = match _basis (d_base d) with
           | Some b => getBasisSize b
           | None => 0
           end)
    ∧ frames g' = frames g ∧ _filters g' = _filters g
    ∧ _filterCount g' = _filterCount g
    ∧ grid_pixelCount g' = grid_pixelCount g.
Proof.
  induction ds as [|def ds IH]; intros frameCount g l capacity Hob Hcap Hinv.
  - exists g, []. cbn. rewrite app_nil_r.
    split; [done|]. split; [done|]. split; [done|]. split; [done|].
    split; [|done]. intros k d o Hd. by rewrite lookup_nil in Hd.
  - cbn [construct_objects length] in *.
    unfold bind at 1. unfold get at 1. unfold bind at 1.
    unfold Object_ctor.
    rewrite (placement_new_Normal objects set_objects
               ltac:(done) ltac:(done) l capacity) by (done || lia).
    unfold bind at 1, modify at 1.
    match goal with |- context [construct_objects ds _ ?g3] =>
      match goal with |- context [filled (l ++ [?o]) capacity] =>
        destruct (IH frameCount g3 (l ++ [o]) capacity)
          as (g' & l' & Hrun & G1 & G2 & G3 & G4 & G5 & G6 & G7 & G8)
      end
    end.
    { done. }
    { rewrite length_app. cbn. lia. }
    { rewrite fmap_app. cbn. by apply coefficients_laid_out_snoc. }
    eexists g', (_ :: l'). rewrite Hrun. split; [done|].
    rewrite G1, <- !app_assoc. rewrite <- !app_assoc in G3.
    split; [done|]. split; [cbn; by rewrite G2|]. split; [exact G3|].
    split.
    { intros [|k] d o Hd Ho; cbn in Hd, Ho.
      - by inversion Hd; inversion Ho; subst.
      - by eapply G4. }
    cbn in *. by rewrite G5, G6, G7, G8.
Qed.

Lemma filled_inj {T : Type} (l l' : list T) (capacity : nat) :
  filled l capacity = filled l' capacity → l = l'.
Proof.
  unfold filled. intros Heq. inversion Heq as [[Hs Hl]].
  rewrite Hl in Hs. apply app_inv_tail in Hs.
  revert Hs. apply (inj (fmap Some)).
Qed.

Lemma frames_laid_out_empty (g : Grid) :
  _filters g = ∅ → _filterCount g = 0 → grid_pixelCount g = 0 →
  frames_laid_out [] [] g.
Proof.
  intros Hf Hc Hp. unfold frames_laid_out. rewrite Hf, Hc, Hp.
  split; [done|]. split; [intros j f Hj; by rewrite lookup_nil in Hj|].
  split; [reflexivity|]. split; [done|]. split; [by rewrite dom_empty_L|].
  split; [intros fid k Hk; by rewrite lookup_empty in Hk|].
  split; [intros fid1 fid2 k Hk; by rewrite lookup_empty in Hk|].
  intros k Hk. lia.
Qed.

Lemma frames_laid_out_layout (fs : list definition_Frame)
    (l : list grid_Frame) (g g' : Grid) :
  layout g' = layout g → frames_laid_out fs l g → frames_laid_out fs l g'.
Proof.
  unfold layout, frames_laid_out. intros Heq.
  inversion Heq as [[Hc Hf Hp Hfr Hcc Hsl]].
  by rewrite Hc, Hf, Hp.
Qed.

(** In a constructed Grid the Frames and the Objects are laid out as the
    loops over the Frames and the Objects have left them. *)
Lemma Grid_ctor_layout (input : multifit_Definition) (heap heap' : positive)
    (g : Grid) :
  Grid_ctor validate input heap = Constructed (heap', g) →
  ∃ (gfs : list grid_Frame) (gos : list grid_Object),
    frames g = filled gfs (length (def_frames input))
    ∧ objects g = filled gos (length (def_objects input))
    ∧ length gos = length (def_objects input)
    ∧ frames_laid_out (def_frames input) gfs g
    ∧ coefficients_laid_out (coefficient_range <$> gos)
        (grid_coefficientCount g)
    ∧ (∀ (k : nat) d o, def_objects input !! k = Some d → gos !! k = Some o →
         _coefficientCount o
         = match _basis (d_base d) with
           | Some b => getBasisSize b
           | None => 0
           end).
Proof.
  intros Hctor.
  destruct (Grid_ctor_Constructed validate input heap heap' g Hctor)
    as (gfs0 & gos & srcs & unique & _ & _ & Ho & _ & _ & _ & Hreg & _).
  assert (length gos = length (def_objects input)) as HM
    by (by destruct Hreg as (_ & _ & _ & _ & _ & _ & _ & ? & _)).
  unfold Grid_ctor, initializeGrid in Hctor.
  destruct (initializeGrid_try validate input heap
              (reset_cursors (Grid_members input)))
    as [h gf| |] eqn:Hrun; [|done|done].
  inversion Hctor; subst h gf. clear Hctor.
  unfold initializeGrid_try in Hrun.
  set (g0 := reset_cursors (Grid_members input)) in *.
  destruct (construct_frames_layout (def_frames input) [] g0 []
              (length (def_frames input)))
    as (g1 & gfs & Hrun1 & Hf1 & Hlay1 & O1 & C1).
  { apply raw_buffer_filled. }
  { cbn. lia. }
  { by apply frames_laid_out_empty. }
  cbn [length app Nat.add] in Hrun1, Hf1, Hlay1.
  change (Z.of_nat 0) with 0 in Hrun1.
  unfold bind at 1 in Hrun. rewrite Hrun1 in Hrun.
  destruct (construct_objects_layout (def_objects input)
              (Z.of_nat (length (def_frames input))) g1 []
              (length (def_objects input)))
    as (g2 & gos2 & Hrun2 & Ho2 & HM2 & Hlay2 & Hcnt & F1 & F2 & F3 & F4).
  { rewrite O1. apply raw_buffer_filled. }
  { cbn. lia. }
  { rewrite C1. split; [|done]. intros k r Hk. cbn in Hk.
    by rewrite lookup_nil in Hk. }
  cbn [app] in Ho2, Hlay2.
  unfold bind at 1 in Hrun. rewrite Hrun2 in Hrun.
  pose proof (later_steps_keep validate (layout g2) input heap g2 eq_refl)
    as Hkeep.
  cbv beta in Hrun, Hkeep.
  match type of Hrun with
  | ?m = _ =>
      match type of Hkeep with
      | match ?m' with _ => _ end => change m' with m in Hkeep
      end
  end.
  rewrite Hrun in Hkeep.
  assert (frames g = frames g2 ∧ grid_coefficientCount g = grid_coefficientCount g2
          ∧ map (option_map coefficient_range) (slots (objects g))
            = map (option_map coefficient_range) (slots (objects g2)))
    as (K1 & K2 & K3).
  { unfold layout in Hkeep. by inversion Hkeep. }
  assert (coefficient_range <$> gos = coefficient_range <$> gos2) as Hranges.
  { rewrite Ho, Ho2 in K3. unfold filled in K3. cbn [slots] in K3.
    rewrite HM, HM2, Nat.sub_diag in K3. cbn [replicate] in K3.
    rewrite !app_nil_r in K3. rewrite <- !list_fmap_compose in K3.
    apply (inj (fmap Some)). rewrite <- !list_fmap_compose. exact K3. }
  exists gfs, gos.
  split; [by rewrite K1, F1|]. split; [done|]. split; [done|].
  split.
  { apply (frames_laid_out_layout _ _ g2); [done|].
    destruct Hlay1 as (L1 & L2 & L3 & L4 & L5 & L6 & L7 & L8).
    unfold frames_laid_out. rewrite F2, F3, F4.
    exact (conj L1 (conj L2 (conj L3 (conj L4 (conj L5
             (conj L6 (conj L7 L8))))))). }
  split; [by rewrite Hranges, K2|].
  intros k d o Hd Hgo.
  assert (∃ o2, gos2 !! k = Some o2
                ∧ coefficient_range o = coefficient_range o2)
    as (o2 & Ho2k & Hr).
  { pose proof (f_equal (fun l => l !! k) Hranges) as Hk. cbn in Hk.
    rewrite !list_lookup_fmap, Hgo in Hk.
    destruct (gos2 !! k) as [o2|]; [|done]. exists o2.
    split; [done|]. cbn in Hk. inversion Hk.
    unfold coefficient_range. congruence. }
  rewrite <- (Hcnt k d o2 Hd Ho2k). unfold coefficient_range in Hr.
  by inversion Hr.
Qed.

End ObjectLayout.
(** ** Filters, pixels and coefficients of a constructed Grid *)

Section LayoutProperties.
Context `{Services}.
Variable validate : grid_Object → option Exception.

Lemma total_nonneg (cs : list Z) : (∀ c, c ∈ cs → 0 < c) → 0 <= total cs.
Proof.
  unfold total. induction cs as [|c cs IH]; intros Hpos; cbn; [done|].
  assert (0 < c) by (apply Hpos; left).
  assert (0 <= foldr Z.add 0 cs) by (apply IH; intros; apply Hpos; by right).
  lia.
Qed.

(** Ranges of positive lengths that follow each other from 0 divide what
    they span: every index below the total lies in exactly one of them. *)
Lemma prefix_sums_partition (cs : list Z) :
  (∀ c, c ∈ cs → 0 < c) →
  ∀ p, 0 <= p < total cs →
  ∃ (j : nat) c, cs !! j = Some c
    ∧ total (take j cs) <= p < total (take j cs) + c
    ∧ ∀ (j' : nat) c', cs !! j' = Some c' →
        total (take j' cs) <= p < total (take j' cs) + c' → j' = j.
Proof.
  induction cs as [|c cs IH]; intros Hpos p Hp.
  - unfold total in Hp. cbn in Hp. lia.
  - assert (0 < c) as Hc by (apply Hpos; left).
    assert (∀ c', c' ∈ cs → 0 < c') as Hpos' by (intros; apply Hpos; by right).
    assert (total (c :: cs) = c + total cs) as Hcons by done.
    destruct (decide (p < c)) as [Hlt|Hge].
    + exists 0%nat, c. split; [done|]. split; [unfold total; cbn; lia|].
      intros [|j'] c' Hj' Hr; [done|]. exfalso.
      cbn [take] in Hr.
      assert (total (c :: take j' cs) = c + total (take j' cs)) as Ht by done.
      assert (0 <= total (take j' cs)).
      { apply total_nonneg. intros x Hx. apply Hpos'.
        apply elem_of_take in Hx as (i & Hi & _).
        by eapply list_elem_of_lookup_2. }
      lia.
    + destruct (IH Hpos' (p - c) ltac:(lia)) as (j & c0 & Hj & Hr & Huniq).
      exists (S j), c0. split; [done|]. cbn [take].
      assert (total (c :: take j cs) = c + total (take j cs)) as Ht by done.
      split; [lia|].
      intros [|j'] c' Hj' Hr'.
      * exfalso. cbn in Hj'. inversion Hj'; subst c'.
        unfold total in Hr'. cbn in Hr'. lia.
      * f_equal. apply (Huniq j' c'); [done|]. cbn [take] in Hr'.
        assert (total (c :: take j' cs) = c + total (take j' cs)) as Ht'
          by done.
        lia.
Qed.

Lemma getFilterIndex_Some (g : Grid) (fid : FilterId) (k : Z) :
  _filters g !! fid = Some k → getFilterIndex g fid = Normal k.
Proof. unfold getFilterIndex. by intros ->. Qed.

Lemma getFilterIndex_None (g : Grid) (fid : FilterId) :
  _filters g !! fid = None →
  getFilterIndex g fid = Throw InvalidParameterException.
Proof. unfold getFilterIndex. by intros ->. Qed.

Lemma getFilterIndex_Normal (g : Grid) (fid : FilterId) (k : Z) :
  getFilterIndex g fid = Normal k → _filters g !! fid = Some k.
Proof.
  unfold getFilterIndex. destruct (_filters g !! fid); [|done].
  intros Heq. by inversion Heq.
Qed.

(** X1.  In a constructed Grid, [getFilterIndex] numbers the filter
    identifiers of the Frames: it returns an index for the filter
    identifier of every Frame, always the same for the same identifier,
    and throws [InvalidParameterException] for an identifier that no Frame
    has; different identifiers have different indices, the indices are
    exactly the numbers from 0 below the filter count, and the filter count
    is the number of distinct filter identifiers of the Frames. *)
Theorem filter_indices (input : multifit_Definition) (heap heap' : positive)
    (g : Grid) :
  Grid_ctor validate input heap = Constructed (heap', g) →
  (∀ f, f ∈ def_frames input →
     ∃ k, getFilterIndex g (_filterId f) = Normal k ∧ 0 <= k < _filterCount g)
  ∧ (∀ fid, fid ∉ filter_ids (def_frames input) →
       getFilterIndex g fid = Throw InvalidParameterException)
  ∧ (∀ fid1 fid2 k, getFilterIndex g fid1 = Normal k →
       getFilterIndex g fid2 = Normal k → fid1 = fid2)
  ∧ (∀ k, 0 <= k < _filterCount g → ∃ fid, getFilterIndex g fid = Normal k)
  ∧ _filterCount g
    = Z.of_nat (size (list_to_set (filter_ids (def_frames input)) : gset Z)).
Proof.
  intros Hctor.
  destruct (Grid_ctor_layout validate input heap heap' g Hctor)
    as (gfs & gos & Hf & Ho & HM & Hlay & _).
  destruct Hlay as (Hb & Hfr & Hp & Hc & Hdom & Hrange & Hinj & Hdense).
  split.
  { intros f Hin.
    assert (_filterId f ∈ dom (_filters g)) as Hd.
    { rewrite Hdom. apply elem_of_list_to_set. unfold filter_ids.
      by apply list_elem_of_fmap_2. }
    apply elem_of_dom in Hd as [k Hk]. exists k.
    split; [by apply getFilterIndex_Some|]. by eapply Hrange. }
  split.
  { intros fid Hnot. apply getFilterIndex_None.
    apply not_elem_of_dom. rewrite Hdom. by rewrite elem_of_list_to_set. }
  split.
  { intros fid1 fid2 k H1 H2.
    apply getFilterIndex_Normal in H1, H2. by eapply Hinj. }
  split; [|exact Hc].
  intros k Hk. destruct (Hdense k Hk) as (fid & Hfid). exists fid.
  by apply getFilterIndex_Some.
Qed.

(** X2.  In a constructed Grid every Frame holds, as its filter index, the
    index that [getFilterIndex] returns for its filter identifier, and the
    indices are given in the order of first appearance: a Frame whose
    filter identifier no earlier Frame has gets the number of distinct
    filter identifiers of the earlier Frames. *)
Theorem frames_carry_their_filter_index (input : multifit_Definition)
    (heap heap' : positive) (g : Grid) :
  Grid_ctor validate input heap = Constructed (heap', g) →
  ∃ gfs,
    frames g = filled gfs (length (def_frames input))
    ∧ map gf_base gfs = def_frames input
    ∧ ∀ (j : nat) f, gfs !! j = Some f →
        getFilterIndex g (_filterId (gf_base f)) = Normal (_filterIndex f)
        ∧ (_filterId (gf_base f) ∉ filter_ids (take j (def_frames input)) →
           _filterIndex f
           = Z.of_nat (size (list_to_set
                               (filter_ids (take j (def_frames input)))
                             : gset Z))).
Proof.
  intros Hctor.
  destruct (Grid_ctor_layout validate input heap heap' g Hctor)
    as (gfs & gos & Hf & Ho & HM & Hlay & _).
  destruct Hlay as (Hb & Hfr & _).
  exists gfs. split; [done|]. split; [done|].
  intros j f Hj. destruct (Hfr j f Hj) as (_ & _ & _ & F4 & F5).
  split; [|done]. by apply getFilterIndex_Some.
Qed.

Lemma total_take_bounds (cs : list Z) (j : nat) :
  (∀ c, c ∈ cs → 0 <= c) → 0 <= total (take j cs) <= total cs.
Proof.
  revert j. induction cs as [|c cs IH]; intros j Hpos.
  - by rewrite take_nil.
  - assert (0 <= c) by (apply Hpos; left).
    assert (∀ c', c' ∈ cs → 0 <= c') as Hpos'
      by (intros; apply Hpos; by right).
    assert (∀ x l, total (x :: l) = x + total l) as Hcons by done.
    destruct j as [|j]; cbn [take].
    + pose proof (IH 0%nat Hpos') as Hall. rewrite take_0 in Hall.
      rewrite Hcons. change (total []) with 0 in *. lia.
    + specialize (IH j Hpos'). rewrite !Hcons. lia.
Qed.

(** X3.  The pixel count of the Grid is an [int].  When no footprint has a
    negative pixel count and the pixel counts of the Frames sum to
    [INT_MAX] at most, no addition of the loop over the Frames leaves the
    range of [int], and in the constructed Grid the Frame at position [j]
    has [j] as its frame index, the pixel count of its footprint, and as
    pixel offset the sum of the pixel counts of the Frames before it; the
    pixel count of the Grid is the sum over all Frames.  When every
    footprint has pixels, the pixel ranges of the Frames divide the pixels
    of the Grid: every pixel index below the pixel count lies in the range
    of exactly one Frame. *)
Theorem pixel_ranges_partition (input : multifit_Definition)
    (heap heap' : positive) (g : Grid) :
  Grid_ctor validate input heap = Constructed (heap', g) →
  (∀ f, f ∈ def_frames input → 0 <= getNpix (_footprint f)) →
  total (pixel_counts (def_frames input)) <= INT_MAX →
  ∃ gfs,
    frames g = filled gfs (length (def_frames input))
    ∧ map gf_base gfs = def_frames input
    ∧ (∀ (j : nat) f, gfs !! j = Some f →
         _frameIndex f = Z.of_nat j
         ∧ _pixelCount f = getNpix (_footprint (gf_base f))
         ∧ _pixelOffset f = total (pixel_counts (take j (def_frames input)))
         ∧ 0 <= _pixelOffset f
         ∧ _pixelOffset f + _pixelCount f <= grid_pixelCount g)
    ∧ grid_pixelCount g = total (pixel_counts (def_frames input))
    ∧ 0 <= grid_pixelCount g <= INT_MAX
    ∧ ((∀ f, f ∈ def_frames input → 0 < getNpix (_footprint f)) →
       ∀ p, 0 <= p < grid_pixelCount g →
       ∃ (j : nat) f, gfs !! j = Some f
         ∧ _pixelOffset f <= p < _pixelOffset f + _pixelCount f
         ∧ ∀ (j' : nat) f', gfs !! j' = Some f' →
             _pixelOffset f' <= p < _pixelOffset f' + _pixelCount f' →
             j' = j).
Proof.
  intros Hctor Hnonneg Hmax.
  destruct (Grid_ctor_layout validate input heap heap' g Hctor)
    as (gfs & gos & Hf & Ho & HM & Hlay & _).
  destruct Hlay as (Hb & Hfr & Hp & _).
  assert (∀ c, c ∈ pixel_counts (def_frames input) → 0 <= c) as Hcs.
  { intros c Hc. unfold pixel_counts in Hc.
    apply list_elem_of_fmap in Hc as (f & -> & Hf'). by apply Hnonneg. }
  assert (∀ (j : nat), take j (pixel_counts (def_frames input))
                       = pixel_counts (take j (def_frames input))) as Htake.
  { intros j0. unfold pixel_counts. by rewrite fmap_take. }
  assert (∀ j : nat,
            0 <= total (pixel_counts (take j (def_frames input)))
            <= total (pixel_counts (def_frames input))) as Hpre.
  { intros j. rewrite <- Htake. by apply total_take_bounds. }
  assert (0 <= total (pixel_counts (def_frames input))) as Htot
    by (pose proof (Hpre 0%nat); lia).
  assert (grid_pixelCount g = total (pixel_counts (def_frames input)))
    as Hp'.
  { rewrite Hp. apply to_int_small. unfold INT_MIN, INT_MAX in *. lia. }
  assert (∀ (j : nat) f, gfs !! j = Some f →
            _pixelOffset f
            = total (pixel_counts (take j (def_frames input)))) as Hoff.
  { intros j f Hj. destruct (Hfr j f Hj) as (_ & _ & F3 & _).
    rewrite F3. apply to_int_small. pose proof (Hpre j).
    unfold INT_MIN, INT_MAX in *. lia. }
  assert (∀ (j : nat) f, gfs !! j = Some f →
            pixel_counts (def_frames input) !! j = Some (_pixelCount f))
    as Hcount.
  { intros j f Hj. destruct (Hfr j f Hj) as (_ & F2 & _).
    unfold pixel_counts. rewrite <- Hb, <- list_fmap_compose.
    rewrite list_lookup_fmap, Hj. cbn. by rewrite F2. }
  exists gfs. split; [done|]. split; [done|]. split.
  { intros j f Hj. destruct (Hfr j f Hj) as (F1 & F2 & _).
    split; [done|]. split; [done|]. split; [by apply Hoff|].
    rewrite (Hoff j f Hj), Hp'. split; [apply Hpre|].
    pose proof (Hcount j f Hj) as Hcj.
    pose proof (Hpre (S j)) as HS. rewrite <- Htake in HS.
    rewrite (take_S_r _ _ _ Hcj), total_app in HS.
    rewrite <- Htake. unfold total at 2 in HS. cbn in HS. lia. }
  split; [done|]. split; [lia|].
  intros Hpos p Hrange.
  destruct (prefix_sums_partition (pixel_counts (def_frames input)))
    with (p := p) as (j & c & Hj & Hr & Huniq).
  { intros c Hc. unfold pixel_counts in Hc.
    apply list_elem_of_fmap in Hc as (f & -> & Hf'). by apply Hpos. }
  { by rewrite <- Hp'. }
  destruct (gfs !! j) as [f|] eqn:Hfj.
  2:{ apply lookup_ge_None in Hfj. apply lookup_lt_Some in Hj.
      unfold pixel_counts in Hj. rewrite length_fmap, <- Hb, length_fmap in Hj.
      lia. }
  exists j, f. split; [done|].
  pose proof (Hoff j f Hfj) as F3.
  pose proof (Hcount j f Hfj) as Hcj. rewrite Hj in Hcj.
  inversion Hcj; subst c. rewrite Htake in Hr. rewrite F3.
  split; [done|].
  intros j' f' Hj' Hr'. pose proof (Hoff j' f' Hj') as F3'.
  apply (Huniq j' (_pixelCount f')); [by apply Hcount|].
  rewrite Htake. by rewrite <- F3'.
Qed.

(** X4.  In a constructed Grid the coefficient count of the Grid is the
    sum of the coefficient counts of its Objects, and the coefficient
    offset of the Object at position [k] is the sum of the coefficient
    counts of the Objects before it; the count of an Object is the size of
    its basis, or 0 when it has none. *)
Theorem coefficient_ranges (input : multifit_Definition)
    (heap heap' : positive) (g : Grid) :
  Grid_ctor validate input heap = Constructed (heap', g) →
  ∃ gos,
    objects g = filled gos (length (def_objects input))
    ∧ length gos = length (def_objects input)
    ∧ grid_coefficientCount g = total (coefficient_counts gos)
    ∧ (∀ (k : nat) o, gos !! k = Some o →
         _coefficientOffset o = total (coefficient_counts (take k gos)))
    ∧ (∀ (k : nat) d o, def_objects input !! k = Some d → gos !! k = Some o →
         _coefficientCount o
         = match _basis (d_base d) with
           | Some b => getBasisSize b
           | None => 0
           end).
Proof.
  intros Hctor.
  destruct (Grid_ctor_layout validate input heap heap' g Hctor)
    as (gfs & gos & Hf & Ho & HM & _ & [Hoff Htot] & Hcnt).
  assert (∀ l : list grid_Object,
            snd <$> (coefficient_range <$> l) = coefficient_counts l) as Hsnd.
  { intros l. unfold coefficient_counts. by rewrite <- list_fmap_compose. }
  exists gos. split; [done|]. split; [done|].
  split; [by rewrite Htot, Hsnd|]. split; [|done].
  intros k o Hk.
  specialize (Hoff k (coefficient_range o)).
  rewrite list_lookup_fmap, Hk in Hoff. specialize (Hoff eq_refl).
  cbn in Hoff. rewrite Hoff, <- fmap_take, Hsnd. done.
Qed.

End LayoutProperties.

Section LayoutWitnesses.
Import Example Survey.

Lemma filter_indices_witness :
  Grid_ctor accept three_frames 1 = Constructed (5%positive, three_frames_grid)
  ∧ (∀ f, f ∈ def_frames three_frames →
       ∃ k, getFilterIndex three_frames_grid (_filterId f) = Normal k
            ∧ 0 <= k < _filterCount three_frames_grid)
  ∧ (∀ fid, fid ∉ filter_ids (def_frames three_frames) →
       getFilterIndex three_frames_grid fid = Throw InvalidParameterException).
Proof.
  assert (Grid_ctor accept three_frames 1
          = Constructed (5%positive, three_frames_grid)) as Hctor
    by (vm_compute; reflexivity).
  split; [exact Hctor|].
  pose proof (filter_indices accept three_frames 1 5 three_frames_grid Hctor)
    as (P1 & P2 & _).
  exact (conj P1 P2).
Defined.

Lemma frames_carry_their_filter_index_witness :
  Grid_ctor accept three_frames 1 = Constructed (5%positive, three_frames_grid)
  ∧ ∃ gfs,
      frames three_frames_grid = filled gfs (length (def_frames three_frames))
      ∧ map gf_base gfs = def_frames three_frames
      ∧ ∀ (j : nat) f, gfs !! j = Some f →
          getFilterIndex three_frames_grid (_filterId (gf_base f))
          = Normal (_filterIndex f)
          ∧ (_filterId (gf_base f) ∉ filter_ids (take j (def_frames three_frames)) →
             _filterIndex f
             = Z.of_nat (size (list_to_set
                                 (filter_ids (take j (def_frames three_frames)))
                               : gset Z))).
Proof.
  assert (Grid_ctor accept three_frames 1
          = Constructed (5%positive, three_frames_grid)) as Hctor
    by (vm_compute; reflexivity).
  split; [exact Hctor|].
  exact (frames_carry_their_filter_index accept three_frames 1 5
           three_frames_grid Hctor).
Defined.

Lemma pixel_ranges_partition_witness :
  (Grid_ctor accept three_frames 1 = Constructed (5%positive, three_frames_grid)
   ∧ (∀ f, f ∈ def_frames three_frames → 0 <= getNpix (_footprint f))
   ∧ total (pixel_counts (def_frames three_frames)) <= INT_MAX)
  ∧ ∃ gfs,
      frames three_frames_grid = filled gfs (length (def_frames three_frames))
      ∧ map gf_base gfs = def_frames three_frames
      ∧ (∀ (j : nat) f, gfs !! j = Some f →
           _frameIndex f = Z.of_nat j
           ∧ _pixelCount f = getNpix (_footprint (gf_base f))
           ∧ _pixelOffset f
             = total (pixel_counts (take j (def_frames three_frames)))
           ∧ 0 <= _pixelOffset f
           ∧ _pixelOffset f + _pixelCount f
             <= grid_pixelCount three_frames_grid)
      ∧ grid_pixelCount three_frames_grid
        = total (pixel_counts (def_frames three_frames)).
Proof.
  assert (∀ f, f ∈ def_frames three_frames → 0 <= getNpix (_footprint f))
    as Hnonneg.
  { intros f Hf.
    apply elem_of_cons in Hf as [->|Hf];
      [vm_compute; intros Hgt; discriminate Hgt|].
    apply elem_of_cons in Hf as [->|Hf];
      [vm_compute; intros Hgt; discriminate Hgt|].
    apply elem_of_cons in Hf as [->|Hf];
      [vm_compute; intros Hgt; discriminate Hgt|].
    apply elem_of_nil in Hf. destruct Hf. }
  assert (total (pixel_counts (def_frames three_frames)) <= INT_MAX) as Hmax
    by (vm_compute; intros Hgt; discriminate Hgt).
  assert (Grid_ctor accept three_frames 1
          = Constructed (5%positive, three_frames_grid)) as Hctor
    by (vm_compute; reflexivity).
  split; [exact (conj Hctor (conj Hnonneg Hmax))|].
  destruct (pixel_ranges_partition accept three_frames 1 5
              three_frames_grid Hctor Hnonneg Hmax)
    as (gfs & P1 & P2 & P3 & P4 & _).
  exists gfs. exact (conj P1 (conj P2 (conj P3 P4))).
Defined.

Lemma coefficient_ranges_witness :
  Grid_ctor accept three_frames 1 = Constructed (5%positive, three_frames_grid)
  ∧ ∃ gos,
      objects three_frames_grid = filled gos (length (def_objects three_frames))
      ∧ length gos = length (def_objects three_frames)
      ∧ grid_coefficientCount three_frames_grid = total (coefficient_counts gos)
      ∧ (∀ (k : nat) o, gos !! k = Some o →
           _coefficientOffset o = total (coefficient_counts (take k gos))).
Proof.
  assert (Grid_ctor accept three_frames 1
          = Constructed (5%positive, three_frames_grid)) as Hctor
    by (vm_compute; reflexivity).
  split; [exact Hctor|].
  destruct (coefficient_ranges accept three_frames 1 5
              three_frames_grid Hctor) as (gos & P1 & P2 & P3 & P4 & _).
  exists gos. exact (conj P1 (conj P2 (conj P3 P4))).
Defined.

End LayoutWitnesses.
(** ** More on the lookup by identifier *)

Section FindOutcomes.
Context {T : Type} `{Identified T}.

(** On every array the loop of [find] stays inside it. *)
Lemma find_loop_in_bounds (array : list T) (id : ID) :
  ∀ (n : nat) (iter1 count : Z),
  Z.to_nat count = n →
  0 <= iter1 → 0 <= count → iter1 + count <= Z.of_nat (length array) →
  ∃ lb, find_loop array id iter1 count = Normal lb
        ∧ iter1 <= lb <= iter1 + count.
Proof.
  intros n. induction n as [n IH] using lt_wf_ind.
  intros iter1 count Hn Hi Hc Hle.
  rewrite find_loop_unfold.
  destruct (decide (0 < count)) as [Hpos|Hzero].
  - pose proof (quot2_bounds count Hpos) as Hstep.
    destruct (array !! Z.to_nat (iter1 + count `quot` 2)) as [x|] eqn:Hx.
    2:{ apply lookup_ge_None in Hx. lia. }
    destruct (decide (id_of x < id)) as [Hlt|Hge].
    + destruct (IH (Z.to_nat (count - (count `quot` 2 + 1))) ltac:(lia)
                  (iter1 + count `quot` 2 + 1) (count - (count `quot` 2 + 1))
                  eq_refl ltac:(lia) ltac:(lia) ltac:(lia))
        as (lb & Hlb & Hr).
      exists lb. split; [done|lia].
    + destruct (IH (Z.to_nat (count `quot` 2)) ltac:(lia)
                  iter1 (count `quot` 2)
                  eq_refl ltac:(lia) ltac:(lia) ltac:(lia))
        as (lb & Hlb & Hr).
      exists lb. split; [done|lia].
  - exists iter1. split; [done|lia].
Qed.

(** X5.  On an array sorted by identifier the outcome of [find] is
    determined.  It returns an element exactly when that element is the
    first one with the identifier asked for; it throws
    [InvalidParameterException] exactly when no element has the identifier
    and some element has a greater one; and it reads past the end of the
    array exactly when every identifier of the array is smaller than the
    one asked for, which includes the empty array. *)
Theorem find_on_sorted_array (array : list T) (id : ID) :
  sorted_by_id array →
  (∀ x, find array id = Normal x
        ↔ ∃ i : nat, array !! i = Some x ∧ id_of x = id
            ∧ ∀ (j : nat) y, (j < i)%nat → array !! j = Some y → id_of y < id)
  ∧ (find array id = Throw InvalidParameterException
     ↔ (∀ y, y ∈ array → id_of y ≠ id) ∧ ∃ y, y ∈ array ∧ id < id_of y)
  ∧ (find array id = Fault OutOfBounds ↔ ∀ y, y ∈ array → id_of y < id)
  ∧ (∀ u, find array id = Fault u → u = OutOfBounds).
Proof.
  intros Hsorted.
  destruct (find_position_lower_bound array id Hsorted)
    as (lb & Hpos & Hlen & Hlo & Hhi).
  rewrite (find_by_position _ _ _ Hpos).
  destruct (array !! lb) as [x|] eqn:Hx.
  - pose proof (Hhi lb x ltac:(lia) Hx) as Hge.
    assert (∀ (j : nat) y, array !! j = Some y → id_of y = id →
              (lb <= j)%nat ∧ id_of x = id) as Hfirst.
    { intros j y Hy Hid.
      assert (lb <= j)%nat as Hle.
      { destruct (decide (lb <= j)%nat); [done|].
        specialize (Hlo j y ltac:(lia) Hy). lia. }
      split; [done|].
      destruct (decide (lb = j)) as [->|Hne]; [congruence|].
      pose proof (Hsorted lb j x y ltac:(lia) Hx Hy). lia. }
    destruct (decide (id_of x ≠ id)) as [Hne|Heq].
    + split.
      { intros x'. split; [done|]. intros (i & Hi & Hid & _).
        destruct (Hfirst i x' Hi Hid) as [_ ?]. done. }
      split.
      { split; [|done]. intros _. split.
        - intros y Hy Hid. apply list_elem_of_lookup in Hy as [j Hj].
          destruct (Hfirst j y Hj Hid) as [_ ?]. done.
        - exists x. split; [by eapply list_elem_of_lookup_2|lia]. }
      split; [|done]. split; [done|].
      intros Hall. exfalso.
      assert (id_of x < id); [|lia].
      apply Hall. by eapply list_elem_of_lookup_2.
    + apply dec_stable in Heq.
      split.
      { intros x'. split.
        - intros Hn. inversion Hn; subst x'. exists lb.
          split; [done|]. split; [done|]. intros j y Hj. by apply Hlo.
        - intros (i & Hi & Hid & Hbefore).
          destruct (Hfirst i x' Hi Hid) as [Hle _].
          destruct (decide (lb = i)) as [->|Hne]; [congruence|].
          specialize (Hbefore lb x ltac:(lia) Hx). lia. }
      split.
      { split; [done|]. intros [Hnone _]. exfalso.
        apply (Hnone x); [by eapply list_elem_of_lookup_2|done]. }
      split; [|done]. split; [done|].
      intros Hall. exfalso.
      assert (id_of x < id); [|lia].
      apply Hall. by eapply list_elem_of_lookup_2.
  - apply lookup_ge_None in Hx.
    assert (∀ y, y ∈ array → id_of y < id) as Hall.
    { intros y Hy. apply list_elem_of_lookup in Hy as [j Hj].
      apply (Hlo j y); [|done]. apply lookup_lt_Some in Hj. lia. }
    split.
    { intros x'. split; [done|]. intros (i & Hi & Hid & _).
      assert (id_of x' < id); [|lia].
      apply Hall. by eapply list_elem_of_lookup_2. }
    split.
    { split; [done|]. intros (_ & y & Hy & Hgt).
      specialize (Hall y Hy). lia. }
    split; [done|]. intros u Hu. by inversion Hu.
Qed.

(** X6.  On every array, sorted or not, the loop of [find] ends at a
    position between the start and the end of the array without reading
    outside it.  What [find] returns is an element of the array with the
    identifier asked for; it fails only with
    [InvalidParameterException], after reading an element with another
    identifier, or by reading the position one past the last element. *)
Theorem find_on_any_array (array : list T) (id : ID) :
  ∃ lb : nat,
    find_position array id = Normal (Z.of_nat lb)
    ∧ (lb <= length array)%nat
    ∧ (∀ x, find array id = Normal x →
         array !! lb = Some x ∧ id_of x = id)
    ∧ (∀ e, find array id = Throw e →
         e = InvalidParameterException
         ∧ ∃ x, array !! lb = Some x ∧ id_of x ≠ id)
    ∧ (∀ u, find array id = Fault u → u = OutOfBounds ∧ lb = length array).
Proof.
  destruct (find_loop_in_bounds array id (length array) 0
              (Z.of_nat (length array)) ltac:(lia) ltac:(lia) ltac:(lia)
              ltac:(lia)) as (lb & Hlb & Hr).
  exists (Z.to_nat lb).
  assert (find_position array id = Normal (Z.of_nat (Z.to_nat lb))) as Hpos.
  { unfold find_position. rewrite Hlb. f_equal. lia. }
  split; [done|]. split; [lia|].
  rewrite (find_by_position _ _ _ Hpos).
  destruct (array !! Z.to_nat lb) as [x|] eqn:Hx.
  - destruct (decide (id_of x ≠ id)) as [Hne|Heq].
    + split; [done|]. split; [|done].
      intros e He. inversion He. split; [done|]. by exists x.
    + apply dec_stable in Heq. split.
      { intros x' Hn. by inversion Hn; subst x'. }
      split; done.
  - apply lookup_ge_None in Hx.
    split; [done|]. split; [done|].
    intros u Hu. inversion Hu. split; [done|lia].
Qed.

End FindOutcomes.

Section FindCost.
Context {T : Type} `{Identified T}.
Import LookupCost.

Lemma find_loop_counted_unfold (array : list T) (id : ID) (iter1 count : Z)
    (n : nat) :
  find_loop_counted array id iter1 count n =
  if decide (0 < count) then
    match array !! Z.to_nat (iter1 + Z.quot count 2) with
    | None => (Fault OutOfBounds, S n)
    | Some x =>
        if decide (id_of x < id)
        then find_loop_counted array id (iter1 + Z.quot count 2 + 1)
               (count - (Z.quot count 2 + 1)) (S n)
        else find_loop_counted array id iter1 (Z.quot count 2) (S n)
    end
  else (Normal iter1, n).
Proof.
  rewrite find_loop_counted_equation_1.
  destruct (decide (0 < count)); reflexivity.
Qed.

Lemma log2_half (c c' : Z) : 0 < c' → 2 * c' <= c → Z.log2 c' + 1 <= Z.log2 c.
Proof.
  intros Hpos Hle. apply Z.log2_le_pow2; [lia|].
  rewrite Z.pow_add_r by (try apply Z.log2_nonneg; lia).
  pose proof (Z.log2_spec c' Hpos) as [Hlow _].
  change (2 ^ 1) with 2. lia.
Qed.

Lemma quot2_half (count : Z) :
  0 < count →
  2 * Z.quot count 2 <= count ∧ 2 * (count - (Z.quot count 2 + 1)) <= count.
Proof.
  intros Hc. rewrite Z.quot_div_nonneg by lia.
  pose proof (Z.div_mod count 2 ltac:(lia)).
  pose proof (Z.mod_pos_bound count 2 ltac:(lia)). lia.
Qed.

(** The counted loop is the loop of [find], and its body runs at most
    once more than the binary logarithm of the number of elements it has
    to search. *)
Lemma find_loop_counted_spec (array : list T) (id : ID) :
  ∀ (k : nat) (iter1 count : Z) (n : nat),
  Z.to_nat count = k →
  (find_loop_counted array id iter1 count n).1
  = find_loop array id iter1 count
  ∧ (n <= (find_loop_counted array id iter1 count n).2)%nat
  ∧ Z.of_nat (find_loop_counted array id iter1 count n).2
    <= Z.of_nat n + (if decide (0 < count) then Z.log2 count + 1 else 0).
Proof.
  intros k. induction k as [k IH] using lt_wf_ind.
  intros iter1 count n Hk.
  rewrite find_loop_counted_unfold, find_loop_unfold.
  destruct (decide (0 < count)) as [Hpos|Hzero]; [|cbn; split; [done|lia]].
  pose proof (quot2_bounds count Hpos) as Hstep.
  pose proof (quot2_half count Hpos) as [Hh1 Hh2].
  pose proof (Z.log2_nonneg count) as Hlog.
  destruct (array !! Z.to_nat (iter1 + count `quot` 2)) as [x|] eqn:Hx.
  2:{ cbn. split; [done|lia]. }
  destruct (decide (id_of x < id)) as [Hlt|Hge].
  - destruct (IH (Z.to_nat (count - (count `quot` 2 + 1))) ltac:(lia)
                (iter1 + count `quot` 2 + 1) (count - (count `quot` 2 + 1))
                (S n) eq_refl) as (I1 & I2 & I3).
    split; [done|]. split; [lia|].
    destruct (decide (0 < count - (count `quot` 2 + 1))) as [Hp'|Hz'].
    + pose proof (log2_half count _ Hp' Hh2). lia.
    + lia.
  - destruct (IH (Z.to_nat (count `quot` 2)) ltac:(lia)
                iter1 (count `quot` 2) (S n) eq_refl) as (I1 & I2 & I3).
    split; [done|]. split; [lia|].
    destruct (decide (0 < count `quot` 2)) as [Hp'|Hz'].
    + pose proof (log2_half count _ Hp' Hh1). lia.
    + lia.
Qed.

(** X7.  [find] is a binary search: the body of its loop does not run on
    an empty array, and on an array of [n > 0] elements it runs at most
    [log2 n + 1] times, whatever the array holds and whatever identifier is
    asked for. *)
Theorem find_is_logarithmic (array : list T) (id : ID) :
  (find_loop_counted array id 0 (Z.of_nat (length array)) 0).1
  = find_position array id
  ∧ (array = [] → find_iterations array id = 0%nat)
  ∧ (array ≠ [] →
     Z.of_nat (find_iterations array id)
     <= Z.log2 (Z.of_nat (length array)) + 1).
Proof.
  destruct (find_loop_counted_spec array id (length array) 0
              (Z.of_nat (length array)) 0 ltac:(lia)) as (S1 & S2 & S3).
  split; [done|]. unfold find_iterations. split.
  - intros ->. change (Z.of_nat (length (@nil T))) with 0 in *.
    destruct (decide (0 < 0)); lia.
  - intros Hne.
    destruct (decide (0 < Z.of_nat (length array))) as [Hpos|Hz]; [lia|].
    destruct array; [done|]. cbn [length] in Hz. lia.
Qed.

End FindCost.

Section FindWitnesses.
Import Example.

Lemma find_on_sorted_array_witness :
  sorted_by_id [grid_frame 1; grid_frame 3]
  ∧ (find [grid_frame 1; grid_frame 3] 2 = Throw InvalidParameterException
     ↔ (∀ y, y ∈ [grid_frame 1; grid_frame 3] → id_of y ≠ 2)
       ∧ ∃ y, y ∈ [grid_frame 1; grid_frame 3] ∧ 2 < id_of y)
  ∧ (find [grid_frame 1; grid_frame 3] 2 = Fault OutOfBounds
     ↔ ∀ y, y ∈ [grid_frame 1; grid_frame 3] → id_of y < 2).
Proof.
  assert (sorted_by_id [grid_frame 1; grid_frame 3]) as Hsorted.
  { apply sorted_two. vm_compute. discriminate. }
  split; [exact Hsorted|].
  pose proof (find_on_sorted_array [grid_frame 1; grid_frame 3] 2 Hsorted)
    as (_ & P2 & P3 & _).
  exact (conj P2 P3).
Defined.

End FindWitnesses.
(** ** The registry of model factories *)

Section RegistryProperties.
Import ModelFactory.
Context {ConstPtr : Type}.

Lemma lookupFactory_Some (name : string) (registry : gmap string ConstPtr)
    (factory : ConstPtr) :
  registry !! name = Some factory →
  lookupFactory ConstPtr name registry = Ret factory registry.
Proof. unfold lookupFactory, bind, get. by intros ->. Qed.

Lemma lookupFactory_None (name : string) (registry : gmap string ConstPtr) :
  registry !! name = None →
  lookupFactory ConstPtr name registry
  = Exc InvalidParameterException registry.
Proof. unfold lookupFactory, bind, get. by intros ->. Qed.

Lemma lookupFactory_Ret (name : string) (registry r : gmap string ConstPtr)
    (factory : ConstPtr) :
  lookupFactory ConstPtr name registry = Ret factory r →
  registry !! name = Some factory ∧ r = registry.
Proof.
  unfold lookupFactory, bind, get.
  destruct (registry !! name); [|done]. intros Heq. by inversion Heq.
Qed.

Lemma lookupFactory_Exc (name : string) (registry r : gmap string ConstPtr)
    (e : Exception) :
  lookupFactory ConstPtr name registry = Exc e r →
  registry !! name = None ∧ e = InvalidParameterException ∧ r = registry.
Proof.
  unfold lookupFactory, bind, get.
  destruct (registry !! name); [done|]. intros Heq. by inversion Heq.
Qed.

(** X8.  A lookup leaves the registry as it is, and a registration under
    a name that has a factory does, too: [registerFactory] then returns
    [false] and the factory registered first stays.  Under a name that
    [lookupFactory] does not find, [registerFactory] returns [true];
    afterwards [lookupFactory] returns the new factory for that name and
    what it returned before for every other name. *)
Theorem registerFactory_then_lookupFactory (name : string)
    (factory : ConstPtr) (registry : gmap string ConstPtr) :
  (∀ known r, lookupFactory ConstPtr name registry = Ret known r →
     r = registry
     ∧ registerFactory ConstPtr name factory registry = Ret false registry)
  ∧ (∀ e r, lookupFactory ConstPtr name registry = Exc e r →
       e = InvalidParameterException ∧ r = registry
       ∧ ∃ registry',
           registerFactory ConstPtr name factory registry = Ret true registry'
           ∧ lookupFactory ConstPtr name registry' = Ret factory registry'
           ∧ ∀ other, other ≠ name →
               (∀ f, lookupFactory ConstPtr other registry' = Ret f registry'
                     ↔ lookupFactory ConstPtr other registry = Ret f registry)
               ∧ (lookupFactory ConstPtr other registry'
                  = Exc InvalidParameterException registry'
                  ↔ lookupFactory ConstPtr other registry
                    = Exc InvalidParameterException registry)).
Proof.
  split.
  - intros known r Hl. apply lookupFactory_Ret in Hl as [Hl ->].
    split; [done|]. unfold registerFactory, bind, get. by rewrite Hl.
  - intros e r Hl. apply lookupFactory_Exc in Hl as (Hl & -> & ->).
    split; [done|]. split; [done|].
    exists (<[name := factory]> registry). split.
    { unfold registerFactory, bind, get, modify, ret. by rewrite Hl. }
    split; [apply lookupFactory_Some; by rewrite lookup_insert_eq|].
    intros other Hne.
    assert ((<[name := factory]> registry : gmap string ConstPtr) !! other
            = registry !! other) as Hsame
      by (by rewrite lookup_insert_ne).
    split.
    + intros f. split; intros Hr; apply lookupFactory_Ret in Hr as [Hr _];
        apply lookupFactory_Some; congruence.
    + split; intros Hr; apply lookupFactory_Exc in Hr as (Hr & _ & _);
        apply lookupFactory_None; congruence.
Qed.

Lemma registerFactories_spec (l : list (string * ConstPtr)) :
  ∀ (registry : gmap string ConstPtr),
  ∃ bs, registerFactories ConstPtr l registry
        = Ret bs (registry ∪ list_to_map l)
    ∧ length bs = length l
    ∧ ∀ (i : nat) name f, l !! i = Some (name, f) →
        bs !! i = Some (bool_decide (registry !! name = None
                                     ∧ name ∉ (take i l).*1)).
Proof.
  induction l as [|[name factory] l IH]; intros registry.
  - exists []. cbn. rewrite (right_id_L ∅ (∪)). split; [done|].
    split; [done|]. intros i name f Hi. by rewrite lookup_nil in Hi.
  - cbn [registerFactories]. unfold bind at 1.
    unfold registerFactory, bind, get, modify, ret.
    destruct (registry !! name) as [known|] eqn:Hreg.
    + destruct (IH registry) as (bs & Hrun & Hlen & Hbs).
      fold (@bind (gmap string ConstPtr)).
      unfold bind. rewrite Hrun. exists (false :: bs). split.
      { f_equal. cbn. apply map_eq. intros k.
        rewrite !lookup_union.
        destruct (decide (k = name)) as [->|Hne].
        - rewrite Hreg. by rewrite !union_Some_l.
        - by rewrite lookup_insert_ne. }
      split; [cbn; by rewrite Hlen|].
      intros [|i] name' f Hi.
      * cbn in Hi. inversion Hi; subst name' f. cbn.
        f_equal. symmetry. apply bool_decide_eq_false. rewrite Hreg.
        by intros [? _].
      * cbn in Hi. cbn [lookup list_lookup take fmap list_fmap].
        change (bs !! i = Some (bool_decide
                  (registry !! name' = None
                   ∧ name' ∉ name :: (take i l).*1))).
        rewrite (Hbs i name' f Hi). f_equal.
        apply bool_decide_ext. rewrite not_elem_of_cons.
        split; [|tauto]. intros [Hn Hni]. split; [done|].
        split; [|done]. intros ->. congruence.
    + destruct (IH (<[name := factory]> registry)) as (bs & Hrun & Hlen & Hbs).
      fold (@bind (gmap string ConstPtr)).
      unfold bind. rewrite Hrun. exists (true :: bs). split.
      { f_equal. cbn. rewrite <- insert_union_l.
        by rewrite <- insert_union_r. }
      split; [cbn; by rewrite Hlen|].
      intros [|i] name' f Hi.
      * cbn in Hi. inversion Hi; subst name' f. cbn.
        f_equal. symmetry. apply bool_decide_eq_true. split; [done|].
        apply not_elem_of_nil.
      * cbn in Hi. cbn [lookup list_lookup take fmap list_fmap].
        change (bs !! i = Some (bool_decide
                  (registry !! name' = None
                   ∧ name' ∉ name :: (take i l).*1))).
        rewrite (Hbs i name' f Hi). f_equal.
        apply bool_decide_ext. rewrite not_elem_of_cons.
        destruct (decide (name' = name)) as [->|Hne].
        -- rewrite lookup_insert_eq. split; [by intros [? _]|].
           by intros (_ & ? & _).
        -- rewrite lookup_insert_ne by done. tauto.
Qed.

(** X9.  After a sequence of registrations into an empty registry,
    [lookupFactory] returns for every name the factory of the first
    registration under that name, and throws
    [InvalidParameterException] for the names that were not registered.
    The registrations that returned [true] are the first ones of their
    names. *)
Theorem first_registration_wins (l : list (string * ConstPtr)) :
  ∃ bs registry,
    registerFactories ConstPtr l ∅ = Ret bs registry
    ∧ length bs = length l
    ∧ (∀ (i : nat) name f, l !! i = Some (name, f) →
         bs !! i = Some (bool_decide (name ∉ (take i l).*1)))
    ∧ (∀ (i : nat) name f, l !! i = Some (name, f) →
         name ∉ (take i l).*1 →
         lookupFactory ConstPtr name registry = Ret f registry)
    ∧ (∀ name, name ∉ l.*1 →
         lookupFactory ConstPtr name registry
         = Exc InvalidParameterException registry).
Proof.
  destruct (registerFactories_spec l ∅) as (bs & Hrun & Hlen & Hbs).
  rewrite (left_id_L ∅ (∪)) in Hrun.
  exists bs, (list_to_map l). split; [done|]. split; [done|].
  split.
  { intros i name f Hi. rewrite (Hbs i name f Hi). f_equal.
    apply bool_decide_ext. rewrite lookup_empty. tauto. }
  split.
  - intros i name f Hi Hfirst. apply lookupFactory_Some.
    rewrite <- (take_drop i l) at 1. rewrite list_to_map_app.
    rewrite lookup_union_r by (by apply not_elem_of_list_to_map_1).
    rewrite (drop_S _ _ _ Hi). cbn. by rewrite lookup_insert_eq.
  - intros name Hnot. apply lookupFactory_None.
    by apply not_elem_of_list_to_map_1.
Qed.

End RegistryProperties.
(** ** Where the source loop stops *)

Section SourceChecks.
Context `{Services}.

(** When the constructor of a Source returns. *)
Lemma Source_ctor_Normal_iff (fi oi : nat) (f : grid_Frame) (o : grid_Object)
    (wcs : option Wcs) :
  (∃ s, Source_ctor fi oi f o wcs = Normal s)
  ↔ (is_Some wcs ↔ is_Some (frame_wcs (gf_base f)))
    ∧ (is_Some wcs ∨ is_Some (_psf (gf_base f)) → is_Some (g_position o))
    ∧ (is_Some (_basis (go_base o)) ∨ is_Some (_psf (gf_base f))).
Proof.
  unfold Source_ctor, deref.
  destruct wcs as [w|], (frame_wcs (gf_base f)) as [fw|],
    (g_position o) as [p|], (_psf (gf_base f)) as [psf|],
    (_basis (go_base o)) as [b|]; cbn; rewrite !is_Some_alt.
  all: split;
    [ intros [s Hs]; try discriminate Hs; tauto
    | intros (Hw & Hp & Hb); first [exfalso; tauto | by eexists] ].
Qed.

(** Undefined behaviour in the constructor of a Source is the read of
    the position of an Object that has none. *)
Lemma Source_ctor_Fault (fi oi : nat) (f : grid_Frame) (o : grid_Object)
    (wcs : option Wcs) (u : UndefinedBehaviour) :
  Source_ctor fi oi f o wcs = Fault u →
  u = NullDereference ∧ g_position o = None
  ∧ ((is_Some wcs ∧ is_Some (frame_wcs (gf_base f)))
     ∨ is_Some (_psf (gf_base f))).
Proof.
  unfold Source_ctor, deref.
  destruct wcs as [w|], (frame_wcs (gf_base f)) as [fw|],
    (g_position o) as [p|], (_psf (gf_base f)) as [psf|],
    (_basis (go_base o)) as [b|]; cbn; intros Hu; try discriminate Hu.
  all: inversion Hu; split; [done|]; split; [done|];
    rewrite !is_Some_alt; tauto.
Qed.

(** The exceptions of the constructor of a Source. *)
Lemma Source_ctor_Throw (fi oi : nat) (f : grid_Frame) (o : grid_Object)
    (wcs : option Wcs) (e : Exception) :
  Source_ctor fi oi f o wcs = Throw e →
  (e = InvalidDefinitionError FramesMustHaveWcs
   ∧ is_Some wcs ∧ frame_wcs (gf_base f) = None)
  ∨ (e = InvalidDefinitionError FramesMayNotHaveWcs
     ∧ wcs = None ∧ is_Some (frame_wcs (gf_base f)))
  ∨ (e = InvalidDefinitionError ObjectsMustHaveBasis
     ∧ (is_Some wcs ↔ is_Some (frame_wcs (gf_base f)))
     ∧ _basis (go_base o) = None ∧ _psf (gf_base f) = None).
Proof.
  unfold Source_ctor, deref.
  destruct wcs as [w|], (frame_wcs (gf_base f)) as [fw|],
    (g_position o) as [p|], (_psf (gf_base f)) as [psf|],
    (_basis (go_base o)) as [b|]; cbn; intros Hu; try discriminate Hu.
  all: inversion Hu; rewrite !is_Some_alt; tauto.
Qed.

End SourceChecks.

Section StopAnalysis.
Context `{Services}.
Variable validate : grid_Object → option Exception.

Lemma sources_for_stopped_at (i : nat) (o : grid_Object) (wcs : option Wcs)
    (fs : list grid_Frame) :
  ∀ (j : nat) (srcs : list grid_Source) (r : Stop),
  sources_for i o wcs j fs = (srcs, Some r) →
  ∃ f, fs !! length srcs = Some f
    ∧ (∀ (k : nat) f', (k < length srcs)%nat → fs !! k = Some f' →
         ∃ s, Source_ctor (j + k) i f' o wcs = Normal s)
    ∧ match Source_ctor (j + length srcs) i f o wcs with
      | Normal _ => False
      | Throw e => r = SourceThrew e
      | Fault u => r = Faulted u
      end.
Proof.
  induction fs as [|f fs IH]; intros j srcs r Hs; cbn in Hs; [done|].
  destruct (Source_ctor j i f o wcs) as [s|e|u] eqn:Hctor.
  - destruct (sources_for i o wcs (S j) fs) as [l' r'] eqn:Hl'.
    inversion Hs; subst. destruct (IH (S j) l' r Hl') as (f' & Hf' & Hbefore & Hc).
    exists f'. cbn [length]. split; [done|]. split.
    + intros [|k] f0 Hk Hf0; cbn in Hf0.
      * inversion Hf0; subst f0. exists s. by rewrite Nat.add_0_r.
      * destruct (Hbefore k f0 ltac:(lia) Hf0) as (s' & Hs').
        exists s'. by rewrite <- Nat.add_succ_comm.
    + by rewrite <- Nat.add_succ_comm.
  - inversion Hs; subst. exists f. cbn [length]. split; [done|].
    split; [intros k f' Hk; lia|]. by rewrite Nat.add_0_r, Hctor.
  - inversion Hs; subst. exists f. cbn [length]. split; [done|].
    split; [intros k f' Hk; lia|]. by rewrite Nat.add_0_r, Hctor.
Qed.

(** The source loop stops at the first Object that [validate] rejects or
    that has a Source whose constructor does not return, and there at the
    first such Source. *)
Lemma sources_loop_stopped_at (wcs : option Wcs) (gfs : list grid_Frame)
    (os : list grid_Object) :
  ∀ (i : nat) (l : list grid_Source) os2 l2 (r : Stop),
  sources_loop validate wcs gfs i os l = (os2, l2, Some r) →
  ∃ (k : nat) o,
    os !! k = Some o
    ∧ (∀ (k' : nat) o', (k' < k)%nat → os !! k' = Some o' →
         validate o' = None
         ∧ ∀ (j : nat) f, gfs !! j = Some f →
             ∃ s, Source_ctor j (i + k') f o' wcs = Normal s)
    ∧ ((∃ e, validate o = Some e ∧ r = ValidateThrew e
             ∧ length l2 = (length l + k * length gfs)%nat)
       ∨ (validate o = None
          ∧ ∃ (j : nat) f, gfs !! j = Some f
              ∧ (∀ (j' : nat) f', (j' < j)%nat → gfs !! j' = Some f' →
                   ∃ s, Source_ctor j' (i + k) f' o wcs = Normal s)
              ∧ match Source_ctor j (i + k) f o wcs with
                | Normal _ => False
                | Throw e => r = SourceThrew e
                | Fault u => r = Faulted u
                end
              ∧ length l2 = (length l + k * length gfs + j)%nat)).
Proof.
  induction os as [|o os IH]; intros i l os2 l2 r Hs; cbn in Hs; [done|].
  destruct (validate o) as [e|] eqn:Hval.
  { inversion Hs; subst. exists 0%nat, o. split; [done|].
    split; [intros k' o' Hk'; lia|]. left. exists e.
    split; [done|]. split; [done|lia]. }
  assert (∀ j f, Source_ctor j i f (set_sources_first (length l) o) wcs
                 = Source_ctor j i f o wcs) as Hext
    by (intros; by apply Source_ctor_ext).
  destruct (sources_for i (set_sources_first (length l) o) wcs 0 gfs)
    as [srcs [r0|]] eqn:Hinner.
  - inversion Hs; subst.
    destruct (sources_for_stopped_at _ _ _ _ _ _ _ Hinner)
      as (f & Hf & Hbefore & Hc).
    exists 0%nat, o. split; [done|].
    split; [intros k' o' Hk'; lia|]. right. split; [done|].
    exists (length srcs), f. split; [done|]. rewrite Nat.add_0_r.
    split.
    { intros j' f' Hj' Hf'. destruct (Hbefore j' f' Hj' Hf') as (s & Hs').
      exists s. by rewrite <- Hext. }
    split; [by rewrite <- Hext|]. rewrite length_app. lia.
  - destruct (sources_loop validate wcs gfs (S i) os (l ++ srcs))
      as [[os2' l2'] r'] eqn:Hrest.
    inversion Hs; subst.
    destruct (sources_for_success _ _ _ _ _ _ Hinner) as [Hlen Hsrcs].
    destruct (IH (S i) (l ++ srcs) os2' l2 r Hrest)
      as (k & o' & Hk & Hbefore & Hstop).
    exists (S k), o'. split; [done|]. split.
    { intros [|k'] o0 Hk' Ho0; cbn in Ho0.
      - inversion Ho0; subst o0. split; [done|].
        intros j f Hf. destruct (Hsrcs j f Hf) as (s & _ & Hs').
        exists s. by rewrite Nat.add_0_r, <- Hext.
      - destruct (Hbefore k' o0 ltac:(lia) Ho0) as [V S'].
        split; [done|]. intros j f Hf. destruct (S' j f Hf) as (s & Hs').
        exists s. by rewrite <- Nat.add_succ_comm. }
    rewrite length_app, Hlen in Hstop.
    destruct Hstop as [(e & V & R & L)|(V & j & f & Hf & Hb' & Hc & L)].
    + left. exists e. split; [done|]. split; [done|]. lia.
    + right. split; [done|]. exists j, f. split; [done|].
      rewrite <- Nat.add_succ_comm. split; [done|]. split; [done|]. lia.
Qed.

(** The outcome of the constructor of the Grid, by the outcome of the
    source loop. *)
Lemma Grid_ctor_by_sources_loop (input : multifit_Definition)
    (heap : positive) :
  ∃ (gfs : list grid_Frame) (gos : list grid_Object)
    (unique : ParameterType → gmap positive (shared_ptr grid_ParameterComponent))
    os2 l2 r,
    map gf_base gfs = def_frames input
    ∧ length gos = length (def_objects input)
    ∧ (∀ (i : nat) d o, def_objects input !! i = Some d → gos !! i = Some o →
         mirrors unique d o)
    ∧ sources_loop validate (_wcs (Grid_members input)) gfs 0 gos []
      = (os2, l2, r)
    ∧ match r with
      | None => ∃ hg, Grid_ctor validate input heap = Constructed hg
      | Some (ValidateThrew e) =>
          Grid_ctor validate input heap
          = Propagated e
              (map (pair SourceArena) (seq 0 (length l2))
               ++ map (pair ObjectArena) (seq 0 (length (def_objects input)))
               ++ map (pair FrameArena) (seq 0 (length (def_frames input))))
      | Some (SourceThrew e) =>
          Grid_ctor validate input heap
          = Propagated e
              (map (pair SourceArena) (seq 0 (S (length l2)))
               ++ map (pair ObjectArena) (seq 0 (length (def_objects input)))
               ++ map (pair FrameArena) (seq 0 (length (def_frames input))))
      | Some (Faulted u) => Grid_ctor validate input heap = Crashed u
      end.
Proof.
  destruct (initializeGrid_try_spec validate input heap)
    as (g5 & gfs & gos & h3 & unique & Hfr & Hbase & Hwcs & Hreg & Hrun).
  assert (length gfs = length (def_frames input)) as HN
    by (by rewrite <- Hbase, length_map).
  destruct Hreg as (_ & _ & _ & _ & _ & _ & _ & HM & Hmir).
  destruct (sources_loop validate (_wcs g5) gfs 0 gos [])
    as [[os2 l2] r] eqn:Hloop.
  exists gfs, gos, unique, os2, l2, r.
  split; [done|]. split; [done|]. split; [done|].
  split; [by rewrite <- Hwcs|].
  destruct (sources_loop_lengths _ _ _ _ _ _ _ _ _ Hloop) as (L1 & _).
  unfold Grid_ctor, initializeGrid. rewrite Hrun.
  destruct r as [[e|e|u]|]; [| |done|by eexists].
  - f_equal. unfold destroyGrid, destroyed_slots.
    cbn [objects frames sources set_objects set_sources].
    by rewrite Hfr, !last_filled, L1, HM, HN.
  - f_equal. unfold destroyGrid, destroyed_slots.
    cbn [objects frames sources set_objects set_sources].
    rewrite Hfr, !last_filled, L1, HM, HN. done.
Qed.

End StopAnalysis.
(** ** The outcome of the construction of a Grid *)

Section Outcomes.
Context `{Services}.
Variable validate : grid_Object → option Exception.

Lemma Grid_members_wcs (input : multifit_Definition) :
  is_Some (_wcs (Grid_members input)) ↔ is_Some (def_wcs input).
Proof. cbn. destruct (def_wcs input); rewrite !is_Some_alt; tauto. Qed.

Lemma mirrors_presence
    (unique : ParameterType → gmap positive (shared_ptr grid_ParameterComponent))
    (d : definition_Object) (o : grid_Object) :
  mirrors unique d o →
  go_base o = d_base d
  ∧ ∀ E, is_Some (g_getComponent E o) ↔ is_Some (d_getComponent E d).
Proof.
  intros [Hb Hc]. split; [done|]. intros E. specialize (Hc E).
  destruct (d_getComponent E d) as [dp|].
  - destruct Hc as (p & _ & ->). rewrite !is_Some_alt. tauto.
  - rewrite Hc, !is_Some_alt. tauto.
Qed.

(** The checks of the constructor of a Source, on the Object and the
    Frame of the Definition. *)
Lemma Source_ctor_Normal_input (input : multifit_Definition)
    (unique : ParameterType → gmap positive (shared_ptr grid_ParameterComponent))
    (fi oi : nat) (gf : grid_Frame) (d : definition_Object) (o : grid_Object) :
  mirrors unique d o →
  (∃ s, Source_ctor fi oi gf o (_wcs (Grid_members input)) = Normal s)
  ↔ (is_Some (def_wcs input) ↔ is_Some (frame_wcs (gf_base gf)))
    ∧ (is_Some (def_wcs input) ∨ is_Some (_psf (gf_base gf)) →
       is_Some (d_position d))
    ∧ (is_Some (_basis (d_base d)) ∨ is_Some (_psf (gf_base gf))).
Proof.
  intros Hmir. apply mirrors_presence in Hmir as [Hb Hc].
  assert (is_Some (g_position o) ↔ is_Some (d_position d)) as Hpos
    by apply (Hc POSITION).
  pose proof (Grid_members_wcs input) as Hw.
  pose proof (Source_ctor_Normal_iff fi oi gf o (_wcs (Grid_members input)))
    as Hiff.
  rewrite Hb in Hiff. tauto.
Qed.

(** X10.  The construction of a Grid returns exactly when every check
    passes: [validate] accepts every grid Object, which has the base and a
    component of each kind where the Object of the Definition has one, and
    for every Object and every Frame of the Definition the Frame has a
    coordinate system exactly if the Definition has one, the Object has a
    position if the Definition has a coordinate system or the Frame a PSF,
    and the Object has a basis or the Frame a PSF. *)
Theorem construction_succeeds_iff (input : multifit_Definition)
    (heap : positive) :
  ∃ gos : list grid_Object,
    length gos = length (def_objects input)
    ∧ (∀ (k : nat) d o, def_objects input !! k = Some d → gos !! k = Some o →
         go_base o = d_base d
         ∧ ∀ E, is_Some (g_getComponent E o) ↔ is_Some (d_getComponent E d))
    ∧ ((∃ hg, Grid_ctor validate input heap = Constructed hg)
       ↔ (∀ o, o ∈ gos → validate o = None)
         ∧ ∀ d f, d ∈ def_objects input → f ∈ def_frames input →
             (is_Some (def_wcs input) ↔ is_Some (frame_wcs f))
             ∧ (is_Some (def_wcs input) ∨ is_Some (_psf f) →
                is_Some (d_position d))
             ∧ (is_Some (_basis (d_base d)) ∨ is_Some (_psf f))).
Proof.
  destruct (Grid_ctor_by_sources_loop validate input heap)
    as (gfs & gos & unique & os2 & l2 & r & Hbase & HM & Hmir & Hloop & Hout).
  exists gos. split; [done|]. split.
  { intros k d o Hd Ho. by eapply mirrors_presence, Hmir. }
  split.
  - intros [hg Hctor].
    destruct r as [[e|e|u]|]; [congruence|congruence|congruence|].
    destruct (sources_loop_success validate _ _ _ _ _ _ _ Hloop)
      as (_ & _ & _ & Hall).
    split.
    { intros o Ho. apply list_elem_of_lookup in Ho as [k Hk].
      by destruct (Hall k o Hk). }
    intros d f Hd Hf.
    apply list_elem_of_lookup in Hd as [k Hk].
    apply list_elem_of_lookup in Hf as [j Hj].
    destruct (gos !! k) as [o|] eqn:Ho.
    2:{ apply lookup_ge_None in Ho. apply lookup_lt_Some in Hk. lia. }
    assert (∃ gf, gfs !! j = Some gf ∧ gf_base gf = f) as (gf & Hgf & Hgfb).
    { rewrite <- Hbase, list_lookup_fmap in Hj.
      destruct (gfs !! j) as [gf|]; [|done]. exists gf.
      split; [done|]. by inversion Hj. }
    destruct (Hall k o Ho) as (_ & _ & Hsrc).
    destruct (Hsrc j gf Hgf) as (s & _ & Hs).
    rewrite <- Hgfb.
    apply (Source_ctor_Normal_input input unique j (0 + k) gf d o);
      [by eapply Hmir|].
    exists s. rewrite <- Hs. by apply Source_ctor_ext.
  - intros [Hval Hpairs].
    destruct r as [r|]; [exfalso|done].
    destruct (sources_loop_stopped_at validate _ _ _ _ _ _ _ _ Hloop)
      as (k & o & Ho & _ & Hstop).
    destruct Hstop as [(e & V & _)|(_ & j & gf & Hgf & _ & Hc & _)].
    { rewrite Hval in V; [done|]. by eapply list_elem_of_lookup_2. }
    destruct (def_objects input !! k) as [d|] eqn:Hd.
    2:{ apply lookup_ge_None in Hd. apply lookup_lt_Some in Ho. lia. }
    assert (∃ s, Source_ctor j (0 + k) gf o (_wcs (Grid_members input))
                 = Normal s) as [s Hs].
    { apply (Source_ctor_Normal_input input unique j (0 + k) gf d o);
        [by eapply Hmir|].
      apply Hpairs; [by eapply list_elem_of_lookup_2|].
      rewrite <- Hbase. apply list_elem_of_fmap_2.
      by eapply list_elem_of_lookup_2. }
    by rewrite Hs in Hc.
Qed.

(** X12.  An exception that leaves the constructor of a Grid comes from
    the first step of the source loop that fails.  The loop takes the
    Objects in array order; for each it calls [validate] and then
    constructs the Sources for the Frames in array order.  So there is an
    Object at a position [k] such that every earlier Object passed
    [validate] and got all its Sources, and either [validate] threw the
    exception for the Object at [k], or it passed and there is a Frame at a
    position [j] such that the Sources of the earlier Frames were
    constructed and the constructor of the Source for the Frame at [j]
    threw the exception.  The handler has then destroyed the Source slots
    from 0 to [k×N], or to [k×N+j+1], then all M Objects and all N
    Frames. *)
Theorem first_failure_is_reported (input : multifit_Definition)
    (heap : positive) (e : Exception) (unwound : list (ArenaKind * nat)) :
  Grid_ctor validate input heap = Propagated e unwound →
  ∃ (gfs : list grid_Frame) (gos : list grid_Object) (k : nat) o,
    map gf_base gfs = def_frames input
    ∧ map go_base gos = map d_base (def_objects input)
    ∧ gos !! k = Some o
    ∧ (∀ (k' : nat) o', (k' < k)%nat → gos !! k' = Some o' →
         validate o' = None
         ∧ ∀ (j : nat) f, gfs !! j = Some f →
             ∃ s, Source_ctor j k' f o' (_wcs (Grid_members input)) = Normal s)
    ∧ ((validate o = Some e
        ∧ unwound
          = map (pair SourceArena) (seq 0 (k * length (def_frames input)))
            ++ map (pair ObjectArena) (seq 0 (length (def_objects input)))
            ++ map (pair FrameArena) (seq 0 (length (def_frames input))))
       ∨ (validate o = None
          ∧ ∃ (j : nat) f, gfs !! j = Some f
              ∧ (∀ (j' : nat) f', (j' < j)%nat → gfs !! j' = Some f' →
                   ∃ s, Source_ctor j' k f' o (_wcs (Grid_members input))
                        = Normal s)
              ∧ Source_ctor j k f o (_wcs (Grid_members input)) = Throw e
              ∧ unwound
                = map (pair SourceArena)
                    (seq 0 (k * length (def_frames input) + j + 1))
                  ++ map (pair ObjectArena)
                       (seq 0 (length (def_objects input)))
                  ++ map (pair FrameArena)
                       (seq 0 (length (def_frames input))))).
Proof.
  intros Hctor.
  destruct (Grid_ctor_by_sources_loop validate input heap)
    as (gfs & gos & unique & os2 & l2 & r & Hbase & HM & Hmir & Hloop & Hout).
  assert (length gfs = length (def_frames input)) as HN
    by (by rewrite <- Hbase, length_map).
  destruct r as [r|]; [|destruct Hout; congruence].
  destruct (sources_loop_stopped_at validate _ _ _ _ _ _ _ _ Hloop)
    as (k & o & Ho & Hbefore & Hstop).
  exists gfs, gos, k, o. split; [done|]. split.
  { apply list_eq. intros i. rewrite !list_lookup_fmap.
    destruct (gos !! i) as [o'|] eqn:Hgo,
             (def_objects input !! i) as [d|] eqn:Hd; cbn.
    - f_equal. by destruct (Hmir i d o' Hd Hgo).
    - apply lookup_ge_None in Hd. apply lookup_lt_Some in Hgo. lia.
    - apply lookup_ge_None in Hgo. apply lookup_lt_Some in Hd. lia.
    - done. }
  split; [done|]. split; [exact Hbefore|].
  cbn [length Nat.add] in Hstop.
  destruct Hstop as [(e' & V & -> & L)|(V & j & f & Hf & Hb & Hc & L)].
  - left. rewrite Hout in Hctor. inversion Hctor; subst e'.
    split; [done|]. by rewrite L, HN.
  - right. split; [done|]. exists j, f. split; [done|]. split; [exact Hb|].
    cbn [Nat.add] in Hc.
    destruct (Source_ctor j k f o (_wcs (Grid_members input)))
      as [s|e'|u]; [done| |].
    + subst r. rewrite Hout in Hctor. inversion Hctor; subst e'.
      split; [done|]. rewrite L, HN.
      replace (k * length (def_frames input) + j + 1)%nat
        with (S (k * length (def_frames input) + j)) by lia.
      reflexivity.
    + subst r. congruence.
Qed.

End Outcomes.

Section OutcomeWitnesses.
Import Example Survey.

Lemma first_failure_is_reported_witness :
  Grid_ctor reject_2 three_frames 1
  = Propagated (InvalidDefinitionError (ValidationMessage 2))
      [(SourceArena, 0%nat); (SourceArena, 1%nat); (SourceArena, 2%nat);
       (ObjectArena, 0%nat); (ObjectArena, 1%nat);
       (FrameArena, 0%nat); (FrameArena, 1%nat); (FrameArena, 2%nat)]
  ∧ ∃ (gfs : list grid_Frame) (gos : list grid_Object) (k : nat) o,
      map gf_base gfs = def_frames three_frames
      ∧ map go_base gos = map d_base (def_objects three_frames)
      ∧ gos !! k = Some o
      ∧ ∀ (k' : nat) o', (k' < k)%nat → gos !! k' = Some o' →
          reject_2 o' = None
          ∧ ∀ (j : nat) f, gfs !! j = Some f →
              ∃ s, Source_ctor j k' f o' (_wcs (Grid_members three_frames))
                   = Normal s.
Proof.
  assert (Grid_ctor reject_2 three_frames 1
          = Propagated (InvalidDefinitionError (ValidationMessage 2))
              [(SourceArena, 0%nat); (SourceArena, 1%nat); (SourceArena, 2%nat);
               (ObjectArena, 0%nat); (ObjectArena, 1%nat);
               (FrameArena, 0%nat); (FrameArena, 1%nat); (FrameArena, 2%nat)])
    as Hctor by (vm_compute; reflexivity).
  split; [exact Hctor|].
  destruct (first_failure_is_reported reject_2 three_frames 1 _ _ Hctor)
    as (gfs & gos & k & o & P1 & P2 & P3 & P4 & _).
  exists gfs, gos, k, o. exact (conj P1 (conj P2 (conj P3 P4))).
Defined.

End OutcomeWitnesses.
(** ** The containers, the destructor and the bounds check *)

Section Containers.
Context `{Services}.
Variable validate : grid_Object → option Exception.

(** The containers of a constructed Grid hold the active components of
    its Objects, and nothing else. *)
Lemma containers_hold_the_active_components (input : multifit_Definition)
    (heap heap' : positive) (g : Grid) :
  Grid_ctor validate input heap = Constructed (heap', g) →
  ∃ gos, objects g = filled gos (length (def_objects input))
    ∧ length gos = length (def_objects input)
    ∧ (∀ (i : nat) o E p, gos !! i = Some o → g_getComponent E o = Some p →
         g_active (pointee p) = true → p ∈ container E g)
    ∧ (∀ E p, p ∈ container E g →
         g_active (pointee p) = true
         ∧ ∃ (i : nat) o, gos !! i = Some o ∧ g_getComponent E o = Some p).
Proof.
  intros Hctor.
  destruct (Grid_ctor_Constructed validate input heap heap' g Hctor)
    as (gfs & gos & srcs & unique & _ & _ & Ho & _ & _ & _ & Hreg & _).
  exists gos. split; [done|]. split.
  { by destruct Hreg as (_ & _ & _ & _ & _ & _ & _ & ? & _). }
  split.
  - intros i o E p Hgo Hp Hact.
    destruct (component_of_object _ _ _ _ _ _ _ _ _ _ _ Hreg Hgo Hp)
      as (d & dp & Hd & Hdp & Hu).
    destruct (components_registered_kind _ _ _ _ _ _ _ E Hreg)
      as (heap0 & heap1 & pc0 & pc1 & news & Hc & _ & _ & Hun & _).
    cbn [app] in Hc. destruct (Hun _ _ Hu) as (_ & _ & Hin & _).
    rewrite Hc. by apply Hin.
  - intros E p Hin.
    destruct (components_registered_kind _ _ _ _ _ _ _ E Hreg)
      as (heap0 & heap1 & pc0 & pc1 & news & Hc & _ & _ & Hun & Hn & _).
    cbn [app] in Hc. rewrite Hc in Hin.
    destruct (Hn p Hin) as [Ha [a Hu]]. split; [done|].
    destruct (Hun _ _ Hu) as (_ & _ & _ & _ & d & dp & Hd & Hdp & Haddr & _).
    apply list_elem_of_lookup in Hd as [i Hd].
    destruct Hreg as (_ & _ & _ & _ & _ & _ & _ & HM & Hmir).
    destruct (gos !! i) as [o|] eqn:Hgo.
    2:{ apply lookup_ge_None in Hgo. apply lookup_lt_Some in Hd. lia. }
    exists i, o. split; [done|].
    destruct (Hmir i d o Hd Hgo) as [_ Hcomp]. specialize (Hcomp E).
    rewrite Hdp in Hcomp. destruct Hcomp as (p' & Hu' & ->).
    rewrite Haddr in Hu'. congruence.
Qed.

(** The parameter count, by the sizes of the containers. *)
Lemma parameter_count_by_containers (input : multifit_Definition)
    (heap heap' : positive) (g : Grid) :
  Grid_ctor validate input heap = Constructed (heap', g) →
  (∀ E, length (container E g)
        = length (filter (fun dp => d_active (pointee dp) = true)
                    (first_sights E ∅ (def_objects input))))
  ∧ _parameterCount g
    = Z.of_nat (length (positions g)) * SIZE POSITION
      + Z.of_nat (length (radii g)) * SIZE RADIUS
      + Z.of_nat (length (ellipticities g)) * SIZE ELLIPTICITY.
Proof.
  intros Hctor.
  destruct (Grid_ctor_Constructed validate input heap heap' g Hctor)
    as (gfs & gos & srcs & unique & _ & _ & Ho & _ & _ & _ & Hreg & _).
  split.
  - intros E.
    destruct (components_registered_kind _ _ _ _ _ _ _ E Hreg)
      as (heap0 & heap1 & pc0 & pc1 & news & Hc & _ & _ & _ & _ & _ & _ & _
          & Hord).
    cbn [app] in Hc. rewrite Hc. symmetry. by eapply Forall2_length.
  - destruct Hreg as (h1 & h2 & pc1 & pc2 & R1 & R2 & R3 & _).
    destruct R1 as (n1 & C1 & T1 & _), R2 as (n2 & C2 & T2 & _),
             R3 as (n3 & C3 & T3 & _).
    cbn [container app] in C1, C2, C3. rewrite C1, C2, C3.
    apply tiles_end in T1, T2, T3. lia.
Qed.

(** X13.  The parameter count of a constructed Grid is the sum, over the
    three kinds, of the size of the kind times the number of distinct
    active components of that kind among the Objects of the Definition;
    the container of a kind holds that many components. *)
Theorem parameter_count_formula (input : multifit_Definition)
    (heap heap' : positive) (g : Grid) :
  Grid_ctor validate input heap = Constructed (heap', g) →
  (∀ E, length (container E g)
        = length (filter (fun dp => d_active (pointee dp) = true)
                    (first_sights E ∅ (def_objects input))))
  ∧ _parameterCount g
    = Z.of_nat (length (filter (fun dp => d_active (pointee dp) = true)
                          (first_sights POSITION ∅ (def_objects input))))
      * SIZE POSITION
      + Z.of_nat (length (filter (fun dp => d_active (pointee dp) = true)
                            (first_sights RADIUS ∅ (def_objects input))))
        * SIZE RADIUS
      + Z.of_nat (length (filter (fun dp => d_active (pointee dp) = true)
                            (first_sights ELLIPTICITY ∅ (def_objects input))))
        * SIZE ELLIPTICITY.
Proof.
  intros Hctor.
  destruct (parameter_count_by_containers input heap heap' g Hctor)
    as [Hlen Hpc].
  split; [done|]. rewrite Hpc.
  by rewrite <- (Hlen POSITION), <- (Hlen RADIUS), <- (Hlen ELLIPTICITY).
Qed.

Lemma NoDup_arenas (n m p : nat) :
  NoDup (map (pair SourceArena) (seq 0 n)
         ++ map (pair ObjectArena) (seq 0 m)
         ++ map (pair FrameArena) (seq 0 p)).
Proof.
  assert (∀ (a : ArenaKind) k, NoDup (map (pair a) (seq 0 k))) as Hone.
  { intros a k. apply NoDup_fmap_2; [|apply NoDup_seq].
    intros x y Heq. by inversion Heq. }
  apply NoDup_app. split; [apply Hone|]. split.
  - intros x Hx Hin. apply list_elem_of_fmap in Hx as (i & -> & _).
    apply elem_of_app in Hin as [Hin|Hin];
      apply list_elem_of_fmap in Hin as (j & Heq & _); by inversion Heq.
  - apply NoDup_app. split; [apply Hone|]. split; [|apply Hone].
    intros x Hx Hin. apply list_elem_of_fmap in Hx as (i & -> & _).
    apply list_elem_of_fmap in Hin as (j & Heq & _). by inversion Heq.
Qed.

(** X14.  The destructor of a constructed Grid calls the destructor of
    every element once and of nothing else: of the M×N Sources, then of
    the M Objects, then of the N Frames, each group in array order. *)
Theorem destructor_destroys_what_was_constructed
    (input : multifit_Definition) (heap heap' : positive) (g : Grid) :
  Grid_ctor validate input heap = Constructed (heap', g) →
  Grid_dtor g
  = map (pair SourceArena)
      (seq 0 (length (def_objects input) * length (def_frames input)))
    ++ map (pair ObjectArena) (seq 0 (length (def_objects input)))
    ++ map (pair FrameArena) (seq 0 (length (def_frames input)))
  ∧ Grid_dtor g = constructed_elements g
  ∧ NoDup (Grid_dtor g).
Proof.
  intros Hctor.
  destruct (Grid_ctor_Constructed validate input heap heap' g Hctor)
    as (gfs & gos & srcs & unique & Hf & Hbase & Ho & Hs & Hlen & _ & Hreg & _).
  assert (length gfs = length (def_frames input)) as HN
    by (by rewrite <- Hbase, length_map).
  assert (length gos = length (def_objects input)) as HM
    by (by destruct Hreg as (_ & _ & _ & _ & _ & _ & _ & ? & _)).
  assert (Grid_dtor g
          = map (pair SourceArena)
              (seq 0 (length (def_objects input) * length (def_frames input)))
            ++ map (pair ObjectArena) (seq 0 (length (def_objects input)))
            ++ map (pair FrameArena) (seq 0 (length (def_frames input))))
    as Hd.
  { unfold Grid_dtor, destroyGrid, destroyed_slots.
    by rewrite Hf, Ho, Hs, !last_filled, Hlen, HM, HN. }
  split; [done|]. split.
  - rewrite Hd. unfold constructed_elements. rewrite Hf, Ho, Hs.
    rewrite !constructed_slots_filled by lia.
    by rewrite Hlen, HM, HN.
  - rewrite Hd. apply NoDup_arenas.
Qed.


Section Bounds.
Variable component_checkBounds :
  ParameterType → grid_ParameterComponent → (Z → Scalar) → bool.

Lemma checkBounds_loop_true (E : ParameterType)
    (l : list (shared_ptr grid_ParameterComponent)) (paramIter : Z → Scalar) :
  checkBounds_loop component_checkBounds E l paramIter = true
  ↔ ∀ p, p ∈ l → component_checkBounds E (pointee p) paramIter = true.
Proof.
  induction l as [|p l IH]; cbn.
  - split; [|done]. intros _ p Hp. by apply not_elem_of_nil in Hp.
  - destruct (component_checkBounds E (pointee p) paramIter) eqn:Hp; cbn.
    + rewrite IH. split.
      * intros Hall q Hq. apply elem_of_cons in Hq as [->|Hq]; [done|].
        by apply Hall.
      * intros Hall q Hq. apply Hall. by right.
    + split; [done|]. intros Hall.
      rewrite <- Hp. apply Hall. by left.
Qed.

(** X16.  On a constructed Grid, [checkBounds] returns [true] exactly
    when the check of the component passes for every active component
    that some Object of the Grid holds; the components that are not
    active are not checked. *)
Theorem checkBounds_checks_the_active_components
    (input : multifit_Definition) (heap heap' : positive) (g : Grid)
    (paramIter : Z → Scalar) :
  Grid_ctor validate input heap = Constructed (heap', g) →
  ∃ gos, objects g = filled gos (length (def_objects input))
    ∧ (checkBounds component_checkBounds g paramIter = true
       ↔ ∀ (k : nat) o E p, gos !! k = Some o → g_getComponent E o = Some p →
           g_active (pointee p) = true →
           component_checkBounds E (pointee p) paramIter = true).
Proof.
  intros Hctor.
  destruct (containers_hold_the_active_components input heap heap' g Hctor)
    as (gos & Ho & HM & Hin & Hout).
  exists gos. split; [done|].
  assert (checkBounds component_checkBounds g paramIter = true
          ↔ ∀ E p, p ∈ container E g →
              component_checkBounds E (pointee p) paramIter = true) as ->.
  { unfold checkBounds.
    pose proof (checkBounds_loop_true POSITION (positions g) paramIter) as HP.
    pose proof (checkBounds_loop_true RADIUS (radii g) paramIter) as HR.
    pose proof (checkBounds_loop_true ELLIPTICITY (ellipticities g) paramIter)
      as HE.
    destruct (checkBounds_loop _ POSITION _ _),
             (checkBounds_loop _ RADIUS _ _),
             (checkBounds_loop _ ELLIPTICITY _ _); cbn.
    all: split; [try done|].
    1: { intros _ [] p Hp; cbn in Hp; [by apply HP|by apply HR|by apply HE]. }
    all: intros Hall.
    all: first [ apply HP; intros p Hp; by apply (Hall POSITION)
               | apply HR; intros p Hp; by apply (Hall RADIUS)
               | apply HE; intros p Hp; by apply (Hall ELLIPTICITY) ]. }
  split.
  - intros Hall k o E p Hk Hp Hact. apply Hall. by eapply Hin.
  - intros Hall E p Hp. destruct (Hout E p Hp) as (Hact & k & o & Hk & Hc).
    by eapply Hall.
Qed.

End Bounds.

End Containers.

Section ContainerWitnesses.
Import Example Survey.

Lemma parameter_count_formula_witness :
  Grid_ctor accept three_frames 1 = Constructed (5%positive, three_frames_grid)
  ∧ _parameterCount three_frames_grid
    = Z.of_nat (length (filter (fun dp => d_active (pointee dp) = true)
                          (first_sights POSITION ∅ (def_objects three_frames))))
      * SIZE POSITION
      + Z.of_nat (length (filter (fun dp => d_active (pointee dp) = true)
                            (first_sights RADIUS ∅ (def_objects three_frames))))
        * SIZE RADIUS
      + Z.of_nat (length (filter (fun dp => d_active (pointee dp) = true)
                            (first_sights ELLIPTICITY ∅
                               (def_objects three_frames))))
        * SIZE ELLIPTICITY.
Proof.
  assert (Grid_ctor accept three_frames 1
          = Constructed (5%positive, three_frames_grid)) as Hctor
    by (vm_compute; reflexivity).
  split; [exact Hctor|].
  exact (proj2 (parameter_count_formula accept three_frames 1 5
                  three_frames_grid Hctor)).
Defined.

Lemma destructor_destroys_what_was_constructed_witness :
  Grid_ctor accept three_frames 1 = Constructed (5%positive, three_frames_grid)
  ∧ Grid_dtor three_frames_grid
    = map (pair SourceArena)
        (seq 0 (length (def_objects three_frames)
                * length (def_frames three_frames)))
      ++ map (pair ObjectArena) (seq 0 (length (def_objects three_frames)))
      ++ map (pair FrameArena) (seq 0 (length (def_frames three_frames)))
  ∧ Grid_dtor three_frames_grid = constructed_elements three_frames_grid
  ∧ NoDup (Grid_dtor three_frames_grid).
Proof.
  assert (Grid_ctor accept three_frames 1
          = Constructed (5%positive, three_frames_grid)) as Hctor
    by (vm_compute; reflexivity).
  split; [exact Hctor|].
  exact (destructor_destroys_what_was_constructed accept three_frames 1 5
           three_frames_grid Hctor).
Defined.

Lemma checkBounds_checks_the_active_components_witness :
  Grid_ctor accept three_frames 1 = Constructed (5%positive, three_frames_grid)
  ∧ ∃ gos, objects three_frames_grid
           = filled gos (length (def_objects three_frames))
      ∧ (checkBounds first_not_negative three_frames_grid buffer = true
         ↔ ∀ (k : nat) o E p, gos !! k = Some o → g_getComponent E o = Some p →
             g_active (pointee p) = true →
             first_not_negative E (pointee p) buffer = true).
Proof.
  assert (Grid_ctor accept three_frames 1
          = Constructed (5%positive, three_frames_grid)) as Hctor
    by (vm_compute; reflexivity).
  split; [exact Hctor|].
  exact (checkBounds_checks_the_active_components accept first_not_negative
           three_frames 1 5 three_frames_grid buffer Hctor).
Defined.

End ContainerWitnesses.
(** ** What the Sources hold, and the way back to a Definition *)

Section SourceContents.
Context `{Services}.

Lemma Source_ctor_contents (fi oi : nat) (f : grid_Frame) (o : grid_Object)
    (wcs : option Wcs) (s : grid_Source) :
  Source_ctor fi oi f o wcs = Normal s →
  _transform s
  = match wcs, frame_wcs (gf_base f), g_position o with
    | Some w, Some fw, Some p =>
        compose (linearizeSkyToPixel fw (g_value (pointee p)))
                (linearizePixelToSky w (g_value (pointee p)))
    | _, _, _ => identity
    end
  ∧ _localPsf s
    = match _psf (gf_base f), g_position o with
      | Some psf, Some p =>
          Some (getLocalPsf psf
                  (transform_point (_transform s) (g_value (pointee p))))
      | _, _ => None
      end.
Proof.
  unfold Source_ctor, deref.
  destruct wcs as [w|], (frame_wcs (gf_base f)) as [fw|],
    (g_position o) as [p|], (_psf (gf_base f)) as [psf|],
    (_basis (go_base o)) as [b|]; cbn; intros Hs; try discriminate Hs.
  all: by inversion Hs.
Qed.

End SourceContents.

Section WayBack.
Context `{Services}.
Variable validate : grid_Object → option Exception.

(** X17.  In a constructed Grid the Source of the Object at position [k]
    and the Frame at position [j] is at position [k×N+j] of the source
    array.  Its transform is the composition of the Frame's
    sky-to-pixel linearization and the pixel-to-sky linearization of the
    Grid's copy of the Definition's coordinate system, both taken at the
    Object's position, and the identity when the Definition has no
    coordinate system.  Its local PSF is the PSF of the Frame at the
    transformed position of the Object, and none when the Frame has no
    PSF. *)
Theorem sources_hold_transform_and_psf (input : multifit_Definition)
    (heap heap' : positive) (g : Grid) :
  Grid_ctor validate input heap = Constructed (heap', g) →
  ∃ (gfs : list grid_Frame) (gos : list grid_Object) (srcs : list grid_Source),
    frames g = filled gfs (length (def_frames input))
    ∧ map gf_base gfs = def_frames input
    ∧ objects g = filled gos (length (def_objects input))
    ∧ sources g
      = filled srcs (length (def_frames input) * length (def_objects input))
    ∧ _wcs g = clone <$> def_wcs input
    ∧ ∀ (k j : nat) o f, gos !! k = Some o → gfs !! j = Some f →
        ∃ s, srcs !! (k * length (def_frames input) + j)%nat = Some s
          ∧ (is_Some (def_wcs input) ∨ is_Some (_psf (gf_base f)) →
             is_Some (g_position o))
          ∧ _transform s
            = match _wcs g, frame_wcs (gf_base f), g_position o with
              | Some w, Some fw, Some p =>
                  compose (linearizeSkyToPixel fw (g_value (pointee p)))
                          (linearizePixelToSky w (g_value (pointee p)))
              | _, _, _ => identity
              end
          ∧ _localPsf s
            = match _psf (gf_base f), g_position o with
              | Some psf, Some p =>
                  Some (getLocalPsf psf
                          (transform_point (_transform s)
                             (g_value (pointee p))))
              | _, _ => None
              end.
Proof.
  intros Hctor.
  destruct (Grid_ctor_Constructed validate input heap heap' g Hctor)
    as (gfs & gos & srcs & unique & Hf & Hbase & Ho & Hs & Hlen & Hw & Hreg
        & Hsrc).
  exists gfs, gos, srcs. split; [done|]. split; [done|]. split; [done|].
  split; [done|]. split.
  { rewrite Hw. cbn. by destruct (def_wcs input). }
  intros k j o f Hk Hj.
  destruct (Hsrc k o Hk) as (_ & _ & Hall).
  destruct (Hall j f Hj) as (s & Hsk & Hc).
  exists s. split; [done|]. split.
  { assert (∃ s', Source_ctor j k f o (_wcs g) = Normal s') as Hex
      by (by exists s).
    apply Source_ctor_Normal_iff in Hex as (_ & Hp & _).
    intros Hor. apply Hp. rewrite Hw.
    destruct Hor as [Hd|Hpsf]; [left|by right].
    by apply Grid_members_wcs. }
  by apply Source_ctor_contents in Hc.
Qed.

Lemma makeDefinition_frames (g : Grid) (paramIter : option (Z → Scalar))
    (heap heap' : positive) (result : multifit_Definition)
    (gfs : list grid_Frame) (cf : nat) :
  makeDefinition g paramIter heap = Normal (heap', result) →
  frames g = filled gfs cf → (length gfs <= cf)%nat →
  strictly_sorted_by_id gfs →
  def_frames result = map gf_base gfs.
Proof.
  intros Hrun Hf Hcf Hsorted. unfold makeDefinition in Hrun.
  destruct (_wcs g) as [w|]; [|done]. cbn [bindO] in Hrun.
  rewrite Hf, elements_filled in Hrun by done. cbn [bindO] in Hrun.
  destruct (elements (objects g)) as [gos| |]; [|done|done].
  cbn [bindO] in Hrun.
  destruct (transferComponents_back POSITION _ _ _ _) as [[h1 d1]| |];
    [|done|done].
  cbn [bindO fst snd] in Hrun.
  destruct (transferComponents_back RADIUS _ _ _ _) as [[h2 d2]| |];
    [|done|done].
  cbn [bindO fst snd] in Hrun.
  destruct (transferComponents_back ELLIPTICITY _ _ _ _) as [[h3 d3]| |];
    [|done|done].
  cbn [bindO fst snd] in Hrun. inversion Hrun; subst. cbn [def_frames].
  rewrite (fold_Set_insert_sorted definition_Frame_of gfs) by
    (done || intros y x Hy; by apply elem_of_nil in Hy).
  done.
Qed.

Lemma sorted_images {A B : Type} `{Identified A} `{Identified B}
    (f : B → A) (l : list B) :
  (∀ x, id_of (f x) = id_of x) →
  strictly_sorted_by_id (map f l) → strictly_sorted_by_id l.
Proof.
  intros Hid Hsorted i j a b Hij Ha Hb.
  rewrite <- (Hid a), <- (Hid b).
  apply (Hsorted i j (f a) (f b) Hij); rewrite list_lookup_fmap.
  - by rewrite Ha.
  - by rewrite Hb.
Qed.

(** From a Definition to a Grid and back: what the components of the new
    Definition are. *)
Lemma round_trip_components (input : multifit_Definition)
    (heap heap' : positive) (g : Grid) (paramIter : option (Z → Scalar)) :
  coherent input →
  strictly_sorted_by_id (def_objects input) →
  strictly_sorted_by_id (def_frames input) →
  is_Some (def_wcs input) →
  Grid_ctor validate input heap = Constructed (heap', g) →
  ∃ gos heap'' result,
    objects g = filled gos (length (def_objects input))
    ∧ makeDefinition g paramIter heap' = Normal (heap'', result)
    ∧ def_frames result = def_frames input
    ∧ def_wcs result = (fun w => clone (clone w)) <$> def_wcs input
    ∧ length (def_objects result) = length (def_objects input)
    ∧ ∀ (i : nat) d r,
        def_objects input !! i = Some d → def_objects result !! i = Some r →
        d_base r = d_base d
        ∧ ∀ E, match d_getComponent E d with
               | None => d_getComponent E r = None
               | Some dp =>
                   ∃ o gp p,
                     gos !! i = Some o ∧ g_getComponent E o = Some gp
                     ∧ d_getComponent E r = Some p
                     ∧ g_active (pointee gp) = d_active (pointee dp)
                     ∧ g_value (pointee gp) = d_value (pointee dp)
                     ∧ d_active (pointee p) = d_active (pointee dp)
                     ∧ d_value (pointee p)
                       = value_back E paramIter (pointee gp)
               end.
Proof.
  intros Hcoh Hosorted Hfsorted [w Hw] Hctor.
  destruct (Grid_ctor_Constructed validate input heap heap' g Hctor)
    as (gfs & gos & srcs & unique & Hf & Hbase & Ho & _ & _ & Hwcs & Hreg & _).
  assert (length gfs = length (def_frames input)) as HN
    by (by rewrite <- Hbase, length_map).
  pose proof Hreg as (_ & _ & _ & _ & _ & _ & _ & HM & Hmir).
  assert (strictly_sorted_by_id gfs) as Hgfsorted.
  { apply (sorted_images gf_base); [done|]. by rewrite Hbase. }
  assert (map go_base gos = map d_base (def_objects input)) as Hgb.
  { apply list_eq. intros i. rewrite !list_lookup_fmap.
    destruct (gos !! i) as [o|] eqn:Hgo,
             (def_objects input !! i) as [d|] eqn:Hd; cbn.
    - f_equal. by destruct (Hmir i d o Hd Hgo).
    - apply lookup_ge_None in Hd. apply lookup_lt_Some in Hgo. lia.
    - apply lookup_ge_None in Hgo. apply lookup_lt_Some in Hd. lia.
    - done. }
  assert (strictly_sorted_by_id gos) as Hgosorted.
  { intros i j a b Hij Ha Hb.
    assert (∀ (k : nat) o, gos !! k = Some o →
              ∃ d, def_objects input !! k = Some d ∧ id_of d = id_of o) as Hid.
    { intros k o Hk.
      assert (map go_base gos !! k = Some (go_base o)) as Hk'
        by (by rewrite list_lookup_fmap, Hk).
      rewrite Hgb, list_lookup_fmap in Hk'.
      destruct (def_objects input !! k) as [d|]; [|done].
      exists d. split; [done|]. cbn in Hk'. inversion Hk' as [Hb'].
      unfold id_of, definition_Object_Identified, grid_Object_Identified.
      by rewrite Hb'. }
    destruct (Hid i a Ha) as (da & Hda & <-).
    destruct (Hid j b Hb) as (db & Hdb & <-).
    by eapply Hosorted. }
  destruct (makeDefinition_spec g paramIter heap' (clone w) gfs gos _ _
              ltac:(by rewrite Hwcs; unfold Grid_members; cbn; rewrite Hw)
              Hf ltac:(lia) Ho ltac:(lia) Hgosorted)
    as (heap'' & result & ub & Hrun & Hrw & Hlr & Hback & Hbreg).
  exists gos, heap'', result. split; [done|]. split; [done|].
  split.
  { rewrite (makeDefinition_frames _ _ _ _ _ gfs _ Hrun Hf) by (lia || done).
    done. }
  split; [by rewrite Hrw, Hw|]. split; [lia|].
  intros i d r Hd Hr.
  destruct (gos !! i) as [o|] eqn:Hgo.
  2:{ apply lookup_ge_None in Hgo. apply lookup_lt_Some in Hd. lia. }
  destruct (Hmir i d o Hd Hgo) as [Hb Hc].
  destruct (Hback i o r Hgo Hr) as [Hbb Hcb].
  split; [by rewrite Hbb|].
  intros E. specialize (Hc E). specialize (Hcb E).
  destruct (d_getComponent E d) as [dp|] eqn:Hdp.
  2:{ by rewrite Hc in Hcb. }
  destruct Hc as (gp & Hu & Hg). rewrite Hg in Hcb.
  destruct Hcb as (p & Hup & Hrp).
  exists o, gp, p. split; [done|]. split; [done|]. split; [done|].
  destruct (components_registered_kind _ _ _ _ _ _ _ E Hreg)
    as (heap0 & heap1 & pc0 & pc1 & news & _ & _ & _ & Hun & _ & Hinj & _).
  destruct (Hun _ _ Hu) as (_ & _ & _ & _ & d' & dp' & Hd' & Hdp' & Haddr
                            & Hval & Hact).
  assert (pointee dp' = pointee dp) as Hsame.
  { apply (Hcoh E d' d dp' dp); try done.
    by eapply list_elem_of_lookup_2. }
  rewrite Hsame in Hval, Hact.
  split; [done|]. split; [done|].
  destruct (Hbreg E) as (h0 & h1 & _ & Hbun & _).
  destruct (Hbun _ _ Hup) as (_ & _ & o' & gp' & Ho' & Hgp' & Haddr' & Hact'
                              & Hval').
  assert (gp' = gp) as ->.
  { apply list_elem_of_lookup in Ho' as [i' Hi'].
    destruct (component_of_object _ _ _ _ _ _ _ _ _ _ _ Hreg Hi' Hgp')
      as (d'' & dp'' & _ & _ & Hu'').
    assert (address dp'' = address dp) as Ha
      by (by eapply (Hinj _ _ gp' gp)).
    rewrite Ha in Hu''. congruence. }
  split; [congruence|done].
Qed.

(** X18.  From a Definition to a Grid and back with [makeDefinition()]:
    for a Definition with a coordinate system whose Frames and Objects
    have distinct identifiers in ascending order, the new Definition has
    the Frames of the old one, the coordinate system cloned twice, and as
    many Objects; each Object has the base of the old one, no component
    where the old one has none, and otherwise a component with the value
    and the active flag of the old one. *)
Theorem definition_round_trip (input : multifit_Definition)
    (heap heap' : positive) (g : Grid) :
  coherent input →
  strictly_sorted_by_id (def_objects input) →
  strictly_sorted_by_id (def_frames input) →
  is_Some (def_wcs input) →
  Grid_ctor validate input heap = Constructed (heap', g) →
  ∃ heap'' result,
    Grid_makeDefinition g heap' = Normal (heap'', result)
    ∧ def_frames result = def_frames input
    ∧ def_wcs result = (fun w => clone (clone w)) <$> def_wcs input
    ∧ length (def_objects result) = length (def_objects input)
    ∧ ∀ (i : nat) d r,
        def_objects input !! i = Some d → def_objects result !! i = Some r →
        d_base r = d_base d
        ∧ ∀ E, match d_getComponent E d with
               | None => d_getComponent E r = None
               | Some dp =>
                   ∃ p, d_getComponent E r = Some p ∧ pointee p = pointee dp
               end.
Proof.
  intros Hcoh Hosorted Hfsorted Hw Hctor.
  destruct (round_trip_components input heap heap' g None Hcoh Hosorted
              Hfsorted Hw Hctor)
    as (gos & heap'' & result & Ho & Hrun & Hfr & Hrw & Hlen & Hobj).
  exists heap'', result. split; [done|]. split; [done|]. split; [done|].
  split; [done|]. intros i d r Hd Hr.
  destruct (Hobj i d r Hd Hr) as [Hb Hc]. split; [done|].
  intros E. specialize (Hc E).
  destruct (d_getComponent E d) as [dp|]; [|done].
  destruct Hc as (o & gp & p & _ & _ & Hp & _ & Hgv & Hpa & Hpv).
  exists p. split; [done|]. cbn in Hpv.
  destruct (pointee p) as [pv pa], (pointee dp) as [dv da]. cbn in *.
  congruence.
Qed.

(** X19.  From a Definition to a Grid and back with
    [makeDefinition(paramIter)]: under the same conditions the component
    that takes the place of an active component of the old Definition has
    as its value the scalars of the buffer that start at the offset of the
    grid component, as many as the kind has; a component that is not
    active keeps the value of the old one.  The active flags are those of
    the old Definition. *)
Theorem definition_from_parameters (input : multifit_Definition)
    (heap heap' : positive) (g : Grid) (paramIter : Z → Scalar) :
  coherent input →
  strictly_sorted_by_id (def_objects input) →
  strictly_sorted_by_id (def_frames input) →
  is_Some (def_wcs input) →
  Grid_ctor validate input heap = Constructed (heap', g) →
  ∃ gos heap'' result,
    objects g = filled gos (length (def_objects input))
    ∧ makeDefinition g (Some paramIter) heap' = Normal (heap'', result)
    ∧ length (def_objects result) = length (def_objects input)
    ∧ ∀ (i : nat) d r E dp,
        def_objects input !! i = Some d → def_objects result !! i = Some r →
        d_getComponent E d = Some dp →
        ∃ o gp p,
          gos !! i = Some o ∧ g_getComponent E o = Some gp
          ∧ d_getComponent E r = Some p
          ∧ d_active (pointee p) = d_active (pointee dp)
          ∧ d_value (pointee p)
            = if d_active (pointee dp)
              then map (fun k => paramIter (offset (pointee gp) + k))
                     (seqZ 0 (SIZE E))
              else d_value (pointee dp).
Proof.
  intros Hcoh Hosorted Hfsorted Hw Hctor.
  destruct (round_trip_components input heap heap' g (Some paramIter) Hcoh
              Hosorted Hfsorted Hw Hctor)
    as (gos & heap'' & result & Ho & Hrun & Hfr & Hrw & Hlen & Hobj).
  exists gos, heap'', result. split; [done|]. split; [done|].
  split; [done|]. intros i d r E dp Hd Hr Hdp.
  destruct (Hobj i d r Hd Hr) as [_ Hc]. specialize (Hc E).
  rewrite Hdp in Hc.
  destruct Hc as (o & gp & p & Hgo & Hgp & Hp & Hga & Hgv & Hpa & Hpv).
  exists o, gp, p. split; [done|]. split; [done|]. split; [done|].
  split; [done|]. rewrite Hpv. unfold value_back. rewrite Hga.
  destruct (d_active (pointee dp)); [reflexivity|done].
Qed.

End WayBack.

Section WayBackWitnesses.
Import Example Survey.

Lemma three_frames_is_well_formed :
  coherent three_frames
  ∧ strictly_sorted_by_id (def_objects three_frames)
  ∧ strictly_sorted_by_id (def_frames three_frames)
  ∧ is_Some (def_wcs three_frames)
  ∧ Grid_ctor accept three_frames 1
    = Constructed (5%positive, three_frames_grid).
Proof.
  split.
  { intros E d1 d2 dp1 dp2 H1 H2 Hc1 Hc2 Ha.
    cbn in H1, H2.
    repeat (apply elem_of_cons in H1 as [->|H1]);
      [| |by apply not_elem_of_nil in H1];
      (repeat (apply elem_of_cons in H2 as [->|H2]);
         [| |by apply not_elem_of_nil in H2]);
      destruct E; cbn in Hc1, Hc2; inversion Hc1; inversion Hc2; subst;
      cbn in Ha; try done. }
  split.
  { intros i j x y Hij Hx Hy.
    destruct i as [|[|i]], j as [|[|j]]; try lia; cbn in Hx, Hy;
      try done; inversion Hx; inversion Hy; subst; vm_compute; reflexivity. }
  split.
  { intros i j x y Hij Hx Hy.
    destruct i as [|[|[|i]]], j as [|[|[|j]]]; try lia; cbn in Hx, Hy;
      try done; inversion Hx; inversion Hy; subst; vm_compute; reflexivity. }
  split; [by eexists|]. vm_compute. reflexivity.
Defined.

Lemma sources_hold_transform_and_psf_witness :
  Grid_ctor accept three_frames 1 = Constructed (5%positive, three_frames_grid)
  ∧ ∃ (gfs : list grid_Frame) (gos : list grid_Object) (srcs : list grid_Source),
      frames three_frames_grid = filled gfs (length (def_frames three_frames))
      ∧ map gf_base gfs = def_frames three_frames
      ∧ objects three_frames_grid
        = filled gos (length (def_objects three_frames))
      ∧ sources three_frames_grid
        = filled srcs (length (def_frames three_frames)
                       * length (def_objects three_frames))
      ∧ _wcs three_frames_grid = clone <$> def_wcs three_frames.
Proof.
  assert (Grid_ctor accept three_frames 1
          = Constructed (5%positive, three_frames_grid)) as Hctor
    by (vm_compute; reflexivity).
  split; [exact Hctor|].
  destruct (sources_hold_transform_and_psf accept three_frames 1 5
              three_frames_grid Hctor)
    as (gfs & gos & srcs & P1 & P2 & P3 & P4 & P5 & _).
  exists gfs, gos, srcs. exact (conj P1 (conj P2 (conj P3 (conj P4 P5)))).
Defined.

Lemma definition_round_trip_witness :
  (coherent three_frames
   ∧ strictly_sorted_by_id (def_objects three_frames)
   ∧ strictly_sorted_by_id (def_frames three_frames)
   ∧ is_Some (def_wcs three_frames)
   ∧ Grid_ctor accept three_frames 1
     = Constructed (5%positive, three_frames_grid))
  ∧ ∃ heap'' result,
      Grid_makeDefinition three_frames_grid 5 = Normal (heap'', result)
      ∧ def_frames result = def_frames three_frames
      ∧ def_wcs result = (fun w => clone (clone w)) <$> def_wcs three_frames
      ∧ length (def_objects result) = length (def_objects three_frames).
Proof.
  split; [exact three_frames_is_well_formed|].
  destruct three_frames_is_well_formed as (W1 & W2 & W3 & W4 & W5).
  destruct (definition_round_trip accept three_frames 1 5 three_frames_grid
              W1 W2 W3 W4 W5)
    as (heap'' & result & P1 & P2 & P3 & P4 & _).
  exists heap'', result. exact (conj P1 (conj P2 (conj P3 P4))).
Defined.

Lemma definition_from_parameters_witness :
  (coherent three_frames
   ∧ strictly_sorted_by_id (def_objects three_frames)
   ∧ strictly_sorted_by_id (def_frames three_frames)
   ∧ is_Some (def_wcs three_frames)
   ∧ Grid_ctor accept three_frames 1
     = Constructed (5%positive, three_frames_grid))
  ∧ ∃ gos heap'' result,
      objects three_frames_grid
      = filled gos (length (def_objects three_frames))
      ∧ makeDefinition three_frames_grid (Some buffer) 5
        = Normal (heap'', result)
      ∧ length (def_objects result) = length (def_objects three_frames).
Proof.
  split; [exact three_frames_is_well_formed|].
  destruct three_frames_is_well_formed as (W1 & W2 & W3 & W4 & W5).
  destruct (definition_from_parameters accept three_frames 1 5
              three_frames_grid buffer W1 W2 W3 W4 W5)
    as (gos & heap'' & result & P1 & P2 & P3 & _).
  exists gos, heap'', result. exact (conj P1 (conj P2 P3)).
Defined.

End WayBackWitnesses.
(** ** The constructor of a Source, lookups in a Grid, and the coordinate
    system that [makeDefinition] needs *)

Section SourceOutcomes.
Context `{Services}.

(** X20.  The outcome of the constructor of a Source, by what the Frame
    and the Object have.  It returns when the Frame has a coordinate
    system exactly if one is passed, the Object has a position if a
    coordinate system is passed or the Frame has a PSF, and the Object has
    a basis or the Frame a PSF.  It throws the error about the basis when
    the coordinate systems agree, the Object has a position if a
    coordinate system is passed, and there is neither a basis nor a PSF.
    It throws a coordinate system error when the coordinate systems do not
    agree, whatever else is missing.  It has undefined behaviour, the read
    through the null position, when the coordinate systems agree, one is
    passed or the Frame has a PSF, and the Object has no position. *)
Theorem Source_ctor_outcomes (fi oi : nat) (f : grid_Frame) (o : grid_Object)
    (wcs : option Wcs) :
  ((∃ s, Source_ctor fi oi f o wcs = Normal s)
   ↔ (is_Some wcs ↔ is_Some (frame_wcs (gf_base f)))
     ∧ (is_Some wcs ∨ is_Some (_psf (gf_base f)) → is_Some (g_position o))
     ∧ (is_Some (_basis (go_base o)) ∨ is_Some (_psf (gf_base f))))
  ∧ (Source_ctor fi oi f o wcs
     = Throw (InvalidDefinitionError ObjectsMustHaveBasis)
     ↔ (is_Some wcs ↔ is_Some (frame_wcs (gf_base f)))
       ∧ (is_Some wcs → is_Some (g_position o))
       ∧ _basis (go_base o) = None ∧ _psf (gf_base f) = None)
  ∧ (Source_ctor fi oi f o wcs
     = Throw (InvalidDefinitionError FramesMustHaveWcs)
     ↔ is_Some wcs ∧ frame_wcs (gf_base f) = None)
  ∧ (Source_ctor fi oi f o wcs
     = Throw (InvalidDefinitionError FramesMayNotHaveWcs)
     ↔ wcs = None ∧ is_Some (frame_wcs (gf_base f)))
  ∧ (Source_ctor fi oi f o wcs = Fault NullDereference
     ↔ (is_Some wcs ↔ is_Some (frame_wcs (gf_base f)))
       ∧ (is_Some wcs ∨ is_Some (_psf (gf_base f)))
       ∧ g_position o = None)
  ∧ (∀ e, Source_ctor fi oi f o wcs = Throw e →
       e = InvalidDefinitionError ObjectsMustHaveBasis
       ∨ e = InvalidDefinitionError FramesMustHaveWcs
       ∨ e = InvalidDefinitionError FramesMayNotHaveWcs)
  ∧ (∀ u, Source_ctor fi oi f o wcs = Fault u → u = NullDereference).
Proof.
  split; [apply Source_ctor_Normal_iff|].
  unfold Source_ctor, deref.
  destruct wcs as [w|], (frame_wcs (gf_base f)) as [fw|],
    (g_position o) as [p|], (_psf (gf_base f)) as [psf|],
    (_basis (go_base o)) as [b|]; cbn; rewrite !is_Some_alt.
  all: split; [split; [intros Hs; try discriminate Hs; tauto|];
               intros (A & B & C & D); first [exfalso; tauto|done]|].
  all: split; [split; [intros Hs; try discriminate Hs; tauto|];
               intros (A & B); first [exfalso; tauto|done]|].
  all: split; [split; [intros Hs; try discriminate Hs; tauto|];
               intros (A & B); first [exfalso; tauto|done]|].
  all: split; [split; [intros Hs; try discriminate Hs; tauto|];
               intros (A & B & C); first [exfalso; tauto|done]|].
  all: split; [intros e He; try discriminate He; inversion He; tauto|].
  all: intros u Hu; try discriminate Hu; by inversion Hu.
Qed.

End SourceOutcomes.

Section FoundElements.
Context {T : Type} `{Identified T}.

(** What [find] returns is an element of the array with the identifier
    asked for. *)
Lemma find_Normal_inv (array : list T) (id : ID) (x : T) :
  find array id = Normal x → x ∈ array ∧ id_of x = id.
Proof.
  unfold find. intros Hfind.
  destruct (find_loop array id 0 (Z.of_nat (length array))) as [i| |];
    [|done|done].
  destruct (array !! Z.to_nat i) as [y|] eqn:Hy; [|done].
  destruct (decide (id_of y ≠ id)) as [|Heq]; [done|].
  apply dec_stable in Heq. inversion Hfind; subst y.
  split; [by eapply list_elem_of_lookup_2|done].
Qed.

End FoundElements.

Section LookupsInAGrid.
Context `{Services}.
Variable validate : grid_Object → option Exception.

(** X21.  In a Grid constructed from a Definition whose Frames and
    Objects have distinct identifiers in ascending order, [find] on the
    frame array returns, for the identifier of every Frame of the
    Definition, the grid Frame made from that Frame, and [find] on the
    object array returns, for the identifier of every Object, the grid
    Object made from that Object; an identifier that no Frame or Object
    of the Definition has is never found. *)
Theorem find_in_a_constructed_grid (input : multifit_Definition)
    (heap heap' : positive) (g : Grid) :
  strictly_sorted_by_id (def_frames input) →
  strictly_sorted_by_id (def_objects input) →
  Grid_ctor validate input heap = Constructed (heap', g) →
  ∃ (gfs : list grid_Frame) (gos : list grid_Object),
    elements (frames g) = Normal gfs
    ∧ elements (objects g) = Normal gos
    ∧ (∀ f, f ∈ def_frames input →
         ∃ gf, find gfs (frame_id f) = Normal gf ∧ gf_base gf = f)
    ∧ (∀ d, d ∈ def_objects input →
         ∃ o, find gos (object_id (d_base d)) = Normal o
              ∧ go_base o = d_base d)
    ∧ (∀ id gf, find gfs id = Normal gf →
         gf_base gf ∈ def_frames input ∧ frame_id (gf_base gf) = id)
    ∧ (∀ id o, find gos id = Normal o →
         go_base o ∈ map d_base (def_objects input)
         ∧ object_id (go_base o) = id).
Proof.
  intros Hfsorted Hosorted Hctor.
  destruct (constructed_arrays validate input heap heap' g Hctor)
    as (gfs0 & gos & Hf0 & Hlf0 & Ho & Hgb & _).
  destruct (Grid_ctor_Constructed validate input heap heap' g Hctor)
    as (gfs & gos' & srcs & unique & Hf & Hbase & _).
  assert (length gfs = length (def_frames input)) as HN
    by (by rewrite <- Hbase, length_map).
  assert (length gos = length (def_objects input)) as HM.
  { apply (f_equal length) in Hgb. by rewrite !length_map in Hgb. }
  assert (strictly_sorted_by_id gfs) as Hgfsorted.
  { apply (sorted_images gf_base); [done|]. by rewrite Hbase. }
  assert (strictly_sorted_by_id gos) as Hgosorted.
  { intros i j a b Hij Ha Hb.
    assert (∀ (k : nat) o, gos !! k = Some o →
              ∃ d, def_objects input !! k = Some d ∧ id_of d = id_of o) as Hid.
    { intros k o Hk.
      assert (map go_base gos !! k = Some (go_base o)) as Hk'
        by (by rewrite list_lookup_fmap, Hk).
      rewrite Hgb, list_lookup_fmap in Hk'.
      destruct (def_objects input !! k) as [d|]; [|done].
      exists d. split; [done|]. cbn in Hk'. inversion Hk' as [Hb'].
      unfold id_of, definition_Object_Identified, grid_Object_Identified.
      by rewrite Hb'. }
    destruct (Hid i a Ha) as (da & Hda & <-).
    destruct (Hid j b Hb) as (db & Hdb & <-).
    by eapply Hosorted. }
  exists gfs, gos.
  split; [rewrite Hf; apply elements_filled; lia|].
  split; [rewrite Ho; apply elements_filled; lia|].
  split.
  { intros f Hin. rewrite <- Hbase in Hin.
    apply list_elem_of_fmap in Hin as (gf & -> & Hgf).
    exists gf. split; [|done]. by apply find_present_strict. }
  split.
  { intros d Hin.
    assert (d_base d ∈ map go_base gos) as Hin'.
    { rewrite Hgb. by apply list_elem_of_fmap_2. }
    apply list_elem_of_fmap in Hin' as (o & Hb & Hgo).
    exists o. split; [|done]. apply find_present_strict; [done|done|].
    unfold id_of, grid_Object_Identified. by rewrite Hb. }
  split.
  { intros id gf Hfind. apply find_Normal_inv in Hfind as [Hin Hid].
    split; [|done]. rewrite <- Hbase. by apply list_elem_of_fmap_2. }
  intros id o Hfind. apply find_Normal_inv in Hfind as [Hin Hid].
  split; [|done]. rewrite <- Hgb. by apply list_elem_of_fmap_2.
Qed.

(** X22.  On a constructed Grid, [makeDefinition], with or without a
    parameter buffer, dereferences a null pointer when the Definition has
    no coordinate system, and returns a Definition when it has one and the
    identifiers of the Objects are distinct and ascending. *)
Theorem makeDefinition_needs_a_coordinate_system
    (input : multifit_Definition) (heap heap' : positive) (g : Grid)
    (paramIter : option (Z → Scalar)) :
  Grid_ctor validate input heap = Constructed (heap', g) →
  (def_wcs input = None →
   makeDefinition g paramIter heap' = Fault NullDereference)
  ∧ (is_Some (def_wcs input) → strictly_sorted_by_id (def_objects input) →
     ∃ heap'' result,
       makeDefinition g paramIter heap' = Normal (heap'', result)
       ∧ def_wcs result = (fun w => clone (clone w)) <$> def_wcs input
       ∧ length (def_frames result) <= length (def_frames input)
       ∧ length (def_objects result) = length (def_objects input))%nat.
Proof.
  intros Hctor.
  destruct (constructed_arrays validate input heap heap' g Hctor)
    as (gfs & gos & Hf & Hlf & Ho & Hgb & Hwcs).
  split.
  { intros Hnone. apply makeDefinition_null_wcs. rewrite Hwcs. cbn.
    by rewrite Hnone. }
  intros [w Hw] Hosorted.
  assert (length gos = length (def_objects input)) as HM.
  { apply (f_equal length) in Hgb. by rewrite !length_map in Hgb. }
  assert (strictly_sorted_by_id gos) as Hgosorted.
  { intros i j a b Hij Ha Hb.
    assert (∀ (k : nat) o, gos !! k = Some o →
              ∃ d, def_objects input !! k = Some d ∧ id_of d = id_of o) as Hid.
    { intros k o Hk.
      assert (map go_base gos !! k = Some (go_base o)) as Hk'
        by (by rewrite list_lookup_fmap, Hk).
      rewrite Hgb, list_lookup_fmap in Hk'.
      destruct (def_objects input !! k) as [d|]; [|done].
      exists d. split; [done|]. cbn in Hk'. inversion Hk' as [Hb'].
      unfold id_of, definition_Object_Identified, grid_Object_Identified.
      by rewrite Hb'. }
    destruct (Hid i a Ha) as (da & Hda & <-).
    destruct (Hid j b Hb) as (db & Hdb & <-).
    by eapply Hosorted. }
  destruct (makeDefinition_spec g paramIter heap' (clone w) gfs gos _ _
              ltac:(by rewrite Hwcs; unfold Grid_members; cbn; rewrite Hw)
              Hf ltac:(lia) Ho ltac:(lia) Hgosorted)
    as (heap'' & result & ub & Hrun & Hrw & Hlr & _).
  exists heap'', result. split; [done|]. split; [by rewrite Hrw, Hw|].
  split; [|lia].
  unfold makeDefinition in Hrun.
  destruct (_wcs g) as [w'|]; [|done]. cbn [bindO] in Hrun.
  rewrite Hf, elements_filled in Hrun by lia. cbn [bindO] in Hrun.
  destruct (elements (objects g)) as [gos'| |]; [|done|done].
  cbn [bindO] in Hrun.
  destruct (transferComponents_back POSITION _ _ _ _) as [[h1 d1]| |];
    [|done|done].
  cbn [bindO fst snd] in Hrun.
  destruct (transferComponents_back RADIUS _ _ _ _) as [[h2 d2]| |];
    [|done|done].
  cbn [bindO fst snd] in Hrun.
  destruct (transferComponents_back ELLIPTICITY _ _ _ _) as [[h3 d3]| |];
    [|done|done].
  cbn [bindO fst snd] in Hrun. inversion Hrun; subst. cbn [def_frames].
  rewrite <- Hlf.
  assert (∀ (l : list grid_Frame) (s : list definition_Frame),
            (length (fold_left (fun s i => Set_insert (definition_Frame_of i) s)
                       l s) <= length s + length l)%nat) as Hfold.
  { assert (∀ (x : definition_Frame) (s : list definition_Frame),
              (length (Set_insert x s) <= S (length s))%nat) as Hins.
    { intros x s. induction s as [|y s IH]; cbn; [lia|].
      destruct (decide (id_of x < id_of y)); [cbn; lia|].
      destruct (decide (id_of x = id_of y)); cbn; lia. }
    intros l. induction l as [|x l IH]; intros s; cbn; [lia|].
    specialize (IH (Set_insert (definition_Frame_of x) s)).
    specialize (Hins (definition_Frame_of x) s). lia. }
  specialize (Hfold gfs []). cbn in Hfold. lia.
Qed.

End LookupsInAGrid.

Section LookupWitnesses.
Import Example Survey.

Lemma find_in_a_constructed_grid_witness :
  (strictly_sorted_by_id (def_frames three_frames)
   ∧ strictly_sorted_by_id (def_objects three_frames)
   ∧ Grid_ctor accept three_frames 1
     = Constructed (5%positive, three_frames_grid))
  ∧ ∃ (gfs : list grid_Frame) (gos : list grid_Object),
      elements (frames three_frames_grid) = Normal gfs
      ∧ elements (objects three_frames_grid) = Normal gos
      ∧ (∀ f, f ∈ def_frames three_frames →
           ∃ gf, find gfs (frame_id f) = Normal gf ∧ gf_base gf = f)
      ∧ (∀ d, d ∈ def_objects three_frames →
           ∃ o, find gos (object_id (d_base d)) = Normal o
                ∧ go_base o = d_base d).
Proof.
  destruct three_frames_is_well_formed as (_ & W2 & W3 & _ & W5).
  split; [exact (conj W3 (conj W2 W5))|].
  destruct (find_in_a_constructed_grid accept three_frames 1 5
              three_frames_grid W3 W2 W5)
    as (gfs & gos & P1 & P2 & P3 & P4 & _).
  exists gfs, gos. exact (conj P1 (conj P2 (conj P3 P4))).
Defined.

Lemma makeDefinition_needs_a_coordinate_system_witness :
  Grid_ctor accept shared_radius 1 = Constructed (6%positive, shared_radius_grid)
  ∧ (def_wcs shared_radius = None →
     makeDefinition shared_radius_grid None 6 = Fault NullDereference).
Proof.
  assert (Grid_ctor accept shared_radius 1
          = Constructed (6%positive, shared_radius_grid)) as Hctor
    by (vm_compute; reflexivity).
  split; [exact Hctor|].
  exact (proj1 (makeDefinition_needs_a_coordinate_system accept shared_radius
                  1 6 shared_radius_grid None Hctor)).
Defined.

End LookupWitnesses.
(** ** The pixel arrays of ProjectedLikelihood *)

Section PixelArrays.
Import ProjectedLikelihood.

Variable EpochFootprint : Type.
Variable getArea : EpochFootprint -> Z.
Variable Basis : Type.
Variable MatrixBuilder : Type.
Variable getBasisSize : MatrixBuilder -> Z.
Variable Ellipse : Type.
Variable AffineTransform : Type.
Variable MultiShapeletMatrixBuilder : Basis -> EpochFootprint -> MatrixBuilder.
Variable epoch_transform : EpochFootprint -> AffineTransform.
Variable basisVector : list Basis.
Variable makeEllipseVector : list Ellipse.

Local Abbreviation construct :=
  (ProjectedLikelihood_ctor getArea MultiShapeletMatrixBuilder epoch_transform
     basisVector makeEllipseVector).
Local Abbreviation Likelihood := (Impl MatrixBuilder Ellipse AffineTransform).

(** The Epoch and the call of [setupArrays] that the constructor makes for
    an epoch. *)
Local Abbreviation epoch_of e :=
  (Build_Epoch (getArea e)
     (makeMatrixBuilders MultiShapeletMatrixBuilder basisVector e)
     (epoch_transform e)).
Local Abbreviation call_at offset e :=
  (Build_setupArrays_call e (view offset (offset + getArea e))
     (view offset (offset + getArea e))).

Lemma constructor_loop_spec (l : list EpochFootprint) (dataOffset : Z)
    (es : list (Epoch MatrixBuilder AffineTransform))
    (calls : list (setupArrays_call EpochFootprint)) :
  constructor_loop getArea MultiShapeletMatrixBuilder epoch_transform
    basisVector l dataOffset es calls
  = (es ++ map (fun e => epoch_of e) l,
     calls ++ map (fun e => call_at dataOffset e) l).
Proof.
  revert es calls.
  induction l as [|e l IH]; intros es calls; cbn.
  - by rewrite !app_nil_r.
  - rewrite IH. by rewrite <- !app_assoc.
Qed.

Lemma accumulate_componentPixelSum (l : list EpochFootprint) (a : Z) :
  fold_left (componentPixelSum getArea) l a = a + total (getArea <$> l).
Proof.
  revert a. induction l as [|e l IH]; intros a; cbn.
  - unfold total. cbn. lia.
  - rewrite IH. unfold componentPixelSum, total. cbn. lia.
Qed.

Lemma ProjectedLikelihood_ctor_spec (l : list EpochFootprint) :
  construct l
  = (Build_Impl (total (getArea <$> l)) (total (getArea <$> l))
       (map (fun e => epoch_of e) l) makeEllipseVector,
     map (fun e => call_at 0 e) l).
Proof.
  unfold ProjectedLikelihood_ctor.
  rewrite constructor_loop_spec, accumulate_componentPixelSum. cbn.
  by rewrite Z.add_0_l.
Qed.

Lemma total_ge_one (l : list Z) (k : nat) (a : Z) :
  (∀ x, x ∈ l → 0 <= x) → l !! k = Some a → a <= total l.
Proof.
  revert k. induction l as [|x l IH]; intros k Hpos Hk; [done|].
  assert (0 <= x) by (apply Hpos; left).
  assert (∀ y, y ∈ l → 0 <= y) as Hpos' by (intros; apply Hpos; by right).
  assert (total (x :: l) = x + total l) as -> by done.
  destruct k as [|k]; cbn in Hk.
  - inversion Hk; subst.
    assert (0 <= total l); [|lia].
    clear -Hpos'. induction l as [|y l IH]; [done|].
    assert (total (y :: l) = y + total l) as -> by done.
    assert (0 <= y) by (apply Hpos'; left).
    assert (0 <= total l) by (apply IH; intros; apply Hpos'; by right).
    lia.
  - specialize (IH k Hpos' Hk). lia.
Qed.

Lemma total_ge_two (l : list Z) (k1 k2 : nat) (a1 a2 : Z) :
  (∀ x, x ∈ l → 0 <= x) → k1 ≠ k2 →
  l !! k1 = Some a1 → l !! k2 = Some a2 → a1 + a2 <= total l.
Proof.
  revert k1 k2. induction l as [|x l IH]; intros k1 k2 Hpos Hne H1 H2; [done|].
  assert (0 <= x) by (apply Hpos; left).
  assert (∀ y, y ∈ l → 0 <= y) as Hpos' by (intros; apply Hpos; by right).
  assert (total (x :: l) = x + total l) as -> by done.
  destruct k1 as [|k1], k2 as [|k2]; cbn in H1, H2; [done| | |].
  - inversion H1; subst. pose proof (total_ge_one l k2 a2 Hpos' H2). lia.
  - inversion H2; subst. pose proof (total_ge_one l k1 a1 Hpos' H1). lia.
  - assert (k1 ≠ k2) as Hne' by congruence.
    specialize (IH k1 k2 Hpos' Hne' H1 H2). lia.
Qed.

(** X23.  The constructor from a list of epochs allocates [_data] and
    [weights] with the total of the footprint areas, keeps one Epoch for
    each epoch, with its area and one builder for each basis, and calls
    [setupArrays] once for each epoch, in order.  The offset is never
    advanced: every call gets the view from element 0 up to the area of its
    epoch, of both arrays.  So the views of two epochs that have pixels both
    hold element 0, and an element at or after the largest area is in no
    view. *)
Theorem constructor_views_start_at_zero (l : list EpochFootprint) :
  ∃ (L : Likelihood) calls,
    construct l = (L, calls)
    ∧ _data L = total (getArea <$> l) ∧ weights L = total (getArea <$> l)
    ∧ ellipses L = makeEllipseVector
    ∧ length (epochs L) = length l ∧ length calls = length l
    ∧ (∀ (k : nat) e, l !! k = Some e →
         (∃ E, epochs L !! k = Some E ∧ nPix E = getArea e
               ∧ length (matrixBuilders E) = length basisVector)
         ∧ ∃ c, calls !! k = Some c ∧ flattened c = e
                ∧ data_view c = view 0 (getArea e)
                ∧ weights_view c = view 0 (getArea e))
    ∧ (∀ c, c ∈ calls → 0 < getArea (flattened c) →
         in_view 0 (data_view c) ∧ in_view 0 (weights_view c))
    ∧ (∀ p, (∀ e, e ∈ l → getArea e <= p) →
         ∀ c, c ∈ calls →
           ¬ in_view p (data_view c) ∧ ¬ in_view p (weights_view c)).
Proof.
  eexists _, _. split; [apply ProjectedLikelihood_ctor_spec|]. cbn.
  split; [done|]. split; [done|]. split; [done|].
  split; [apply length_map|]. split; [apply length_map|].
  split; [|split].
  - intros k e Hk. split.
    + eexists. rewrite list_lookup_fmap, Hk. cbn. split; [done|].
      split; [done|]. apply length_map.
    + eexists. rewrite list_lookup_fmap, Hk. cbn. by rewrite Z.add_0_l.
  - intros c Hc Hpos. apply list_elem_of_fmap in Hc as (e & -> & He).
    cbn in *. unfold in_view. cbn. lia.
  - intros p Hp c Hc. apply list_elem_of_fmap in Hc as (e & -> & He).
    specialize (Hp e He). unfold in_view. cbn. lia.
Qed.

(** What the inner loop of [computeModelMatrix] adds for the ellipses from
    [j] on, when the epoch has a builder for each of them. *)
Lemma builders_loop_spec (i : nat) (E : Epoch MatrixBuilder AffineTransform)
    (dataOffset dataEnd : Z) (todo : list Ellipse) :
  ∀ (j : nat) (amplitudeOffset : Z)
    (calls : list (build_call MatrixBuilder AffineTransform)),
  (length todo + j <= length (matrixBuilders E))%nat →
  ∃ new,
    builders_loop getBasisSize i E dataOffset dataEnd todo j amplitudeOffset
      calls = Normal (calls ++ new)
    ∧ length new = length todo
    ∧ ∀ (t : nat) b, (t < length todo)%nat →
        matrixBuilders E !! (j + t)%nat = Some b →
        new !! t
        = Some (Build_build_call i (j + t) b (view dataOffset dataEnd)
                  (view (amplitudeOffset
                         + total (getBasisSize
                                    <$> take t (drop j (matrixBuilders E))))
                        (amplitudeOffset
                         + total (getBasisSize
                                    <$> take t (drop j (matrixBuilders E)))
                         + getBasisSize b))
                  (transform E)).
Proof.
  induction todo as [|x todo IH]; intros j amp calls Hlen; cbn.
  - exists []. rewrite app_nil_r. split; [done|]. split; [done|].
    intros t b Ht. cbn in Ht. lia.
  - cbn in Hlen.
    destruct (matrixBuilders E !! j) as [b0|] eqn:Hj;
      [|apply lookup_ge_None in Hj; lia].
    destruct (IH (S j) (amp + getBasisSize b0)
                (calls ++ [Build_build_call i j b0 (view dataOffset dataEnd)
                             (view amp (amp + getBasisSize b0)) (transform E)]))
      as (new & Hrun & Hnew & Hat); [lia|].
    eexists (_ :: new). split; [by rewrite Hrun, <- app_assoc|].
    split; [cbn; by rewrite Hnew|].
    intros t b Ht Hb. destruct t as [|t]; cbn.
    + rewrite Nat.add_0_r in Hb. rewrite Hb in Hj. inversion Hj; subst.
      rewrite Nat.add_0_r. unfold total. cbn. by rewrite !Z.add_0_r.
    + cbn in Ht. replace (j + S t)%nat with (S j + t)%nat in * by lia.
      etrans; [apply (Hat t b); [lia|done]|].
      rewrite (drop_S _ _ _ Hj).
      replace (take (S t) (b0 :: drop (S j) (matrixBuilders E)))
        with (b0 :: take t (drop (S j) (matrixBuilders E))) by done.
      rewrite fmap_cons.
      assert (∀ x l, total (x :: l) = x + total l) as Hcons by done.
      rewrite Hcons, !Z.add_assoc. reflexivity.
Qed.

(** The inner loop reads outside [matrixBuilders] when there are more
    ellipses left than builders. *)
Lemma builders_loop_short (i : nat) (E : Epoch MatrixBuilder AffineTransform)
    (dataOffset dataEnd : Z) (todo : list Ellipse) :
  ∀ (j : nat) (amplitudeOffset : Z)
    (calls : list (build_call MatrixBuilder AffineTransform)),
  (j <= length (matrixBuilders E) < length todo + j)%nat →
  builders_loop getBasisSize i E dataOffset dataEnd todo j amplitudeOffset
    calls = Fault OutOfBounds.
Proof.
  induction todo as [|x todo IH]; intros j amp calls Hlen; cbn.
  - cbn in Hlen. lia.
  - cbn in Hlen.
    destruct (matrixBuilders E !! j) as [b0|] eqn:Hj; [|done].
    apply IH. apply lookup_lt_Some in Hj. lia.
Qed.

(** The block that [computeModelMatrix] passes to the builder [b] at
    position [j] of the Epoch [E] at position [k] of [es]. *)
Local Abbreviation block_at es k j E b offset :=
  (Build_build_call k j b
     (view (offset + total (nPix <$> take k es))
           (offset + total (nPix <$> take k es) + nPix E))
     (view (total (getBasisSize <$> take j (matrixBuilders E)))
           (total (getBasisSize <$> take j (matrixBuilders E))
            + getBasisSize b))
     (transform E)).

Lemma epochs_loop_spec (ells : list Ellipse)
    (todo : list (Epoch MatrixBuilder AffineTransform)) :
  ∀ (i : nat) (dataOffset : Z)
    (calls : list (build_call MatrixBuilder AffineTransform)),
  (∀ E, E ∈ todo → (length ells <= length (matrixBuilders E))%nat) →
  ∃ new,
    epochs_loop getBasisSize ells todo i dataOffset calls
    = Normal (calls ++ new)
    ∧ length new = (length todo * length ells)%nat
    ∧ ∀ (k j : nat) E b, todo !! k = Some E → (j < length ells)%nat →
        matrixBuilders E !! j = Some b →
        new !! (k * length ells + j)%nat
        = Some (Build_build_call (i + k) j b
                  (view (dataOffset + total (nPix <$> take k todo))
                        (dataOffset + total (nPix <$> take k todo) + nPix E))
                  (view (total (getBasisSize <$> take j (matrixBuilders E)))
                        (total (getBasisSize <$> take j (matrixBuilders E))
                         + getBasisSize b))
                  (transform E)).
Proof.
  induction todo as [|E0 todo IH]; intros i off calls Hlen; cbn.
  - exists []. rewrite app_nil_r. split; [done|]. split; [done|].
    intros k j E b Hk. by rewrite lookup_nil in Hk.
  - assert (length ells <= length (matrixBuilders E0))%nat as H0
      by (apply Hlen; left).
    assert (∀ E, E ∈ todo → (length ells <= length (matrixBuilders E))%nat)
      as Hlen' by (intros; apply Hlen; by right).
    destruct (builders_loop_spec i E0 off (off + nPix E0) ells 0 0 calls)
      as (new0 & Hrun0 & Hn0 & Hat0); [lia|].
    rewrite Hrun0.
    destruct (IH (S i) (off + nPix E0) (calls ++ new0) Hlen')
      as (new1 & Hrun1 & Hn1 & Hat1).
    exists (new0 ++ new1). split; [by rewrite Hrun1, <- app_assoc|].
    split; [rewrite length_app, Hn0, Hn1; lia|].
    assert (∀ x l, total (x :: l) = x + total l) as Hcons by done.
    intros k j E b Hk Hj Hb. destruct k as [|k]; cbn in Hk.
    + inversion Hk; subst E0. cbn [Nat.mul Nat.add].
      rewrite lookup_app_l by (rewrite Hn0; exact Hj).
      etrans; [apply (Hat0 j b); [lia|done]|].
      rewrite drop_0, Nat.add_0_r. cbn [take fmap list_fmap].
      unfold total at 3 4. cbn [foldr]. rewrite !Z.add_0_l, !Z.add_0_r.
      reflexivity.
    + replace (S k * length ells + j)%nat
        with (length new0 + (k * length ells + j))%nat by lia.
      rewrite lookup_app_r by lia.
      replace (length new0 + (k * length ells + j) - length new0)%nat
        with (k * length ells + j)%nat by lia.
      etrans; [apply (Hat1 k j E b); done|].
      replace (take (S k) (E0 :: todo)) with (E0 :: take k todo) by done.
      rewrite fmap_cons, Hcons, !Z.add_assoc, Nat.add_succ_r. reflexivity.
Qed.

Lemma epochs_loop_short (ells : list Ellipse)
    (todo : list (Epoch MatrixBuilder AffineTransform)) :
  ∀ (i : nat) (dataOffset : Z)
    (calls : list (build_call MatrixBuilder AffineTransform)),
  (∃ E, E ∈ todo ∧ (length (matrixBuilders E) < length ells)%nat) →
  epochs_loop getBasisSize ells todo i dataOffset calls = Fault OutOfBounds.
Proof.
  induction todo as [|E0 todo IH]; intros i off calls (E & HE & Hshort).
  - by apply elem_of_nil in HE.
  - cbn.
    destruct (decide (length ells <= length (matrixBuilders E0))%nat)
      as [Hok|Hbad].
    + destruct (builders_loop_spec i E0 off (off + nPix E0) ells 0 0 calls)
        as (new0 & Hrun0 & _); [lia|].
      rewrite Hrun0. apply IH. exists E. split; [|done].
      apply elem_of_cons in HE as [->|HE]; [lia|done].
    + rewrite builders_loop_short; [done|lia].
Qed.

(** Every call that the loops make is the call for one epoch and one
    ellipse. *)
Lemma block_positions (n : nat)
    (es : list (Epoch MatrixBuilder AffineTransform))
    (new : list (build_call MatrixBuilder AffineTransform)) (B : build_call MatrixBuilder AffineTransform) :
  length new = (length es * n)%nat →
  (∀ E, E ∈ es → (n <= length (matrixBuilders E))%nat) →
  B ∈ new →
  ∃ (k j : nat) E b, es !! k = Some E ∧ (j < n)%nat
    ∧ matrixBuilders E !! j = Some b ∧ new !! (k * n + j)%nat = Some B.
Proof.
  intros Hlen Hbs HB.
  apply list_elem_of_lookup in HB as (m & Hm).
  pose proof (lookup_lt_Some _ _ _ Hm) as Hlt. rewrite Hlen in Hlt.
  assert (0 < n)%nat as Hn by (destruct n; lia).
  assert (m `div` n < length es)%nat as Hk
    by (apply Nat.Div0.div_lt_upper_bound; lia).
  assert (m `mod` n < n)%nat as Hj by (apply Nat.mod_upper_bound; lia).
  destruct (lookup_lt_is_Some_2 es (m `div` n)%nat Hk) as (E & HE).
  assert (n <= length (matrixBuilders E))%nat as HnE
    by (apply Hbs; by eapply list_elem_of_lookup_2).
  destruct (lookup_lt_is_Some_2 (matrixBuilders E) (m `mod` n)%nat)
    as (b & Hb); [lia|].
  exists (m `div` n)%nat, (m `mod` n)%nat, E, b.
  split; [done|]. split; [done|]. split; [done|].
  replace (m `div` n * n + m `mod` n)%nat with m; [done|].
  rewrite (Nat.div_mod_eq m n) at 1. lia.
Qed.

(** X24.  [computeModelMatrix] with a builder for every ellipse in every
    Epoch returns after one call of [build] for each Epoch and each
    ellipse, Epoch by Epoch.  The call for the Epoch at position [k] and
    the ellipse at position [j] fills the rows from the total pixel count
    of the Epochs before [k], as many as the Epoch has pixels, and the
    columns from the total basis size of the builders before [j], as many
    as the basis size of builder [j].  With an Epoch that has fewer builders
    than there are ellipses it reads outside the builders: undefined
    behaviour. *)
Theorem model_matrix_blocks (L : Likelihood) :
  ((∀ E, E ∈ epochs L →
      (length (ellipses L) <= length (matrixBuilders E))%nat) →
   ∃ blocks,
     computeModelMatrix getBasisSize L = Normal blocks
     ∧ length blocks = (length (epochs L) * length (ellipses L))%nat
     ∧ (∀ (k j : nat) E b, epochs L !! k = Some E →
          (j < length (ellipses L))%nat → matrixBuilders E !! j = Some b →
          blocks !! (k * length (ellipses L) + j)%nat
          = Some (block_at (epochs L) k j E b 0))
     ∧ (∀ B, B ∈ blocks →
          ∃ (k j : nat) E b, epochs L !! k = Some E
            ∧ (j < length (ellipses L))%nat
            ∧ matrixBuilders E !! j = Some b
            ∧ B = block_at (epochs L) k j E b 0))
  ∧ ((∃ E, E ∈ epochs L
           ∧ (length (matrixBuilders E) < length (ellipses L))%nat) →
     computeModelMatrix getBasisSize L = Fault OutOfBounds).
Proof.
  split.
  - intros Hbs.
    destruct (epochs_loop_spec (ellipses L) (epochs L) 0 0 [] Hbs)
      as (blocks & Hrun & Hlen & Hat).
    exists blocks. split; [exact Hrun|]. split; [exact Hlen|]. split.
    + intros k j E b Hk Hj Hb. exact (Hat k j E b Hk Hj Hb).
    + intros B HB.
      destruct (block_positions _ _ _ B Hlen Hbs HB)
        as (k & j & E & b & Hk & Hj & Hb & Hat').
      exists k, j, E, b. split; [done|]. split; [done|]. split; [done|].
      rewrite (Hat k j E b Hk Hj Hb) in Hat'. by inversion Hat'.
  - intros Hshort. by apply epochs_loop_short.
Qed.

Lemma total_zero (l : list Z) :
  (∀ x, x ∈ l → 0 <= x) → total l = 0 ↔ ∀ x, x ∈ l → x = 0.
Proof.
  induction l as [|x l IH]; intros Hpos.
  - split; [|done]. intros _ x Hx. by apply elem_of_nil in Hx.
  - assert (0 <= x) by (apply Hpos; left).
    assert (∀ y, y ∈ l → 0 <= y) as Hpos' by (intros; apply Hpos; by right).
    assert (total (x :: l) = x + total l) as -> by done.
    assert (0 <= total l).
    { destruct l as [|y l']; [done|].
      apply (total_ge_one (y :: l') 0 y) in Hpos' as Hy; [|done].
      assert (0 <= y) by (apply Hpos'; left). lia. }
    specialize (IH Hpos'). split.
    + intros Hsum y Hy. apply elem_of_cons in Hy as [->|Hy]; [lia|].
      apply IH; [lia|done].
    + intros Hall. assert (x = 0) by (apply Hall; left).
      assert (total l = 0); [|lia].
      apply IH. intros; apply Hall; by right.
Qed.

(** X25.  A likelihood constructed from epochs, whose model matrix has been
    computed.  The rows that [computeModelMatrix] fills for an epoch are as
    many as the elements of [_data] that the constructor filled for it, and
    they are the same elements exactly when no epoch before it has a pixel:
    for a later epoch the model is built in rows where the constructor did
    not put the data of the epoch.  With two epochs that have pixels the
    last element of [_data] and of [weights] is in no view that the
    constructor filled. *)
Theorem later_epochs_miss_their_data (l : list EpochFootprint)
    (L : Likelihood) (calls : list (setupArrays_call EpochFootprint))
    (blocks : list (build_call MatrixBuilder AffineTransform)) :
  (∀ e, e ∈ l → 0 <= getArea e) →
  construct l = (L, calls) →
  computeModelMatrix getBasisSize L = Normal blocks →
  (∀ B, B ∈ blocks →
     ∃ e c, l !! epoch B = Some e ∧ calls !! epoch B = Some c
       ∧ flattened c = e
       ∧ view_stop (rows B) - view_start (rows B) = getArea e
       ∧ view_stop (data_view c) - view_start (data_view c) = getArea e
       ∧ (rows B = data_view c
          ↔ ∀ e', e' ∈ take (epoch B) l → getArea e' = 0))
  ∧ (∀ (k1 k2 : nat) e1 e2, k1 ≠ k2 →
       l !! k1 = Some e1 → l !! k2 = Some e2 →
       0 < getArea e1 → 0 < getArea e2 →
       0 <= _data L - 1 < _data L
       ∧ weights L = _data L
       ∧ ∀ c, c ∈ calls →
           ¬ in_view (_data L - 1) (data_view c)
           ∧ ¬ in_view (_data L - 1) (weights_view c)).
Proof.
  intros Hpos Hctor Hrun.
  rewrite ProjectedLikelihood_ctor_spec in Hctor.
  inversion Hctor; subst L calls; clear Hctor.
  assert (∀ x, x ∈ getArea <$> l → 0 <= x) as Hpos'.
  { intros x Hx. apply list_elem_of_fmap in Hx as (e & -> & He). by apply Hpos. }
  split.
  - intros B HB.
    assert (∀ E, E ∈ map (fun e => epoch_of e) l →
              (length makeEllipseVector <= length (matrixBuilders E))%nat)
      as Hbs.
    { intros E HE.
      destruct (decide (length makeEllipseVector
                        <= length (matrixBuilders E))%nat) as [|Hshort];
        [done|exfalso].
      unfold computeModelMatrix in Hrun. cbn in Hrun.
      rewrite epochs_loop_short in Hrun; [done|].
      exists E. split; [done|lia]. }
    destruct (epochs_loop_spec makeEllipseVector
                (map (fun e => epoch_of e) l) 0 0 [] Hbs)
      as (blocks' & Hrun' & Hlen & Hat).
    unfold computeModelMatrix in Hrun. cbn in Hrun.
    rewrite Hrun' in Hrun. inversion Hrun; subst blocks'; clear Hrun.
    destruct (block_positions _ _ _ B Hlen Hbs HB)
      as (k & j & E & b & Hk & Hj & Hb & HB').
    rewrite (Hat k j E b Hk Hj Hb) in HB'. inversion HB'; subst B; clear HB'.
    cbn [epoch rows Nat.add].
    change (map (fun e => epoch_of e) l) with ((fun e => epoch_of e) <$> l)
      in Hk |- *.
    rewrite list_lookup_fmap in Hk.
    destruct (l !! k) as [e|] eqn:Hlk; [|done].
    cbn in Hk. inversion Hk; subst E; clear Hk.
    exists e, (call_at 0 e). split; [done|].
    split; [by rewrite list_lookup_fmap, Hlk|].
    split; [done|]. cbn [nPix view_stop view_start data_view].
    split; [lia|]. split; [lia|].
    rewrite <- fmap_take, <- list_fmap_compose.
    change (nPix ∘ (fun e0 => epoch_of e0)) with getArea.
    assert (∀ x, x ∈ getArea <$> take k l → 0 <= x) as Hpos''.
    { intros x Hx. apply Hpos'. rewrite fmap_take in Hx.
      apply elem_of_take in Hx as (i & Hi & _).
      by eapply list_elem_of_lookup_2. }
    pose proof (total_zero _ Hpos'') as Hzero.
    split.
    + intros Heq e' He'. apply Hzero; [inversion Heq; lia|].
      by apply list_elem_of_fmap_2.
    + intros Hall.
      assert (total (getArea <$> take k l) = 0) as ->; [|reflexivity].
      apply Hzero. intros x Hx.
      apply list_elem_of_fmap in Hx as (e' & -> & He'). by apply Hall.
  - intros k1 k2 e1 e2 Hne H1 H2 Hp1 Hp2. cbn [_data weights].
    assert ((getArea <$> l) !! k1 = Some (getArea e1)) as G1
      by (by rewrite list_lookup_fmap, H1).
    assert ((getArea <$> l) !! k2 = Some (getArea e2)) as G2
      by (by rewrite list_lookup_fmap, H2).
    pose proof (total_ge_two _ _ _ _ _ Hpos' Hne G1 G2) as Hsum.
    split; [lia|]. split; [done|].
    intros c Hc. apply list_elem_of_fmap in Hc as (e & -> & He).
    apply list_elem_of_lookup in He as (k & Hk).
    assert ((getArea <$> l) !! k = Some (getArea e)) as G
      by (by rewrite list_lookup_fmap, Hk).
    assert (getArea e < total (getArea <$> l)) as Hlt.
    { destruct (decide (k = k1)) as [->|Hk1].
      - pose proof (total_ge_two _ _ _ _ _ Hpos' Hne G G2). lia.
      - pose proof (total_ge_two _ _ _ _ _ Hpos' Hk1 G G1). lia. }
    unfold in_view. cbn. lia.
Qed.

End PixelArrays.

Section PixelArrayWitnesses.
Import ProjectedLikelihood Sky.

Lemma model_matrix_blocks_witness :
  (∀ E, E ∈ epochs two_epochs_likelihood →
     (length (ellipses two_epochs_likelihood)
      <= length (matrixBuilders E))%nat)
  ∧ ∃ blocks,
      computeModelMatrix basis_size two_epochs_likelihood = Normal blocks
      ∧ length blocks = 4%nat.
Proof.
  assert (∀ E, E ∈ epochs two_epochs_likelihood →
            (length (ellipses two_epochs_likelihood)
             <= length (matrixBuilders E))%nat) as Hbs.
  { intros E HE.
    apply elem_of_cons in HE as [->|HE]; [cbn; lia|].
    apply elem_of_cons in HE as [->|HE]; [cbn; lia|].
    by apply elem_of_nil in HE. }
  split; [exact Hbs|].
  destruct (proj1 (model_matrix_blocks _ basis_size _ _ two_epochs_likelihood)
              Hbs)
    as (blocks & Hrun & Hlen & _).
  exists blocks. exact (conj Hrun Hlen).
Defined.

Lemma later_epochs_miss_their_data_witness :
  ((∀ e, e ∈ two_epochs → 0 <= area e)
   ∧ construct two_epochs = (two_epochs_likelihood, two_epochs_calls)
   ∧ computeModelMatrix basis_size two_epochs_likelihood
     = Normal two_epochs_blocks)
  ∧ ∀ c, c ∈ two_epochs_calls →
      ¬ in_view 5 (data_view c) ∧ ¬ in_view 5 (weights_view c).
Proof.
  assert (∀ e, e ∈ two_epochs → 0 <= area e) as Hpos.
  { intros e He. unfold area.
    apply elem_of_cons in He as [->|He]; [lia|].
    apply elem_of_cons in He as [->|He]; [lia|].
    by apply elem_of_nil in He. }
  assert (construct two_epochs = (two_epochs_likelihood, two_epochs_calls))
    as Hctor by (vm_compute; reflexivity).
  assert (computeModelMatrix basis_size two_epochs_likelihood
          = Normal two_epochs_blocks) as Hrun by (vm_compute; reflexivity).
  split; [exact (conj Hpos (conj Hctor Hrun))|].
  destruct (later_epochs_miss_their_data _ area _ _ basis_size _ _ builder_of
              (fun _ => tt) [3; 1] [tt; tt] two_epochs two_epochs_likelihood
              two_epochs_calls two_epochs_blocks Hpos Hctor Hrun)
    as (_ & Hlast).
  destruct (Hlast 0%nat 1%nat 4 2) as (_ & _ & Hout);
    [done|done|done|unfold area; lia|unfold area; lia|].
  exact Hout.
Defined.

End PixelArrayWitnesses.
